(** * Recommender core of loja: content (TF-IDF), collaborative and blend engines

    Shallow embedding of [src/recommender.ts].

    Conventions of the embedding.
    - A JavaScript [number] is an IEEE 754 binary64 value: the primitive
      [float] of the kernel, with [+], [-], [*], [/], [sqrt] and the
      comparisons of [PrimFloat]; a [Float64Array] is a list of them.
      Interaction weights and their running sums (user vector entries,
      popularity counters) only ever hold sums of the integers 1, 3 and 5;
      they are kept as [Z] and turned into a binary64 value by [num_of_Z]
      (exact below 2^53) where the code feeds them to a floating-point
      computation.
    - A JavaScript [Map] iterates in insertion order: it is an association
      list with unique keys, [set] updating in place or appending.  A [Set]
      is a duplicate-free list in insertion order.
    - [Array.prototype.sort] is the stable sort [sort_by]; it is driven by
      the sign of the comparator, as the source writes it
      ([b.score - a.score]).  On a comparator that is not consistent (a NaN
      score) ECMAScript leaves the order to the implementation.
    - A string is a [string] whose characters are code units below 256.
    - Built-ins of the JavaScript runtime that are not part of the
      repository ([toLowerCase], [trim], [normalize], [toFixed], [Math.log])
      and the catalog file read by [loadCatalog] are the fields of the class
      [Runtime]; every theorem holds for every runtime.  [Date.now()] is an
      argument of [registerEvent].  The catalog file is the same each time
      it is loaded.
    - The module-level variables [_cache], [interactions] and [userVectors]
      are the fields of [State], threaded through every operation; an
      operation returns its result and the next state.  Default values of
      parameters are written at the call sites.
    - The exact value of a binary64 number is the real number [to_R] gives
      it; a norm is computed in the real numbers from these values. *)

From Stdlib Require Import Reals Lra.
From Stdlib Require Import List String Ascii ZArith Lia Bool Floats.
From Stdlib Require Import Permutation Sorted.
Import ListNotations.

Set Implicit Arguments.

(** ** JavaScript numbers *)

Module Num.

(** The class of a binary64 value, read off its specification. *)
Definition Number_isNaN (x : float) : bool :=
  match Prim2SF x with S754_nan => true | _ => false end.

Definition Number_isFinite (x : float) : bool :=
  match Prim2SF x with
  | S754_zero _ | S754_finite _ _ _ => true
  | _ => false
  end.

Definition is_zero_num (x : float) : bool :=
  match Prim2SF x with S754_zero _ => true | _ => false end.

(** [ToBoolean] of a number: false on +0, -0 and NaN. *)
Definition truthy (x : float) : bool :=
  match Prim2SF x with
  | S754_zero _ | S754_nan => false
  | _ => true
  end.

(** [x || d] where [x] is a number or [undefined]. *)
Definition or_num (x : option float) (d : float) : float :=
  match x with
  | Some v => if truthy v then v else d
  | None => d
  end.

(** [x || 0] on an integer-valued number or [undefined]. *)
Definition or_zero (x : option Z) : Z :=
  match x with
  | Some v => if (v =? 0)%Z then 0%Z else v
  | None => 0%Z
  end.

(** [x ?? d]. *)
Definition nullish {A : Type} (x : option A) (d : A) : A :=
  match x with Some v => v | None => d end.

(** [Math.max] and [Math.min] of two numbers: NaN is contagious and +0 is
    larger than -0. *)
Definition Math_max (a b : float) : float :=
  if Number_isNaN a || Number_isNaN b then nan
  else if (a <? b)%float then b
  else if (b <? a)%float then a
  else if get_sign a then b else a.

Definition Math_min (a b : float) : float :=
  if Number_isNaN a || Number_isNaN b then nan
  else if (a <? b)%float then a
  else if (b <? a)%float then b
  else if get_sign a then a else b.

(** The binary64 value nearest to an integer. *)
Definition num_of_Z (z : Z) : float :=
  SF2Prim (binary_normalize prec emax z 0 false).

Definition num_of_nat (n : nat) : float := num_of_Z (Z.of_nat n).

(** [Number.MAX_SAFE_INTEGER], 2^53 - 1. *)
Definition MAX_SAFE_INTEGER : float := 9007199254740991%float.

End Num.
Import Num.

(** ** Containers *)

Class EqDec (K : Type) := eq_dec : forall x y : K, {x = y} + {x <> y}.

#[export] Instance string_EqDec : EqDec string := string_dec.
#[export] Instance nat_EqDec : EqDec nat := Nat.eq_dec.

(** Insertion-ordered maps ([Map]). *)
Section OMap.
Context {K V : Type} `{EqDec K}.

Definition omap := list (K * V).

Fixpoint oget (k : K) (m : omap) : option V :=
  match m with
  | [] => None
  | (k', v) :: m' => if eq_dec k k' then Some v else oget k m'
  end.

Definition ohas (k : K) (m : omap) : bool :=
  match oget k m with Some _ => true | None => false end.

(** [m.set(k, v)]: an existing key keeps its position. *)
Fixpoint oset (k : K) (v : V) (m : omap) : omap :=
  match m with
  | [] => [(k, v)]
  | (k', v') :: m' =>
      if eq_dec k k' then (k, v) :: m' else (k', v') :: oset k v m'
  end.

Fixpoint odelete (k : K) (m : omap) : omap :=
  match m with
  | [] => []
  | (k', v') :: m' =>
      if eq_dec k k' then m' else (k', v') :: odelete k m'
  end.

Definition okeys (m : omap) : list K := map fst m.
Definition ovalues (m : omap) : list V := map snd m.
Definition osize (m : omap) : nat := List.length m.

(** [new Map(entries)]. *)
Definition omap_of_list (l : list (K * V)) : omap :=
  fold_left (fun m kv => oset (fst kv) (snd kv) m) l [].
End OMap.
Arguments omap : clear implicits.

Definition omap_map {K V W : Type} (f : V -> W) (m : omap K V) : omap K W :=
  map (fun kv => (fst kv, f (snd kv))) m.

(** Insertion-ordered sets ([Set]). *)
Section OSet.
Context {K : Type} `{EqDec K}.

Fixpoint shas (k : K) (s : list K) : bool :=
  match s with
  | [] => false
  | k' :: s' => if eq_dec k k' then true else shas k s'
  end.

Definition sadd (k : K) (s : list K) : list K :=
  if shas k s then s else s ++ [k].

(** [new Set(items)]. *)
Definition set_of_list (l : list K) : list K :=
  fold_left (fun s k => sadd k s) l [].
End OSet.

(** ** Arrays *)

Section Arrays.
Context {A : Type}.

Fixpoint takeZ (k : Z) (l : list A) : list A :=
  match l with
  | [] => []
  | x :: l' => if (k <=? 0)%Z then [] else x :: takeZ (k - 1) l'
  end.

(** [l.slice(0, k)]: [k] goes through [ToIntegerOrInfinity] (NaN is 0,
    the fraction is dropped), and a negative end counts from the back. *)
Definition slice0 (k : float) (l : list A) : list A :=
  match Prim2SF k with
  | S754_nan | S754_zero _ => []
  | S754_infinity s => if s then [] else l
  | S754_finite s m e =>
      let n := Z.shiftl (Zpos m) e in
      if (n =? 0)%Z then []
      else if s then takeZ (Z.of_nat (List.length l) - n) l
      else takeZ n l
  end.

(** [l.sort(cmp)], stable.  [after a b] says that the comparator is
    positive on [(a, b)], that is that [b] has to come first. *)
Fixpoint insert_by (after : A -> A -> bool) (x : A) (l : list A) : list A :=
  match l with
  | [] => [x]
  | y :: l' => if after x y then y :: insert_by after x l' else x :: l
  end.

Definition sort_by (after : A -> A -> bool) (l : list A) : list A :=
  fold_right (insert_by after) [] l.

(** [a[i] = v] on a typed array: nothing happens out of range. *)
Fixpoint array_set (i : nat) (v : A) (a : list A) : list A :=
  match a, i with
  | [], _ => []
  | _ :: a', O => v :: a'
  | x :: a', S i' => x :: array_set i' v a'
  end.
End Arrays.

(** ** Data model *)

Record Product := {
  product_id : string;
  title : string;
  categories : list string;
  price : float
}.

Record TFIDFModel := {
  vocab : omap string nat;
  idf : list float;
  vectors : omap string (list float)
}.

Record Cache := {
  products : list Product;
  model : TFIDFModel;
  byId : omap string Product
}.

Inductive InteractionType := view | cart | purchase.

Record Interaction := {
  ev_user_id : string;
  ev_product_id : string;
  ev_type : InteractionType;
  ev_ts : option float
}.

(** The module-level variables of [recommender.ts]. *)
Record State := {
  _cache : option Cache;
  interactions : list Interaction;
  userVectors : omap string (omap string Z)
}.

Definition initial_state : State :=
  {| _cache := None; interactions := []; userVectors := [] |}.

(** ** The JavaScript runtime and the catalog file *)

Class Runtime := {
  (** [s.toLowerCase()] *)
  toLowerCase : string -> string;
  (** [s.trim()] *)
  trim : string -> string;
  (** [s.normalize("NFKD")] *)
  normalizeNFKD : string -> string;
  (** [x.toFixed(2)] *)
  toFixed2 : float -> string;
  (** [Number(x.toFixed(4))] *)
  toFixed4 : float -> float;
  (** [Math.log(x)] *)
  Math_log : float -> float;
  (** The product list [loadCatalog()] parses out of [data/catalog.csv]. *)
  loadCatalog : list Product
}.

(** ** Content engine *)

Section Content.
Context {rt : Runtime}.

(** [\s] on code units below 256. *)
Definition is_space (c : ascii) : bool :=
  let n := nat_of_ascii c in
  ((9 <=? n) && (n <=? 13) || (n =? 32) || (n =? 160))%nat.

(** The characters the regular expression of [tokenize] keeps:
    [a-z0-9\s], thirteen accented letters and the double quote. *)
Definition keep_char (c : ascii) : bool :=
  let n := nat_of_ascii c in
  ((97 <=? n) && (n <=? 122) || (48 <=? n) && (n <=? 57) || is_space c
   || existsb (Nat.eqb n)
        [225; 233; 237; 243; 250; 227; 245; 226; 234; 238; 244; 251; 231]
   || (n =? 34))%nat.

(** [l.split(/\s+/)] on a list of characters; [cur] is the piece being
    read, reversed, and [gap] says that a separator is being skipped. *)
Fixpoint split_ws (l cur : list ascii) (gap : bool) : list (list ascii) :=
  match l with
  | [] => [rev cur]
  | c :: l' =>
      if is_space c
      then if gap then split_ws l' cur true
           else rev cur :: split_ws l' [] true
      else split_ws l' (c :: cur) false
  end.

Definition tokenize (s : string) : list string :=
  let chars := list_ascii_of_string (normalizeNFKD (toLowerCase s)) in
  let replaced := map (fun c => if keep_char c then c else " "%char) chars in
  filter (fun t => (1 <? String.length t)%nat)
    (map string_of_list_ascii (split_ws replaced [] false)).

(** The loop of [cosine]: dot product and squared norms.  An index past
    the end of [b] reads [undefined], which is NaN in arithmetic. *)
Fixpoint cosine_sums (a b : list float) (dot na nb : float)
    : float * float * float :=
  match a with
  | [] => (dot, na, nb)
  | x :: a' =>
      let y := hd nan b in
      cosine_sums a' (tl b) (dot + x * y)%float (na + x * x)%float
        (nb + y * y)%float
  end.

Definition cosine (a b : list float) : float :=
  let '(dot, na, nb) := cosine_sums a b 0%float 0%float 0%float in
  if negb (truthy na) || negb (truthy nb) then 0%float
  else (dot / sqrt (na * nb))%float.

(** The text [buildTFIDF] indexes for a product. *)
Definition doc_text (p : Product) : string :=
  (title p ++ " " ++ String.concat " " (categories p) ++ " "
     ++ toFixed2 (price p))%string.

(** The first loop of [buildTFIDF]: vocabulary and document frequency. *)
Definition index_doc (acc : omap string nat * omap string float)
    (toks : list string) : omap string nat * omap string float :=
  let step (s : omap string nat * omap string float * list string)
      (t : string) :=
    let '(vocab, df, seen) := s in
    let vocab := if ohas t vocab then vocab else oset t (osize vocab) vocab in
    if shas t seen then (vocab, df, seen)
    else (vocab, oset t (or_num (oget t df) 0 + 1)%float df, sadd t seen) in
  let '(vocab, df, _) := fold_left step toks (fst acc, snd acc, []) in
  (vocab, df).

(** Term counts of a token list; a token outside the vocabulary is
    skipped. *)
Definition term_counts (vocab : omap string nat) (toks : list string)
    : omap nat float :=
  fold_left
    (fun tf t =>
       match oget t vocab with
       | Some idx => oset idx (or_num (oget idx tf) 0 + 1)%float tf
       | None => tf
       end)
    toks [].

(** The weighted, normalised vector of a token list. *)
Definition weigh (size : nat) (idf : list float) (toks : list string)
    (tf : omap nat float) : list float :=
  let vec :=
    fold_left
      (fun vec e =>
         array_set (fst e)
           (snd e / num_of_nat (List.length toks) * nth (fst e) idf nan)%float
           vec)
      tf (repeat 0%float size) in
  let norm := fold_left (fun n v => (n + v * v)%float) vec 0%float in
  let norm := or_num (Some (sqrt norm)) 1 in
  map (fun v => (v / norm)%float) vec.

Definition buildTFIDF (products : list Product) : TFIDFModel :=
  let docs := map (fun p => (product_id p, doc_text p)) products in
  let tokenized := map (fun d => tokenize (snd d)) docs in
  let '(vocab, df) := fold_left index_doc tokenized ([], []) in
  let N := num_of_nat (List.length docs) in
  let idf :=
    fold_left
      (fun idf e =>
         let dfi := or_num (oget (fst e) df) 1 in
         array_set (snd e) (Math_log ((N + 1) / (dfi + 1)) + 1)%float idf)
      vocab (repeat 0%float (osize vocab)) in
  let vectors :=
    fold_left
      (fun vectors dt =>
         let toks := snd dt in
         oset (fst (fst dt))
           (weigh (osize vocab) idf toks (term_counts vocab toks)) vectors)
      (combine docs tokenized) [] in
  {| vocab := vocab; idf := idf; vectors := vectors |}.

Definition initRecommender : Cache :=
  let products := loadCatalog in
  {| products := products;
     model := buildTFIDF products;
     byId := omap_of_list (map (fun p => (product_id p, p)) products) |}.

(** [if (!_cache) initRecommender();] followed by a read of [_cache]. *)
Definition ensureCache (st : State) : Cache * State :=
  match _cache st with
  | Some c => (c, st)
  | None =>
      let c := initRecommender in
      (c, {| _cache := Some c;
             interactions := interactions st;
             userVectors := userVectors st |})
  end.

Definition getVectorFromText (text : string) (model : TFIDFModel)
    : list float :=
  let toks := tokenize text in
  weigh (List.length (idf model)) (idf model) toks
    (term_counts (vocab model) toks).

(** [s.trim().toLowerCase()] *)
Definition canon (s : string) : string := toLowerCase (trim s).

(** A product with its score: [{ ...product, score }]. *)
Record Scored := { sc_product : Product; sc_score : float }.

Definition by_score_desc (a b : Scored) : bool :=
  (0 <? sc_score b - sc_score a)%float.

Definition round_scores (l : list Scored) : list Scored :=
  map (fun s => {| sc_product := sc_product s;
                   sc_score := toFixed4 (sc_score s) |}) l.

Definition recommendByProductId (st : State) (productId : string)
    (limit : float) : list Scored * State :=
  let '(c, st) := ensureCache st in
  let pid := canon productId in
  match oget pid (vectors (model c)) with
  | None => ([], st)
  | Some baseVec =>
      let scores :=
        flat_map
          (fun p =>
             if string_dec (product_id p) pid then []
             else match oget (product_id p) (vectors (model c)) with
                  | None => []
                  | Some v => [{| sc_product := p;
                                  sc_score := cosine baseVec v |}]
                  end)
          (products c) in
      (round_scores (slice0 limit (sort_by by_score_desc scores)), st)
  end.

Definition recommendByQuery (st : State) (query : string) (limit : float)
    : list Scored * State :=
  let '(c, st) := ensureCache st in
  let qvec := getVectorFromText query (model c) in
  let scores :=
    flat_map
      (fun p =>
         match oget (product_id p) (vectors (model c)) with
         | None => []
         | Some v => [{| sc_product := p; sc_score := cosine qvec v |}]
         end)
      (products c) in
  (round_scores (slice0 limit (sort_by by_score_desc scores)), st).

Definition listProducts (st : State) : list Product * State :=
  let '(c, st) := ensureCache st in (products c, st).

End Content.

(** ** Interaction store and collaborative engine *)

Definition WEIGHT (t : InteractionType) : Z :=
  match t with view => 1 | cart => 3 | purchase => 5 end.

(** The result of [registerEvent]: [{ ok, ignored? }]. *)
Record RegisterResult := { ok : bool; ignored : option bool }.

(** A row of [recommendForUser]: [{ ...byId.get(product_id)!, score }]. *)
Record UserRow := { ur_product : option Product; ur_score : float }.

Definition sum_squares (m : omap string float) : float :=
  fold_left (fun n kv => (n + snd kv * snd kv)%float) m 0%float.

(** The dot product of [cosineSparse]: the smaller map is iterated and the
    bigger one probed. *)
Definition sparse_dot (smaller bigger : omap string float) : float :=
  fold_left
    (fun dot kv =>
       match oget (fst kv) bigger with
       | Some vb => if truthy vb then (dot + snd kv * vb)%float else dot
       | None => dot
       end)
    smaller 0%float.

Definition cosineSparse (a b : omap string float) : float :=
  let na := sum_squares a in
  let nb := sum_squares b in
  if negb (truthy na) || negb (truthy nb) then 0%float
  else
    let smaller := if (osize a <? osize b)%nat then a else b in
    let bigger := if (osize a <? osize b)%nat then b else a in
    (sparse_dot smaller bigger / sqrt (na * nb))%float.

Section Collaborative.
Context {rt : Runtime}.

Definition registerEvent (st : State) (ev : Interaction) (now : float)
    : RegisterResult * State :=
  let '(c, st) := ensureCache st in
  let pid := canon (ev_product_id ev) in
  let uid := canon (ev_user_id ev) in
  if negb (ohas pid (byId c)) then ({| ok := false; ignored := Some true |}, st)
  else
    let ts := nullish (ev_ts ev) now in
    let recorded :=
      {| ev_user_id := uid; ev_product_id := pid; ev_type := ev_type ev;
         ev_ts := Some ts |} in
    let '(vec, uvs) :=
      match oget uid (userVectors st) with
      | Some vec => (vec, userVectors st)
      | None => ([], oset uid [] (userVectors st))
      end in
    let vec := oset pid (or_zero (oget pid vec) + WEIGHT (ev_type ev))%Z vec in
    ({| ok := true; ignored := None |},
     {| _cache := _cache st;
        interactions := interactions st ++ [recorded];
        userVectors := oset uid vec uvs |}).

Definition by_sim_desc (a b : string * float) : bool :=
  (0 <? snd b - snd a)%float.

Definition topKNeighbors (st : State) (userId : string) (k : float)
    : list (string * float) :=
  let uid := canon userId in
  match oget uid (userVectors st) with
  | None => []
  | Some target =>
      let sims :=
        flat_map
          (fun e =>
             if string_dec (fst e) uid then []
             else
               let s := cosineSparse (omap_map num_of_Z target)
                          (omap_map num_of_Z (snd e)) in
               if (0 <? s)%float then [(fst e, s)] else [])
          (userVectors st) in
      slice0 k (sort_by by_sim_desc sims)
  end.

Definition by_count_desc (a b : string * Z) : bool :=
  (0 <? snd b - snd a)%Z.

(** The popularity table of [popularItems], before it is sorted. *)
Definition popularity_counts (evs : list Interaction) : omap string Z :=
  fold_left
    (fun counts ev =>
       oset (ev_product_id ev)
         (or_zero (oget (ev_product_id ev) counts) + WEIGHT (ev_type ev))%Z
         counts)
    evs [].

Definition popularItems (st : State) (limit : float) : list (string * Z) :=
  slice0 limit (sort_by by_count_desc (popularity_counts (interactions st))).

(** The accumulation loop that [recommendForUser] and [cfScoresForUser]
    both contain: neighbours' weights on products the user does not
    have. *)
Definition candidateScores (st : State) (neigh : list (string * float))
    (have : list string) : omap string float :=
  fold_left
    (fun cand ns =>
       match oget (fst ns) (userVectors st) with
       | None => cand
       | Some v =>
           fold_left
             (fun cand pw =>
                if shas (fst pw) have then cand
                else oset (fst pw)
                       (or_num (oget (fst pw) cand) 0
                        + snd ns * num_of_Z (snd pw))%float cand)
             v cand
       end)
    neigh [].

Definition popular_rows (c : Cache) (popular : list (string * Z))
    : list UserRow :=
  map (fun e => {| ur_product := oget (fst e) (byId c);
                   ur_score := toFixed4 (num_of_Z (snd e)) |}) popular.

Definition by_cand_desc (a b : string * float) : bool :=
  (0 <? snd b - snd a)%float.

Definition recommendForUser (st : State) (userId : string) (limit : float)
    : list UserRow * State :=
  let '(c, st) := ensureCache st in
  let uid := canon userId in
  match oget uid (userVectors st) with
  | None => (popular_rows c (popularItems st limit), st)
  | Some myVec =>
      if (osize myVec =? 0)%nat
      then (popular_rows c (popularItems st limit), st)
      else
        let neigh := topKNeighbors st uid 30 in
        let candidateScore :=
          candidateScores st neigh (set_of_list (okeys myVec)) in
        if (osize candidateScore =? 0)%nat
        then (popular_rows c (popularItems st limit), st)
        else
          let arr := sort_by by_cand_desc candidateScore in
          (map (fun e => {| ur_product := oget (fst e) (byId c);
                            ur_score := toFixed4 (snd e) |})
             (slice0 limit arr), st)
  end.

End Collaborative.

(** ** Blend engine *)

(** The options object of [recommendBlend]; every field is optional. *)
Record BlendOpts := {
  userId : option string;
  productId : option string;
  query : option string;
  alpha : option float;
  limit : option float;
  biasCats : option (list string);
  beta : option float;
  excludeSeen : option bool;
  excludeSeed : option bool
}.

(** A row of [recommendBlend]:
    [{ ...byId.get(product_id)!, score, reasons }]. *)
Record BlendRow := {
  br_product : option Product;
  br_score : float;
  br_reasons : list string
}.

(** An entry of the array [combined]. *)
Record Candidate := {
  c_product_id : string;
  c_score : float;
  c_reasons : list string
}.

(** [ToBoolean] of an optional string: [undefined] and the empty string are
    false. *)
Definition given (o : option string) : option string :=
  match o with
  | Some EmptyString => None
  | _ => o
  end.

(** [b !== false] *)
Definition not_false (o : option bool) : bool :=
  match o with Some false => false | _ => true end.

Definition toMapFromArray (arr : list (string * float)) : omap string float :=
  fold_left (fun m it => oset (fst it) (snd it) m) arr [].

Definition normalize01 (m : omap string float) : omap string float :=
  let max :=
    fold_left (fun max v => if (max <? v)%float then v else max)
      (ovalues m) 0%float in
  if (max <=? 0)%float then []
  else fold_left (fun out kv => oset (fst kv) (snd kv / max)%float out) m [].

Definition addReason (pid r : string) (reasons : omap string (list string))
    : omap string (list string) :=
  oset pid (sadd r (nullish (oget pid reasons) [])) reasons.

Definition by_blend_desc (a b : Candidate) : bool :=
  (0 <? c_score b - c_score a)%float.

Section Blend.
Context {rt : Runtime}.

Definition contentScoresFromSeed (st : State) (pid : string)
    : omap string float * State :=
  let '(rows, st) := recommendByProductId st pid MAX_SAFE_INTEGER in
  (toMapFromArray
     (map (fun s => (product_id (sc_product s), sc_score s)) rows), st).

Definition contentScoresFromQuery (st : State) (q : string)
    : omap string float * State :=
  let '(rows, st) := recommendByQuery st q MAX_SAFE_INTEGER in
  (toMapFromArray
     (map (fun s => (product_id (sc_product s), sc_score s)) rows), st).

Definition cfScoresForUser (st : State) (uid : string)
    : omap string float * bool :=
  let u := canon uid in
  let fallback :=
    (toMapFromArray
       (map (fun e => (fst e, num_of_Z (snd e)))
          (popularItems st MAX_SAFE_INTEGER)), false) in
  match oget u (userVectors st) with
  | None => fallback
  | Some vec =>
      if (osize vec =? 0)%nat then fallback
      else
        let neigh := topKNeighbors st u 30 in
        (candidateScores st neigh (set_of_list (okeys vec)), true)
  end.

(** The clamped options. *)
Definition opt_limit (opts : BlendOpts) : float :=
  Math_max 1 (Math_min 50 (nullish (limit opts) 5%float)).
Definition opt_alpha (opts : BlendOpts) : float :=
  Math_min 1 (Math_max 0 (nullish (alpha opts) 0.5%float)).
Definition opt_beta (opts : BlendOpts) : float :=
  Math_min 1 (Math_max 0 (nullish (beta opts) 0%float)).
Definition opt_biasCats (opts : BlendOpts) : list string :=
  map toLowerCase (nullish (biasCats opts) []).
Definition opt_seedPid (opts : BlendOpts) : option string :=
  match given (productId opts) with
  | Some p => given (Some (canon p))
  | None => None
  end.

(** The products the user has interacted with, when they are to be
    excluded. *)
Definition haveSeen (st : State) (opts : BlendOpts) : list string :=
  match given (userId opts) with
  | Some u =>
      if not_false (excludeSeen opts)
      then match oget (canon u) (userVectors st) with
           | Some v => set_of_list (okeys v)
           | None => []
           end
      else []
  | None => []
  end.

(** One signal merged into the content map, with its reason. *)
Definition merge_content (m : omap string float) (reason : string)
    (acc : omap string float * omap string (list string))
    : omap string float * omap string (list string) :=
  fold_left
    (fun acc kv =>
       (oset (fst kv) (Math_max (or_num (oget (fst kv) (fst acc)) 0) (snd kv))
          (fst acc),
        addReason (fst kv) reason (snd acc)))
    m acc.

Definition matches_bias (c : Cache) (biasCats : list string) (pid : string)
    : bool :=
  match oget pid (byId c) with
  | Some p =>
      existsb (fun cat => shas (toLowerCase cat) biasCats) (categories p)
  | None => false
  end.

(** [seedPid && pid === seedPid] *)
Definition is_seed (opts : BlendOpts) (pid : string) : bool :=
  match opt_seedPid opts with
  | Some seed => if string_dec pid seed then true else false
  | None => false
  end.

(** The condition of the category bias: [beta > 0 && biasCats.length > 0]
    and a product of the catalog with a category in the bias set. *)
Definition bias_boost (c : Cache) (opts : BlendOpts) (pid : string) : bool :=
  (0 <? opt_beta opts)%float
  && (0 <? List.length (opt_biasCats opts))%nat
  && matches_bias c (opt_biasCats opts) pid.

(** The body of the loop over [union]. *)
Definition blend_step (c : Cache) (opts : BlendOpts) (seen : list string)
    (nContent nCF : omap string float)
    (acc : omap string (list string) * list Candidate) (pid : string)
    : omap string (list string) * list Candidate :=
  let '(reasons, combined) := acc in
  if not_false (excludeSeed opts) && is_seed opts pid then acc
  else if not_false (excludeSeen opts) && shas pid seen then acc
  else
    let sc :=
      (opt_alpha opts * nullish (oget pid nContent) 0
       + (1 - opt_alpha opts) * nullish (oget pid nCF) 0)%float in
    let biased := bias_boost c opts pid in
    let sc := if biased then Math_min 1 (sc + opt_beta opts)%float else sc in
    let reasons :=
      if biased then addReason pid "bias_category" reasons else reasons in
    if (sc <=? 0)%float then (reasons, combined)
    else
      match oget pid (byId c) with
      | None => (reasons, combined)
      | Some _ =>
          (reasons,
           combined ++ [{| c_product_id := pid; c_score := sc;
                           c_reasons := nullish (oget pid reasons) [] |}])
      end.

(** The content map, the collaborative map and the reasons gathered
    before the loop. *)
Definition blend_signals (st : State) (opts : BlendOpts)
    : omap string float * omap string float * omap string (list string)
      * State :=
  let '(content, reasons, st) :=
    match opt_seedPid opts with
    | Some seed =>
        let '(m, st) := contentScoresFromSeed st seed in
        let '(content, reasons) :=
          merge_content m ("similar_to:" ++ seed) ([], []) in
        (odelete seed content, reasons, st)
    | None => ([], [], st)
    end in
  let '(content, reasons, st) :=
    match given (query opts) with
    | Some q =>
        let '(m, st) := contentScoresFromQuery st q in
        let '(content, reasons) :=
          merge_content m "match_query" (content, reasons) in
        (content, reasons, st)
    | None => (content, reasons, st)
    end in
  let '(cf, reasons) :=
    match given (userId opts) with
    | Some u =>
        let '(scores, hadVector) := cfScoresForUser st u in
        (scores,
         fold_left
           (fun reasons k =>
              addReason k (if hadVector then "neighbors" else "popular")
                reasons)
           (okeys scores) reasons)
    | None => ([], reasons)
    end in
  (content, cf, reasons, st).

(** The array [combined], after the loop. *)
Definition blend_combined (c : Cache) (st : State) (opts : BlendOpts)
    (content cf : omap string float) (reasons : omap string (list string))
    : list Candidate :=
  let nContent := normalize01 content in
  let nCF := normalize01 cf in
  let union := set_of_list (okeys nContent ++ okeys nCF) in
  snd (fold_left (blend_step c opts (haveSeen st opts) nContent nCF)
         union (reasons, [])).

(** The rows [top] of [recommendBlend], before the last line; [c] and
    [st] are the cache and the state after [if (!_cache) ...]. *)
Definition blend_top (c : Cache) (st : State) (opts : BlendOpts)
    : list BlendRow * State :=
  let '(content, cf, reasons, st1) := blend_signals st opts in
  let combined := blend_combined c st opts content cf reasons in
  (map (fun x => {| br_product := oget (c_product_id x) (byId c);
                    br_score := toFixed4 (c_score x);
                    br_reasons := c_reasons x |})
     (slice0 (opt_limit opts) (sort_by by_blend_desc combined)), st1).

(** The rows of the last line: raw popularity, tagged "popular". *)
Definition blend_fallback (c : Cache) (st : State) (opts : BlendOpts)
    : list BlendRow :=
  map (fun e => {| br_product := oget (fst e) (byId c);
                   br_score := toFixed4 (num_of_Z (or_zero (Some (snd e))));
                   br_reasons := ["popular"%string] |})
    (popularItems st (opt_limit opts)).

Definition recommendBlend (st : State) (opts : BlendOpts)
    : list BlendRow * State :=
  let '(c, st0) := ensureCache st in
  let '(top, st1) := blend_top c st0 opts in
  match top, given (userId opts) with
  | [], Some _ => (blend_fallback c st1 opts, st1)
  | _, _ => (top, st1)
  end.

End Blend.

(** ** The engine as a transition system *)

(** The exported operations of the module, with their arguments. *)
Inductive Op :=
| OpInit
| OpListProducts
| OpRecommendByProductId (productId : string) (limit : float)
| OpRecommendByQuery (query : string) (limit : float)
| OpRegisterEvent (ev : Interaction) (now : float)
| OpRecommendForUser (userId : string) (limit : float)
| OpRecommendBlend (opts : BlendOpts).

Section Engine.
Context {rt : Runtime}.

Definition step (st : State) (op : Op) : State :=
  match op with
  | OpInit =>
      {| _cache := Some initRecommender;
         interactions := interactions st;
         userVectors := userVectors st |}
  | OpListProducts => snd (listProducts st)
  | OpRecommendByProductId p l => snd (recommendByProductId st p l)
  | OpRecommendByQuery q l => snd (recommendByQuery st q l)
  | OpRegisterEvent ev now => snd (registerEvent st ev now)
  | OpRecommendForUser u l => snd (recommendForUser st u l)
  | OpRecommendBlend opts => snd (recommendBlend st opts)
  end.

Definition run (ops : list Op) : State := fold_left step ops initial_state.

End Engine.

(** ** A runtime for ASCII text

    [toLowerCase], [trim] and [toFixed] as ECMAScript defines them, on
    strings of ASCII characters and on numbers below 10^21 in magnitude;
    NFKD normalisation leaves ASCII text unchanged.  [Math.log] is given at
    1 only, where ECMAScript fixes its value (+0). *)

Module AsciiRuntime.

Definition lower_char (c : ascii) : ascii :=
  let n := nat_of_ascii c in
  if ((65 <=? n) && (n <=? 90))%nat then ascii_of_nat (n + 32) else c.

Definition lower (s : string) : string :=
  string_of_list_ascii (map lower_char (list_ascii_of_string s)).

Fixpoint drop_spaces (l : list ascii) : list ascii :=
  match l with
  | c :: l' => if is_space c then drop_spaces l' else l
  | [] => []
  end.

Definition strip (s : string) : string :=
  string_of_list_ascii
    (rev (drop_spaces (rev (drop_spaces (list_ascii_of_string s))))).

(** The integer [n] nearest to [|x| * 10^digits], the larger one on a
    tie, with the sign of [x]; nothing for NaN, the infinities and
    magnitudes from 10^21 on, which [toFixed] prints as [ToString] does. *)
Definition scaled (digits : Z) (x : float) : option (bool * Z) :=
  match Prim2SF x with
  | S754_zero _ => Some (false, 0%Z)
  | S754_finite s m e =>
      let k := (10 ^ digits)%Z in
      if (0 <=? e)%Z
      then if (10 ^ 21 <=? Zpos m * 2 ^ e)%Z then None
           else Some (s, (Zpos m * 2 ^ e * k)%Z)
      else Some (s, ((2 * Zpos m * k + 2 ^ (- e)) / 2 ^ (- e + 1))%Z)
  | _ => None
  end.

Fixpoint digits_of (fuel : nat) (n : Z) (acc : list ascii) : list ascii :=
  match fuel with
  | O => acc
  | S fuel' =>
      let d := ascii_of_nat (48 + Z.to_nat (n mod 10)) in
      if (n <? 10)%Z then d :: acc else digits_of fuel' (n / 10)%Z (d :: acc)
  end.

Definition decimal (n : Z) : string :=
  string_of_list_ascii (digits_of (S (Z.to_nat (Z.log2 n))) n []).

Definition fixed2 (x : float) : string :=
  match scaled 2 x with
  | Some (s, n) =>
      ((if s then "-" else "") ++ decimal (n / 100) ++ "."
         ++ decimal (n mod 100 / 10) ++ decimal (n mod 10))%string
  | None => if Number_isNaN x then "NaN"%string
            else if get_sign x then "-Infinity"%string else "Infinity"%string
  end.

Definition fixed4 (x : float) : float :=
  match scaled 4 x with
  | Some (s, Zpos n) =>
      SF2Prim (SFdiv prec emax (S754_finite s n 0) (S754_finite false 10000 0))
  | Some (s, _) => if s then (-0)%float else 0%float
  | None => x
  end.

Definition log_at_one (x : float) : float :=
  if Leibniz.eqb x 1 then 0%float else nan.

Definition runtime (catalog : list Product) : Runtime :=
  {| toLowerCase := lower;
     trim := strip;
     normalizeNFKD := fun s => s;
     toFixed2 := fixed2;
     toFixed4 := fixed4;
     Math_log := log_at_one;
     loadCatalog := catalog |}.

End AsciiRuntime.

(** ** Notions used to state the properties *)

(** [ev] is an interaction of user [u] with product [p]. *)
Definition interaction_of (u p : string) (ev : Interaction) : bool :=
  String.eqb (ev_user_id ev) u && String.eqb (ev_product_id ev) p.

(** [ev] is an interaction with product [p], by any user. *)
Definition interaction_with (p : string) (ev : Interaction) : bool :=
  String.eqb (ev_product_id ev) p.

(** The sum of [WEIGHT[type]] over the interactions selected by [sel]. *)
Definition weight_sum (sel : Interaction -> bool) (evs : list Interaction)
    : Z :=
  fold_right (fun ev acc => (WEIGHT (ev_type ev) + acc)%Z) 0%Z
    (filter sel evs).

(** The entry of user [u] at product [p] in the user vectors. *)
Definition user_entry (st : State) (u p : string) : option Z :=
  match oget u (userVectors st) with
  | Some v => oget p v
  | None => None
  end.

(** The product id of an output row, when it carries a product record. *)
Definition row_pid (r : BlendRow) : option string :=
  option_map product_id (br_product r).

(** ** Example catalogs and event histories *)

Module Example.
Import AsciiRuntime.
Local Open Scope string_scope.

Definition event (u p : string) (t : InteractionType) : Interaction :=
  {| ev_user_id := u; ev_product_id := p; ev_type := t; ev_ts := None |}.

Definition no_opts : BlendOpts :=
  {| userId := None; productId := None; query := None; alpha := None;
     limit := None; biasCats := None; beta := None; excludeSeen := None;
     excludeSeed := None |}.

(** Three products whose documents use the same five terms (aa, bb, shoes,
    10, 00), so that every inverse document frequency is [Math.log(1) + 1]. *)
Definition catalog : list Product :=
  [ {| product_id := "s"; title := "aa bb"; categories := ["Shoes"];
       price := 10 |};
    {| product_id := "p1"; title := "aa bb shoes"; categories := [];
       price := 10 |};
    {| product_id := "p2"; title := "aa aa bb"; categories := ["shoes"];
       price := 10 |} ].

Definition rt : Runtime := runtime catalog.

(** User u1 buys p2 and then views p1; user u3 views s. *)
Definition history : list Op :=
  [ OpRegisterEvent (event "U1" "p2" purchase) 0;
    OpRegisterEvent (event "u1" " P1" view) 0;
    OpRegisterEvent (event "u3" "s" view) 0 ].

Definition st : State := @run rt history.

(** [recommendBlend({ userId: "u1" })] *)
Definition for_u1 : BlendOpts :=
  {| userId := Some "u1"; productId := None; query := None; alpha := None;
     limit := None; biasCats := None; beta := None; excludeSeen := None;
     excludeSeed := None |}.

(** [recommendBlend({ userId: "u1", productId: " S" })] *)
Definition for_u1_seed_s : BlendOpts :=
  {| userId := Some "u1"; productId := Some " S"; query := None;
     alpha := None; limit := None; biasCats := None; beta := None;
     excludeSeen := None; excludeSeed := None |}.

(** [recommendBlend({ userId: "u1", biasCats: ["Shoes"], beta: 0.5 })] *)
Definition for_u1_biased : BlendOpts :=
  {| userId := Some "u1"; productId := None; query := None; alpha := None;
     limit := None; biasCats := Some ["Shoes"]; beta := Some 0.5%float;
     excludeSeen := None; excludeSeed := None |}.

(** [recommendBlend({ userId: "u1", productId: "s", alpha: 1, beta: 0 })] *)
Definition for_u1_content_only : BlendOpts :=
  {| userId := Some "u1"; productId := Some "s"; query := None;
     alpha := Some 1%float; limit := None; biasCats := None;
     beta := Some 0%float; excludeSeen := None; excludeSeed := None |}.

(** [recommendBlend({ userId: "u2", productId: "s", query: "aa",
    biasCats: ["Shoes"], beta: 0.5 })] *)
Definition for_u2_biased : BlendOpts :=
  {| userId := Some "u2"; productId := Some "s"; query := Some "aa";
     alpha := None; limit := None; biasCats := Some ["Shoes"];
     beta := Some 0.5%float; excludeSeen := None; excludeSeed := None |}.
End Example.

(** The products that have interactions, with their accumulated weight,
    most popular first: what [popularItems] slices. *)
Definition popularity_ranking (evs : list Interaction) : list (string * Z) :=
  sort_by by_count_desc (popularity_counts evs).

(** The user has no vector, or an empty one. *)
Definition no_personal_vector (st : State) (u : string) : Prop :=
  oget u (userVectors st) = None \/ oget u (userVectors st) = Some [].

(** Every product id of the event list and of the user vectors is a key of
    the catalog map of the cache. *)
Definition stored_in_catalog (st : State) : Prop :=
  forall pid,
    In pid (map ev_product_id (interactions st))
    \/ (exists u v, oget u (userVectors st) = Some v /\ In pid (okeys v)) ->
    exists c, _cache st = Some c /\ ohas pid (byId c) = true.

(** The condition under which the loop of the blend boosts a product: a
    positive [beta], a non-empty bias set, and a category of the product
    whose lower-case form is the lower-case form of a bias category. *)
Definition bias_applies {rt : Runtime} (opts : BlendOpts) (p : Product) : Prop :=
  (exists b, beta opts = Some b /\ (0 <? b)%float = true)
  /\ nullish (biasCats opts) [] <> []
  /\ exists cat bias,
       In cat (categories p) /\ In bias (nullish (biasCats opts) [])
       /\ toLowerCase cat = toLowerCase bias.

(** The loop of the blend, product by product: whether [pid] is skipped by
    an exclusion, its blended score, and whether it enters [combined]. *)
Section BlendLoop.
Context {rt : Runtime}.
Variables (c : Cache) (opts : BlendOpts) (seen : list string).
Variables (nContent nCF : omap string float).

Definition blend_excluded (pid : string) : bool :=
  not_false (excludeSeed opts) && is_seed opts pid
  || not_false (excludeSeen opts) && shas pid seen.

Definition mix_score (pid : string) : float :=
  (opt_alpha opts * nullish (oget pid nContent) 0
   + (1 - opt_alpha opts) * nullish (oget pid nCF) 0)%float.

Definition blend_score (pid : string) : float :=
  if bias_boost c opts pid
  then Math_min 1 (mix_score pid + opt_beta opts)%float
  else mix_score pid.

Definition blend_kept (pid : string) : bool :=
  negb (blend_excluded pid)
  && negb (blend_score pid <=? 0)%float
  && ohas pid (byId c).

(** The entry of [combined] for [pid], when the reasons before the loop are
    [reasons]. *)
Definition blend_candidate (reasons : omap string (list string))
    (pid : string) : Candidate :=
  {| c_product_id := pid;
     c_score := blend_score pid;
     c_reasons :=
       let tags := nullish (oget pid reasons) [] in
       if bias_boost c opts pid then sadd "bias_category"%string tags
       else tags |}.
End BlendLoop.

(** A vector of zero magnitude: every entry is +0 or -0. *)
Definition zero_magnitude (v : list float) : Prop :=
  Forall (fun x => is_zero_num x = true) v.

(** The value [Math.sqrt(na * nb)] that [cosineSparse] divides by. *)
Definition sparse_denominator (a b : omap string float) : float :=
  sqrt (sum_squares a * sum_squares b).

(** The dot product that [cosineSparse] divides. *)
Definition sparse_numerator (a b : omap string float) : float :=
  if (osize a <? osize b)%nat then sparse_dot a b else sparse_dot b a.

(** The signals of the blend, one by one. *)
Definition blend_content {rt : Runtime} (st : State) (opts : BlendOpts)
    : omap string float :=
  fst (fst (fst (blend_signals st opts))).
Definition blend_cf {rt : Runtime} (st : State) (opts : BlendOpts)
    : omap string float :=
  snd (fst (fst (blend_signals st opts))).
Definition blend_reasons {rt : Runtime} (st : State) (opts : BlendOpts)
    : omap string (list string) :=
  snd (fst (blend_signals st opts)).

(** [m.get(pid) ?? 0] *)
Definition score_in (m : omap string float) (pid : string) : float :=
  nullish (oget pid m) 0%float.

(** The ids sorted by [score] with the comparator of the engine,
    [(a, b) => b.score - a.score]: descending, stable. *)
Definition rank_by (score : string -> float) (ids : list string)
    : list string :=
  sort_by (fun a b => (0 <? score b - score a)%float) ids.

(** The ids of a ranking by one signal alone: the ids of [union] that no
    exclusion removes, whose score is not [<= 0] and that are in the catalog,
    ranked by [score] and cut at the limit. *)
Definition ranked_ids {rt : Runtime} (c : Cache) (opts : BlendOpts)
    (seen : list string) (union : list string) (score : string -> float)
    : list string :=
  slice0 (opt_limit opts)
    (rank_by score
       (filter
          (fun pid =>
             negb (blend_excluded opts seen pid)
             && negb (score pid <=? 0)%float
             && ohas pid (byId c))
          union)).

(** The rows of that ranking. *)
Definition ranked_rows {rt : Runtime} (c : Cache) (opts : BlendOpts)
    (seen : list string) (reasons : omap string (list string))
    (union : list string) (score : string -> float) : list BlendRow :=
  map (fun pid => {| br_product := oget pid (byId c);
                     br_score := toFixed4 (score pid);
                     br_reasons := nullish (oget pid reasons) [] |})
    (ranked_ids c opts seen union score).

(** [recommendBlend({ userId: "u2", productId: "s", alpha: 1, beta: 0 })] *)
Definition content_only_u2 : BlendOpts :=
  {| userId := Some "u2"%string; productId := Some "s"%string; query := None;
     alpha := Some 1%float; limit := None; biasCats := None;
     beta := Some 0%float; excludeSeen := None; excludeSeed := None |}.

(** [recommendBlend({ userId: "u2", productId: "s", alpha: 0, beta: 0 })] *)
Definition collaborative_only_u2 : BlendOpts :=
  {| userId := Some "u2"%string; productId := Some "s"%string; query := None;
     alpha := Some 0%float; limit := None; biasCats := None;
     beta := Some 0%float; excludeSeen := None; excludeSeed := None |}.

(** The state an accepted event leads to. *)
Definition registered {rt : Runtime} (st : State) (ev : Interaction) (now : float) : State :=
  let uid := canon (ev_user_id ev) in
  let pid := canon (ev_product_id ev) in
  let vec := nullish (oget uid (userVectors st)) [] in
  {| _cache := Some (fst (ensureCache st));
     interactions :=
       interactions st
       ++ [{| ev_user_id := uid; ev_product_id := pid;
              ev_type := ev_type ev;
              ev_ts := Some (nullish (ev_ts ev) now) |}];
     userVectors :=
       oset uid
         (oset pid (or_zero (oget pid vec) + WEIGHT (ev_type ev))%Z vec)
         (userVectors st) |}.

(** What the user vectors hold, in terms of the recorded events. *)
Definition entries_match (st : State) : Prop :=
  forall u p,
    user_entry st u p
    = if existsb (interaction_of u p) (interactions st)
      then Some (weight_sum (interaction_of u p) (interactions st))
      else None.

(** The cache, once built, is the one [initRecommender] builds from the
    catalog file. *)
Definition cache_from_catalog {rt : Runtime} (st : State) : Prop :=
  forall c, _cache st = Some c -> c = initRecommender.

(** No product carries the tag [tag] yet. *)
Definition untagged (tag : string) (reasons : omap string (list string)) : Prop :=
  forall pid, ~ In tag (nullish (oget pid reasons) []).

(** ** Order of binary64 numbers *)

(** [x] is a finite number other than zero, or an infinity, of sign [s]. *)
Definition has_sign (s : bool) (x : spec_float) : Prop :=
  (exists m e, x = S754_finite s m e) \/ x = S754_infinity s.

(** A key whose lexicographic order is the order of the numbers: the sign
    class, then the exponent, then the mantissa. *)
Definition order_key (x : spec_float) : Z * Z * Z :=
  match x with
  | S754_infinity true => (-2, 0, 0)
  | S754_finite true m e => (-1, - e, - Z.pos m)
  | S754_finite false m e => (1, e, Z.pos m)
  | S754_infinity false => (2, 0, 0)
  | _ => (0, 0, 0)
  end%Z.

Definition lex_lt (a b : Z * Z * Z) : Prop :=
  (fst (fst a) < fst (fst b)
   \/ (fst (fst a) = fst (fst b)
       /\ (snd (fst a) < snd (fst b)
           \/ (snd (fst a) = snd (fst b) /\ snd a < snd b))))%Z.

(** No element of [l] has a smaller score than a later one. *)
Definition descending {A : Type} (score : A -> float) (l : list A) : Prop :=
  StronglySorted (fun a b => (score a <? score b)%float = false) l.

(** ** Notions used for the rest of the module *)

(** A character of a token: kept by the regular expression of [tokenize]
    and not whitespace, that is [a-z], [0-9], one of the thirteen accented
    letters or the double quote. *)
Definition token_char (c : ascii) : bool := keep_char c && negb (is_space c).

(** A vocabulary numbers its terms 0, 1, 2, ... in the order of its keys,
    and has no key twice. *)
Definition numbered (vocab : omap string nat) : Prop :=
  map snd vocab = seq 0 (osize vocab) /\ NoDup (okeys vocab).

(** The entry that a [Map] built from [entries] holds at [k]: the last one
    with that key. *)
Definition last_entry {K V : Type} `{EqDec K} (k : K) (entries : list (K * V))
    : option V :=
  option_map snd
    (find (fun kv => if eq_dec k (fst kv) then true else false) (rev entries)).

(** The last product of a list with a given id. *)
Definition last_product (pid : string) (ps : list Product) : option Product :=
  find (fun p => String.eqb pid (product_id p)) (rev ps).

(** A content ranking before the limit is applied and the scores are
    rounded: [ranked] holds the candidates [among], each once and with its
    cosine to [base], in descending order of that cosine when no score is
    NaN. *)
Definition content_ranking {rt : Runtime} (base : list float)
    (among : list Product) (ranked : list Scored) : Prop :=
  Permutation (map sc_product ranked) among
  /\ Forall (fun s =>
               exists v,
                 oget (product_id (sc_product s)) (vectors (model initRecommender))
                 = Some v
                 /\ sc_score s = cosine base v)
       ranked
  /\ (Forall (fun s => Number_isNaN (sc_score s) = false) ranked ->
      descending sc_score ranked).

(** The example history followed by a view of p1 by user u3, which makes
    u1 and u3 neighbours. *)
Definition neighbours_history : list Op :=
  Example.history
  ++ [OpRegisterEvent (Example.event "u3" "p1" view) 0].

(** Every user vector, and the map of user vectors, has distinct keys. *)
Definition distinct_keys (st : State) : Prop :=
  NoDup (okeys (userVectors st))
  /\ Forall (fun v => NoDup (okeys v)) (ovalues (userVectors st)).

(** The rows [recommendForUser] builds from scored product ids. *)
Definition user_rows {rt : Runtime} (c : Cache) (scored : list (string * float))
    : list UserRow :=
  map (fun e => {| ur_product := oget (fst e) (byId c);
                   ur_score := toFixed4 (snd e) |}) scored.

(** Two sparse vectors have a product in common. *)
Definition overlap {V : Type} (a b : omap string V) : Prop :=
  exists pid, In pid (okeys a) /\ In pid (okeys b).

(** The running maximum of [normalize01]: it starts from 0 and moves to
    every value that is larger. *)
Definition largest (values : list float) : float :=
  fold_left (fun max v => if (max <? v)%float then v else max) values 0%float.

(** The reason tags that [recommendBlend] can attach for the options
    [opts]. *)
Definition blend_tag {rt : Runtime} (opts : BlendOpts) (t : string) : Prop :=
  t = "match_query"%string \/ t = "neighbors"%string \/ t = "popular"%string
  \/ t = "bias_category"%string
  \/ exists seed, opt_seedPid opts = Some seed
                  /\ t = ("similar_to:" ++ seed)%string.

(** A list of reasons as a row carries it: not empty, without repetition
    and made of tags of [recommendBlend]. *)
Definition explains {rt : Runtime} (opts : BlendOpts) (tags : list string) : Prop :=
  tags <> [] /\ NoDup tags /\ Forall (blend_tag opts) tags.

(** The reasons map gives well-formed tags, and at least one to each key of
    [scores]. *)
Definition reasons_cover {rt : Runtime} (opts : BlendOpts)
    (scores : omap string float) (reasons : omap string (list string)) : Prop :=
  (forall pid, NoDup (nullish (oget pid reasons) [])
               /\ Forall (blend_tag opts) (nullish (oget pid reasons) []))
  /\ forall pid, In pid (okeys scores) -> nullish (oget pid reasons) [] <> [].

(** ** The catalog file

    [loadCatalog] as a function of the text of [data/catalog.csv] and of
    [Number], the conversion of a string to a number.  The field
    [loadCatalog] of a runtime is this list, for the file it reads. *)

Section CatalogFile.
Context {rt : Runtime}.
Variable Number : string -> float.

(** [s.split(sep)] for a separator of one character; [cur] is the piece
    being read, reversed. *)
Fixpoint split_on (sep : ascii) (l cur : list ascii) : list (list ascii) :=
  match l with
  | [] => [rev cur]
  | c :: l' =>
      if Ascii.eqb c sep then rev cur :: split_on sep l' []
      else split_on sep l' (c :: cur)
  end.

Definition split_string (sep : ascii) (s : string) : list string :=
  map string_of_list_ascii (split_on sep (list_ascii_of_string s) []).

(** [s.split(/\r?\n/)]: a line feed ends a line, together with a carriage
    return right before it. *)
Fixpoint split_lines (l cur : list ascii) : list (list ascii) :=
  match l with
  | [] => [rev cur]
  | c :: l' =>
      if Ascii.eqb c "010" then rev cur :: split_lines l' []
      else
        match l' with
        | c' :: l'' =>
            if Ascii.eqb c "013" && Ascii.eqb c' "010"
            then rev cur :: split_lines l'' []
            else split_lines l' (c :: cur)
        | [] => split_lines l' (c :: cur)
        end
  end.

(** [x || EMPTY] on a string or [undefined], where EMPTY is the empty
    string. *)
Definition or_empty (x : option string) : string :=
  match x with Some s => s | None => EmptyString end.

(** The product of one line:
    [const [product_id, title, cats, price] = line.split(",")]. *)
Definition parse_line (line : string) : Product :=
  let fields := split_string "," line in
  {| product_id := toLowerCase (trim (or_empty (nth_error fields 0)));
     title := trim (or_empty (nth_error fields 1));
     categories :=
       filter (fun c => negb (String.eqb c EmptyString))
         (map trim (split_string ";" (or_empty (nth_error fields 2))));
     price :=
       match nth_error fields 3 with
       | None | Some EmptyString => 0%float
       | Some s => Number s
       end |}.

(** The body of [loadCatalog], on the text [raw] of the file. *)
Definition parse_catalog (raw : string) : list Product :=
  let lines :=
    map string_of_list_ascii
      (split_lines (list_ascii_of_string (trim raw)) []) in
  map parse_line
    (filter (fun line => negb (String.eqb (trim line) EmptyString)) (tl lines)).

End CatalogFile.

(** A catalog file of three lines after the header, the second one
    blank. *)
Definition example_csv : string :=
  String.concat (String "010" EmptyString)
    ["product_id,title,categories,price";
     " P001 ,Tenis Azul, calcados ; ;esporte,199.9";
     "   ";
     "p002,Meia"]%string.

(** The row [recommendBlend] builds from an entry of [combined]. *)
Definition blend_row {rt : Runtime} (c : Cache) (x : Candidate) : BlendRow :=
  {| br_product := oget (c_product_id x) (byId c);
     br_score := toFixed4 (c_score x);
     br_reasons := c_reasons x |}.

(** The product id of a row of [recommendForUser]. *)
Definition user_row_pid (r : UserRow) : option string :=
  option_map product_id (ur_product r).

(** Every user vector has at least one entry and only positive weights,
    and every recorded interaction has its ids in canonical form and a
    timestamp. *)
Definition well_formed_store {rt : Runtime} (st : State) : Prop :=
  Forall (fun v : omap string Z =>
            v <> [] /\ Forall (fun w => (0 < w)%Z) (ovalues v))
    (ovalues (userVectors st))
  /\ Forall (fun ev =>
               ev_ts ev <> None
               /\ (exists u, ev_user_id ev = canon u)
               /\ (exists p, ev_product_id ev = canon p))
       (interactions st).

(** The distinct elements of a list, each at the place of its first
    occurrence. *)
Fixpoint first_occurrences (l : list string) : list string :=
  match l with
  | [] => []
  | x :: l' =>
      x :: filter (fun y => negb (String.eqb y x)) (first_occurrences l')
  end.

(** The events that [registerEvent] accepted, that is answered with
    [ok: true], when the operations [ops] are run from the state [st], in
    the order of the calls. *)
Fixpoint accepted_from {rt : Runtime} (st : State) (ops : list Op)
    : list Interaction :=
  match ops with
  | [] => []
  | op :: ops' =>
      match op with
      | OpRegisterEvent ev now =>
          if ok (fst (registerEvent st ev now)) then [ev] else []
      | _ => []
      end ++ accepted_from (step st op) ops'
  end.

(** The events accepted in a run of the engine. *)
Definition accepted_events {rt : Runtime} (ops : list Op) : list Interaction :=
  accepted_from initial_state ops.

(** [ev] is an event of user [u] on product [p], as passed to
    [registerEvent]: its ids, trimmed and in lower case, are [u] and [p]. *)
Definition event_of {rt : Runtime} (u p : string) (ev : Interaction) : bool :=
  String.eqb (canon (ev_user_id ev)) u
  && String.eqb (canon (ev_product_id ev)) p.

(** What an interaction records of an event, the timestamp apart: the ids
    as stored, and the type. *)
Definition recorded_key (i : Interaction) : string * string * InteractionType :=
  (ev_user_id i, ev_product_id i, ev_type i).

(** The same for an event as passed to [registerEvent]. *)
Definition event_key {rt : Runtime} (ev : Interaction)
    : string * string * InteractionType :=
  (canon (ev_user_id ev), canon (ev_product_id ev), ev_type ev).

(** The reasons gathered for [pid] before the loop of the blend. *)
Definition blend_tags {rt : Runtime} (st : State) (opts : BlendOpts)
    (pid : string) : list string :=
  nullish (oget pid (blend_reasons st opts)) [].

(** [recommendBlend({ userId: "u2" })] *)
Definition for_u2 : BlendOpts :=
  {| userId := Some "u2"%string; productId := None; query := None;
     alpha := None; limit := None; biasCats := None;
     beta := None; excludeSeen := None; excludeSeed := None |}.

(** ** Real values of binary64 numbers *)

(** The real number a binary64 value stands for; 0 for NaN and the
    infinities. *)
Definition SF2R (x : spec_float) : R :=
  match x with
  | S754_finite s m e => (IZR (cond_Zopp s (Z.pos m)) * powerRZ 2 e)%R
  | _ => 0%R
  end.

Definition to_R (x : float) : R := SF2R (Prim2SF x).

(** A positive finite number. *)
Definition pos_float (x : float) : Prop :=
  exists m e, Prim2SF x = S754_finite false m e.

(** The sum of the squares of the entries, as a real number. *)
Definition sum_of_squares (v : list float) : R :=
  fold_right (fun x acc => (to_R x * to_R x + acc)%R) 0%R v.

(** The Euclidean norm of a vector of binary64 numbers, as a real
    number. *)
Definition euclidean_norm (v : list float) : R :=
  R_sqrt.sqrt (sum_of_squares v).

(** An entry of a weighted vector: a zero, or a positive number between
    [lo] and [hi]. *)
Definition weight_entry (lo hi : R) (x : float) : Prop :=
  is_zero_num x = true \/ (pos_float x /\ (lo <= to_R x <= hi)%R).

(** The accumulator of the loop that sums the squares, after [k / 2]
    entries whose squares add up to [T]. *)
Definition partial_norm (k : nat) (acc : float) (T : R) : Prop :=
  (is_zero_num acc = true /\ T = 0%R)
  \/ (pos_float acc /\ (powerRZ 2 (-200) <= T)%R
      /\ ((1 - powerRZ 2 (-52)) ^ k * T <= to_R acc
          <= (1 + powerRZ 2 (-52)) ^ k * T)%R).

(** A count after at most [j] increments, for [j] up to [2^50]. *)
Definition count_entry (vocab : omap string nat) (j : nat) (e : nat * float)
    : Prop :=
  In (fst e) (map snd vocab)
  /\ pos_float (snd e) /\ (1 <= to_R (snd e) <= 2 * INR j)%R.

(** The map [df] that the first loop of [buildTFIDF] leaves: for each term,
    the number of documents that hold it. *)
Definition document_frequency {rt : Runtime} (products : list Product)
    : omap string float :=
  snd (fold_left index_doc (map (fun p => tokenize (doc_text p)) products)
         ([], [])).

(** The argument [(N + 1) / (df + 1)] that [buildTFIDF] passes to
    [Math.log] for the term [t]. *)
Definition idf_argument {rt : Runtime} (products : list Product) (t : string)
    : float :=
  ((num_of_nat (List.length products) + 1)
   / (or_num (oget t (document_frequency products)) 1 + 1))%float.

(** [Math.log] answers each call of [buildTFIDF] with a number between 0
    and 1024. *)
Definition log_in_range {rt : Runtime} (products : list Product) : bool :=
  forallb
    (fun t =>
       let l := Math_log (idf_argument products t) in
       (0 <=? l)%float && (l <=? 1024)%float)
    (okeys (vocab (buildTFIDF products))).

(** The number of tokens of the document of a product. *)
Definition document_length {rt : Runtime} (p : Product) : Z :=
  Z.of_nat (List.length (tokenize (doc_text p))).

(** * Properties *)

(** ** Maps, sets and arrays *)

Section MapFacts.
Context {K V : Type} `{EqDec K}.
Implicit Types (m : omap K V) (k : K) (v : V).

Lemma oget_oset_eq k v m : oget k (oset k v m) = Some v.
Proof.
  induction m as [|[k' v'] m IH]; simpl.
  - destruct (eq_dec k k); congruence.
  - destruct (eq_dec k k') as [->|Hne]; simpl.
    + destruct (eq_dec k' k'); congruence.
    + destruct (eq_dec k k'); congruence.
Qed.

Lemma oget_oset_neq k k' v m : k <> k' -> oget k (oset k' v m) = oget k m.
Proof.
  intros Hne. induction m as [|[k2 v2] m IH]; simpl.
  - destruct (eq_dec k k'); congruence.
  - destruct (eq_dec k' k2) as [->|Hne2]; simpl.
    + destruct (eq_dec k k2); congruence.
    + destruct (eq_dec k k2); congruence.
Qed.

Lemma oget_in_keys k m : oget k m <> None <-> In k (okeys m).
Proof.
  induction m as [|[k' v'] m IH]; simpl.
  - split; [congruence | tauto].
  - destruct (eq_dec k k') as [->|Hne].
    + split; [auto | congruence].
    + rewrite IH. split; [auto | intros [Heq|Hin]; congruence].
Qed.

Lemma oget_some_in k v m : oget k m = Some v -> In (k, v) m.
Proof.
  induction m as [|[k' v'] m IH]; simpl; [congruence|].
  destruct (eq_dec k k') as [->|Hne]; [intros [= ->]; auto | auto].
Qed.

Lemma in_oget_nodup k v m :
  NoDup (okeys m) -> In (k, v) m -> oget k m = Some v.
Proof.
  induction m as [|[k' v'] m IH]; simpl; [tauto|].
  intros Hnd [Heq|Hin].
  - inversion Heq; subst. destruct (eq_dec k k); congruence.
  - inversion Hnd as [|? ? Hni Hnd']; subst.
    destruct (eq_dec k k') as [->|Hne]; [|auto].
    exfalso. apply Hni. apply (in_map fst) in Hin. exact Hin.
Qed.

Lemma ohas_true k m : ohas k m = true <-> In k (okeys m).
Proof.
  rewrite <- oget_in_keys. unfold ohas.
  destruct (oget k m); split; congruence.
Qed.

Lemma okeys_oset k k' v m :
  In k (okeys (oset k' v m)) <-> k = k' \/ In k (okeys m).
Proof.
  rewrite <- !oget_in_keys.
  destruct (eq_dec k k') as [->|Hne].
  - rewrite oget_oset_eq. split; [auto | congruence].
  - rewrite oget_oset_neq by assumption. split; [auto | intros [?|?]; congruence].
Qed.

Lemma okeys_oset_nodup k v m : NoDup (okeys m) -> NoDup (okeys (oset k v m)).
Proof.
  induction m as [|[k' v'] m IH]; simpl; intros Hnd.
  - constructor; [tauto | constructor].
  - inversion Hnd as [|? ? Hni Hnd']; subst.
    destruct (eq_dec k k') as [->|Hne]; simpl.
    + constructor; assumption.
    + constructor; [|auto].
      fold (okeys (oset k v m)). rewrite okeys_oset.
      intros [?|?]; [congruence | auto].
Qed.

(** Setting a key that is not there appends the entry. *)
Lemma oset_fresh k v m : ~ In k (okeys m) -> oset k v m = m ++ [(k, v)].
Proof.
  induction m as [|[k' v'] m IH]; simpl; intros Hni; [reflexivity|].
  destruct (eq_dec k k') as [->|Hne]; [tauto|].
  rewrite IH; tauto.
Qed.
End MapFacts.

Section SetFacts.
Context {K : Type} `{EqDec K}.

Lemma shas_true (k : K) s : shas k s = true <-> In k s.
Proof.
  induction s as [|k' s IH]; simpl; [split; [congruence | tauto]|].
  destruct (eq_dec k k') as [->|Hne]; [tauto|].
  rewrite IH. split; [auto | intros [?|?]; congruence].
Qed.

Lemma in_sadd (k k' : K) s : In k (sadd k' s) <-> k = k' \/ In k s.
Proof.
  unfold sadd. destruct (shas k' s) eqn:Hs.
  - apply shas_true in Hs. split; [auto | intros [->|?]; auto].
  - rewrite in_app_iff. simpl. split; [intros [?|[?|[]]]; auto | intros [?|?]; auto].
Qed.

Lemma nodup_sadd (k : K) s : NoDup s -> NoDup (sadd k s).
Proof.
  intros Hnd. unfold sadd. destruct (shas k s) eqn:Hs; [assumption|].
  assert (Hni : ~ In k s) by (rewrite <- shas_true; congruence).
  clear Hs. induction Hnd as [|x s Hx Hnd IH]; simpl.
  - constructor; [tauto | constructor].
  - constructor.
    + rewrite in_app_iff. simpl in *. intros [?|[?|[]]]; [tauto | subst; tauto].
    + apply IH. simpl in Hni. tauto.
Qed.

Lemma set_of_list_acc (l : list K) s :
  let r := fold_left (fun s k => sadd k s) l s in
  (forall k, In k r <-> In k s \/ In k l) /\ (NoDup s -> NoDup r).
Proof.
  revert s. induction l as [|x l IH]; simpl; intros s.
  - split; [intros k; tauto | auto].
  - destruct (IH (sadd x s)) as [Hin Hnd]. split.
    + intros k. rewrite Hin, in_sadd. intuition (subst; auto).
    + intros Hs. apply Hnd, nodup_sadd, Hs.
Qed.

Lemma in_set_of_list (k : K) l : In k (set_of_list l) <-> In k l.
Proof.
  destruct (set_of_list_acc l []) as [Hin _]. unfold set_of_list.
  rewrite Hin. simpl. tauto.
Qed.

Lemma nodup_set_of_list (l : list K) : NoDup (set_of_list l).
Proof.
  destruct (set_of_list_acc l []) as [_ Hnd]. apply Hnd. constructor.
Qed.
End SetFacts.

Section ArrayFacts.
Context {A : Type}.
Implicit Types (l : list A).

Lemma takeZ_prefix k l : exists rest, l = takeZ k l ++ rest.
Proof.
  revert k. induction l as [|x l IH]; intros k; simpl.
  - exists []. reflexivity.
  - destruct (k <=? 0)%Z.
    + exists (x :: l). reflexivity.
    + destruct (IH (k - 1)%Z) as [rest Hrest].
      exists rest. simpl. congruence.
Qed.

(** A slice from 0 is a prefix. *)
Lemma slice0_prefix k l : exists rest, l = slice0 k l ++ rest.
Proof.
  unfold slice0. destruct (Prim2SF k) as [s|s| |s m e].
  - exists l. reflexivity.
  - destruct s; [exists l | exists []]; simpl; auto using app_nil_r.
  - exists l. reflexivity.
  - destruct (Z.shiftl (Z.pos m) e =? 0)%Z; [exists l; reflexivity|].
    destruct s; apply takeZ_prefix.
Qed.

Lemma in_slice0 k l x : In x (slice0 k l) -> In x l.
Proof.
  destruct (slice0_prefix k l) as [rest Hrest]. intros Hin.
  rewrite Hrest. apply in_or_app. auto.
Qed.

Lemma insert_by_perm after x l : Permutation (insert_by after x l) (x :: l).
Proof.
  induction l as [|y l IH]; simpl; [reflexivity|].
  destruct (after x y); [|reflexivity].
  rewrite IH. apply perm_swap.
Qed.

Lemma sort_by_perm after l : Permutation (sort_by after l) l.
Proof.
  induction l as [|x l IH]; simpl; [reflexivity|].
  rewrite insert_by_perm. auto.
Qed.

Lemma in_sort_by after l x : In x (sort_by after l) <-> In x l.
Proof.
  split; apply Permutation_in; [|symmetry]; apply sort_by_perm.
Qed.

End ArrayFacts.

(** The stable sort commutes with a map that respects the comparator. *)
Lemma sort_by_map {A B : Type} (h : A -> B) (f : A -> A -> bool)
    (g : B -> B -> bool) (l : list A) :
  (forall x y, g (h x) (h y) = f x y) ->
  map h (sort_by f l) = sort_by g (map h l).
Proof.
  intros Hfg. induction l as [|x l IH]; simpl; [reflexivity|].
  rewrite <- IH. generalize (sort_by f l) as s.
  induction s as [|y s IHs]; simpl; [reflexivity|].
  rewrite Hfg. destruct (f x y); simpl; congruence.
Qed.

Lemma slice0_map {A B : Type} (h : A -> B) k (l : list A) :
  map h (slice0 k l) = slice0 k (map h l).
Proof.
  assert (Htake : forall n (l : list A), map h (takeZ n l) = takeZ n (map h l)).
  { intros n l0. revert n. induction l0 as [|x l0 IH]; intros n; simpl; [reflexivity|].
    destruct (n <=? 0)%Z; simpl; congruence. }
  unfold slice0. rewrite length_map.
  destruct (Prim2SF k) as [s|s| |s m e]; try reflexivity.
  - destruct s; reflexivity.
  - destruct (Z.shiftl (Z.pos m) e =? 0)%Z; [reflexivity|].
    destruct s; apply Htake.
Qed.

(** ** The cache and the operations that only read the store *)

Section StoreFacts.
Context {rt : Runtime}.

Lemma ensureCache_cached st c : _cache st = Some c -> ensureCache st = (c, st).
Proof. unfold ensureCache. intros ->. reflexivity. Qed.

Lemma ensureCache_cache st :
  _cache (snd (ensureCache st)) = Some (fst (ensureCache st)).
Proof.
  unfold ensureCache. destruct (_cache st) eqn:Hc; simpl; auto.
Qed.

Lemma ensureCache_store st :
  interactions (snd (ensureCache st)) = interactions st
  /\ userVectors (snd (ensureCache st)) = userVectors st.
Proof. unfold ensureCache. destruct (_cache st); simpl; auto. Qed.

Lemma recommendByProductId_state st p l :
  snd (recommendByProductId st p l) = snd (ensureCache st).
Proof.
  unfold recommendByProductId. destruct (ensureCache st) as [c st0]. simpl.
  destruct (oget _ _); reflexivity.
Qed.

Lemma recommendByQuery_state st q l :
  snd (recommendByQuery st q l) = snd (ensureCache st).
Proof.
  unfold recommendByQuery. destruct (ensureCache st) as [c st0]. reflexivity.
Qed.

Lemma listProducts_state st : snd (listProducts st) = snd (ensureCache st).
Proof.
  unfold listProducts. destruct (ensureCache st) as [c st0]. reflexivity.
Qed.

Lemma recommendForUser_state st u l :
  snd (recommendForUser st u l) = snd (ensureCache st).
Proof.
  unfold recommendForUser. destruct (ensureCache st) as [c st0]. simpl.
  destruct (oget _ _) as [v|]; [|reflexivity].
  destruct (osize v =? 0)%nat; [reflexivity|].
  destruct (osize _ =? 0)%nat; reflexivity.
Qed.

Lemma contentScoresFromSeed_state st p c :
  _cache st = Some c -> snd (contentScoresFromSeed st p) = st.
Proof.
  intros Hc. unfold contentScoresFromSeed.
  pose proof (recommendByProductId_state st p MAX_SAFE_INTEGER) as Hs.
  destruct (recommendByProductId st p MAX_SAFE_INTEGER) as [rows st'].
  simpl in *. rewrite Hs, (ensureCache_cached _ Hc). reflexivity.
Qed.

Lemma contentScoresFromQuery_state st q c :
  _cache st = Some c -> snd (contentScoresFromQuery st q) = st.
Proof.
  intros Hc. unfold contentScoresFromQuery.
  pose proof (recommendByQuery_state st q MAX_SAFE_INTEGER) as Hs.
  destruct (recommendByQuery st q MAX_SAFE_INTEGER) as [rows st'].
  simpl in *. rewrite Hs, (ensureCache_cached _ Hc). reflexivity.
Qed.

Lemma blend_signals_state st opts c :
  _cache st = Some c -> snd (blend_signals st opts) = st.
Proof.
  intros Hc. unfold blend_signals.
  destruct (opt_seedPid opts) as [seed|].
  - pose proof (contentScoresFromSeed_state st seed Hc) as Hs.
    destruct (contentScoresFromSeed st seed) as [m st']. simpl in Hs. subst st'.
    destruct (merge_content m _ _) as [content reasons].
    destruct (given (query opts)) as [q|].
    + pose proof (contentScoresFromQuery_state st q Hc) as Hq.
      destruct (contentScoresFromQuery st q) as [m' st']. simpl in Hq. subst st'.
      destruct (merge_content m' _ _) as [content' reasons'].
      destruct (given (userId opts)); [destruct (cfScoresForUser _ _)|]; reflexivity.
    + destruct (given (userId opts)); [destruct (cfScoresForUser _ _)|]; reflexivity.
  - destruct (given (query opts)) as [q|].
    + pose proof (contentScoresFromQuery_state st q Hc) as Hq.
      destruct (contentScoresFromQuery st q) as [m' st']. simpl in Hq. subst st'.
      destruct (merge_content m' _ _) as [content' reasons'].
      destruct (given (userId opts)); [destruct (cfScoresForUser _ _)|]; reflexivity.
    + destruct (given (userId opts)); [destruct (cfScoresForUser _ _)|]; reflexivity.
Qed.

Lemma recommendBlend_state st opts :
  snd (recommendBlend st opts) = snd (ensureCache st).
Proof.
  unfold recommendBlend, blend_top.
  pose proof (ensureCache_cache st) as Hc.
  destruct (ensureCache st) as [c st0]. simpl in *.
  pose proof (blend_signals_state st0 opts Hc) as Hs.
  destruct (blend_signals st0 opts) as [[[content cf] reasons] st1].
  simpl in Hs. subst st1.
  destruct (map _ _); destruct (given (userId opts)); reflexivity.
Qed.

(** Every operation but an accepted [registerEvent] leaves the event list
    and the user vectors as they are. *)
Lemma step_read_only st op :
  (forall ev now, op <> OpRegisterEvent ev now) ->
  interactions (step st op) = interactions st
  /\ userVectors (step st op) = userVectors st.
Proof.
  intros Hop. destruct op; simpl;
    rewrite ?listProducts_state, ?recommendByProductId_state,
      ?recommendByQuery_state, ?recommendForUser_state, ?recommendBlend_state;
    auto using ensureCache_store.
  exfalso. eapply Hop. reflexivity.
Qed.
End StoreFacts.

(** ** The interaction store *)

Section StoreInvariant.
Context {rt : Runtime}.

Lemma registerEvent_rejected st ev now :
  ohas (canon (ev_product_id ev)) (byId (fst (ensureCache st))) = false ->
  registerEvent st ev now
  = ({| ok := false; ignored := Some true |}, snd (ensureCache st)).
Proof.
  unfold registerEvent. destruct (ensureCache st) as [c st0]. simpl.
  intros ->. reflexivity.
Qed.

Lemma oset_oset (K V : Type) `{EqDec K} (k : K) (v v' : V) (m : omap K V) :
  oset k v (oset k v' m) = oset k v m.
Proof.
  induction m as [|[k2 v2] m IH]; simpl.
  - destruct (eq_dec k k); congruence.
  - destruct (eq_dec k k2) as [->|Hne]; simpl.
    + destruct (eq_dec k2 k2); congruence.
    + destruct (eq_dec k k2); congruence.
Qed.

Lemma registerEvent_accepted st ev now :
  ohas (canon (ev_product_id ev)) (byId (fst (ensureCache st))) = true ->
  registerEvent st ev now
  = ({| ok := true; ignored := None |}, registered st ev now).
Proof.
  unfold registerEvent, registered.
  pose proof (ensureCache_cache st) as Hc.
  pose proof (ensureCache_store st) as [Hi Hu].
  destruct (ensureCache st) as [c st0]. simpl in *.
  intros ->. simpl. rewrite Hu.
  destruct (oget (canon (ev_user_id ev)) (userVectors st)) as [vec|]; simpl;
    rewrite Hc, Hi; [reflexivity|].
  rewrite oset_oset. reflexivity.
Qed.

Lemma weight_sum_app sel l1 l2 :
  weight_sum sel (l1 ++ l2) = (weight_sum sel l1 + weight_sum sel l2)%Z.
Proof.
  unfold weight_sum. rewrite filter_app, fold_right_app.
  induction (filter sel l1) as [|x l IH]; simpl; lia.
Qed.

Lemma weight_sum_none sel l : existsb sel l = false -> weight_sum sel l = 0%Z.
Proof.
  unfold weight_sum. induction l as [|x l IH]; simpl; [reflexivity|].
  destruct (sel x); simpl; [discriminate | auto].
Qed.

Lemma or_zero_some z : or_zero (Some z) = z.
Proof. simpl. destruct (Z.eqb_spec z 0); congruence. Qed.

Lemma entries_match_registered st ev now :
  entries_match st -> entries_match (registered st ev now).
Proof.
  intros Hinv u p. specialize (Hinv u p).
  unfold user_entry, registered in *. simpl.
  set (uid := canon (ev_user_id ev)) in *.
  set (pid := canon (ev_product_id ev)) in *.
  rewrite existsb_app, weight_sum_app. simpl.
  unfold weight_sum at 2. simpl. unfold interaction_of at 2 4. simpl.
  destruct (string_dec u uid) as [->|Hu].
  - rewrite oget_oset_eq, String.eqb_refl. simpl.
    destruct (string_dec p pid) as [->|Hp].
    + rewrite oget_oset_eq, String.eqb_refl, orb_true_r. simpl.
      f_equal.
      assert (Hold : or_zero (oget pid (nullish (oget uid (userVectors st)) []))
                     = weight_sum (interaction_of uid pid) (interactions st)).
      { destruct (oget uid (userVectors st)) as [vec|]; simpl in *.
        - rewrite Hinv. destruct (existsb _ _) eqn:Hex.
          + apply or_zero_some.
          + rewrite weight_sum_none by assumption. reflexivity.
        - destruct (existsb _ _) eqn:Hex; [discriminate|].
          rewrite weight_sum_none by assumption. reflexivity. }
      rewrite Hold. lia.
    + rewrite oget_oset_neq by assumption.
      assert (Hne : String.eqb pid p = false) by (apply String.eqb_neq; congruence).
      rewrite Hne, orb_false_r. simpl. rewrite Z.add_0_r.
      destruct (oget uid (userVectors st)); simpl in *; exact Hinv.
  - rewrite oget_oset_neq by assumption.
    assert (Hne : String.eqb uid u = false) by (apply String.eqb_neq; congruence).
    rewrite Hne. simpl. rewrite orb_false_r, Z.add_0_r. exact Hinv.
Qed.

Lemma entries_match_store st st' :
  interactions st' = interactions st -> userVectors st' = userVectors st ->
  entries_match st -> entries_match st'.
Proof.
  intros Hi Hu Hinv u p. unfold user_entry. rewrite Hi, Hu. apply Hinv.
Qed.

Lemma entries_match_step st op : entries_match st -> entries_match (step st op).
Proof.
  intros Hinv.
  destruct op as [| | | |ev now| |].
  5: { simpl.
       destruct (ohas (canon (ev_product_id ev)) (byId (fst (ensureCache st))))
         eqn:Hk.
       - rewrite registerEvent_accepted by assumption.
         apply entries_match_registered, Hinv.
       - rewrite registerEvent_rejected by assumption. simpl.
         destruct (ensureCache_store st) as [Hi Hu].
         exact (entries_match_store _ Hi Hu Hinv). }
  all: match goal with
       | |- entries_match (step _ ?o) =>
           destruct (step_read_only st (op := o)) as [Hi Hu];
           [discriminate | exact (entries_match_store _ Hi Hu Hinv)]
       end.
Qed.

Lemma run_snoc ops op : run (ops ++ [op]) = step (run ops) op.
Proof. unfold run. rewrite fold_left_app. reflexivity. Qed.

(** C3.  An event whose canonical product id is not a key of the catalog
    snapshot is answered with [{ ok: false, ignored: true }] (the field the
    specification calls [accepted] is named [ok]), and neither the event
    list nor the user vectors change: no interaction is appended and no
    user vector or entry is created. *)
Theorem registerEvent_unknown_product st ev now :
  ohas (canon (ev_product_id ev)) (byId (fst (ensureCache st))) = false ->
  fst (registerEvent st ev now) = {| ok := false; ignored := Some true |}
  /\ interactions (snd (registerEvent st ev now)) = interactions st
  /\ userVectors (snd (registerEvent st ev now)) = userVectors st
  /\ (forall p, user_entry (snd (registerEvent st ev now))
                  (canon (ev_user_id ev)) p
                = user_entry st (canon (ev_user_id ev)) p).
Proof.
  intros Hk. rewrite registerEvent_rejected by assumption. simpl.
  destruct (ensureCache_store st) as [Hi Hu].
  repeat split; auto.
  intros p. unfold user_entry. rewrite Hu. reflexivity.
Qed.

Lemma accepted_from_snoc ops : forall st op,
  accepted_from st (ops ++ [op])
  = accepted_from st ops
    ++ match op with
       | OpRegisterEvent ev now =>
           if ok (fst (registerEvent (fold_left step ops st) ev now))
           then [ev] else []
       | _ => []
       end.
Proof.
  induction ops as [|o ops IH]; intros st op; cbn [accepted_from app fold_left].
  - rewrite !app_nil_r. reflexivity.
  - rewrite IH, app_assoc. reflexivity.
Qed.

(** The interactions recorded in a run are the accepted events, with their
    ids in canonical form, in the order of the calls. *)
Lemma interactions_are_accepted ops :
  map recorded_key (interactions (run ops)) = map event_key (accepted_events ops).
Proof.
  unfold accepted_events.
  induction ops as [|op ops IH] using rev_ind; [reflexivity|].
  rewrite run_snoc, accepted_from_snoc. fold (run ops).
  destruct op as [| | | |ev now| |].
  5: { cbn [step].
       destruct (ohas (canon (ev_product_id ev)) (byId (fst (ensureCache (run ops)))))
         eqn:Hk.
       - rewrite registerEvent_accepted by assumption. cbn [fst snd ok].
         unfold registered. cbn [interactions].
         rewrite !map_app, IH. reflexivity.
       - rewrite registerEvent_rejected by assumption. cbn [fst snd ok].
         destruct (ensureCache_store (run ops)) as [Hi _].
         rewrite Hi, app_nil_r. exact IH. }
  all: rewrite app_nil_r;
       match goal with
       | |- context [step _ ?o] =>
           destruct (step_read_only (run ops) (op := o)) as [Hi _];
           [discriminate | rewrite Hi; exact IH]
       end.
Qed.

(** Two lists that record the same users, products and types select the
    same weights. *)
Lemma weight_sum_keys (es : list Interaction) : forall (rs : list Interaction) u p,
  map recorded_key rs = map event_key es ->
  existsb (interaction_of u p) rs = existsb (event_of u p) es
  /\ weight_sum (interaction_of u p) rs = weight_sum (event_of u p) es.
Proof.
  induction es as [|e es IH]; intros [|i rs] u p Hmap; try discriminate.
  - split; reflexivity.
  - cbn [map] in Hmap. unfold recorded_key at 1, event_key at 1 in Hmap.
    injection Hmap as Hu Hp Ht Hrest.
    destruct (IH rs u p Hrest) as [Hex Hsum].
    assert (Hsel : interaction_of u p i = event_of u p e).
    { unfold interaction_of, event_of. rewrite Hu, Hp. reflexivity. }
    split.
    + cbn [existsb]. rewrite Hsel, Hex. reflexivity.
    + unfold weight_sum in *. cbn [filter]. rewrite Hsel.
      destruct (event_of u p e); cbn [fold_right]; rewrite ?Ht, Hsum; reflexivity.
Qed.

(** C9.  After any sequence of operations of the engine, the recorded
    interactions are exactly the events that [registerEvent] accepted
    (answered with [ok: true]), in the order of the calls and with their
    ids trimmed and in lower case.  The entry of user [u] at product [p]
    is the sum of [WEIGHT[type]] over the recorded interactions of [u] with
    [p], which is the sum over the accepted events of [u] on [p], and it
    exists exactly when at least one such event was accepted. *)
Theorem user_vectors_sum_weights ops u p :
  user_entry (run ops) u p
  = (if existsb (interaction_of u p) (interactions (run ops))
     then Some (weight_sum (interaction_of u p) (interactions (run ops)))
     else None)
  /\ map recorded_key (interactions (run ops))
     = map event_key (accepted_events ops)
  /\ user_entry (run ops) u p
     = (if existsb (event_of u p) (accepted_events ops)
        then Some (weight_sum (event_of u p) (accepted_events ops))
        else None).
Proof.
  assert (Hmatch : entries_match (run ops)).
  { induction ops as [|op ops IH] using rev_ind.
    - intros u' p'. reflexivity.
    - rewrite run_snoc. apply entries_match_step, IH. }
  pose proof (interactions_are_accepted ops) as Hacc.
  destruct (weight_sum_keys _ _ u p Hacc) as [Hex Hsum].
  split; [apply Hmatch|]. split; [exact Hacc|].
  rewrite <- Hex, <- Hsum. apply Hmatch.
Qed.
End StoreInvariant.

(** The event of the scenario: user u2 views a product that is not in the
    catalog. *)
Lemma registerEvent_unknown_product_witness :
  fst (@registerEvent Example.rt Example.st
         (Example.event "u2" "unknown" view) 0)
  = {| ok := false; ignored := Some true |}
  /\ interactions
       (snd (@registerEvent Example.rt Example.st
               (Example.event "u2" "unknown" view) 0))
     = interactions Example.st
  /\ userVectors
       (snd (@registerEvent Example.rt Example.st
               (Example.event "u2" "unknown" view) 0))
     = userVectors Example.st
  /\ (forall p,
        user_entry
          (snd (@registerEvent Example.rt Example.st
                  (Example.event "u2" "unknown" view) 0))
          (@canon Example.rt "u2") p
        = user_entry Example.st (@canon Example.rt "u2") p).
Proof.
  apply (@registerEvent_unknown_product Example.rt Example.st
           (Example.event "u2" "unknown" view) 0).
  vm_compute. reflexivity.
Defined.

(** ** Popularity *)

Section Popularity.
Context {rt : Runtime}.

Lemma popularity_counts_snoc evs ev :
  popularity_counts (evs ++ [ev])
  = oset (ev_product_id ev)
      (or_zero (oget (ev_product_id ev) (popularity_counts evs))
       + WEIGHT (ev_type ev))%Z
      (popularity_counts evs).
Proof. unfold popularity_counts. rewrite fold_left_app. reflexivity. Qed.

Lemma popularity_counts_spec evs :
  NoDup (okeys (popularity_counts evs))
  /\ forall p,
       oget p (popularity_counts evs)
       = if existsb (interaction_with p) evs
         then Some (weight_sum (interaction_with p) evs)
         else None.
Proof.
  induction evs as [|ev evs [IHnd IH]] using rev_ind.
  - split; [constructor | reflexivity].
  - rewrite popularity_counts_snoc. split; [apply okeys_oset_nodup, IHnd|].
    intros p. rewrite existsb_app, weight_sum_app. simpl.
    unfold weight_sum at 2. simpl. unfold interaction_with at 2 4.
    destruct (string_dec p (ev_product_id ev)) as [->|Hp].
    + rewrite oget_oset_eq, String.eqb_refl, orb_true_r. simpl. f_equal.
      rewrite IH. destruct (existsb _ evs) eqn:Hex.
      * rewrite or_zero_some. lia.
      * rewrite weight_sum_none by assumption. simpl. lia.
    + rewrite oget_oset_neq by assumption.
      assert (Hne : String.eqb (ev_product_id ev) p = false)
        by (apply String.eqb_neq; congruence).
      rewrite Hne, orb_false_r. simpl. rewrite Z.add_0_r. apply IH.
Qed.

Lemma insert_by_count_sorted x l :
  StronglySorted (fun a b : string * Z => (snd b <= snd a)%Z) l ->
  StronglySorted (fun a b : string * Z => (snd b <= snd a)%Z)
    (insert_by by_count_desc x l).
Proof.
  induction l as [|y l IH]; simpl; intros Hs.
  - constructor; constructor.
  - inversion Hs as [|? ? Hl Hy]; subst.
    unfold by_count_desc at 1. destruct (Z.ltb_spec 0 (snd y - snd x)) as [Hlt|Hge].
    + constructor; [auto|].
      apply (Permutation_Forall (Permutation_sym (insert_by_perm _ x l))).
      constructor; [lia | assumption].
    + constructor; [assumption|].
      constructor; [lia|].
      eapply Forall_impl; [|exact Hy]. simpl. intros a Ha. lia.
Qed.

Lemma sort_by_count_sorted l :
  StronglySorted (fun a b : string * Z => (snd b <= snd a)%Z)
    (sort_by by_count_desc l).
Proof.
  induction l as [|x l IH]; simpl; [constructor|].
  apply insert_by_count_sorted, IH.
Qed.

Lemma popularity_ranking_nodup evs : NoDup (map fst (popularity_ranking evs)).
Proof.
  apply (Permutation_NoDup
           (Permutation_map fst
              (Permutation_sym (sort_by_perm by_count_desc (popularity_counts evs))))).
  apply popularity_counts_spec.
Qed.

Lemma in_popularity_ranking evs p s :
  In (p, s) (popularity_ranking evs)
  <-> existsb (interaction_with p) evs = true
      /\ s = weight_sum (interaction_with p) evs.
Proof.
  unfold popularity_ranking. rewrite in_sort_by.
  destruct (popularity_counts_spec evs) as [Hnd Hget]. split.
  - intros Hin. apply (in_oget_nodup _ _ _ Hnd) in Hin.
    rewrite Hget in Hin. destruct (existsb _ evs); [|discriminate].
    injection Hin as <-. auto.
  - intros [Hex ->]. apply oget_some_in. rewrite Hget, Hex. reflexivity.
Qed.

(** An array of entries with distinct ids becomes the map with the same
    entries, in the same order. *)
Lemma toMapFromArray_nodup l : NoDup (map fst l) -> toMapFromArray l = l.
Proof.
  unfold toMapFromArray.
  assert (Hacc : forall (l' acc : list (string * float)),
            NoDup (map fst (acc ++ l')) ->
            fold_left (fun m it => oset (fst it) (snd it) m) l' acc = acc ++ l').
  { clear l. induction l' as [|[k v] l IH]; intros acc Hnd; simpl.
    - symmetry. apply app_nil_r.
    - rewrite oset_fresh.
      + rewrite IH; rewrite <- app_assoc; [reflexivity | exact Hnd].
      + rewrite map_app in Hnd. simpl in Hnd.
        apply NoDup_remove_2 in Hnd. intros Hin. apply Hnd.
        apply in_or_app. left. exact Hin. }
  intros Hnd. apply (Hacc l []). exact Hnd.
Qed.

Lemma nodup_prefix {A : Type} (l1 l2 : list A) : NoDup (l1 ++ l2) -> NoDup l1.
Proof.
  induction l1 as [|x l1 IH]; simpl; intros Hnd; [constructor|].
  inversion Hnd as [|? ? Hni Hnd']; subst. constructor; [|auto].
  intros Hin. apply Hni, in_or_app. auto.
Qed.

Lemma cfScoresForUser_cold st uid :
  no_personal_vector st (canon uid) ->
  cfScoresForUser st uid
  = (map (fun e => (fst e, num_of_Z (snd e)))
       (slice0 MAX_SAFE_INTEGER (popularity_ranking (interactions st))), false).
Proof.
  intros Hcold. unfold cfScoresForUser.
  assert (Hmap : toMapFromArray
            (map (fun e : string * Z => (fst e, num_of_Z (snd e)))
               (popularItems st MAX_SAFE_INTEGER))
          = map (fun e => (fst e, num_of_Z (snd e)))
              (slice0 MAX_SAFE_INTEGER (popularity_ranking (interactions st)))).
  { apply toMapFromArray_nodup. rewrite map_map. simpl.
    unfold popularItems. fold (popularity_ranking (interactions st)).
    destruct (slice0_prefix MAX_SAFE_INTEGER (popularity_ranking (interactions st)))
      as [rest Hrest].
    pose proof (popularity_ranking_nodup (interactions st)) as Hnd.
    rewrite Hrest, map_app in Hnd. exact (nodup_prefix _ _ Hnd). }
  destruct Hcold as [-> | ->]; simpl; rewrite Hmap; reflexivity.
Qed.

Lemma recommendForUser_cold st uid limit :
  no_personal_vector st (canon uid) ->
  fst (recommendForUser st uid limit)
  = popular_rows (fst (ensureCache st))
      (slice0 limit (popularity_ranking (interactions st))).
Proof.
  intros Hcold. unfold recommendForUser, no_personal_vector in *.
  destruct (ensureCache_store st) as [Hi Hu].
  destruct (ensureCache st) as [c st0]. simpl in *.
  rewrite Hu. unfold popularItems. rewrite Hi.
  destruct Hcold as [-> | ->]; reflexivity.
Qed.

End Popularity.

(** ** Stored product ids are catalog ids *)

Lemma fold_left_invariant {A B : Type} (P : A -> Prop) (f : A -> B -> A)
    (l : list B) (init : A) :
  P init -> (forall acc x, In x l -> P acc -> P (f acc x)) ->
  P (fold_left f l init).
Proof.
  revert init. induction l as [|x l IH]; simpl; intros init Hinit Hstep.
  - exact Hinit.
  - apply IH; [apply Hstep; auto | intros acc y Hy; apply Hstep; auto].
Qed.

Section CatalogInvariant.
Context {rt : Runtime}.

Lemma ensureCache_from_catalog st :
  cache_from_catalog st -> fst (ensureCache st) = initRecommender.
Proof.
  intros Hc. unfold ensureCache. destruct (_cache st) eqn:Hs; simpl; auto.
Qed.

Lemma cache_from_catalog_step st op :
  cache_from_catalog st -> cache_from_catalog (step st op).
Proof.
  intros Hst c Hc.
  assert (Hens : _cache (snd (ensureCache st)) = Some c -> c = initRecommender).
  { rewrite ensureCache_cache. intros [= <-]. apply ensureCache_from_catalog, Hst. }
  destruct op as [| | | |ev now| |]; simpl in Hc;
    rewrite ?listProducts_state, ?recommendByProductId_state,
      ?recommendByQuery_state, ?recommendForUser_state, ?recommendBlend_state in Hc;
    auto.
  - congruence.
  - destruct (ohas (canon (ev_product_id ev)) (byId (fst (ensureCache st)))) eqn:Hk.
    + rewrite registerEvent_accepted in Hc by assumption. simpl in Hc.
      injection Hc as <-. apply ensureCache_from_catalog, Hst.
    + rewrite registerEvent_rejected in Hc by assumption. auto.
Qed.

Lemma stored_in_catalog_store st st' :
  interactions st' = interactions st -> userVectors st' = userVectors st ->
  _cache st' = Some initRecommender ->
  cache_from_catalog st -> stored_in_catalog st -> stored_in_catalog st'.
Proof.
  intros Hi Hu Hc Hfrom Hinv pid Hpid. rewrite Hi, Hu in Hpid.
  destruct (Hinv pid Hpid) as (c & Hcs & Hin).
  exists initRecommender. split; [assumption|].
  rewrite <- (Hfrom c Hcs). exact Hin.
Qed.

Lemma stored_in_catalog_step st op :
  cache_from_catalog st -> stored_in_catalog st -> stored_in_catalog (step st op).
Proof.
  intros Hfrom Hinv.
  assert (Hens : _cache (snd (ensureCache st)) = Some initRecommender).
  { rewrite ensureCache_cache. f_equal. apply ensureCache_from_catalog, Hfrom. }
  destruct op as [| | | |ev now| |].
  5: { simpl.
       destruct (ohas (canon (ev_product_id ev)) (byId (fst (ensureCache st))))
         eqn:Hk.
       - rewrite registerEvent_accepted by assumption.
         rewrite (ensureCache_from_catalog Hfrom) in Hk.
         intros pid Hpid. exists initRecommender.
         unfold registered in *. simpl in *.
         rewrite (ensureCache_from_catalog Hfrom). split; [reflexivity|].
         assert (Hold : In pid (map ev_product_id (interactions st))
                        \/ (exists u v, oget u (userVectors st) = Some v
                                        /\ In pid (okeys v)) ->
                        ohas pid (byId initRecommender) = true).
         { intros Hp. destruct (Hinv pid Hp) as (c & Hcs & Hin).
           rewrite <- (Hfrom c Hcs). exact Hin. }
         destruct Hpid as [Hin | (u & v & Hget & Hin)].
         + rewrite map_app, in_app_iff in Hin. simpl in Hin.
           destruct Hin as [Hin | [<- | []]]; auto.
         + destruct (string_dec u (canon (ev_user_id ev))) as [->|Hne].
           * rewrite oget_oset_eq in Hget. injection Hget as <-.
             apply okeys_oset in Hin. destruct Hin as [-> | Hin]; [exact Hk|].
             apply Hold. right.
             destruct (oget (canon (ev_user_id ev)) (userVectors st)) as [v|] eqn:Hv;
               simpl in Hin; [eauto | contradiction].
           * rewrite oget_oset_neq in Hget by assumption. apply Hold. eauto.
       - rewrite registerEvent_rejected by assumption. simpl.
         destruct (ensureCache_store st) as [Hi Hu].
         exact (stored_in_catalog_store _ Hi Hu Hens Hfrom Hinv). }
  all: match goal with
       | |- stored_in_catalog (step _ ?o) =>
           destruct (step_read_only st (op := o)) as [Hi Hu]; [discriminate|];
           apply (stored_in_catalog_store _ Hi Hu); auto
       end.
  all: simpl; rewrite ?listProducts_state, ?recommendByProductId_state,
         ?recommendByQuery_state, ?recommendForUser_state, ?recommendBlend_state;
       auto.
Qed.

Lemma reachable_invariants ops :
  cache_from_catalog (run ops) /\ stored_in_catalog (run ops).
Proof.
  induction ops as [|op ops [IHc IHs]] using rev_ind.
  - split.
    + intros c Hc. discriminate.
    + intros pid [[] | (u & v & Hget & _)]. discriminate.
  - rewrite run_snoc. split.
    + apply cache_from_catalog_step, IHc.
    + apply stored_in_catalog_step; assumption.
Qed.

(** In a state that satisfies the invariant, a stored id is a key of the
    cache that the operations read. *)
Lemma stored_lookup st pid :
  stored_in_catalog st ->
  In pid (map ev_product_id (interactions st))
  \/ (exists u v, oget u (userVectors st) = Some v /\ In pid (okeys v)) ->
  oget pid (byId (fst (ensureCache st))) <> None.
Proof.
  intros Hinv Hpid. destruct (Hinv pid Hpid) as (c & Hcs & Hin).
  rewrite (ensureCache_cached _ Hcs). simpl.
  apply oget_in_keys, ohas_true, Hin.
Qed.

Lemma in_popularItems st limit e :
  In e (popularItems st limit) ->
  In (fst e) (map ev_product_id (interactions st)).
Proof.
  intros Hin. apply in_slice0 in Hin. destruct e as [p s].
  apply in_popularity_ranking in Hin. destruct Hin as [Hex _].
  apply existsb_exists in Hex. destruct Hex as (ev & Hev & Hp).
  apply String.eqb_eq in Hp. simpl. rewrite <- Hp. apply in_map, Hev.
Qed.

Lemma candidateScores_keys st neigh have pid :
  In pid (okeys (candidateScores st neigh have)) ->
  exists u v, oget u (userVectors st) = Some v /\ In pid (okeys v).
Proof.
  unfold candidateScores.
  apply (fold_left_invariant
           (fun cand : omap string float =>
              In pid (okeys cand) ->
              exists u v, oget u (userVectors st) = Some v /\ In pid (okeys v))).
  - simpl. tauto.
  - intros cand ns _ Hcand.
    destruct (oget (fst ns) (userVectors st)) as [v|] eqn:Hv; [|exact Hcand].
    apply (fold_left_invariant
             (fun cand : omap string float =>
                In pid (okeys cand) ->
                exists u v, oget u (userVectors st) = Some v /\ In pid (okeys v)));
      [exact Hcand|].
    intros acc pw Hpw Hacc. destruct (shas (fst pw) have); [exact Hacc|].
    rewrite okeys_oset. intros [-> | Hin]; [|auto].
    exists (fst ns), v. split; [assumption|]. apply (in_map fst), Hpw.
Qed.

Lemma recommendForUser_rows_found st u limit row :
  stored_in_catalog st ->
  In row (fst (recommendForUser st u limit)) -> ur_product row <> None.
Proof.
  intros Hinv. unfold recommendForUser.
  pose proof (fun pid => @stored_lookup st pid Hinv) as Hlook.
  destruct (ensureCache_store st) as [Hi Hu].
  destruct (ensureCache st) as [c st0]. simpl in *.
  assert (Hpop : In row (popular_rows c (popularItems st0 limit)) ->
                 ur_product row <> None).
  { unfold popular_rows. rewrite in_map_iff. intros (e & <- & He). simpl.
    apply Hlook. left. rewrite <- Hi. apply (in_popularItems _ _ _ He). }
  destruct (oget (canon u) (userVectors st0)) as [myVec|]; [|exact Hpop].
  destruct (osize myVec =? 0)%nat; [exact Hpop|].
  destruct (osize _ =? 0)%nat; [exact Hpop|].
  simpl. rewrite in_map_iff. intros (e & <- & He). simpl.
  apply in_slice0, in_sort_by in He.
  apply Hlook. right. rewrite <- Hu.
  apply (in_map fst) in He. eapply candidateScores_keys. exact He.
Qed.

Lemma blend_combined_found c st opts content cf reasons x :
  In x (blend_combined c st opts content cf reasons) ->
  oget (c_product_id x) (byId c) <> None.
Proof.
  unfold blend_combined.
  generalize (set_of_list (okeys (normalize01 content) ++ okeys (normalize01 cf))).
  intros union.
  apply (fold_left_invariant
           (fun acc : omap string (list string) * list Candidate =>
              In x (snd acc) -> oget (c_product_id x) (byId c) <> None)).
  - simpl. tauto.
  - intros [rs combined] pid _ Hacc. unfold blend_step. cbv zeta.
    destruct (not_false (excludeSeed opts) && _); [exact Hacc|].
    destruct (not_false (excludeSeen opts) && _); [exact Hacc|].
    destruct (bias_boost c opts pid).
    all: destruct (_ <=? 0)%float; [exact Hacc|].
    all: destruct (oget pid (byId c)) eqn:Hp; [|exact Hacc].
    all: simpl; rewrite in_app_iff; simpl.
    all: intros [Hin | [<- | []]]; [auto | simpl; rewrite Hp; discriminate].
Qed.

Lemma recommendBlend_rows_found st opts row :
  stored_in_catalog st ->
  In row (fst (recommendBlend st opts)) -> br_product row <> None.
Proof.
  intros Hinv. unfold recommendBlend, blend_top.
  pose proof (fun pid => @stored_lookup st pid Hinv) as Hlook.
  pose proof (ensureCache_cache st) as Hc.
  destruct (ensureCache_store st) as [Hi Hu].
  destruct (ensureCache st) as [c st0]. simpl in *.
  pose proof (blend_signals_state st0 opts Hc) as Hs.
  destruct (blend_signals st0 opts) as [[[content cf] reasons] st1].
  simpl in Hs. subst st1.
  assert (Htop : In row
            (map (fun x => {| br_product := oget (c_product_id x) (byId c);
                              br_score := toFixed4 (c_score x);
                              br_reasons := c_reasons x |})
               (slice0 (opt_limit opts)
                  (sort_by by_blend_desc
                     (blend_combined c st0 opts content cf reasons)))) ->
            br_product row <> None).
  { rewrite in_map_iff. intros (x & <- & Hx). simpl.
    apply in_slice0, in_sort_by in Hx.
    exact (blend_combined_found _ _ _ _ _ _ _ Hx). }
  destruct (map _ (slice0 _ _)) as [|r top] eqn:Hmap.
  - destruct (given (userId opts)); simpl; [|tauto].
    unfold blend_fallback. rewrite in_map_iff. intros (e & <- & He). simpl.
    apply Hlook. left. rewrite <- Hi. apply (in_popularItems _ _ _ He).
  - destruct (given (userId opts)); simpl; exact Htop.
Qed.

(** C10.  After any sequence of operations, every product id of the event
    list and every key of a user vector is a key of the catalog map [byId]
    of the cache, so each row that [recommendForUser] and [recommendBlend]
    build (popularity, neighbour candidates, blend and its fallback) finds
    its product record: the lookups marked with [!] never yield
    [undefined]. *)
Theorem stored_products_are_catalog_products ops :
  (forall pid,
      In pid (map ev_product_id (interactions (run ops)))
      \/ (exists u v, oget u (userVectors (run ops)) = Some v
                      /\ In pid (okeys v)) ->
      exists c, _cache (run ops) = Some c /\ ohas pid (byId c) = true)
  /\ (forall u limit row,
        In row (fst (recommendForUser (run ops) u limit)) ->
        ur_product row <> None)
  /\ (forall opts row,
        In row (fst (recommendBlend (run ops) opts)) -> br_product row <> None).
Proof.
  destruct (reachable_invariants ops) as [_ Hinv].
  split; [exact Hinv|]. split.
  - intros u limit row. apply recommendForUser_rows_found, Hinv.
  - intros opts row. apply recommendBlend_rows_found, Hinv.
Qed.
End CatalogInvariant.

(** ** Exclusions of the blend *)

Section Exclusions.
Context {rt : Runtime}.

(** The loop of the blend keeps no product the user has interacted with. *)
Lemma blend_combined_not_seen c st opts content cf reasons x :
  not_false (excludeSeen opts) = true ->
  In x (blend_combined c st opts content cf reasons) ->
  shas (c_product_id x) (haveSeen st opts) = false.
Proof.
  intros Hflag. unfold blend_combined.
  generalize (set_of_list (okeys (normalize01 content) ++ okeys (normalize01 cf))).
  intros union.
  apply (fold_left_invariant
           (fun acc : omap string (list string) * list Candidate =>
              In x (snd acc) -> shas (c_product_id x) (haveSeen st opts) = false)).
  - simpl. tauto.
  - intros [rs combined] pid _ Hacc. unfold blend_step. cbv zeta.
    destruct (not_false (excludeSeed opts) && _); [exact Hacc|].
    rewrite Hflag. simpl.
    destruct (shas pid (haveSeen st opts)) eqn:Hseen; [exact Hacc|].
    destruct (bias_boost c opts pid).
    all: destruct (_ <=? 0)%float; [exact Hacc|].
    all: destruct (oget pid (byId c)); [|exact Hacc].
    all: simpl; rewrite in_app_iff; simpl.
    all: intros [Hin | [<- | []]]; [auto | exact Hseen].
Qed.

(** The loop of the blend does not keep the seed. *)
Lemma blend_combined_not_seed c st opts content cf reasons x seed :
  not_false (excludeSeed opts) = true ->
  opt_seedPid opts = Some seed ->
  In x (blend_combined c st opts content cf reasons) ->
  c_product_id x <> seed.
Proof.
  intros Hflag Hseed. unfold blend_combined.
  generalize (set_of_list (okeys (normalize01 content) ++ okeys (normalize01 cf))).
  intros union.
  apply (fold_left_invariant
           (fun acc : omap string (list string) * list Candidate =>
              In x (snd acc) -> c_product_id x <> seed)).
  - simpl. tauto.
  - intros [rs combined] pid _ Hacc. unfold blend_step. cbv zeta.
    rewrite Hflag. unfold is_seed. rewrite Hseed. simpl.
    destruct (string_dec pid seed) as [Heq|Hne]; [exact Hacc|].
    destruct (not_false (excludeSeen opts) && _); [exact Hacc|].
    destruct (bias_boost c opts pid).
    all: destruct (_ <=? 0)%float; [exact Hacc|].
    all: destruct (oget pid (byId c)); [|exact Hacc].
    all: simpl; rewrite in_app_iff; simpl.
    all: intros [Hin | [<- | []]]; [auto | exact Hne].
Qed.

(** In terms of the user's vector: no kept candidate is one of its keys. *)
Lemma blend_combined_unseen c st opts content cf reasons x u v :
  given (userId opts) = Some u ->
  not_false (excludeSeen opts) = true ->
  oget (canon u) (userVectors st) = Some v ->
  In x (blend_combined c st opts content cf reasons) ->
  ~ In (c_product_id x) (okeys v).
Proof.
  intros Hu Hflag Hv Hx Hin.
  pose proof (blend_combined_not_seen _ _ _ _ _ _ _ Hflag Hx) as Hseen.
  unfold haveSeen in Hseen. rewrite Hu, Hflag, Hv in Hseen.
  apply in_set_of_list, shas_true in Hin. congruence.
Qed.
End Exclusions.

(** C1, at the input where the code departs from it.  User u1 has bought p2
    and viewed p1 and has no neighbour, so the blend is empty and the last
    line of [recommendBlend] returns the raw popularity ranking: with
    [excludeSeen] left at its default, the rows are p2, p1 and s, and p2 and
    p1 are in the interaction vector of u1. *)
Theorem blend_fallback_returns_seen_products :
  map row_pid (fst (@recommendBlend Example.rt Example.st Example.for_u1))
  = [Some "p2"; Some "p1"; Some "s"]%string
  /\ not_false (excludeSeen Example.for_u1) = true
  /\ user_entry Example.st "u1" "p2" = Some 5%Z
  /\ user_entry Example.st "u1" "p1" = Some 1%Z.
Proof. vm_compute. repeat split; reflexivity. Qed.

(** C2, at the input where the code departs from it.  With seed s and
    [excludeSeed] left at its default, every blended candidate of user u1 is
    dropped, and the popularity ranking returned by the last line contains
    the seed, which u1 has never interacted with. *)
Theorem blend_fallback_returns_seed :
  map row_pid
    (fst (@recommendBlend Example.rt Example.st Example.for_u1_seed_s))
  = [Some "p2"; Some "p1"; Some "s"]%string
  /\ not_false (excludeSeed Example.for_u1_seed_s) = true
  /\ @opt_seedPid Example.rt Example.for_u1_seed_s = Some "s"%string
  /\ user_entry Example.st "u1" "s" = None.
Proof. vm_compute. repeat split; reflexivity. Qed.

(** ** Binary64 facts *)

Lemma ltb_not_nan x y :
  (x <? y)%float = true -> Number_isNaN x = false /\ Number_isNaN y = false.
Proof.
  rewrite ltb_spec. unfold Number_isNaN, SFltb.
  destruct (Prim2SF x), (Prim2SF y); simpl; try discriminate; auto.
Qed.

(** Clamping to [0, 1] keeps the sign of a number: the clamped value is
    positive exactly when the number is. *)
Lemma clamp01_pos b :
  (0 <? Math_min 1 (Math_max 0 b))%float = (0 <? b)%float.
Proof.
  destruct (0 <? b)%float eqn:Hpos.
  - destruct (ltb_not_nan Hpos) as [_ Hb].
    unfold Math_max. rewrite Hb, Hpos. simpl.
    unfold Math_min. rewrite Hb. simpl.
    destruct (1 <? b)%float; [reflexivity|].
    destruct (b <? 1)%float; exact Hpos.
  - unfold Math_max. destruct (Number_isNaN b).
    + reflexivity.
    + simpl. rewrite Hpos. destruct (b <? 0)%float; reflexivity.
Qed.

(** A number whose specification is a zero is +0 or -0. *)
Lemma zero_cases x : is_zero_num x = true -> x = 0%float \/ x = (-0)%float.
Proof.
  unfold is_zero_num. intros Hz. rewrite <- (SF2Prim_Prim2SF x).
  destruct (Prim2SF x) as [s| | |]; try discriminate.
  destruct s; simpl; auto.
Qed.

Section Rounding.
Local Open Scope Z_scope.

Lemma shr_1_nonneg mrs : 0 <= shr_m mrs -> 0 <= shr_m (shr_1 mrs).
Proof.
  destruct mrs as [m r s]. destruct m as [|p|p]; simpl; try lia;
    destruct p; simpl; lia.
Qed.

Lemma iter_pos_preserves {A : Type} (P : A -> Prop) (f : A -> A) :
  (forall x, P x -> P (f x)) -> forall n x, P x -> P (iter_pos f n x).
Proof.
  intros Hf. induction n as [n IH|n IH|]; simpl; intros x Hx; auto.
Qed.

Lemma shr_fexp_nonneg m e l :
  0 <= m -> 0 <= shr_m (fst (shr_fexp prec emax m e l)).
Proof.
  intros Hm. unfold shr_fexp, shr.
  assert (Hrec : 0 <= shr_m (shr_record_of_loc m l))
    by (destruct l as [|[]]; simpl; exact Hm).
  destruct (fexp prec emax (Zdigits2 m + e) - e); simpl; try exact Hrec.
  apply (iter_pos_preserves (fun mrs => 0 <= shr_m mrs)); [|exact Hrec].
  apply shr_1_nonneg.
Qed.

Lemma round_nearest_even_nonneg m l : 0 <= m -> 0 <= round_nearest_even m l.
Proof.
  intros Hm. destruct l as [|[]]; simpl; try lia.
  destruct (Z.even m); lia.
Qed.

(** Rounding a non-negative mantissa gives a zero, a finite number or an
    infinity. *)
Lemma binary_round_aux_not_nan sx mx ex lx :
  0 <= mx -> binary_round_aux prec emax sx mx ex lx <> S754_nan.
Proof.
  intros Hm. unfold binary_round_aux.
  pose proof (shr_fexp_nonneg ex lx Hm) as H1.
  destruct (shr_fexp prec emax mx ex lx) as [mrs1 e1]. simpl in H1.
  pose proof (shr_fexp_nonneg e1 loc_Exact
                (round_nearest_even_nonneg (loc_of_shr_record mrs1) H1)) as H2.
  destruct (shr_fexp prec emax _ e1 loc_Exact) as [mrs2 e2]. simpl in H2.
  destruct (shr_m mrs2); try lia; [discriminate|].
  destruct (e2 <=? emax - prec); discriminate.
Qed.
End Rounding.

(** A finite number divided by a finite number other than zero is a number:
    it may overflow to an infinity, but it is not NaN. *)
Lemma div_not_nan x y :
  Number_isFinite x = true -> Number_isFinite y = true ->
  is_zero_num y = false -> Number_isNaN (x / y) = false.
Proof.
  unfold Number_isFinite, is_zero_num, Number_isNaN.
  rewrite div_spec. unfold SF64div.
  destruct (Prim2SF x) as [sx|sx| |sx mx ex]; try discriminate;
    destruct (Prim2SF y) as [sy|sy| |sy my ey]; try discriminate;
    intros _ _ _; [reflexivity|].
  unfold SFdiv.
  destruct (SFdiv_core_binary prec emax (Z.pos mx) ex (Z.pos my) ey)
    as [[mz ez] lz] eqn:Hcore.
  assert (Hmz : (0 <= mz)%Z).
  { unfold SFdiv_core_binary in Hcore.
    set (m' := match _ with Z.pos _ => _ | _ => _ end) in Hcore.
    assert (Hm' : (0 <= m')%Z).
    { subst m'. destruct (_ - _)%Z; try lia. apply Z.shiftl_nonneg. lia. }
    pose proof (Z.div_pos m' (Z.pos my) Hm' eq_refl) as Hq.
    unfold Z.div in Hq. destruct (Z.div_eucl m' (Z.pos my)) as [q r].
    injection Hcore as <- _ _. exact Hq. }
  pose proof (@binary_round_aux_not_nan (xorb sx sy) mz ez lz Hmz) as Hn.
  destruct (binary_round_aux prec emax (xorb sx sy) mz ez lz); congruence.
Qed.

Section Identities.
Local Open Scope Z_scope.

Lemma digits_times_2p52 m :
  Z.pos (digits2_pos (4503599627370496 * m))
  = Z.pos (digits2_pos m) + 52.
Proof. cbn [Pos.mul digits2_pos]. lia. Qed.

(** Rounding [m * 2^52 * 2^(e - 52)] gives back the binary64 number
    [m * 2^e]. *)
Lemma round_times_one s m e :
  bounded prec emax m e = true ->
  binary_round_aux prec emax s (Z.pos (4503599627370496 * m)) (-52 + e)
    loc_Exact
  = S754_finite s m e.
Proof.
  unfold bounded, canonical_mantissa. intros H.
  apply andb_prop in H. destruct H as [Hc He]. apply Z.eqb_eq in Hc.
  unfold binary_round_aux, shr_fexp.
  unfold Zdigits2 at 1. rewrite digits_times_2p52.
  replace (Z.pos (digits2_pos m) + 52 + (-52 + e))
    with (Z.pos (digits2_pos m) + e) by lia.
  rewrite Hc.
  replace (e - (-52 + e)) with 52 by lia.
  cbn [shr shr_record_of_loc].
  cbn [Pos.mul].
  cbn [iter_pos shr_1 orb].
  cbn [loc_of_shr_record shr_m round_nearest_even Zdigits2].
  replace (-52 + e + 52) with e by lia.
  rewrite Hc, Z.sub_diag. cbn [shr shr_m].
  rewrite He. reflexivity.
Qed.
End Identities.

Lemma mul_one_l x : (1 * x)%float = x.
Proof.
  apply Prim2SF_inj. rewrite mul_spec. unfold SF64mul.
  change (Prim2SF 1) with (S754_finite false 4503599627370496 (-52)).
  pose proof (Prim2SF_valid x) as Hv.
  destruct (Prim2SF x) as [s|s| |s m e]; simpl; try reflexivity.
  apply round_times_one. exact Hv.
Qed.

Lemma mul_zero_l y : Number_isFinite y = true -> is_zero_num (0 * y) = true.
Proof.
  unfold Number_isFinite, is_zero_num. rewrite mul_spec. unfold SF64mul.
  change (Prim2SF 0) with (S754_zero false).
  destruct (Prim2SF y); simpl; congruence.
Qed.

Lemma add_zero_r x z :
  is_zero_num z = true -> is_zero_num x = false -> (x + z)%float = x.
Proof.
  unfold is_zero_num. intros Hz Hx.
  apply Prim2SF_inj. rewrite add_spec. unfold SF64add.
  destruct (Prim2SF z) as [sz| | |]; try discriminate.
  destruct (Prim2SF x) as [sx|sx| |sx mx ex]; try discriminate; reflexivity.
Qed.

Lemma add_zero_l x z :
  is_zero_num z = true -> is_zero_num x = false -> (z + x)%float = x.
Proof.
  unfold is_zero_num. intros Hz Hx.
  apply Prim2SF_inj. rewrite add_spec. unfold SF64add.
  destruct (Prim2SF z) as [sz| | |]; try discriminate.
  destruct (Prim2SF x) as [sx|sx| |sx mx ex]; try discriminate; reflexivity.
Qed.

Lemma add_zeros x z :
  is_zero_num z = true -> is_zero_num x = true ->
  is_zero_num (x + z) = true /\ is_zero_num (z + x) = true.
Proof.
  unfold is_zero_num. rewrite !add_spec. unfold SF64add.
  destruct (Prim2SF z) as [sz| | |]; try discriminate.
  destruct (Prim2SF x) as [sx|sx| |sx mx ex]; try discriminate.
  destruct sx, sz; auto.
Qed.

Lemma zero_leb_zero x : is_zero_num x = true -> (x <=? 0)%float = true.
Proof.
  unfold is_zero_num. rewrite leb_spec.
  change (Prim2SF 0) with (S754_zero false).
  destruct (Prim2SF x); try discriminate. reflexivity.
Qed.

(** ** Order of binary64 numbers *)

Section Comparison.
Local Open Scope Z_scope.

Lemma digits2_size p : digits2_pos p = Pos.size p.
Proof. induction p; simpl; congruence. Qed.

Lemma digits2_bounds p :
  2 ^ (Z.pos (digits2_pos p) - 1) <= Z.pos p < 2 ^ Z.pos (digits2_pos p).
Proof.
  rewrite digits2_size.
  pose proof (Pos.size_gt p) as Hgt. pose proof (Pos.size_le p) as Hle.
  apply Pos2Z.pos_lt_pos in Hgt. apply Pos2Z.pos_le_pos in Hle.
  rewrite Pos2Z.inj_pow in Hgt, Hle. rewrite (Pos2Z.inj_xO p) in Hle.
  replace (2 ^ Z.pos (Pos.size p)) with (2 * 2 ^ (Z.pos (Pos.size p) - 1)) in Hle.
  - lia.
  - rewrite <- Z.pow_succ_r by lia. f_equal. lia.
Qed.

(** A binary64 mantissa has at most 53 digits, exactly 53 above the least
    exponent. *)
Lemma canonical_facts m e :
  bounded prec emax m e = true ->
  -1074 <= e /\ Z.pos (digits2_pos m) <= 53
  /\ (-1074 < e -> Z.pos (digits2_pos m) = 53).
Proof.
  unfold bounded, canonical_mantissa, fexp, emin, prec, emax.
  intros H. apply andb_prop in H. destruct H as [Hc _].
  apply Z.eqb_eq in Hc. lia.
Qed.

Lemma iter_xO_value m d : Z.pos (Pos.iter xO m d) = Z.pos m * 2 ^ Z.pos d.
Proof.
  apply (Pos.iter_ind positive xO m (fun p r => Z.pos r = Z.pos m * 2 ^ Z.pos p)).
  - rewrite Pos2Z.inj_xO. lia.
  - intros p r Hr. rewrite Pos2Z.inj_xO, Hr, Pos2Z.inj_succ, Z.pow_succ_r by lia. lia.
Qed.

Lemma shl_align_value mx ex ez :
  ez <= ex -> Z.pos (fst (shl_align mx ex ez)) = Z.pos mx * 2 ^ (ex - ez).
Proof.
  intros Hle. unfold shl_align. destruct (ez - ex) as [|p|p] eqn:Hd; cbn [fst].
  - replace (ex - ez) with 0 by lia. change (2 ^ 0) with 1. lia.
  - lia.
  - rewrite iter_xO_value. f_equal. f_equal. lia.
Qed.

Lemma shr_1_digits mrs :
  0 <= shr_m mrs ->
  Zdigits2 (shr_m (shr_1 mrs)) = Z.max 0 (Zdigits2 (shr_m mrs) - 1).
Proof.
  destruct mrs as [m r s]. destruct m as [|p|p]; cbn [shr_m]; try lia.
  - intros _. cbn [shr_1 shr_m Zdigits2]. lia.
  - intros _. destruct p; cbn [shr_1 shr_m Zdigits2 digits2_pos]; lia.
Qed.

Lemma iter_shr_1 n : forall mrs,
  0 <= shr_m mrs ->
  0 <= shr_m (iter_pos shr_1 n mrs)
  /\ Zdigits2 (shr_m (iter_pos shr_1 n mrs))
     = Z.max 0 (Zdigits2 (shr_m mrs) - Z.pos n).
Proof.
  induction n as [n IH|n IH|]; intros mrs Hm; simpl.
  - pose proof (@shr_1_nonneg mrs Hm) as H1.
    pose proof (@shr_1_digits mrs Hm) as D1.
    destruct (IH _ H1) as [H2 D2]. destruct (IH _ H2) as [H3 D3].
    split; [exact H3|]. rewrite D3, D2, D1. lia.
  - destruct (IH _ Hm) as [H2 D2]. destruct (IH _ H2) as [H3 D3].
    split; [exact H3|]. rewrite D3, D2. lia.
  - split; [apply shr_1_nonneg, Hm|]. rewrite shr_1_digits by assumption. lia.
Qed.

Lemma Zdigits2_pos_iff m : 0 <= m -> (0 < Zdigits2 m <-> 0 < m).
Proof. destruct m; simpl; lia. Qed.

Lemma shr_fexp_pos m e l :
  0 < m -> -1074 <= e ->
  0 < shr_m (fst (shr_fexp prec emax m e l))
  /\ -1074 <= snd (shr_fexp prec emax m e l).
Proof.
  intros Hm He. unfold shr_fexp, shr.
  assert (Hrec : shr_m (shr_record_of_loc m l) = m)
    by (destruct l as [|[]]; reflexivity).
  destruct (fexp prec emax (Zdigits2 m + e) - e) as [|p|p] eqn:Hn; simpl;
    try (rewrite Hrec; lia).
  assert (Hd : Z.pos p = Zdigits2 m - 53).
  { unfold fexp, emin, prec, emax in Hn. lia. }
  destruct (@iter_shr_1 p (shr_record_of_loc m l)) as [Hnn Hdig];
    [rewrite Hrec; lia|].
  rewrite Hrec in Hdig. split; [|lia].
  apply Zdigits2_pos_iff; [exact Hnn|]. rewrite Hdig. lia.
Qed.

Lemma round_nearest_even_pos m l : 0 < m -> 0 < round_nearest_even m l.
Proof.
  intros Hm. destruct l as [|[]]; simpl; try lia. destruct (Z.even m); lia.
Qed.

(** Rounding a positive mantissa never gives a zero: the result keeps its
    sign. *)
Lemma binary_round_aux_sign s m e l :
  0 < m -> -1074 <= e -> has_sign s (binary_round_aux prec emax s m e l).
Proof.
  intros Hm He. unfold binary_round_aux.
  destruct (@shr_fexp_pos m e l Hm He) as [H1 E1].
  destruct (shr_fexp prec emax m e l) as [mrs1 e1]. simpl in H1, E1.
  pose proof (@round_nearest_even_pos _ (loc_of_shr_record mrs1) H1) as Hr.
  destruct (@shr_fexp_pos _ e1 loc_Exact Hr E1) as [H2 E2].
  destruct (shr_fexp prec emax _ e1 loc_Exact) as [mrs2 e2]. simpl in H2, E2.
  destruct (shr_m mrs2) as [|p|p]; try lia.
  destruct (e2 <=? emax - prec); [left; eauto | right; reflexivity].
Qed.

Lemma binary_round_sign s m e :
  -1074 <= e -> has_sign s (binary_round prec emax s m e).
Proof.
  intros He. unfold binary_round.
  destruct (shl_align m e (fexp prec emax (Z.pos (digits2_pos m) + e)))
    as [mz ez] eqn:Hal.
  apply binary_round_aux_sign; [lia|].
  unfold shl_align in Hal.
  destruct (fexp prec emax (Z.pos (digits2_pos m) + e) - e);
    injection Hal as _ <-; try exact He.
  unfold fexp, emin, prec, emax. lia.
Qed.

(** Comparing exponents, then mantissas, is comparing the mantissas aligned
    on the smaller exponent. *)
Lemma lex_compare ma ea mb eb :
  bounded prec emax ma ea = true -> bounded prec emax mb eb = true ->
  match ea ?= eb with
  | Lt => Lt
  | Gt => Gt
  | Eq => Pos.compare_cont Eq ma mb
  end
  = (Z.pos (fst (shl_align ma ea (Z.min eb ea)))
     ?= Z.pos (fst (shl_align mb eb (Z.min eb ea)))).
Proof.
  intros Ha Hb.
  destruct (@canonical_facts ma ea Ha) as (Hea & Hda & Hna).
  destruct (@canonical_facts mb eb Hb) as (Heb & Hdb & Hnb).
  pose proof (digits2_bounds ma) as Bma. pose proof (digits2_bounds mb) as Bmb.
  rewrite !shl_align_value by lia.
  assert (P53 : 2 ^ 53 = 2 * 2 ^ 52) by reflexivity.
  destruct (Z.compare_spec ea eb) as [Heq | Hlt | Hgt].
  - subst eb. rewrite Z.min_id, Z.sub_diag. change (2 ^ 0) with 1.
    rewrite !Z.mul_1_r. reflexivity.
  - symmetry. apply Z.compare_lt_iff.
    rewrite Z.min_r by lia. rewrite Z.sub_diag. change (2 ^ 0) with 1.
    rewrite Z.mul_1_r.
    rewrite (Hnb ltac:(lia)) in Bmb.
    assert (Z.pos ma < 2 ^ 53).
    { apply Z.lt_le_trans with (2 ^ Z.pos (digits2_pos ma)); [lia|].
      apply Z.pow_le_mono_r; lia. }
    assert (2 ^ 1 <= 2 ^ (eb - ea)) by (apply Z.pow_le_mono_r; lia).
    change (2 ^ 1) with 2 in *. change (53 - 1) with 52 in Bmb. nia.
  - symmetry. apply Z.compare_gt_iff.
    rewrite Z.min_l by lia. rewrite Z.sub_diag. change (2 ^ 0) with 1.
    rewrite Z.mul_1_r.
    rewrite (Hna ltac:(lia)) in Bma.
    assert (Z.pos mb < 2 ^ 53).
    { apply Z.lt_le_trans with (2 ^ Z.pos (digits2_pos mb)); [lia|].
      apply Z.pow_le_mono_r; lia. }
    assert (2 ^ 1 <= 2 ^ (ea - eb)) by (apply Z.pow_le_mono_r; lia).
    change (2 ^ 1) with 2 in *. change (53 - 1) with 52 in Bma. nia.
Qed.

Lemma normalize_sign D ez :
  -1074 <= ez ->
  SFltb (S754_zero false) (binary_normalize prec emax D ez false) = (0 <? D).
Proof.
  intros He. destruct D as [|p|p]; simpl; [reflexivity| |].
  - destruct (@binary_round_sign false p ez He) as [(m & e & ->) | ->];
      reflexivity.
  - destruct (@binary_round_sign true p ez He) as [(m & e & ->) | ->];
      reflexivity.
Qed.

Lemma finite_ltb sa ma ea sb mb eb :
  bounded prec emax ma ea = true -> bounded prec emax mb eb = true ->
  SFltb (S754_finite sa ma ea) (S754_finite sb mb eb)
  = (cond_Zopp sa (Z.pos (fst (shl_align ma ea (Z.min eb ea))))
     <? cond_Zopp sb (Z.pos (fst (shl_align mb eb (Z.min eb ea))))).
Proof.
  intros Ha Hb. pose proof (@lex_compare ma ea mb eb Ha Hb) as Hlex.
  set (A := Z.pos (fst (shl_align ma ea (Z.min eb ea)))) in *.
  set (B := Z.pos (fst (shl_align mb eb (Z.min eb ea)))) in *.
  unfold SFltb, SFcompare.
  destruct sa, sb; cbn [cond_Zopp].
  - unfold Z.ltb. rewrite Z.compare_opp, (Z.compare_antisym A B), <- Hlex.
    destruct (ea ?= eb); [destruct (Pos.compare_cont Eq ma mb)| |]; reflexivity.
  - symmetry. apply Z.ltb_lt. lia.
  - symmetry. apply Z.ltb_ge. lia.
  - unfold Z.ltb. rewrite <- Hlex. destruct (ea ?= eb); reflexivity.
Qed.

(** The comparator [(a, b) => b - a] is positive exactly when [a] is the
    smaller number: the difference of two distinct numbers is never
    rounded to zero. *)
Lemma sub_pos_iff_lt a b : (0 <? b - a)%float = (a <? b)%float.
Proof.
  rewrite !ltb_spec, sub_spec. change (Prim2SF 0) with (S754_zero false).
  pose proof (Prim2SF_valid a) as Va. pose proof (Prim2SF_valid b) as Vb.
  destruct (Prim2SF a) as [sa|sa| |sa ma ea];
    destruct (Prim2SF b) as [sb|sb| |sb mb eb];
    try reflexivity;
    try (destruct sa; reflexivity); try (destruct sb; reflexivity);
    try (destruct sa, sb; reflexivity).
  unfold SF64sub, SFsub. simpl in Va, Vb.
  rewrite finite_ltb by assumption.
  rewrite normalize_sign.
  - destruct (Z.ltb_spec 0
                (cond_Zopp sb (Z.pos (fst (shl_align mb eb (Z.min eb ea))))
                 - cond_Zopp sa (Z.pos (fst (shl_align ma ea (Z.min eb ea))))));
      symmetry; [apply Z.ltb_lt | apply Z.ltb_ge]; lia.
  - destruct (@canonical_facts ma ea Va) as (Hea & _).
    destruct (@canonical_facts mb eb Vb) as (Heb & _). lia.
Qed.

Lemma SFltb_key x y :
  x <> S754_nan -> y <> S754_nan ->
  SFltb x y = true <-> lex_lt (order_key x) (order_key y).
Proof.
  intros Hx Hy. unfold SFltb, SFcompare, lex_lt.
  destruct x as [sx|sx| |sx mx ex]; try congruence;
    destruct y as [sy|sy| |sy my ey]; try congruence;
    try destruct sx; try destruct sy; cbn [order_key fst snd];
    try (split; [intros _; lia | reflexivity]);
    try (split; [discriminate | lia]).
  - change (Pos.compare_cont Eq mx my) with (mx ?= my)%positive.
    destruct (Z.compare_spec ex ey); [destruct (Pos.compare_spec mx my)| |];
      cbn [CompOpp]; split; try discriminate; try reflexivity; lia.
  - change (Pos.compare_cont Eq mx my) with (mx ?= my)%positive.
    destruct (Z.compare_spec ex ey); [destruct (Pos.compare_spec mx my)| |];
      split; try discriminate; try reflexivity; lia.
Qed.

Lemma ltb_lex x y :
  Number_isNaN x = false -> Number_isNaN y = false ->
  (x <? y)%float = true <-> lex_lt (order_key (Prim2SF x)) (order_key (Prim2SF y)).
Proof.
  unfold Number_isNaN. intros Hx Hy. rewrite ltb_spec.
  apply SFltb_key; intros E; rewrite E in *; discriminate.
Qed.

Lemma ltb_numbers x y :
  (x <? y)%float = true -> Number_isNaN x = false /\ Number_isNaN y = false.
Proof.
  rewrite ltb_spec. unfold Number_isNaN, SFltb.
  destruct (Prim2SF x), (Prim2SF y); simpl; try discriminate; split; reflexivity.
Qed.

Lemma ltb_asym x y : (x <? y)%float = true -> (y <? x)%float = false.
Proof.
  intros Hlt. destruct (ltb_numbers Hlt) as [Hx Hy].
  destruct (y <? x)%float eqn:Hyx; [|reflexivity].
  apply (@ltb_lex _ _ Hx Hy) in Hlt. apply (@ltb_lex _ _ Hy Hx) in Hyx.
  unfold lex_lt in *. lia.
Qed.

(** Not being smaller is transitive, through a number. *)
Lemma ltb_neg_trans x y z :
  Number_isNaN y = false ->
  (x <? y)%float = false -> (y <? z)%float = false -> (x <? z)%float = false.
Proof.
  intros Hy Hxy Hyz. destruct (x <? z)%float eqn:Hxz; [|reflexivity].
  destruct (ltb_numbers Hxz) as [Hx Hz].
  apply (@ltb_lex _ _ Hx Hz) in Hxz.
  assert (H1 : ~ lex_lt (order_key (Prim2SF x)) (order_key (Prim2SF y)))
    by (rewrite <- (@ltb_lex _ _ Hx Hy); congruence).
  assert (H2 : ~ lex_lt (order_key (Prim2SF y)) (order_key (Prim2SF z)))
    by (rewrite <- (@ltb_lex _ _ Hy Hz); congruence).
  unfold lex_lt in *. lia.
Qed.
End Comparison.

(** ** Sorting by score *)

Section ScoreOrder.
Context {A : Type} (score : A -> float).

Lemma insert_by_descending x l :
  Forall (fun a => Number_isNaN (score a) = false) l ->
  descending score l -> descending score (insert_by (fun a b => (0 <? score b - score a)%float) x l).
Proof.
  unfold descending. intros Hn Hs.
  induction Hs as [|y l Hs IH Hy]; simpl.
  - constructor; constructor.
  - inversion Hn as [|? ? Hyn Hln]; subst.
    rewrite sub_pos_iff_lt.
    destruct (score x <? score y)%float eqn:Hxy.
    + constructor; [apply IH, Hln|].
      apply (Permutation_Forall (Permutation_sym (insert_by_perm _ x l))).
      constructor; [apply ltb_asym, Hxy | exact Hy].
    + constructor; [constructor; assumption|].
      constructor; [exact Hxy|].
      rewrite Forall_forall in Hy |- *. intros z Hz.
      apply (@ltb_neg_trans (score x) (score y) (score z));
        [exact Hyn | exact Hxy | apply Hy, Hz].
Qed.

(** Sorting with the comparator [(a, b) => b.score - a.score] leaves no
    element with a smaller score before one with a larger score, when
    every score is a number. *)
Lemma sort_by_descending l :
  Forall (fun a => Number_isNaN (score a) = false) l ->
  descending score (sort_by (fun a b => (0 <? score b - score a)%float) l).
Proof.
  induction 1 as [|x l Hx Hl IH]; simpl.
  - constructor.
  - apply insert_by_descending; [|exact IH].
    apply (Permutation_Forall (Permutation_sym (sort_by_perm _ l))), Hl.
Qed.

Lemma descending_prefix l rest :
  descending score (l ++ rest) -> descending score l.
Proof.
  unfold descending. induction l as [|x l IH]; simpl; intros H.
  - constructor.
  - inversion H as [|? ? Hs Hx]; subst. constructor; [apply IH, Hs|].
    apply Forall_app in Hx. apply Hx.
Qed.
End ScoreOrder.

(** ** Reasons of the blend *)

Section Reasons.
Context {rt : Runtime}.

Lemma oget_addReason pid pid' r reasons :
  oget pid (addReason pid' r reasons)
  = if string_dec pid pid'
    then Some (sadd r (nullish (oget pid reasons) []))
    else oget pid reasons.
Proof.
  unfold addReason. destruct (string_dec pid pid') as [->|Hne].
  - apply oget_oset_eq.
  - apply oget_oset_neq, Hne.
Qed.

Lemma untagged_addReason tag pid r reasons :
  r <> tag -> untagged tag reasons -> untagged tag (addReason pid r reasons).
Proof.
  intros Hr Hun pid'. rewrite oget_addReason.
  destruct (string_dec pid' pid) as [->|Hne]; [|apply Hun].
  simpl. rewrite in_sadd. intros [Heq | Hin]; [congruence | exact (Hun pid Hin)].
Qed.

Lemma untagged_merge_content tag m r acc :
  r <> tag -> untagged tag (snd acc) -> untagged tag (snd (merge_content m r acc)).
Proof.
  intros Hr Hacc. unfold merge_content.
  apply (fold_left_invariant
           (fun acc : omap string float * omap string (list string) =>
              untagged tag (snd acc))); [exact Hacc|].
  intros a kv _ Ha. simpl. apply untagged_addReason; assumption.
Qed.

Lemma blend_signals_untagged st opts :
  untagged "bias_category" (snd (fst (blend_signals st opts))).
Proof.
  unfold blend_signals.
  assert (Hnil : untagged "bias_category" []) by (intros pid; simpl; tauto).
  assert (Hcf : forall (reasons : omap string (list string)) cf hv,
            untagged "bias_category" reasons ->
            untagged "bias_category"
              (fold_left
                 (fun reasons k =>
                    addReason k (if hv : bool then "neighbors" else "popular")
                      reasons)
                 (okeys (K := string) (V := float) cf) reasons)).
  { intros reasons cf hv Hr.
    apply (fold_left_invariant (untagged "bias_category")); [exact Hr|].
    intros acc k _ Hacc. apply untagged_addReason; [|exact Hacc].
    destruct hv; discriminate. }
  assert (Hlast : forall content reasons st',
            untagged "bias_category" reasons ->
            untagged "bias_category"
              (snd (fst
                 (let '(cf, reasons0) :=
                    match given (userId opts) with
                    | Some u =>
                        let '(scores, hadVector) := cfScoresForUser st' u in
                        (scores,
                         fold_left
                           (fun reasons k =>
                              addReason k
                                (if hadVector then "neighbors" else "popular")
                                reasons)
                           (okeys scores) reasons)
                    | None => ([], reasons)
                    end in
                  (content : omap string float, cf, reasons0, st' : State))))).
  { intros content reasons st' Hr.
    destruct (given (userId opts)) as [u|]; [|exact Hr].
    destruct (cfScoresForUser st' u) as [scores hv]. simpl. apply Hcf, Hr. }
  assert (Hquery : forall content reasons st',
            untagged "bias_category" reasons ->
            untagged "bias_category"
              (snd (fst
                 (let '(content0, reasons0, st0) :=
                    match given (query opts) with
                    | Some q =>
                        let '(m, st1) := contentScoresFromQuery st' q in
                        let '(content1, reasons1) :=
                          merge_content m "match_query" (content, reasons) in
                        (content1, reasons1, st1)
                    | None => (content, reasons, st')
                    end in
                  let '(cf, reasons1) :=
                    match given (userId opts) with
                    | Some u =>
                        let '(scores, hadVector) := cfScoresForUser st0 u in
                        (scores,
                         fold_left
                           (fun reasons k =>
                              addReason k
                                (if hadVector then "neighbors" else "popular")
                                reasons)
                           (okeys scores) reasons0)
                    | None => ([], reasons0)
                    end in
                  (content0, cf, reasons1, st0))))).
  { intros content reasons st' Hr.
    destruct (given (query opts)) as [q|]; [|apply Hlast, Hr].
    destruct (contentScoresFromQuery st' q) as [m st1].
    pose proof (@untagged_merge_content "bias_category" m "match_query"
                  (content, reasons)) as Hm.
    destruct (merge_content m "match_query" (content, reasons))
      as [content1 reasons1].
    apply Hlast. apply Hm; [discriminate | exact Hr]. }
  destruct (opt_seedPid opts) as [seed|]; [|apply Hquery, Hnil].
  destruct (contentScoresFromSeed st seed) as [m st1].
  pose proof (@untagged_merge_content "bias_category" m ("similar_to:" ++ seed)
                ([], [])) as Hm.
  destruct (merge_content m ("similar_to:" ++ seed) ([], []))
    as [content1 reasons1].
  apply Hquery. apply Hm; [discriminate | exact Hnil].
Qed.
End Reasons.

(** ** The loop of the blend *)

Section BlendLoopFacts.
Context {rt : Runtime}.
Variables (c : Cache) (opts : BlendOpts) (seen : list string).
Variables (nContent nCF : omap string float).

Lemma blend_step_eq reasons combined pid :
  blend_step c opts seen nContent nCF (reasons, combined) pid
  = if blend_excluded opts seen pid then (reasons, combined)
    else
      let reasons' :=
        if bias_boost c opts pid
        then addReason pid "bias_category" reasons else reasons in
      (reasons',
       if blend_kept c opts seen nContent nCF pid
       then combined
            ++ [{| c_product_id := pid;
                   c_score := blend_score c opts nContent nCF pid;
                   c_reasons := nullish (oget pid reasons') [] |}]
       else combined).
Proof.
  unfold blend_step, blend_kept, blend_excluded, blend_score, mix_score, ohas.
  destruct (not_false (excludeSeed opts) && is_seed opts pid); [reflexivity|].
  destruct (not_false (excludeSeen opts) && shas pid seen); [reflexivity|].
  cbv zeta. simpl.
  destruct (bias_boost c opts pid);
    destruct (_ <=? 0)%float; simpl; try reflexivity;
    destruct (oget pid (byId c)); reflexivity.
Qed.

(** The result of the loop over distinct ids: the kept ids in the order of
    the loop, each with its blended score and its reasons. *)
Lemma blend_loop l :
  NoDup l ->
  forall reasons combined,
    snd (fold_left (blend_step c opts seen nContent nCF) l (reasons, combined))
    = combined
      ++ map (blend_candidate c opts nContent nCF reasons)
           (filter (blend_kept c opts seen nContent nCF) l).
Proof.
  induction 1 as [|pid l Hni Hnd IH]; intros reasons combined;
    cbn [fold_left filter].
  - symmetry. apply app_nil_r.
  - rewrite blend_step_eq.
    destruct (blend_excluded opts seen pid) eqn:Hex.
    + assert (Hk : blend_kept c opts seen nContent nCF pid = false)
        by (unfold blend_kept; rewrite Hex; reflexivity).
      rewrite Hk. apply IH.
    + cbv zeta. rewrite IH.
      assert (Hrest : forall reasons',
                (reasons' = reasons
                 \/ reasons' = addReason pid "bias_category" reasons) ->
                map (blend_candidate c opts nContent nCF reasons')
                  (filter (blend_kept c opts seen nContent nCF) l)
                = map (blend_candidate c opts nContent nCF reasons)
                    (filter (blend_kept c opts seen nContent nCF) l)).
      { intros reasons' Hr. apply map_ext_in. intros pid' Hin.
        apply filter_In in Hin. destruct Hin as [Hin _].
        destruct Hr as [-> | ->]; [reflexivity|].
        unfold blend_candidate. rewrite oget_addReason.
        destruct (string_dec pid' pid) as [->|Hne]; [contradiction | reflexivity]. }
      rewrite Hrest by (destruct (bias_boost c opts pid); auto).
      destruct (blend_kept c opts seen nContent nCF pid); [|reflexivity].
      rewrite <- app_assoc. simpl. do 2 f_equal.
      unfold blend_candidate. f_equal.
      destruct (bias_boost c opts pid); [|reflexivity].
      rewrite oget_addReason.
      destruct (string_dec pid pid); [reflexivity | congruence].
Qed.
End BlendLoopFacts.

Section BlendCombined.
Context {rt : Runtime}.

Lemma blend_combined_eq c st opts content cf reasons :
  blend_combined c st opts content cf reasons
  = map (blend_candidate c opts (normalize01 content) (normalize01 cf) reasons)
      (filter
         (blend_kept c opts (haveSeen st opts) (normalize01 content)
            (normalize01 cf))
         (set_of_list (okeys (normalize01 content) ++ okeys (normalize01 cf)))).
Proof.
  unfold blend_combined. rewrite blend_loop by apply nodup_set_of_list.
  reflexivity.
Qed.
End BlendCombined.

(** ** The bias tag *)

Section BiasTag.
Context {rt : Runtime}.

Lemma bias_boost_iff c opts pid p :
  oget pid (byId c) = Some p ->
  bias_boost c opts pid = true <-> bias_applies opts p.
Proof.
  intros Hp. unfold bias_boost, bias_applies, matches_bias, opt_beta, opt_biasCats.
  rewrite Hp, !andb_true_iff, clamp01_pos, existsb_exists.
  assert (Hbeta : (0 <? nullish (beta opts) 0)%float = true
                  <-> exists b, beta opts = Some b /\ (0 <? b)%float = true).
  { destruct (beta opts) as [b|]; simpl.
    - split; [eauto | intros (b' & [= <-] & Hb); exact Hb].
    - split; [discriminate | intros (b' & Hb & _); discriminate]. }
  assert (Hlen : (0 <? List.length (map toLowerCase (nullish (biasCats opts) [])))%nat
                 = true
                 <-> nullish (biasCats opts) [] <> []).
  { destruct (nullish (biasCats opts) []); simpl.
    - split; [discriminate | intros Hn; exfalso; apply Hn; reflexivity].
    - split; [discriminate | reflexivity]. }
  rewrite Hbeta, Hlen.
  assert (Hcat : (exists cat, In cat (categories p)
                    /\ shas (toLowerCase cat)
                         (map toLowerCase (nullish (biasCats opts) [])) = true)
                 <-> exists cat bias,
                       In cat (categories p)
                       /\ In bias (nullish (biasCats opts) [])
                       /\ toLowerCase cat = toLowerCase bias).
  { split.
    - intros (cat & Hcat & Hin). apply shas_true, in_map_iff in Hin.
      destruct Hin as (bias & Heq & Hbias). exists cat, bias. auto.
    - intros (cat & bias & Hcat & Hbias & Heq). exists cat. split; [assumption|].
      apply shas_true, in_map_iff. exists bias. auto. }
  rewrite Hcat. tauto.
Qed.

(** The rows built from the loop carry the bias tag exactly when the bias
    applies to their product. *)
Lemma blend_top_bias_tag c st opts row :
  In row (fst (blend_top c st opts)) ->
  exists p,
    br_product row = Some p
    /\ (In "bias_category"%string (br_reasons row) <-> bias_applies opts p).
Proof.
  unfold blend_top.
  pose proof (blend_signals_untagged st opts) as Hun.
  destruct (blend_signals st opts) as [[[content cf] reasons] st1].
  simpl in *. rewrite in_map_iff. intros (x & <- & Hx). simpl.
  apply in_slice0, in_sort_by in Hx.
  rewrite blend_combined_eq in Hx. apply in_map_iff in Hx.
  destruct Hx as (pid & <- & Hpid). apply filter_In in Hpid.
  destruct Hpid as [_ Hkept]. unfold blend_kept in Hkept.
  apply andb_true_iff in Hkept. destruct Hkept as [_ Hhas].
  unfold ohas in Hhas. simpl.
  destruct (oget pid (byId c)) as [p|] eqn:Hp; [|discriminate].
  exists p. split; [reflexivity|].
  rewrite <- (bias_boost_iff c opts pid Hp).
  destruct (bias_boost c opts pid).
  - rewrite in_sadd. split; auto.
  - split; [intros Hin; destruct (Hun pid Hin) | discriminate].
Qed.

(** C7, amended.  On the rows built from the blending loop, the tag
    "bias_category" is present if and only if [beta > 0], the bias set is
    not empty and a category of the row's product matches a bias category
    up to case.  These are the rows [recommendBlend] returns unless the loop
    leaves nothing and a user id is given; the rows of that popularity
    fallback carry the single tag "popular". *)
Theorem bias_tag_iff_bias_applies st opts :
  let c := fst (ensureCache st) in
  let top := fst (blend_top c (snd (ensureCache st)) opts) in
  (forall row,
      In row top ->
      exists p,
        br_product row = Some p
        /\ (In "bias_category"%string (br_reasons row) <-> bias_applies opts p))
  /\ fst (recommendBlend st opts)
     = match top, given (userId opts) with
       | [], Some _ => blend_fallback c (snd (ensureCache st)) opts
       | _, _ => top
       end
  /\ (forall row,
        In row (blend_fallback c (snd (ensureCache st)) opts) ->
        br_reasons row = ["popular"%string]).
Proof.
  intros c top. split; [intros row; apply blend_top_bias_tag|]. split.
  - unfold recommendBlend. subst c top.
    pose proof (ensureCache_cache st) as Hc.
    destruct (ensureCache st) as [c st0]. simpl in *.
    pose proof (blend_signals_state st0 opts Hc) as Hs.
    unfold blend_top in *.
    destruct (blend_signals st0 opts) as [[[content cf] reasons] st1].
    simpl in Hs. subst st1. simpl.
    destruct (map _ _); destruct (given (userId opts)); reflexivity.
  - intros row. unfold blend_fallback. rewrite in_map_iff.
    intros (e & <- & _). reflexivity.
Qed.
End BiasTag.

(** C7 fails on the popularity fallback: for user u1 the blend is empty and
    the returned row of p2, whose category "shoes" matches the bias category
    "Shoes" while [beta] is 0.5, carries no "bias_category" tag. *)
Lemma bias_tag_missing_on_fallback :
  exists row p,
    In row (fst (@recommendBlend Example.rt Example.st Example.for_u1_biased))
    /\ br_product row = Some p
    /\ @bias_applies Example.rt Example.for_u1_biased p
    /\ ~ In "bias_category"%string (br_reasons row).
Proof.
  exists {| br_product :=
              Some {| product_id := "p2"; title := "aa aa bb";
                      categories := ["shoes"%string]; price := 10 |};
            br_score := 5; br_reasons := ["popular"%string] |}.
  eexists. split; [vm_compute; auto|]. split; [reflexivity|]. split.
  - split; [exists 0.5%float; split; reflexivity|].
    split; [discriminate|].
    exists "shoes"%string, "Shoes"%string. simpl. auto.
  - simpl. intros [H|[]]. discriminate.
Qed.

(** ** Cosine similarity *)

Section Cosine.

Lemma cosine_sums_left_zero a :
  zero_magnitude a ->
  forall b dot nb, snd (fst (cosine_sums a b dot 0 nb)) = 0%float.
Proof.
  induction 1 as [|x a Hx _ IH]; intros b dot nb; simpl; [reflexivity|].
  destruct (zero_cases x Hx) as [-> | ->]; apply IH.
Qed.

Lemma cosine_sums_right_zero a :
  forall b dot na nb,
    zero_magnitude b -> nb = 0%float \/ nb = nan ->
    let nb' := snd (cosine_sums a b dot na nb) in nb' = 0%float \/ nb' = nan.
Proof.
  induction a as [|x a IH]; intros b dot na nb Hb Hnb; simpl; [exact Hnb|].
  apply IH.
  - destruct Hb; simpl; [constructor | assumption].
  - destruct Hb as [|y b Hy _]; simpl.
    + destruct Hnb as [-> | ->]; auto.
    + destruct (zero_cases y Hy) as [-> | ->]; destruct Hnb as [-> | ->]; auto.
Qed.

Lemma sum_squares_zero (m : omap string float) :
  zero_magnitude (ovalues m) -> sum_squares m = 0%float.
Proof.
  unfold sum_squares, zero_magnitude, ovalues. intros Hm.
  assert (H0 : forall acc, acc = 0%float ->
            fold_left (fun n kv => (n + snd kv * snd kv)%float) m acc = 0%float).
  { induction m as [|[k v] m IH]; intros acc Hacc; simpl; [exact Hacc|].
    inversion Hm as [|? ? Hv Hm']; subst. apply IH; [exact Hm'|].
    simpl in Hv. destruct (zero_cases v Hv) as [-> | ->]; reflexivity. }
  apply H0. reflexivity.
Qed.

Lemma cosine_zero_magnitude a b :
  zero_magnitude a \/ zero_magnitude b -> cosine a b = 0%float.
Proof.
  intros Hz. unfold cosine.
  destruct (cosine_sums a b 0 0 0) as [[dot na] nb] eqn:Hsums.
  destruct Hz as [Ha | Hb].
  - pose proof (cosine_sums_left_zero Ha b 0%float 0%float) as Hna.
    rewrite Hsums in Hna. simpl in Hna. subst na. reflexivity.
  - pose proof (cosine_sums_right_zero a 0%float 0%float Hb (or_introl eq_refl))
      as Hnb.
    rewrite Hsums in Hnb. simpl in Hnb.
    destruct Hnb as [-> | ->]; destruct (truthy na); reflexivity.
Qed.

Lemma cosineSparse_zero_magnitude (a b : omap string float) :
  zero_magnitude (ovalues a) \/ zero_magnitude (ovalues b) ->
  cosineSparse a b = 0%float.
Proof.
  intros Hz. unfold cosineSparse. destruct Hz as [Ha | Hb].
  - rewrite (sum_squares_zero _ Ha). reflexivity.
  - rewrite (sum_squares_zero _ Hb).
    destruct (truthy (sum_squares a)); reflexivity.
Qed.

Lemma cosine_not_nan a b :
  let '(dot, na, nb) := cosine_sums a b 0 0 0 in
  Number_isFinite dot = true ->
  Number_isFinite (sqrt (na * nb)) = true ->
  is_zero_num (sqrt (na * nb)) = false ->
  Number_isNaN (cosine a b) = false.
Proof.
  unfold cosine. destruct (cosine_sums a b 0 0 0) as [[dot na] nb].
  intros Hdot Hfin Hnz.
  destruct (negb (truthy na) || negb (truthy nb)); [reflexivity|].
  apply div_not_nan; assumption.
Qed.

Lemma cosineSparse_not_nan (a b : omap string float) :
  Number_isFinite (sparse_numerator a b) = true ->
  Number_isFinite (sparse_denominator a b) = true ->
  is_zero_num (sparse_denominator a b) = false ->
  Number_isNaN (cosineSparse a b) = false.
Proof.
  unfold cosineSparse, sparse_numerator, sparse_denominator.
  intros Hdot Hfin Hnz.
  destruct (negb (truthy (sum_squares a)) || negb (truthy (sum_squares b)));
    [reflexivity|].
  apply div_not_nan; [|assumption|assumption].
  destruct (osize a <? osize b)%nat; exact Hdot.
Qed.

(** C5, amended.  Both cosine operations are total, and they return 0
    whenever every entry of either operand is a zero.  The result is not NaN
    as long as the accumulated dot product is finite and the divisor
    [Math.sqrt(na * nb)] is finite and not zero, that is unless the sums of
    products overflow or underflow. *)
Theorem cosine_zero_or_number (a b : list float) (ma mb : omap string float) :
  (zero_magnitude a \/ zero_magnitude b -> cosine a b = 0%float)
  /\ (zero_magnitude (ovalues ma) \/ zero_magnitude (ovalues mb) ->
      cosineSparse ma mb = 0%float)
  /\ (let '(dot, na, nb) := cosine_sums a b 0 0 0 in
      Number_isFinite dot = true ->
      Number_isFinite (sqrt (na * nb)) = true ->
      is_zero_num (sqrt (na * nb)) = false ->
      Number_isNaN (cosine a b) = false)
  /\ (Number_isFinite (sparse_numerator ma mb) = true ->
      Number_isFinite (sparse_denominator ma mb) = true ->
      is_zero_num (sparse_denominator ma mb) = false ->
      Number_isNaN (cosineSparse ma mb) = false).
Proof.
  split; [apply cosine_zero_magnitude|].
  split; [apply cosineSparse_zero_magnitude|].
  split; [apply cosine_not_nan | apply cosineSparse_not_nan].
Qed.
End Cosine.

(** Four instances: a zero vector against a non-zero one, and two non-zero
    operands, dense and sparse. *)
Lemma cosine_zero_or_number_witness :
  cosine [0; -0]%float [3; 4]%float = 0%float
  /\ cosineSparse [("p1"%string, 0%float)] [("p1"%string, 5%float)] = 0%float
  /\ Number_isNaN (cosine [1; 2]%float [3; 4]%float) = false
  /\ Number_isNaN
       (cosineSparse [("p1"%string, 5%float); ("p2"%string, 1%float)]
          [("p2"%string, 3%float)]) = false.
Proof.
  destruct (cosine_zero_or_number [0; -0]%float [3; 4]%float
              [("p1"%string, 0%float)] [("p1"%string, 5%float)])
    as (Hdense & Hsparse & _ & _).
  destruct (cosine_zero_or_number [1; 2]%float [3; 4]%float
              [("p1"%string, 5%float); ("p2"%string, 1%float)]
              [("p2"%string, 3%float)])
    as (_ & _ & Hdense' & Hsparse').
  split; [apply Hdense; left; repeat constructor|].
  split; [apply Hsparse; left; repeat constructor|].
  split; [apply Hdense'; reflexivity | apply Hsparse'; reflexivity].
Defined.

(** C5 fails on overflow: the entry 2^700 is finite, its square is not, and
    both operations return NaN (infinity divided by infinity). *)
Lemma cosine_overflow_is_nan :
  Number_isFinite 0x1p700%float = true
  /\ Number_isNaN (cosine [0x1p700%float] [0x1p700%float]) = true
  /\ Number_isNaN
       (cosineSparse [("p1"%string, 0x1p700%float)]
          [("p1"%string, 0x1p700%float)]) = true.
Proof. repeat split; reflexivity. Qed.

(** ** The blend with a single signal *)

Section SingleSignal.
Context {rt : Runtime}.
Variables (c : Cache) (opts : BlendOpts) (seen : list string).
Variables (nContent nCF : omap string float).

Lemma finite_values (m : omap string float) pid :
  Forall (fun v => Number_isFinite v = true) (ovalues m) ->
  Number_isFinite (score_in m pid) = true.
Proof.
  unfold score_in, ovalues. induction m as [|[k v] m IH]; simpl; intros Hm.
  - reflexivity.
  - inversion Hm as [|? ? Hv Hm']; subst.
    destruct (eq_dec pid k); [exact Hv | apply IH, Hm'].
Qed.

Lemma bias_boost_off pid : opt_beta opts = 0%float -> bias_boost c opts pid = false.
Proof. unfold bias_boost. intros ->. reflexivity. Qed.

(** With [alpha = 1] the blended score is the content score, unless both
    are zeros. *)
Lemma mix_score_alpha_one pid :
  opt_alpha opts = 1%float ->
  Number_isFinite (score_in nCF pid) = true ->
  mix_score opts nContent nCF pid = score_in nContent pid
  \/ (is_zero_num (score_in nContent pid) = true
      /\ is_zero_num (mix_score opts nContent nCF pid) = true).
Proof.
  intros Ha Hf. unfold mix_score. fold (score_in nContent pid) (score_in nCF pid).
  rewrite Ha, mul_one_l. change (1 - 1)%float with 0%float.
  pose proof (mul_zero_l _ Hf) as Hz.
  destruct (is_zero_num (score_in nContent pid)) eqn:Hc.
  - right. split; [reflexivity|]. apply (add_zeros _ _ Hz Hc).
  - left. apply add_zero_r; assumption.
Qed.

(** With [alpha = 0] the blended score is the collaborative score, unless
    both are zeros. *)
Lemma mix_score_alpha_zero pid :
  opt_alpha opts = 0%float ->
  Number_isFinite (score_in nContent pid) = true ->
  mix_score opts nContent nCF pid = score_in nCF pid
  \/ (is_zero_num (score_in nCF pid) = true
      /\ is_zero_num (mix_score opts nContent nCF pid) = true).
Proof.
  intros Ha Hf. unfold mix_score. fold (score_in nContent pid) (score_in nCF pid).
  rewrite Ha. change (1 - 0)%float with 1%float. rewrite mul_one_l.
  pose proof (mul_zero_l _ Hf) as Hz.
  destruct (is_zero_num (score_in nCF pid)) eqn:Hc.
  - right. split; [reflexivity|]. apply (add_zeros _ _ Hz Hc).
  - left. apply add_zero_l; assumption.
Qed.

(** When the blended score is [score] up to zeros and no bias applies, the
    loop keeps the ids that a ranking by [score] alone keeps, with [score]
    as their blended score. *)
Lemma single_signal_loop (score : string -> float) reasons union :
  opt_beta opts = 0%float ->
  (forall pid,
      mix_score opts nContent nCF pid = score pid
      \/ (is_zero_num (score pid) = true
          /\ is_zero_num (mix_score opts nContent nCF pid) = true)) ->
  map (fun x => {| br_product := oget (c_product_id x) (byId c);
                   br_score := toFixed4 (c_score x);
                   br_reasons := c_reasons x |})
    (slice0 (opt_limit opts)
       (sort_by by_blend_desc
          (map (blend_candidate c opts nContent nCF reasons)
             (filter (blend_kept c opts seen nContent nCF) union))))
  = ranked_rows c opts seen reasons union score.
Proof.
  intros Hb Hmix. unfold ranked_rows, ranked_ids, rank_by.
  set (elig := fun pid =>
                 negb (blend_excluded opts seen pid)
                 && negb (score pid <=? 0)%float && ohas pid (byId c)).
  set (h := fun pid => {| c_product_id := pid; c_score := score pid;
                          c_reasons := nullish (oget pid reasons) [] |}).
  assert (Hscore : forall pid,
            blend_score c opts nContent nCF pid = mix_score opts nContent nCF pid).
  { intros pid. unfold blend_score. rewrite bias_boost_off by assumption.
    reflexivity. }
  assert (Hleb : forall pid,
            (mix_score opts nContent nCF pid <=? 0)%float = (score pid <=? 0)%float).
  { intros pid. destruct (Hmix pid) as [-> | [Hz Hz']]; [reflexivity|].
    rewrite (zero_leb_zero _ Hz), (zero_leb_zero _ Hz'). reflexivity. }
  assert (Hkept : forall pid, blend_kept c opts seen nContent nCF pid = elig pid).
  { intros pid. unfold blend_kept, elig. rewrite Hscore, Hleb. reflexivity. }
  assert (Hcand : forall pid,
            elig pid = true ->
            blend_candidate c opts nContent nCF reasons pid = h pid).
  { intros pid Hel. unfold blend_candidate, h.
    rewrite bias_boost_off by assumption. rewrite Hscore. f_equal.
    destruct (Hmix pid) as [Heq | [Hz _]]; [exact Heq|].
    unfold elig in Hel. rewrite (zero_leb_zero _ Hz) in Hel.
    rewrite andb_false_r in Hel. discriminate. }
  rewrite (filter_ext _ _ Hkept).
  rewrite (map_ext_in _ h) by (intros pid Hin; apply filter_In in Hin;
                               apply Hcand, Hin).
  rewrite <- (sort_by_map h (fun a b => (0 <? score b - score a)%float)
                by_blend_desc) by reflexivity.
  rewrite <- slice0_map, map_map. reflexivity.
Qed.
End SingleSignal.

Section BlendOrder.
Context {rt : Runtime}.

Lemma opt_alpha_one opts : alpha opts = Some 1%float -> opt_alpha opts = 1%float.
Proof. unfold opt_alpha. intros ->. reflexivity. Qed.

Lemma opt_alpha_zero opts : alpha opts = Some 0%float -> opt_alpha opts = 0%float.
Proof. unfold opt_alpha. intros ->. reflexivity. Qed.

Lemma opt_beta_zero opts :
  nullish (beta opts) 0%float = 0%float -> opt_beta opts = 0%float.
Proof. unfold opt_beta. intros ->. reflexivity. Qed.

Lemma blend_top_rows c st opts :
  fst (blend_top c st opts)
  = map (fun x => {| br_product := oget (c_product_id x) (byId c);
                     br_score := toFixed4 (c_score x);
                     br_reasons := c_reasons x |})
      (slice0 (opt_limit opts)
         (sort_by by_blend_desc
            (blend_combined c st opts (blend_content st opts)
               (blend_cf st opts) (blend_reasons st opts)))).
Proof.
  unfold blend_top, blend_content, blend_cf, blend_reasons.
  destruct (blend_signals st opts) as [[[content cf] reasons] st1].
  reflexivity.
Qed.

(** The rows [recommendBlend] returns: those of the loop, or the popularity
    fallback when the loop leaves nothing and a user id is given. *)
Lemma recommendBlend_rows st opts :
  fst (recommendBlend st opts)
  = match fst (blend_top (fst (ensureCache st)) (snd (ensureCache st)) opts),
          given (userId opts) with
    | [], Some _ =>
        blend_fallback (fst (ensureCache st)) (snd (ensureCache st)) opts
    | top, _ => top
    end.
Proof.
  unfold recommendBlend.
  pose proof (ensureCache_cache st) as Hc.
  destruct (ensureCache st) as [c st0]. simpl in *.
  pose proof (blend_signals_state st0 opts Hc) as Hs.
  unfold blend_top in *.
  destruct (blend_signals st0 opts) as [[[content cf] reasons] st1].
  simpl in Hs. subst st1. simpl.
  destruct (map _ _); destruct (given (userId opts)); reflexivity.
Qed.

(** A ranking by one signal is in descending order of that signal, when
    every score is a number. *)
Lemma ranked_ids_descending c opts seen union (score : string -> float) :
  (forall pid, Number_isNaN (score pid) = false) ->
  descending score (ranked_ids c opts seen union score).
Proof.
  intros Hn. unfold ranked_ids, rank_by.
  set (ids := filter _ union).
  destruct (slice0_prefix (opt_limit opts)
              (sort_by (fun a b => (0 <? score b - score a)%float) ids))
    as [rest Hrest].
  apply descending_prefix with (rest := rest). rewrite <- Hrest.
  apply sort_by_descending. apply Forall_forall. intros pid _. apply Hn.
Qed.

Lemma number_values (m : omap string float) pid :
  Forall (fun v => Number_isNaN v = false) (ovalues m) ->
  Number_isNaN (score_in m pid) = false.
Proof.
  unfold score_in, ovalues. induction m as [|[k v] m IH]; simpl; intros Hm.
  - reflexivity.
  - inversion Hm as [|? ? Hv Hm']; subst.
    destruct (eq_dec pid k); [exact Hv | apply IH, Hm'].
Qed.

(** C8, amended.  With [beta = 0], the rows built from the blending loop
    are a ranking by a single signal: with [alpha = 1] they are the
    candidates ranked by normalised content score (with the comparator and
    the stable sort of the pure content ranking), provided the normalised
    collaborative scores are finite; with [alpha = 0] they are the
    candidates ranked by normalised collaborative score, provided the
    normalised content scores are finite.  Such a ranking is in descending
    order of its signal: no row has a smaller score than a later row, when
    no score is NaN.  These are the rows [recommendBlend] returns unless
    the loop leaves nothing and a user id is given; the popularity fallback
    is ordered by popularity instead. *)
Theorem blend_order_single_signal st opts :
  nullish (beta opts) 0%float = 0%float ->
  let c := fst (ensureCache st) in
  let st0 := snd (ensureCache st) in
  let nContent := normalize01 (blend_content st0 opts) in
  let nCF := normalize01 (blend_cf st0 opts) in
  let union := set_of_list (okeys nContent ++ okeys nCF) in
  let ids := ranked_ids c opts (haveSeen st0 opts) union in
  let ranking :=
    ranked_rows c opts (haveSeen st0 opts) (blend_reasons st0 opts) union in
  (alpha opts = Some 1%float ->
   Forall (fun v => Number_isFinite v = true) (ovalues nCF) ->
   fst (blend_top c st0 opts) = ranking (score_in nContent))
  /\ (alpha opts = Some 0%float ->
      Forall (fun v => Number_isFinite v = true) (ovalues nContent) ->
      fst (blend_top c st0 opts) = ranking (score_in nCF))
  /\ (forall signal,
         Forall (fun v => Number_isNaN v = false) (ovalues signal) ->
         descending (score_in signal) (ids (score_in signal)))
  /\ fst (recommendBlend st opts)
     = match fst (blend_top c st0 opts), given (userId opts) with
       | [], Some _ => blend_fallback c st0 opts
       | top, _ => top
       end.
Proof.
  intros Hbeta c st0 nContent nCF union ids ranking.
  apply opt_beta_zero in Hbeta.
  split; [|split; [|split; [|apply recommendBlend_rows]]].
  - intros Ha Hfin. subst ranking. rewrite blend_top_rows, blend_combined_eq.
    apply single_signal_loop; [exact Hbeta|].
    intros pid. apply mix_score_alpha_one; [apply opt_alpha_one, Ha|].
    apply finite_values, Hfin.
  - intros Ha Hfin. subst ranking. rewrite blend_top_rows, blend_combined_eq.
    apply single_signal_loop; [exact Hbeta|].
    intros pid. apply mix_score_alpha_zero; [apply opt_alpha_zero, Ha|].
    apply finite_values, Hfin.
  - intros signal Hnum. apply ranked_ids_descending.
    intros pid. apply number_values, Hnum.
Qed.
End BlendOrder.

(** User u2 has no vector, so its collaborative scores are the popularity
    counts; with seed s the content candidates are p1 and p2, and p1, whose
    content score is the larger one, comes first. *)
Lemma blend_order_single_signal_witness :
  let c := fst (@ensureCache Example.rt Example.st) in
  let st0 := snd (@ensureCache Example.rt Example.st) in
  let content opts := normalize01 (@blend_content Example.rt st0 opts) in
  let cf opts := normalize01 (@blend_cf Example.rt st0 opts) in
  let union opts := set_of_list (okeys (content opts) ++ okeys (cf opts)) in
  let ids opts :=
    @ranked_ids Example.rt c opts (@haveSeen Example.rt st0 opts) (union opts) in
  let rows opts :=
    @ranked_rows Example.rt c opts (@haveSeen Example.rt st0 opts)
      (@blend_reasons Example.rt st0 opts) (union opts) in
  fst (@blend_top Example.rt c st0 content_only_u2)
  = rows content_only_u2 (score_in (content content_only_u2))
  /\ fst (@blend_top Example.rt c st0 collaborative_only_u2)
     = rows collaborative_only_u2 (score_in (cf collaborative_only_u2))
  /\ descending (score_in (content content_only_u2))
       (ids content_only_u2 (score_in (content content_only_u2)))
  /\ ids content_only_u2 (score_in (content content_only_u2))
     = ["p1"; "p2"]%string.
Proof.
  destruct (@blend_order_single_signal Example.rt Example.st content_only_u2
              eq_refl) as (Hcontent & _ & Hdesc & _).
  destruct (@blend_order_single_signal Example.rt Example.st
              collaborative_only_u2 eq_refl) as (_ & Hcf & _ & _).
  split; [|split; [|split]].
  - apply Hcontent; [reflexivity|]. vm_compute. repeat constructor.
  - apply Hcf; [reflexivity|]. vm_compute. repeat constructor.
  - apply Hdesc. vm_compute. repeat constructor.
  - vm_compute. reflexivity.
Defined.

(** C8 fails on the popularity fallback: with [alpha = 1] and [beta = 0],
    every content candidate of user u1 is dropped as already seen, and the
    rows returned are ordered by popularity: p2 comes before p1 although the
    content score of p1 is the larger one. *)
Lemma content_order_lost_on_fallback :
  alpha Example.for_u1_content_only = Some 1%float
  /\ beta Example.for_u1_content_only = Some 0%float
  /\ map row_pid
       (fst (@recommendBlend Example.rt Example.st
               Example.for_u1_content_only))
     = [Some "p2"; Some "p1"; Some "s"]%string
  /\ exists c1 c2,
       oget "p1"%string
         (@blend_content Example.rt (snd (@ensureCache Example.rt Example.st))
            Example.for_u1_content_only) = Some c1
       /\ oget "p2"%string
            (@blend_content Example.rt
               (snd (@ensureCache Example.rt Example.st))
               Example.for_u1_content_only) = Some c2
       /\ (c2 <? c1)%float = true.
Proof.
  split; [reflexivity|]. split; [reflexivity|].
  split; [vm_compute; reflexivity|].
  eexists. eexists.
  split; [vm_compute; reflexivity|].
  split; [vm_compute; reflexivity|].
  reflexivity.
Qed.

(** ** TF-IDF vectors *)

(** A document without tokens gets the all-zero vector: the norm is floored
    at 1. *)
Lemma weigh_no_tokens size idf : weigh size idf [] [] = repeat 0%float size.
Proof.
  unfold weigh. cbn [fold_left].
  assert (Hnorm : forall n,
            fold_left (fun n v => (n + v * v)%float) (repeat 0%float n) 0%float
            = 0%float).
  { induction n as [|n IH]; simpl; [reflexivity | exact IH]. }
  rewrite Hnorm. change (or_num (Some (sqrt 0)) 1) with 1%float.
  induction size as [|size IH]; simpl; [reflexivity|].
  rewrite IH. reflexivity.
Qed.

(** ** Instances on the example history *)

(** With user u2, seed s and query "aa", the loop keeps p2 and p1; p2 is in
    category "shoes" and its row carries the tag. *)
Lemma bias_tag_iff_bias_applies_witness :
  exists row p,
    hd_error
      (fst (@blend_top Example.rt (fst (@ensureCache Example.rt Example.st))
              (snd (@ensureCache Example.rt Example.st))
              Example.for_u2_biased)) = Some row
    /\ br_product row = Some p
    /\ In "bias_category"%string (br_reasons row)
    /\ @bias_applies Example.rt Example.for_u2_biased p.
Proof.
  destruct (@bias_tag_iff_bias_applies Example.rt Example.st
              Example.for_u2_biased) as (Hrows & _ & _).
  destruct (fst (@blend_top Example.rt (fst (@ensureCache Example.rt Example.st))
                   (snd (@ensureCache Example.rt Example.st))
                   Example.for_u2_biased)) as [|row rows] eqn:Htop;
    [vm_compute in Htop; discriminate|].
  destruct (Hrows row (or_introl eq_refl)) as (p & Hp & Hiff).
  exists row, p. split; [reflexivity|]. split; [exact Hp|].
  assert (Htag : In "bias_category"%string (br_reasons row)).
  { vm_compute in Htop. injection Htop as <- _. simpl. auto 6. }
  split; [exact Htag | apply Hiff, Htag].
Defined.

(** The product p2 of the example history is a catalog product, and the
    rows for user u1 carry their product records. *)
Lemma stored_products_are_catalog_products_witness :
  (exists c,
      _cache Example.st = Some c /\ ohas "p2"%string (byId c) = true)
  /\ Forall (fun row => ur_product row <> None)
       (fst (@recommendForUser Example.rt Example.st "u1" 5))
  /\ Forall (fun row => br_product row <> None)
       (fst (@recommendBlend Example.rt Example.st Example.for_u1)).
Proof.
  destruct (@stored_products_are_catalog_products Example.rt Example.history)
    as (Hstored & Huser & Hblend).
  split; [|split].
  - apply Hstored. left. vm_compute. auto.
  - apply Forall_forall. intros row. apply Huser.
  - apply Forall_forall. intros row. apply Hblend.
Defined.

(** * The rest of the module *)

(** ** Tokens *)

Section Tokens.
Context {rt : Runtime}.

Lemma split_ws_pieces l : forall cur gap,
  Forall (fun c => keep_char c = true) l ->
  Forall (fun c => token_char c = true) cur ->
  Forall (Forall (fun c => token_char c = true)) (split_ws l cur gap).
Proof.
  induction l as [|c l IH]; intros cur gap Hl Hcur; simpl.
  - constructor; [|constructor]. apply Forall_rev, Hcur.
  - inversion Hl as [|? ? Hc Hl']; subst.
    destruct (is_space c) eqn:Hsp.
    + destruct gap; [apply IH; assumption|].
      constructor; [apply Forall_rev, Hcur | apply IH; [assumption | constructor]].
    + apply IH; [assumption|]. constructor; [|assumption].
      unfold token_char. rewrite Hc, Hsp. reflexivity.
Qed.

(** X1.  Every token that [tokenize] returns has at least two characters,
    and each of them is a character the regular expression keeps and that
    is not whitespace: a lower-case letter, a digit, one of the accented
    letters or the double quote. *)
Theorem tokenize_tokens (s : string) :
  Forall (fun t => (2 <= String.length t)%nat
                   /\ Forall (fun c => token_char c = true)
                        (list_ascii_of_string t))
    (tokenize s).
Proof.
  unfold tokenize. apply Forall_forall. intros t Ht.
  apply filter_In in Ht. destruct Ht as [Ht Hlen].
  split; [apply Nat.ltb_lt in Hlen; lia|].
  apply in_map_iff in Ht. destruct Ht as (piece & <- & Hpiece).
  rewrite list_ascii_of_string_of_list_ascii.
  clear Hlen. revert piece Hpiece. apply Forall_forall. apply split_ws_pieces; [|constructor].
  apply Forall_forall. intros c Hc. apply in_map_iff in Hc.
  destruct Hc as (c0 & <- & _). destruct (keep_char c0) eqn:Hk; [exact Hk|].
  reflexivity.
Qed.
End Tokens.

(** Punctuation separates tokens, and a piece of one character is
    dropped. *)
Lemma tokenize_example :
  @tokenize Example.rt "Tenis  Nike-Air, 42 x!"%string
  = ["tenis"; "nike"; "air"; "42"]%string.
Proof. vm_compute. reflexivity. Qed.

(** ** Symmetry of the dense cosine *)

Lemma float_mul_comm x y : (x * y)%float = (y * x)%float.
Proof.
  apply Prim2SF_inj. rewrite !mul_spec. unfold SF64mul, SFmul.
  destruct (Prim2SF x) as [sx|sx| |sx mx ex];
    destruct (Prim2SF y) as [sy|sy| |sy my ey];
    try reflexivity; rewrite (xorb_comm sx sy); try reflexivity.
  rewrite (Pos.mul_comm mx my), (Z.add_comm ex ey). reflexivity.
Qed.

Lemma cosine_sums_swap a : forall b dot na nb,
  List.length a = List.length b ->
  cosine_sums b a dot nb na
  = (let '(d, x, y) := cosine_sums a b dot na nb in (d, y, x)).
Proof.
  induction a as [|x a IH]; intros [|y b] dot na nb Hlen; simpl in *;
    try discriminate; [reflexivity|].
  rewrite IH by lia. rewrite (float_mul_comm y x). reflexivity.
Qed.

(** X2.  The dense cosine is symmetric on vectors of the same length, bit
    for bit: the products and the sums are the same numbers in the same
    order. *)
Theorem cosine_symmetric (a b : list float) :
  List.length a = List.length b -> cosine a b = cosine b a.
Proof.
  intros Hlen. unfold cosine. rewrite (cosine_sums_swap a b 0 0 0 Hlen).
  destruct (cosine_sums a b 0 0 0) as [[dot na] nb].
  rewrite (orb_comm (negb (truthy nb))), (float_mul_comm nb na). reflexivity.
Qed.

(** Two vectors of length two. *)
Lemma cosine_symmetric_witness :
  cosine [1; 2]%float [3; 4]%float = cosine [3; 4]%float [1; 2]%float.
Proof. apply cosine_symmetric. reflexivity. Defined.

(** ** The TF-IDF model *)

Section ArrayLengths.
Context {A : Type}.

Lemma length_array_set i (v : A) a : List.length (array_set i v a) = List.length a.
Proof.
  revert i. induction a as [|x a IH]; intros [|i]; simpl; auto.
Qed.
End ArrayLengths.

Section MapValues.
Context {K V : Type} `{EqDec K}.

Lemma ovalues_oset (P : V -> Prop) (k : K) v (m : omap K V) :
  P v -> Forall P (ovalues m) -> Forall P (ovalues (oset k v m)).
Proof.
  unfold ovalues. intros Hv. induction m as [|[k' v'] m IH]; simpl; intros Hm.
  - constructor; [exact Hv | constructor].
  - inversion Hm as [|? ? Hv' Hm']; subst.
    destruct (eq_dec k k'); simpl; constructor; auto.
Qed.
End MapValues.

Section Vocabulary.
Context {rt : Runtime}.

Lemma numbered_add t (vocab : omap string nat) :
  numbered vocab ->
  numbered (if ohas t vocab then vocab else oset t (osize vocab) vocab)
  /\ forall u, In u (okeys (if ohas t vocab then vocab else oset t (osize vocab) vocab))
               <-> u = t \/ In u (okeys vocab).
Proof.
  intros [Hnum Hnd]. destruct (ohas t vocab) eqn:Ht.
  - split; [split; assumption|]. intros u. apply ohas_true in Ht.
    split; [auto | intros [-> | Hu]; assumption].
  - assert (Hfresh : ~ In t (okeys vocab)).
    { intros Hin. apply ohas_true in Hin. congruence. }
    split.
    + split; [|apply okeys_oset_nodup, Hnd].
      rewrite oset_fresh by exact Hfresh. unfold osize in *.
      rewrite map_app, length_app, Hnum. simpl.
      rewrite Nat.add_1_r, seq_S. reflexivity.
    + intros u. rewrite okeys_oset. tauto.
Qed.

Lemma index_doc_numbered acc toks :
  numbered (fst acc) ->
  numbered (fst (index_doc acc toks))
  /\ forall u, In u (okeys (fst (index_doc acc toks)))
               <-> In u toks \/ In u (okeys (fst acc)).
Proof.
  unfold index_doc. destruct acc as [vocab df]. simpl fst. simpl snd.
  generalize (@nil string) as seen. revert vocab df.
  induction toks as [|t toks IH]; intros vocab df seen Hv; simpl.
  - split; [exact Hv | ]. intros u. split; [intros Hu; right; exact Hu | intros [[] | Hu]; exact Hu].
  - destruct (numbered_add t Hv) as [Hv' Hkeys].
    destruct (shas t seen).
    + destruct (IH _ df seen Hv') as [Hn Hk]. split; [exact Hn|].
      intros u. rewrite Hk, Hkeys. simpl. intuition (subst; auto).
    + destruct (IH _ (oset t (or_num (oget t df) 0 + 1)%float df) (sadd t seen) Hv')
        as [Hn Hk].
      split; [exact Hn|]. intros u. rewrite Hk, Hkeys. simpl. intuition (subst; auto).
Qed.

Lemma index_docs_numbered docs : forall acc,
  numbered (fst acc) ->
  numbered (fst (fold_left index_doc docs acc))
  /\ forall u, In u (okeys (fst (fold_left index_doc docs acc)))
               <-> (exists toks, In toks docs /\ In u toks) \/ In u (okeys (fst acc)).
Proof.
  induction docs as [|toks docs IH]; intros acc Hacc; simpl.
  - split; [exact Hacc|]. intros u. split; [auto | intros [(t & [] & _) | Hu]; exact Hu].
  - destruct (index_doc_numbered acc toks Hacc) as [Hn Hk].
    destruct (IH _ Hn) as [Hn' Hk']. split; [exact Hn'|].
    intros u. rewrite Hk', Hk. split.
    + intros [(t & Ht & Hu) | [Hu | Hu]]; eauto.
    + intros [(t & [<- | Ht] & Hu) | Hu]; eauto.
Qed.

Lemma length_weigh size idf toks tf : List.length (weigh size idf toks tf) = size.
Proof.
  unfold weigh. rewrite length_map.
  assert (Hfold : forall (tf : omap nat float) vec,
            List.length
              (fold_left
                 (fun vec e =>
                    array_set (fst e)
                      (snd e / num_of_nat (List.length toks) * nth (fst e) idf nan)%float
                      vec) tf vec) = List.length vec).
  { clear tf. induction tf as [|e tf IH]; intros vec; simpl; [reflexivity|].
    rewrite IH. apply length_array_set. }
  rewrite Hfold. apply repeat_length.
Qed.

Lemma buildTFIDF_fields products :
  let docs := map (fun p => (product_id p, doc_text p)) products in
  let tokenized := map (fun d => tokenize (snd d)) docs in
  let vi := fold_left index_doc tokenized ([], []) in
  vocab (buildTFIDF products) = fst vi
  /\ idf (buildTFIDF products)
     = fold_left
         (fun idf e =>
            let dfi := or_num (oget (fst e) (snd vi)) 1 in
            array_set (snd e)
              (Math_log ((num_of_nat (List.length docs) + 1) / (dfi + 1)) + 1)%float idf)
         (fst vi) (repeat 0%float (osize (fst vi)))
  /\ vectors (buildTFIDF products)
     = fold_left
         (fun vectors dt =>
            let toks := snd dt in
            oset (fst (fst dt))
              (weigh (osize (fst vi)) (idf (buildTFIDF products)) toks
                 (term_counts (fst vi) toks)) vectors)
         (combine docs tokenized) [].
Proof.
  intros docs tokenized vi. unfold buildTFIDF. fold docs. fold tokenized. fold vi.
  destruct vi as [vocab df]. simpl. auto.
Qed.

Lemma vectors_fold (size : nat) (f : list string -> list float)
    (l : list (string * string * list string)) :
  (forall toks, List.length (f toks) = size) ->
  forall acc : omap string (list float),
    Forall (fun v => List.length v = size) (ovalues acc) -> NoDup (okeys acc) ->
    let m := fold_left (fun vectors dt => oset (fst (fst dt)) (f (snd dt)) vectors) l acc in
    Forall (fun v => List.length v = size) (ovalues m)
    /\ NoDup (okeys m)
    /\ forall pid, In pid (okeys m) <-> In pid (map (fun dt => fst (fst dt)) l) \/ In pid (okeys acc).
Proof.
  intros Hf. induction l as [|dt l IH]; intros acc Hacc Hnd; simpl.
  - split; [exact Hacc|]. split; [exact Hnd|]. intros pid. simpl. tauto.
  - destruct (IH (oset (fst (fst dt)) (f (snd dt)) acc)) as (H1 & H2 & H3).
    + apply ovalues_oset; auto.
    + apply okeys_oset_nodup, Hnd.
    + split; [exact H1|]. split; [exact H2|].
      intros pid. rewrite H3, okeys_oset. intuition (subst; auto).
Qed.

(** The shape of the model [buildTFIDF] returns. *)
Lemma buildTFIDF_facts (products : list Product) :
  let m := buildTFIDF products in
  numbered (vocab m)
  /\ (forall t, In t (okeys (vocab m))
                <-> exists p, In p products /\ In t (tokenize (doc_text p)))
  /\ List.length (idf m) = osize (vocab m)
  /\ Forall (fun v => List.length v = osize (vocab m)) (ovalues (vectors m))
  /\ NoDup (okeys (vectors m))
  /\ (forall pid, In pid (okeys (vectors m)) <-> In pid (map product_id products)).
Proof.
  intros m. subst m.
  destruct (buildTFIDF_fields products) as (Hvocab & Hidf & Hvec).
  set (docs := map (fun p => (product_id p, doc_text p)) products) in *.
  set (tokenized := map (fun d => tokenize (snd d)) docs) in *.
  destruct (index_docs_numbered tokenized ([], [])) as [Hnum Hkeys].
  { split; [reflexivity | constructor]. }
  rewrite <- Hvocab in Hnum, Hkeys.
  split; [exact Hnum|]. split.
  { intros t. rewrite Hkeys. simpl. subst tokenized docs. rewrite map_map. simpl.
    split.
    - intros [(toks & Htoks & Ht) | []]. apply in_map_iff in Htoks.
      destruct Htoks as (p & <- & Hp). eauto.
    - intros (p & Hp & Ht). left. exists (tokenize (doc_text p)).
      split; [|exact Ht]. apply in_map_iff. eauto. }
  assert (Hlen : List.length (idf (buildTFIDF products)) = osize (vocab (buildTFIDF products))).
  { rewrite Hidf, <- Hvocab.
    apply (fold_left_invariant
             (fun idf : list float => List.length idf = osize (vocab (buildTFIDF products)))).
    - apply repeat_length.
    - intros acc e _ Hacc. cbv zeta. rewrite length_array_set. exact Hacc. }
  split; [exact Hlen|].
  rewrite Hvec, <- Hvocab.
  destruct (@vectors_fold (osize (vocab (buildTFIDF products)))
              (fun toks => weigh (osize (vocab (buildTFIDF products)))
                             (idf (buildTFIDF products)) toks
                             (term_counts (vocab (buildTFIDF products)) toks))
              (combine docs tokenized)) with (acc := @nil (string * list float))
    as (H1 & H2 & H3).
  - intros toks. apply length_weigh.
  - constructor.
  - constructor.
  - split; [exact H1|]. split; [exact H2|].
    intros pid. rewrite H3. simpl.
    assert (Hids : map (fun dt : string * string * list string => fst (fst dt))
                     (combine docs tokenized) = map product_id products).
    { subst tokenized docs. clear. induction products as [|p ps IH]; simpl;
        [reflexivity | f_equal; exact IH]. }
    rewrite Hids. tauto.
Qed.

Lemma shas_app (k : string) s1 s2 : shas k (s1 ++ s2) = shas k s1 || shas k s2.
Proof.
  induction s1 as [|x s1 IH]; simpl; [reflexivity|].
  destruct (eq_dec k x); [reflexivity | exact IH].
Qed.

Lemma filter_not_in_sadd (x : string) acc (l : list string) :
  filter (fun y => negb (shas y (sadd x acc))) l
  = filter (fun y => negb (shas y acc))
      (filter (fun y => negb (String.eqb y x)) l).
Proof.
  induction l as [|y l IH]; cbn [filter]; [reflexivity|].
  assert (Hy : negb (shas y (sadd x acc))
               = negb (String.eqb y x) && negb (shas y acc)).
  { unfold sadd. destruct (shas x acc) eqn:Hx.
    - destruct (String.eqb_spec y x) as [->|Hne]; [rewrite Hx|]; reflexivity.
    - rewrite shas_app. cbn [shas].
      destruct (String.eqb_spec y x) as [->|Hne].
      + destruct (eq_dec x x) as [_|Hn]; [|congruence].
        rewrite orb_true_r. reflexivity.
      + destruct (eq_dec y x) as [Heq|_]; [congruence|].
        rewrite orb_false_r. reflexivity. }
  rewrite Hy. destruct (String.eqb y x); cbn [negb andb filter]; [exact IH|].
  destruct (shas y acc); cbn [negb]; rewrite IH; reflexivity.
Qed.

(** Adding the elements of a list to a [Set] one by one appends its new
    elements in the order of their first occurrence. *)
Lemma fold_sadd_first_occurrences (l : list string) : forall acc,
  fold_left (fun s k => sadd k s) l acc
  = acc ++ filter (fun y => negb (shas y acc)) (first_occurrences l).
Proof.
  induction l as [|x l IH]; intros acc; cbn [fold_left first_occurrences filter].
  - symmetry. apply app_nil_r.
  - rewrite IH, filter_not_in_sadd. unfold sadd.
    destruct (shas x acc); cbn [negb]; [reflexivity|].
    rewrite <- app_assoc. reflexivity.
Qed.

Lemma ohas_shas (t : string) (vocab : omap string nat) :
  ohas t vocab = shas t (okeys vocab).
Proof.
  unfold ohas. induction vocab as [|[k v] vocab IH]; simpl; [reflexivity|].
  destruct (eq_dec t k); [reflexivity | exact IH].
Qed.

(** [if (!vocab.has(t)) vocab.set(t, vocab.size)] adds [t] to the keys as to
    a [Set]. *)
Lemma okeys_add_term t (vocab : omap string nat) :
  okeys (if ohas t vocab then vocab else oset t (osize vocab) vocab)
  = sadd t (okeys vocab).
Proof.
  unfold sadd. rewrite <- ohas_shas. destruct (ohas t vocab) eqn:Ht; [reflexivity|].
  rewrite oset_fresh.
  - unfold okeys. rewrite map_app. reflexivity.
  - intros Hin. apply ohas_true in Hin. congruence.
Qed.

Lemma index_doc_keys acc toks :
  okeys (fst (index_doc acc toks))
  = fold_left (fun s k => sadd k s) toks (okeys (fst acc)).
Proof.
  unfold index_doc. destruct acc as [vocab df]. cbn [fst snd].
  generalize (@nil string) as seen. revert vocab df.
  induction toks as [|t toks IH]; intros vocab df seen; cbn [fold_left].
  - reflexivity.
  - rewrite <- okeys_add_term.
    destruct (shas t seen); apply IH.
Qed.

Lemma index_docs_keys docs : forall acc,
  okeys (fst (fold_left index_doc docs acc))
  = fold_left (fun s k => sadd k s) (List.concat docs) (okeys (fst acc)).
Proof.
  induction docs as [|toks docs IH]; intros acc; cbn [fold_left List.concat].
  - reflexivity.
  - rewrite IH, index_doc_keys, fold_left_app. reflexivity.
Qed.

(** The terms of the vocabulary, in the order of the map: the tokens of the
    documents, in the order of their first occurrence. *)
Lemma buildTFIDF_terms (products : list Product) :
  okeys (vocab (buildTFIDF products))
  = first_occurrences
      (List.concat (map (fun p => tokenize (doc_text p)) products)).
Proof.
  destruct (buildTFIDF_fields products) as (Hvocab & _).
  rewrite Hvocab, index_docs_keys, fold_sadd_first_occurrences, map_map.
  cbn [fst okeys map app snd].
  induction (first_occurrences _) as [|x l IH]; cbn [filter shas negb];
    [reflexivity | f_equal; exact IH].
Qed.

(** X3.  In the model that [buildTFIDF] returns, the terms of the
    vocabulary are the tokens of the product documents, taken document by
    document in catalog order, each at the place of its first occurrence,
    and they are numbered 0, 1, 2, ... in that order; [idf] and every
    stored vector have one entry for each term, and so has the vector of
    any query text; there is one vector for each product id of the catalog
    and for no other id. *)
Theorem buildTFIDF_shape (products : list Product) :
  let m := buildTFIDF products in
  okeys (vocab m)
  = first_occurrences
      (List.concat (map (fun p => tokenize (doc_text p)) products))
  /\ numbered (vocab m)
  /\ (forall t, In t (okeys (vocab m))
                <-> exists p, In p products /\ In t (tokenize (doc_text p)))
  /\ List.length (idf m) = osize (vocab m)
  /\ Forall (fun v => List.length v = osize (vocab m)) (ovalues (vectors m))
  /\ (forall text, List.length (getVectorFromText text m) = osize (vocab m))
  /\ NoDup (okeys (vectors m))
  /\ (forall pid, In pid (okeys (vectors m)) <-> In pid (map product_id products)).
Proof.
  intros m. subst m.
  destruct (buildTFIDF_facts products) as (H1 & H2 & H3 & H4 & H5 & H6).
  split; [apply buildTFIDF_terms|].
  split; [exact H1|]. split; [exact H2|]. split; [exact H3|].
  split; [exact H4|]. split; [|split; [exact H5 | exact H6]].
  intros text. unfold getVectorFromText. rewrite length_weigh. exact H3.
Qed.
End Vocabulary.

(** ** The catalog snapshot *)

Section MapOfList.
Context {K V : Type} `{EqDec K}.

Lemma oget_omap_of_list (k : K) (l : list (K * V)) :
  oget k (omap_of_list l) = last_entry k l.
Proof.
  unfold omap_of_list, last_entry.
  induction l as [|[k' v'] l IH] using rev_ind; [reflexivity|].
  rewrite fold_left_app, rev_unit. simpl.
  destruct (eq_dec k k') as [->|Hne].
  - apply oget_oset_eq.
  - rewrite oget_oset_neq by exact Hne. exact IH.
Qed.

Lemma okeys_omap_of_list (l : list (K * V)) :
  NoDup (okeys (omap_of_list l))
  /\ forall k, In k (okeys (omap_of_list l)) <-> In k (map fst l).
Proof.
  unfold omap_of_list.
  induction l as [|[k' v'] l [IHnd IH]] using rev_ind.
  - split; [constructor | tauto].
  - rewrite fold_left_app. simpl. split; [apply okeys_oset_nodup, IHnd|].
    intros k. rewrite okeys_oset, IH, map_app, in_app_iff. simpl.
    intuition (subst; auto).
Qed.
End MapOfList.

Lemma last_entry_products pid (ps : list Product) :
  last_entry pid (map (fun p => (product_id p, p)) ps) = last_product pid ps.
Proof.
  unfold last_entry, last_product. rewrite <- map_rev.
  induction (rev ps) as [|p l IH]; simpl; [reflexivity|].
  destruct (eq_dec pid (product_id p)) as [Heq|Hne].
  - rewrite Heq, String.eqb_refl. reflexivity.
  - apply String.eqb_neq in Hne. rewrite Hne. exact IH.
Qed.

Lemma last_product_some pid ps p :
  last_product pid ps = Some p -> In p ps /\ product_id p = pid.
Proof.
  unfold last_product. intros Hf. apply find_some in Hf.
  destruct Hf as [Hin Heq]. apply in_rev in Hin. apply String.eqb_eq in Heq. auto.
Qed.

Lemma last_product_none pid ps :
  last_product pid ps = None <-> ~ In pid (map product_id ps).
Proof.
  unfold last_product. split.
  - intros Hf Hin. apply in_map_iff in Hin. destruct Hin as (p & <- & Hp).
    apply in_rev in Hp. apply (find_none _ _ Hf p) in Hp.
    rewrite String.eqb_refl in Hp. discriminate.
  - intros Hni. destruct (find _ _) as [p|] eqn:Hf; [|reflexivity].
    apply find_some in Hf. destruct Hf as [Hin Heq]. apply in_rev in Hin.
    apply String.eqb_eq in Heq. exfalso. apply Hni. rewrite Heq. apply in_map, Hin.
Qed.

Section Catalog.
Context {rt : Runtime}.

Lemma byId_lookup pid :
  oget pid (byId initRecommender) = last_product pid loadCatalog.
Proof.
  unfold initRecommender. simpl. rewrite oget_omap_of_list.
  apply last_entry_products.
Qed.

Lemma reachable_cache ops : fst (ensureCache (run ops)) = initRecommender.
Proof. apply ensureCache_from_catalog, reachable_invariants. Qed.

(** X4.  After any sequence of operations the cache is the snapshot of the
    catalog file: [listProducts] returns the catalog as loaded; [byId] maps
    an id to the last catalog product with that id, so a product it returns
    is a catalog product with the id asked for, and it has an entry exactly
    for the catalog ids; the TF-IDF vectors have the same ids. *)
Theorem catalog_snapshot (ops : list Op) :
  let c := fst (ensureCache (run ops)) in
  fst (listProducts (run ops)) = loadCatalog
  /\ products c = loadCatalog
  /\ (forall pid, oget pid (byId c) = last_product pid loadCatalog)
  /\ (forall pid p, oget pid (byId c) = Some p ->
                    In p loadCatalog /\ product_id p = pid)
  /\ (forall pid, ohas pid (byId c) = true <-> In pid (map product_id loadCatalog))
  /\ (forall pid, ohas pid (vectors (model c)) = ohas pid (byId c)).
Proof.
  intros c. subst c. unfold listProducts.
  pose proof (reachable_cache ops) as Hc.
  destruct (ensureCache (run ops)) as [c st0]. simpl in *. subst c.
  split; [reflexivity|]. split; [reflexivity|].
  split; [apply byId_lookup|].
  split; [intros pid p; rewrite byId_lookup; apply last_product_some|].
  assert (Hkeys : forall pid, ohas pid (byId initRecommender) = true
                              <-> In pid (map product_id loadCatalog)).
  { intros pid. unfold ohas. rewrite byId_lookup.
    pose proof (last_product_none pid loadCatalog) as Hn.
    destruct (last_product pid loadCatalog).
    - split; [intros _|reflexivity].
      destruct (in_dec string_dec pid (map product_id loadCatalog)) as [Hin|Hni];
        [exact Hin|]. apply Hn in Hni. discriminate.
    - split; [discriminate|]. intros Hin. exfalso. apply Hn; auto. }
  split; [exact Hkeys|].
  intros pid.
  destruct (buildTFIDF_facts loadCatalog) as (_ & _ & _ & _ & _ & Hv).
  specialize (Hv pid). rewrite <- ohas_true in Hv. rewrite <- Hkeys in Hv.
  change (vectors (model initRecommender)) with (vectors (buildTFIDF loadCatalog)).
  destruct (ohas pid (vectors (buildTFIDF loadCatalog)));
    destruct (ohas pid (byId initRecommender)); intuition congruence.
Qed.
End Catalog.

(** ** Content rankings *)

Section SortFacts.
Context {A : Type}.

Lemma sort_by_unordered (after : A -> A -> bool) (l : list A) :
  (forall a b, In a l -> In b l -> after a b = false) -> sort_by after l = l.
Proof.
  induction l as [|x l IH]; intros Hno; simpl; [reflexivity|].
  rewrite IH by (intros a b Ha Hb; apply Hno; simpl; auto).
  destruct l as [|y l]; simpl; [reflexivity|].
  rewrite Hno by (simpl; auto). reflexivity.
Qed.

Lemma filter_all (l : list A) : filter (fun _ => true) l = l.
Proof. induction l as [|x l IH]; simpl; [reflexivity | f_equal; exact IH]. Qed.
End SortFacts.

Section ContentRanking.
Context {rt : Runtime}.

Lemma catalog_vectors p :
  In p loadCatalog ->
  exists v, oget (product_id p) (vectors (model initRecommender)) = Some v.
Proof.
  intros Hp.
  destruct (buildTFIDF_facts loadCatalog) as (_ & _ & _ & _ & _ & Hv).
  assert (Hin : In (product_id p) (okeys (vectors (buildTFIDF loadCatalog))))
    by (apply Hv, in_map, Hp).
  apply oget_in_keys in Hin.
  change (vectors (model initRecommender)) with (vectors (buildTFIDF loadCatalog)).
  destruct (oget (product_id p) (vectors (buildTFIDF loadCatalog))) as [v|];
    [eauto | congruence].
Qed.

(** The array [scores] of a content ranking: one entry for each candidate
    product. *)
Lemma content_scores (base : list float) (keep : Product -> bool) ps :
  (forall p, In p ps -> In p loadCatalog) ->
  let scores :=
    flat_map
      (fun p =>
         if keep p
         then match oget (product_id p) (vectors (model initRecommender)) with
              | None => []
              | Some v => [{| sc_product := p; sc_score := cosine base v |}]
              end
         else [])
      ps in
  map sc_product scores = filter keep ps
  /\ Forall (fun s =>
               exists v,
                 oget (product_id (sc_product s)) (vectors (model initRecommender))
                 = Some v
                 /\ sc_score s = cosine base v) scores.
Proof.
  induction ps as [|p ps IH]; intros Hps; cbn [flat_map filter].
  - split; constructor.
  - destruct IH as [IH1 IH2]; [intros q Hq; apply Hps; simpl; auto|].
    destruct (keep p); [|split; assumption].
    destruct (catalog_vectors p) as [v Hv]; [apply Hps; simpl; auto|].
    rewrite Hv. cbn [app map sc_product]. split; [f_equal; exact IH1|].
    constructor; [|exact IH2]. cbn [sc_product sc_score]. eauto.
Qed.

Lemma ranking_of_scores (base : list float) among (scores : list Scored) :
  map sc_product scores = among ->
  Forall (fun s =>
            exists v,
              oget (product_id (sc_product s)) (vectors (model initRecommender))
              = Some v
              /\ sc_score s = cosine base v) scores ->
  content_ranking base among (sort_by by_score_desc scores).
Proof.
  intros Hmap Hscores.
  pose proof (sort_by_perm by_score_desc scores) as Hperm.
  unfold content_ranking.
  split; [rewrite <- Hmap; apply Permutation_map, Hperm|].
  split; [apply (Permutation_Forall (Permutation_sym Hperm)), Hscores|].
  intros Hnum. apply (sort_by_descending sc_score).
  apply (Permutation_Forall Hperm), Hnum.
Qed.

Lemma recommendByQuery_reachable ops query limit :
  fst (recommendByQuery (run ops) query limit)
  = round_scores
      (slice0 limit
         (sort_by by_score_desc
            (flat_map
               (fun p =>
                  if (fun _ : Product => true) p
                  then match oget (product_id p) (vectors (model initRecommender)) with
                       | None => []
                       | Some v =>
                           [{| sc_product := p;
                               sc_score :=
                                 cosine (getVectorFromText query (model initRecommender)) v |}]
                       end
                  else [])
               loadCatalog))).
Proof.
  unfold recommendByQuery. pose proof (reachable_cache ops) as Hc.
  destruct (ensureCache (run ops)) as [c st0]. cbn [fst] in Hc. subst c. reflexivity.
Qed.

(** X5.  After any sequence of operations, [recommendByQuery] returns the
    first [limit] rows ([slice(0, limit)]) of a ranking of the whole
    catalog, with the scores rounded by [toFixed(4)]: every catalog product
    appears once in the ranking, with the cosine between the query vector
    and its TF-IDF vector, and the ranking is in descending order of that
    cosine when no score is NaN. *)
Theorem recommendByQuery_ranking (ops : list Op) (query : string) (limit : float) :
  exists ranked,
    fst (recommendByQuery (run ops) query limit)
    = round_scores (slice0 limit ranked)
    /\ content_ranking (getVectorFromText query (model initRecommender))
         loadCatalog ranked.
Proof.
  rewrite recommendByQuery_reachable.
  destruct (content_scores (getVectorFromText query (model initRecommender))
              (fun _ => true) loadCatalog (fun p Hp => Hp)) as [Hmap Hscores].
  rewrite filter_all in Hmap.
  eexists. split; [reflexivity|].
  apply ranking_of_scores; assumption.
Qed.

Lemma recommendByProductId_reachable ops productId limit :
  fst (recommendByProductId (run ops) productId limit)
  = match oget (canon productId) (vectors (model initRecommender)) with
    | None => []
    | Some baseVec =>
      round_scores
        (slice0 limit
           (sort_by by_score_desc
              (flat_map
                 (fun p =>
                    if negb (String.eqb (product_id p) (canon productId))
                    then match oget (product_id p) (vectors (model initRecommender)) with
                         | None => []
                         | Some v =>
                             [{| sc_product := p; sc_score := cosine baseVec v |}]
                         end
                    else [])
                 loadCatalog)))
    end.
Proof.
  unfold recommendByProductId. pose proof (reachable_cache ops) as Hc.
  destruct (ensureCache (run ops)) as [c st0]. cbn [fst] in Hc. subst c.
  cbn beta iota zeta.
  destruct (oget (canon productId) (vectors (model initRecommender))); [|reflexivity].
  cbn [fst]. do 3 f_equal. apply flat_map_ext. intros p.
  destruct (string_dec (product_id p) (canon productId)) as [Heq|Hne].
  - rewrite Heq, String.eqb_refl. reflexivity.
  - apply String.eqb_neq in Hne. rewrite Hne. reflexivity.
Qed.

(** X6.  After any sequence of operations, [recommendByProductId] returns
    nothing for an id that, trimmed and in lower case, is not a catalog id.
    For a catalog id it returns the first [limit] rows ([slice(0, limit)])
    of a ranking of the other products, with the scores rounded by
    [toFixed(4)]: each catalog product with another id appears once in the
    ranking, with the cosine between the vector of the seed and its own,
    and the ranking is in descending order of that cosine when no score is
    NaN; the seed itself is never returned. *)
Theorem recommendByProductId_ranking (ops : list Op) (productId : string)
    (limit : float) :
  let pid := canon productId in
  let rows := fst (recommendByProductId (run ops) productId limit) in
  match oget pid (vectors (model initRecommender)) with
  | None => ~ In pid (map product_id loadCatalog) /\ rows = []
  | Some baseVec =>
      In pid (map product_id loadCatalog)
      /\ Forall (fun row => product_id (sc_product row) <> pid) rows
      /\ exists ranked,
           rows = round_scores (slice0 limit ranked)
           /\ content_ranking baseVec
                (filter (fun p => negb (String.eqb (product_id p) pid)) loadCatalog)
                ranked
  end.
Proof.
  intros pid rows. subst rows. rewrite recommendByProductId_reachable. fold pid.
  destruct (buildTFIDF_facts loadCatalog) as (_ & _ & _ & _ & _ & Hv).
  specialize (Hv pid). rewrite <- oget_in_keys in Hv.
  change (vectors (buildTFIDF loadCatalog)) with (vectors (model initRecommender)) in Hv.
  destruct (oget pid (vectors (model initRecommender))) as [baseVec|].
  - split; [apply Hv; discriminate|].
    destruct (content_scores baseVec
                (fun p => negb (String.eqb (product_id p) pid)) loadCatalog
                (fun p Hp => Hp)) as [Hmap Hscores].
    pose proof (@ranking_of_scores _ _ _ Hmap Hscores) as Hrank.
    split; [|eexists; split; [reflexivity | exact Hrank]].
    apply Forall_forall. intros row Hrow. unfold round_scores in Hrow.
    apply in_map_iff in Hrow. destruct Hrow as (s & <- & Hs).
    cbn [sc_product]. apply in_slice0 in Hs.
    destruct Hrank as (Hperm & _).
    apply (in_map sc_product) in Hs.
    apply (Permutation_in _ Hperm), filter_In in Hs. destruct Hs as [_ Hne].
    apply negb_true_iff, String.eqb_neq in Hne. exact Hne.
  - split; [|reflexivity]. intros Hin. apply Hv in Hin. congruence.
Qed.
End ContentRanking.

(** ** Queries without a known word *)

Section QueryVector.
Context {rt : Runtime}.

Lemma term_counts_unknown (vocab : omap string nat) toks :
  Forall (fun t => oget t vocab = None) toks -> term_counts vocab toks = [].
Proof.
  unfold term_counts.
  induction 1 as [|t toks Ht _ IH]; simpl; [reflexivity|].
  rewrite Ht. exact IH.
Qed.

Lemma weigh_no_counts size idf toks : weigh size idf toks [] = repeat 0%float size.
Proof.
  unfold weigh. cbn [fold_left].
  assert (Hnorm : forall n,
            fold_left (fun n v => (n + v * v)%float) (repeat 0%float n) 0%float
            = 0%float).
  { induction n as [|n IH]; simpl; [reflexivity | exact IH]. }
  rewrite Hnorm. change (or_num (Some (sqrt 0)) 1) with 1%float.
  induction size as [|size IH]; simpl; [reflexivity|].
  rewrite IH. reflexivity.
Qed.

Lemma zero_magnitude_repeat n : zero_magnitude (repeat 0%float n).
Proof. induction n; simpl; constructor; auto. Qed.

Lemma zero_scores (scores : list Scored) :
  Forall (fun s => sc_score s = 0%float) scores ->
  scores = map (fun p => {| sc_product := p; sc_score := 0 |}) (map sc_product scores).
Proof.
  induction 1 as [|[p x] scores Hs _ IH]; simpl in *; [reflexivity|].
  subst x. f_equal. exact IH.
Qed.

(** X7.  A query none of whose tokens is in the vocabulary (an empty
    query, or unknown words only) gets the all-zero vector, and
    [recommendByQuery] then returns the first [limit] products of the
    catalog, in the order of the catalog, each with score 0. *)
Theorem recommendByQuery_unknown_words (ops : list Op) (query : string)
    (limit : float) :
  Forall (fun t => oget t (vocab (model initRecommender)) = None)
    (tokenize query) ->
  getVectorFromText query (model initRecommender)
  = repeat 0%float (List.length (idf (model initRecommender)))
  /\ fst (recommendByQuery (run ops) query limit)
     = map (fun p => {| sc_product := p; sc_score := toFixed4 0 |})
         (slice0 limit loadCatalog).
Proof.
  intros Hunknown.
  assert (Hq : getVectorFromText query (model initRecommender)
               = repeat 0%float (List.length (idf (model initRecommender)))).
  { unfold getVectorFromText. rewrite term_counts_unknown by exact Hunknown.
    apply weigh_no_counts. }
  split; [exact Hq|].
  rewrite recommendByQuery_reachable.
  destruct (content_scores (getVectorFromText query (model initRecommender))
              (fun _ => true) loadCatalog (fun p Hp => Hp)) as [Hmap Hscores].
  rewrite filter_all in Hmap. cbv beta in Hmap, Hscores.
  set (scores := flat_map _ loadCatalog) in *.
  assert (Hzero : Forall (fun s => sc_score s = 0%float) scores).
  { eapply Forall_impl; [|exact Hscores]. intros s (v & _ & ->).
    apply cosine_zero_magnitude. left. rewrite Hq. apply zero_magnitude_repeat. }
  rewrite (@zero_scores scores Hzero), Hmap.
  rewrite sort_by_unordered.
  - rewrite <- slice0_map. unfold round_scores. rewrite map_map. reflexivity.
  - intros a b Ha Hb. apply in_map_iff in Ha, Hb.
    destruct Ha as (pa & <- & _). destruct Hb as (pb & <- & _). reflexivity.
Qed.
End QueryVector.

(** The words zz and top are not in the vocabulary of the example
    catalog. *)
Lemma recommendByQuery_unknown_words_witness :
  @getVectorFromText Example.rt "zz top"%string
    (model (@initRecommender Example.rt))
  = repeat 0%float (List.length (idf (model (@initRecommender Example.rt))))
  /\ fst (@recommendByQuery Example.rt (@run Example.rt Example.history)
            "zz top"%string 2%float)
     = map (fun p => {| sc_product := p; sc_score := @toFixed4 Example.rt 0 |})
         (slice0 2%float (@loadCatalog Example.rt)).
Proof.
  apply (@recommendByQuery_unknown_words Example.rt Example.history
           "zz top"%string 2%float).
  vm_compute. repeat constructor.
Defined.

(** ** Events and queries *)

Section Events.
Context {rt : Runtime}.

(** X8.  An event whose canonical product id is in the catalog is answered
    with [{ ok: true }]; it appends one interaction, with the canonical ids
    and the given timestamp or else the current time, and adds
    [WEIGHT[type]] to the entry of that user at that product, creating the
    entry when there is none; every other entry and every other user vector
    stays as it was. *)
Theorem registerEvent_known_product (st : State) (ev : Interaction) (now : float) :
  ohas (canon (ev_product_id ev)) (byId (fst (ensureCache st))) = true ->
  let u := canon (ev_user_id ev) in
  let p := canon (ev_product_id ev) in
  let st' := snd (registerEvent st ev now) in
  fst (registerEvent st ev now) = {| ok := true; ignored := None |}
  /\ interactions st'
     = interactions st
       ++ [{| ev_user_id := u; ev_product_id := p; ev_type := ev_type ev;
              ev_ts := Some (nullish (ev_ts ev) now) |}]
  /\ user_entry st' u p
     = Some (or_zero (user_entry st u p) + WEIGHT (ev_type ev))%Z
  /\ (forall u' p', u' <> u \/ p' <> p ->
                    user_entry st' u' p' = user_entry st u' p')
  /\ (forall u', u' <> u ->
                 oget u' (userVectors st') = oget u' (userVectors st)).
Proof.
  intros Hk u p st'. subst st'. rewrite registerEvent_accepted by exact Hk.
  unfold registered, user_entry. cbn [fst snd interactions userVectors].
  fold u p.
  split; [reflexivity|]. split; [reflexivity|].
  split.
  { rewrite !oget_oset_eq. f_equal. f_equal.
    destruct (oget u (userVectors st)); reflexivity. }
  split.
  - intros u' p' Hne. destruct (string_dec u' u) as [->|Hu].
    + rewrite oget_oset_eq. destruct Hne as [Hne|Hne]; [congruence|].
      rewrite oget_oset_neq by exact Hne.
      destruct (oget u (userVectors st)); reflexivity.
    + rewrite oget_oset_neq by exact Hu. reflexivity.
  - intros u' Hu. apply oget_oset_neq, Hu.
Qed.

(** X9.  [recommendByProductId], [recommendByQuery], [listProducts],
    [recommendForUser] and [recommendBlend] never change the event list or
    the user vectors; once the cache is loaded they leave the whole state
    as it is. *)
Theorem queries_leave_store_unchanged (st : State) :
  (forall p l, interactions (snd (recommendByProductId st p l)) = interactions st
               /\ userVectors (snd (recommendByProductId st p l)) = userVectors st)
  /\ (forall q l, interactions (snd (recommendByQuery st q l)) = interactions st
                  /\ userVectors (snd (recommendByQuery st q l)) = userVectors st)
  /\ (interactions (snd (listProducts st)) = interactions st
      /\ userVectors (snd (listProducts st)) = userVectors st)
  /\ (forall u l, interactions (snd (recommendForUser st u l)) = interactions st
                  /\ userVectors (snd (recommendForUser st u l)) = userVectors st)
  /\ (forall opts, interactions (snd (recommendBlend st opts)) = interactions st
                   /\ userVectors (snd (recommendBlend st opts)) = userVectors st)
  /\ (forall c, _cache st = Some c ->
        (forall p l, snd (recommendByProductId st p l) = st)
        /\ (forall q l, snd (recommendByQuery st q l) = st)
        /\ snd (listProducts st) = st
        /\ (forall u l, snd (recommendForUser st u l) = st)
        /\ (forall opts, snd (recommendBlend st opts) = st)).
Proof.
  pose proof (ensureCache_store st) as Hstore.
  split; [intros p l; rewrite recommendByProductId_state; exact Hstore|].
  split; [intros q l; rewrite recommendByQuery_state; exact Hstore|].
  split; [rewrite listProducts_state; exact Hstore|].
  split; [intros u l; rewrite recommendForUser_state; exact Hstore|].
  split; [intros opts; rewrite recommendBlend_state; exact Hstore|].
  intros c Hc.
  assert (He : snd (ensureCache st) = st) by (rewrite (ensureCache_cached _ Hc); reflexivity).
  split; [intros p l; rewrite recommendByProductId_state; exact He|].
  split; [intros q l; rewrite recommendByQuery_state; exact He|].
  split; [rewrite listProducts_state; exact He|].
  split; [intros u l; rewrite recommendForUser_state; exact He|].
  intros opts; rewrite recommendBlend_state; exact He.
Qed.
End Events.

(** User u1, who bought p2, puts it in the cart: the entry goes from 5
    to 8. *)
Lemma registerEvent_known_product_witness :
  let ev := Example.event " U1 " "P2" cart in
  let st' := snd (@registerEvent Example.rt Example.st ev 7) in
  fst (@registerEvent Example.rt Example.st ev 7) = {| ok := true; ignored := None |}
  /\ interactions st'
     = interactions Example.st
       ++ [{| ev_user_id := "u1"; ev_product_id := "p2"; ev_type := cart;
              ev_ts := Some 7%float |}]
  /\ user_entry st' "u1" "p2" = Some 8%Z.
Proof.
  destruct (@registerEvent_known_product Example.rt Example.st
              (Example.event " U1 " "P2" cart) 7 eq_refl) as (H1 & H2 & H3 & _).
  split; [exact H1|]. split; [exact H2 | exact H3].
Defined.

(** ** Neighbours *)

Section Neighbours.
Context {rt : Runtime}.

Lemma distinct_keys_step st op : distinct_keys st -> distinct_keys (step st op).
Proof.
  intros [Hu Hv].
  destruct op as [| | | |ev now| |].
  5: { simpl.
       destruct (ohas (canon (ev_product_id ev)) (byId (fst (ensureCache st))))
         eqn:Hk.
       - rewrite registerEvent_accepted by assumption.
         unfold distinct_keys, registered. cbn [userVectors].
         split; [apply okeys_oset_nodup, Hu|].
         apply ovalues_oset; [|exact Hv]. apply okeys_oset_nodup.
         destruct (oget (canon (ev_user_id ev)) (userVectors st)) as [vec|] eqn:Hg;
           simpl; [|constructor].
         apply oget_some_in in Hg. rewrite Forall_forall in Hv.
         apply Hv. unfold ovalues. apply (in_map snd) in Hg. exact Hg.
       - rewrite registerEvent_rejected by assumption. simpl.
         destruct (ensureCache_store st) as [_ Hs]. unfold distinct_keys.
         rewrite Hs. split; assumption. }
  all: match goal with
       | |- distinct_keys (step _ ?o) =>
           destruct (step_read_only st (op := o)) as [_ Hs];
           [discriminate | unfold distinct_keys; rewrite Hs; split; assumption]
       end.
Qed.

Lemma distinct_keys_run ops : distinct_keys (run ops).
Proof.
  induction ops as [|op ops IH] using rev_ind.
  - split; constructor.
  - rewrite run_snoc. apply distinct_keys_step, IH.
Qed.

(** The array [sims] of [topKNeighbors]. *)
Lemma neighbour_sims uid target (uvs : omap string (omap string Z)) :
  let sims :=
    flat_map
      (fun e =>
         if string_dec (fst e) uid then []
         else
           let s := cosineSparse (omap_map num_of_Z target)
                      (omap_map num_of_Z (snd e)) in
           if (0 <? s)%float then [(fst e, s)] else [])
      uvs in
  Forall (fun n =>
            fst n <> uid /\ (0 <? snd n)%float = true
            /\ exists vec,
                 In (fst n, vec) uvs
                 /\ snd n = cosineSparse (omap_map num_of_Z target)
                              (omap_map num_of_Z vec)) sims
  /\ (forall u, In u (map fst sims) -> In u (okeys uvs))
  /\ (NoDup (okeys uvs) -> NoDup (map fst sims)).
Proof.
  induction uvs as [|[u vec] uvs (IH1 & IH2 & IH3)]; cbn [flat_map].
  - split; [constructor|]. split; [tauto | intros _; constructor].
  - cbn [fst snd].
    assert (Htail : Forall
              (fun n =>
                 fst n <> uid /\ (0 <? snd n)%float = true
                 /\ exists vec0,
                      In (fst n, vec0) ((u, vec) :: uvs)
                      /\ snd n = cosineSparse (omap_map num_of_Z target)
                                   (omap_map num_of_Z vec0))
              (flat_map
                 (fun e =>
                    if string_dec (fst e) uid then []
                    else
                      let s := cosineSparse (omap_map num_of_Z target)
                                 (omap_map num_of_Z (snd e)) in
                      if (0 <? s)%float then [(fst e, s)] else [])
                 uvs)).
    { eapply Forall_impl; [|exact IH1]. intros n (H1 & H2 & v & H3 & H4).
      split; [exact H1|]. split; [exact H2|]. exists v. split; [right; exact H3 | exact H4]. }
    destruct (string_dec u uid) as [Hu|Hu].
    + split; [exact Htail|]. split.
      * intros x Hx. right. apply IH2, Hx.
      * intros Hnd. inversion Hnd; subst. auto.
    + cbv zeta.
      destruct (0 <? cosineSparse (omap_map num_of_Z target) (omap_map num_of_Z vec))%float
        eqn:Hpos.
      * cbn [app map fst]. split.
        { constructor; [|exact Htail]. cbn [fst snd].
          split; [exact Hu|]. split; [exact Hpos|]. exists vec. split; [left|]; reflexivity. }
        split.
        { intros x [<- | Hx]; [left; reflexivity | right; apply IH2, Hx]. }
        intros Hnd. inversion Hnd as [|? ? Hni Hnd']; subst.
        constructor; [|auto]. intros Hin. apply Hni, IH2, Hin.
      * split; [exact Htail|]. split.
        { intros x Hx. right. apply IH2, Hx. }
        intros Hnd. inversion Hnd; subst. auto.
Qed.

Lemma positive_numbers (l : list (string * float)) :
  Forall (fun n => (0 <? snd n)%float = true) l ->
  Forall (fun n => Number_isNaN (snd n) = false) l.
Proof.
  apply Forall_impl. intros n Hn. apply ltb_numbers in Hn. apply Hn.
Qed.

Lemma topKNeighbors_facts st userId k :
  let uid := canon userId in
  let ns := topKNeighbors st userId k in
  (oget uid (userVectors st) = None -> ns = [])
  /\ Forall (fun n =>
               fst n <> uid /\ (0 <? snd n)%float = true
               /\ exists target vec,
                    oget uid (userVectors st) = Some target
                    /\ In (fst n, vec) (userVectors st)
                    /\ snd n = cosineSparse (omap_map num_of_Z target)
                                 (omap_map num_of_Z vec)) ns
  /\ descending snd ns
  /\ (NoDup (okeys (userVectors st)) -> NoDup (map fst ns)).
Proof.
  intros uid ns. subst ns. unfold topKNeighbors. fold uid.
  destruct (oget uid (userVectors st)) as [target|].
  2: { split; [reflexivity|]. split; [constructor|].
       split; [constructor | intros _; constructor]. }
  destruct (neighbour_sims uid target (userVectors st)) as (H1 & H2 & H3).
  set (sims := flat_map _ (userVectors st)) in *.
  destruct (slice0_prefix k (sort_by by_sim_desc sims)) as [rest Hrest].
  pose proof (sort_by_perm by_sim_desc sims) as Hperm.
  assert (Hsorted : Forall
            (fun n =>
               fst n <> uid /\ (0 <? snd n)%float = true
               /\ exists vec,
                    In (fst n, vec) (userVectors st)
                    /\ snd n = cosineSparse (omap_map num_of_Z target)
                                 (omap_map num_of_Z vec))
            (sort_by by_sim_desc sims))
    by (apply (Permutation_Forall (Permutation_sym Hperm)), H1).
  split; [discriminate|]. split.
  { rewrite Hrest in Hsorted. apply Forall_app in Hsorted.
    destruct Hsorted as [Hs _]. eapply Forall_impl; [|exact Hs].
    intros n (Ha & Hb & vec & Hc & Hd). split; [exact Ha|]. split; [exact Hb|].
    exists target, vec. auto. }
  split.
  { apply descending_prefix with (rest := rest). rewrite <- Hrest.
    apply (sort_by_descending snd). apply positive_numbers.
    eapply Forall_impl; [|exact H1]. intros n Hn. apply Hn. }
  intros Hnd. specialize (H3 Hnd).
  apply (Permutation_NoDup (Permutation_map fst (Permutation_sym Hperm))) in H3.
  rewrite Hrest, map_app in H3. exact (nodup_prefix _ _ H3).
Qed.

(** X10.  After any sequence of operations, [topKNeighbors] returns nothing
    for a user without a vector; otherwise every neighbour is another user
    with a vector, its similarity is the sparse cosine of the two vectors
    and is positive, no user appears twice, and the neighbours are in
    descending order of similarity. *)
Theorem topKNeighbors_spec (ops : list Op) (userId : string) (k : float) :
  let st := run ops in
  let uid := canon userId in
  let ns := topKNeighbors st userId k in
  (oget uid (userVectors st) = None -> ns = [])
  /\ Forall (fun n =>
               fst n <> uid /\ (0 <? snd n)%float = true
               /\ exists target vec,
                    oget uid (userVectors st) = Some target
                    /\ oget (fst n) (userVectors st) = Some vec
                    /\ snd n = cosineSparse (omap_map num_of_Z target)
                                 (omap_map num_of_Z vec)) ns
  /\ descending snd ns
  /\ NoDup (map fst ns).
Proof.
  intros st uid ns. subst ns uid.
  destruct (topKNeighbors_facts st userId k) as (H1 & H2 & H3 & H4).
  destruct (distinct_keys_run ops) as [Hnd _]. fold st in Hnd.
  split; [exact H1|]. split; [|split; [exact H3 | exact (H4 Hnd)]].
  eapply Forall_impl; [|exact H2].
  intros n (Ha & Hb & target & vec & Hc & Hd & He).
  split; [exact Ha|]. split; [exact Hb|]. exists target, vec.
  split; [exact Hc|]. split; [|exact He].
  apply (in_oget_nodup _ _ _ Hnd), Hd.
Qed.
End Neighbours.

(** ** Personal recommendations *)

Section Personal.
Context {rt : Runtime}.

Lemma candidateScores_not_have st neigh have pid :
  In pid (okeys (candidateScores st neigh have)) -> shas pid have = false.
Proof.
  unfold candidateScores.
  apply (fold_left_invariant
           (fun cand : omap string float =>
              In pid (okeys cand) -> shas pid have = false)).
  - simpl. tauto.
  - intros cand ns _ Hcand.
    destruct (oget (fst ns) (userVectors st)) as [v|]; [|exact Hcand].
    apply (fold_left_invariant
             (fun cand : omap string float =>
                In pid (okeys cand) -> shas pid have = false));
      [exact Hcand|].
    intros acc pw _ Hacc. destruct (shas (fst pw) have) eqn:Hh; [exact Hacc|].
    rewrite okeys_oset. intros [-> | Hin]; [exact Hh | auto].
Qed.

Lemma candidateScores_store st st' neigh have :
  userVectors st' = userVectors st ->
  candidateScores st' neigh have = candidateScores st neigh have.
Proof. unfold candidateScores. intros ->. reflexivity. Qed.

Lemma topKNeighbors_store st st' u k :
  userVectors st' = userVectors st -> topKNeighbors st' u k = topKNeighbors st u k.
Proof. unfold topKNeighbors. intros ->. reflexivity. Qed.

Lemma popularItems_store st st' limit :
  interactions st' = interactions st -> popularItems st' limit = popularItems st limit.
Proof. unfold popularItems. intros ->. reflexivity. Qed.

(** X12.  [recommendForUser] ranks the scores that [cfScoresForUser]
    gives to the blend: when the user has a vector and there are candidates,
    its rows are those candidates sorted by score and cut at the limit;
    when the user has no vector, or when there is no candidate, its rows
    are the popularity ranking. *)
Theorem recommendForUser_ranks_cf_scores (st : State) (userId : string)
    (limit : float) :
  let c := fst (ensureCache st) in
  fst (recommendForUser st userId limit)
  = match cfScoresForUser st userId with
    | (scores, true) =>
        if (osize scores =? 0)%nat
        then popular_rows c (popularItems st limit)
        else user_rows c (slice0 limit (sort_by by_cand_desc scores))
    | (_, false) => popular_rows c (popularItems st limit)
    end.
Proof.
  cbv zeta.
  unfold recommendForUser, cfScoresForUser, user_rows.
  destruct (ensureCache_store st) as [Hi Hu].
  destruct (ensureCache st) as [c st0]. cbn [fst snd] in *.
  rewrite Hu, (@popularItems_store st st0 limit Hi),
    (@topKNeighbors_store st st0 _ _ Hu).
  destruct (oget (canon userId) (userVectors st)) as [vec|]; [|reflexivity].
  destruct (osize vec =? 0)%nat; [reflexivity|].
  rewrite (@candidateScores_store st st0 _ _ Hu).
  cbn [fst]. destruct (osize _ =? 0)%nat; reflexivity.
Qed.

Lemma cfScoresForUser_personal st userId scores :
  cfScoresForUser st userId = (scores, true) ->
  exists vec,
    oget (canon userId) (userVectors st) = Some vec
    /\ scores = candidateScores st (topKNeighbors st (canon userId) 30)
                  (set_of_list (okeys vec)).
Proof.
  unfold cfScoresForUser.
  destruct (oget (canon userId) (userVectors st)) as [vec|]; [|discriminate].
  destruct (osize vec =? 0)%nat; [discriminate|].
  intros [= <-]. eauto.
Qed.

(** X13.  After any sequence of operations, the candidates that
    [cfScoresForUser] scores for a user with a vector are distinct products
    that the user has no entry for, that some other user has an entry for,
    and that the catalog map resolves to a product with that id. *)
Theorem personal_candidates_are_new (ops : list Op) (userId : string) :
  let st := run ops in
  let u := canon userId in
  forall scores,
    cfScoresForUser st userId = (scores, true) ->
    NoDup (okeys scores)
    /\ Forall (fun pid =>
                 user_entry st u pid = None
                 /\ (exists other, other <> u /\ user_entry st other pid <> None)
                 /\ exists p, oget pid (byId (fst (ensureCache st))) = Some p
                              /\ product_id p = pid)
         (okeys scores).
Proof.
  intros st u scores Hcf.
  destruct (cfScoresForUser_personal _ _ Hcf) as (vec & Hvec & ->). fold u in Hvec.
  split.
  { unfold candidateScores.
    apply (fold_left_invariant (fun cand : omap string float => NoDup (okeys cand)));
      [constructor|].
    intros cand ns _ Hcand.
    destruct (oget (fst ns) (userVectors st)) as [v|]; [|exact Hcand].
    apply (fold_left_invariant (fun cand : omap string float => NoDup (okeys cand)));
      [exact Hcand|].
    intros acc pw _ Hacc. destruct (shas (fst pw) (set_of_list (okeys vec)));
      [exact Hacc | apply okeys_oset_nodup, Hacc]. }
  apply Forall_forall. intros pid Hpid.
  pose proof (candidateScores_not_have _ _ _ _ Hpid) as Hnew.
  pose proof (candidateScores_keys _ _ _ _ Hpid) as (other & v & Hother & Hin).
  assert (Hmine : user_entry st u pid = None).
  { unfold user_entry. rewrite Hvec.
    destruct (oget pid vec) eqn:Hg; [|reflexivity].
    assert (Hk : In pid (okeys vec)) by (apply oget_in_keys; congruence).
    apply in_set_of_list, shas_true in Hk. congruence. }
  split; [exact Hmine|]. split.
  - exists other. split.
    + intros ->. unfold user_entry in Hmine. rewrite Hother in Hmine.
      apply oget_in_keys in Hin. congruence.
    + unfold user_entry. rewrite Hother. apply oget_in_keys, Hin.
  - destruct (reachable_invariants ops) as [_ Hinv].
    pose proof (@stored_lookup _ st pid Hinv
                  (or_intror (ex_intro _ other (ex_intro _ v (conj Hother Hin)))))
      as Hfound.
    subst st. rewrite reachable_cache in *.
    destruct (oget pid (byId initRecommender)) as [p|] eqn:Hp; [|congruence].
    exists p. split; [reflexivity|].
    rewrite byId_lookup in Hp. apply last_product_some in Hp. apply Hp.
Qed.
End Personal.

(** User u1 has p2 and p1; its neighbour u3 has s and p1: the only
    candidate is s. *)
Lemma personal_candidates_are_new_witness :
  let st := @run Example.rt neighbours_history in
  exists scores,
    @cfScoresForUser Example.rt st "U1" = (scores, true)
    /\ okeys scores = ["s"%string]
    /\ NoDup (okeys scores)
    /\ Forall (fun pid =>
                 user_entry st "u1" pid = None
                 /\ (exists other, other <> "u1"%string
                                   /\ user_entry st other pid <> None)
                 /\ exists p, oget pid (byId (fst (@ensureCache Example.rt st))) = Some p
                              /\ product_id p = pid)
         (okeys scores).
Proof.
  eexists. split; [vm_compute; reflexivity|]. split; [reflexivity|].
  apply (@personal_candidates_are_new Example.rt neighbours_history "U1").
  vm_compute. reflexivity.
Defined.

(** ** Neighbours share a product *)

Lemma zero_div_not_positive x y :
  is_zero_num x = true -> (0 <? x / y)%float = false.
Proof.
  unfold is_zero_num. rewrite ltb_spec, div_spec. unfold SF64div, SFdiv.
  change (Prim2SF 0) with (S754_zero false).
  destruct (Prim2SF x) as [s| | |]; try discriminate. intros _.
  destruct (Prim2SF y) as [sy|sy| |sy my ey]; reflexivity.
Qed.

Lemma sparse_dot_disjoint (a b : omap string float) : forall dot,
  (forall pid, In pid (okeys a) -> ~ In pid (okeys b)) ->
  fold_left
    (fun dot kv =>
       match oget (fst kv) b with
       | Some vb => if truthy vb then (dot + snd kv * vb)%float else dot
       | None => dot
       end) a dot = dot.
Proof.
  induction a as [|[k v] a IH]; intros dot Hdis; cbn [fold_left fst snd];
    [reflexivity|].
  destruct (oget k b) eqn:Hk.
  - exfalso. apply (Hdis k); [left; reflexivity|].
    apply oget_in_keys. congruence.
  - apply IH. intros pid Hin. apply Hdis. right. exact Hin.
Qed.

(** Vectors without a common product have no positive similarity. *)
Lemma cosineSparse_disjoint (a b : omap string float) :
  ~ overlap a b -> (0 <? cosineSparse a b)%float = false.
Proof.
  intros Hdis. unfold cosineSparse.
  destruct (negb (truthy (sum_squares a)) || negb (truthy (sum_squares b)));
    [reflexivity|].
  apply zero_div_not_positive.
  assert (Hab : forall pid, In pid (okeys a) -> ~ In pid (okeys b))
    by (intros pid Ha Hb; apply Hdis; exists pid; auto).
  assert (Hba : forall pid, In pid (okeys b) -> ~ In pid (okeys a))
    by (intros pid Hb Ha; apply Hdis; exists pid; auto).
  unfold sparse_dot.
  destruct (osize a <? osize b)%nat; rewrite sparse_dot_disjoint by assumption;
    reflexivity.
Qed.

Lemma okeys_omap_map {V W : Type} (f : V -> W) (m : omap string V) :
  okeys (omap_map f m) = okeys m.
Proof. unfold okeys, omap_map. rewrite map_map. reflexivity. Qed.

Lemma classic_overlap {V : Type} (a b : omap string V) :
  overlap a b \/ ~ overlap a b.
Proof.
  unfold overlap. induction (okeys a) as [|k ks IH].
  - right. intros (pid & [] & _).
  - destruct (in_dec string_dec k (okeys b)) as [Hin|Hni].
    + left. exists k. split; [left; reflexivity | exact Hin].
    + destruct IH as [(pid & Ha & Hb) | Hno].
      * left. exists pid. split; [right; exact Ha | exact Hb].
      * right. intros (pid & [<- | Ha] & Hb); [contradiction|].
        apply Hno. exists pid. auto.
Qed.

Section Shared.
Context {rt : Runtime}.

(** X11.  After any sequence of operations, every neighbour that
    [topKNeighbors] returns has interacted with at least one product the
    user has interacted with: users without a common product are never
    neighbours. *)
Theorem neighbours_share_a_product (ops : list Op) (userId : string) (k : float) :
  let st := run ops in
  Forall (fun n =>
            exists pid,
              user_entry st (canon userId) pid <> None
              /\ user_entry st (fst n) pid <> None)
    (topKNeighbors st userId k).
Proof.
  intros st.
  destruct (topKNeighbors_facts st userId k) as (_ & Hns & _ & _).
  destruct (distinct_keys_run ops) as [Hnd _]. fold st in Hnd.
  eapply Forall_impl; [|exact Hns].
  intros n (_ & Hpos & target & vec & Htarget & Hvec & Hsim).
  apply (in_oget_nodup _ _ _ Hnd) in Hvec.
  destruct (classic_overlap target vec) as [(pid & Ha & Hb) | Hno].
  - exists pid. unfold user_entry. rewrite Htarget, Hvec.
    split; apply oget_in_keys; assumption.
  - exfalso. rewrite Hsim in Hpos.
    rewrite cosineSparse_disjoint in Hpos; [discriminate|].
    intros (pid & Ha & Hb). rewrite okeys_omap_map in Ha, Hb.
    apply Hno. exists pid. auto.
Qed.
End Shared.

(** ** Normalisation of scores *)

Lemma ltb_zero_leb x : (0 <? x)%float = true -> (x <=? 0)%float = false.
Proof.
  rewrite ltb_spec, leb_spec. change (Prim2SF 0) with (S754_zero false).
  destruct (Prim2SF x) as [s|s| |s m e]; try discriminate;
    destruct s; try discriminate; reflexivity.
Qed.

Lemma div_eucl_div_mod a b : Z.div_eucl a b = ((a / b)%Z, (a mod b)%Z).
Proof. unfold Z.div, Z.modulo. destruct (Z.div_eucl a b). reflexivity. Qed.

(** A finite number other than zero divided by itself is 1. *)
Lemma div_self x :
  Number_isFinite x = true -> is_zero_num x = false -> (x / x)%float = 1%float.
Proof.
  unfold Number_isFinite, is_zero_num. intros Hf Hz.
  apply Prim2SF_inj. rewrite div_spec. unfold SF64div, SFdiv.
  destruct (Prim2SF x) as [s|s| |s m e]; try discriminate.
  unfold SFdiv_core_binary.
  replace (Zdigits2 (Z.pos m) + e - (Zdigits2 (Z.pos m) + e))%Z with 0%Z by lia.
  rewrite Z.sub_diag.
  change (Z.min (fexp prec emax 0) 0) with (-53)%Z.
  change (0 - -53)%Z with 53%Z. cbv iota.
  rewrite Z.shiftl_mul_pow2 by lia.
  rewrite (Z.mul_comm (Z.pos m)), div_eucl_div_mod.
  rewrite Z.div_mul, Z.mod_mul by discriminate.
  rewrite xorb_nilpotent.
  unfold new_location. destruct (Z.even (Z.pos m)); reflexivity.
Qed.

Section Largest.

Lemma largest_acc l : forall acc,
  Number_isNaN acc = false ->
  let top := fold_left (fun max v => if (max <? v)%float then v else max) l acc in
  Number_isNaN top = false
  /\ (top = acc \/ In top l)
  /\ (top <? acc)%float = false
  /\ Forall (fun v => (top <? v)%float = false) l.
Proof.
  induction l as [|v l IH]; intros acc Hacc; cbn [fold_left].
  - split; [exact Hacc|]. split; [auto|]. split; [|constructor].
    destruct (acc <? acc)%float eqn:H; [|reflexivity].
    apply ltb_asym in H as H'. congruence.
  - destruct (acc <? v)%float eqn:Hlt.
    + destruct (ltb_numbers Hlt) as [_ Hv].
      destruct (IH v Hv) as (H1 & H2 & H3 & H4).
      split; [exact H1|].
      split; [destruct H2 as [H2|H2]; [right; left; symmetry; exact H2 | right; right; exact H2]|].
      split.
      * apply (@ltb_neg_trans _ v acc Hv H3). apply ltb_asym, Hlt.
      * constructor; assumption.
    + destruct (IH acc Hacc) as (H1 & H2 & H3 & H4).
      split; [exact H1|].
      split; [destruct H2 as [H2|H2]; [left; exact H2 | right; right; exact H2]|].
      split; [exact H3|].
      constructor; [|exact H4]. exact (@ltb_neg_trans _ acc v Hacc H3 Hlt).
Qed.

Lemma largest_none l :
  Forall (fun v => (0 <? v)%float = false) l -> largest l = 0%float.
Proof.
  unfold largest. induction 1 as [|v l Hv _ IH]; cbn [fold_left]; [reflexivity|].
  rewrite Hv. exact IH.
Qed.

Lemma largest_some l :
  Exists (fun v => (0 <? v)%float = true) l ->
  (0 <? largest l)%float = true /\ In (largest l) l
  /\ Forall (fun v => (largest l <? v)%float = false) l.
Proof.
  intros Hex. destruct (largest_acc l 0%float eq_refl) as (H1 & H2 & H3 & H4).
  fold (largest l) in *.
  assert (Hpos : (0 <? largest l)%float = true).
  { apply Exists_exists in Hex. destruct Hex as (v & Hin & Hv).
    rewrite Forall_forall in H4. specialize (H4 v Hin).
    destruct (0 <? largest l)%float eqn:H0; [reflexivity|].
    rewrite (@ltb_neg_trans 0%float (largest l) v H1 H0 H4) in Hv. discriminate. }
  split; [exact Hpos|]. split; [|exact H4].
  destruct H2 as [Heq | Hin]; [|exact Hin].
  rewrite Heq in Hpos. discriminate.
Qed.
End Largest.

Lemma fold_oset_nodup (f : float -> float) (l : omap string float) :
  NoDup (okeys l) ->
  fold_left (fun out kv => oset (fst kv) (f (snd kv)) out) l [] = omap_map f l.
Proof.
  assert (Hacc : forall (l' acc : omap string float),
            NoDup (okeys (acc ++ l')) ->
            fold_left (fun out kv => oset (fst kv) (f (snd kv)) out) l' (omap_map f acc)
            = omap_map f (acc ++ l')).
  { induction l' as [|[k v] l' IH]; intros acc Hnd; cbn [fold_left fst snd].
    - rewrite app_nil_r. reflexivity.
    - rewrite oset_fresh.
      + replace (omap_map f acc ++ [(k, f v)]) with (omap_map f (acc ++ [(k, v)]))
          by (unfold omap_map; rewrite map_app; reflexivity).
        rewrite IH; rewrite <- app_assoc; [reflexivity | exact Hnd].
      + unfold okeys, omap_map in *. rewrite map_map. cbn [fst].
        rewrite map_app in Hnd. cbn [map fst] in Hnd.
        apply NoDup_remove_2 in Hnd. intros Hin. apply Hnd, in_or_app. left.
        exact Hin. }
  intros Hnd. apply (Hacc l []). exact Hnd.
Qed.

Lemma oget_omap_map (f : float -> float) (m : omap string float) k :
  oget k (omap_map f m) = option_map f (oget k m).
Proof.
  induction m as [|[k' v] m IH]; simpl; [reflexivity|].
  destruct (eq_dec k k'); [reflexivity | exact IH].
Qed.

(** X14.  On a map with distinct keys, [normalize01] returns the empty map
    when no value is greater than 0; otherwise it keeps the keys and their
    order and divides every value by the largest one, which is positive and
    which no value exceeds, so that a finite largest value is mapped to
    exactly 1. *)
Theorem normalize01_scales_by_largest (m : omap string float) :
  NoDup (okeys m) ->
  let top := largest (ovalues m) in
  (Forall (fun v => (0 <? v)%float = false) (ovalues m) -> normalize01 m = [])
  /\ (Exists (fun v => (0 <? v)%float = true) (ovalues m) ->
      (0 <? top)%float = true /\ In top (ovalues m)
      /\ Forall (fun v => (top <? v)%float = false) (ovalues m)
      /\ normalize01 m = omap_map (fun v => (v / top)%float) m
      /\ (Number_isFinite top = true ->
          forall k, oget k m = Some top -> oget k (normalize01 m) = Some 1%float)).
Proof.
  intros Hnd top. split.
  - intros Hnone. unfold normalize01. fold (largest (ovalues m)).
    rewrite (largest_none Hnone). reflexivity.
  - intros Hsome. destruct (largest_some Hsome) as (Hpos & Hin & Hmax).
    fold top in Hpos, Hin, Hmax.
    assert (Hnorm : normalize01 m = omap_map (fun v => (v / top)%float) m).
    { unfold normalize01. fold (largest (ovalues m)). fold top.
      rewrite (ltb_zero_leb Hpos).
      exact (@fold_oset_nodup (fun v => (v / top)%float) m Hnd). }
    split; [exact Hpos|]. split; [exact Hin|]. split; [exact Hmax|].
    split; [exact Hnorm|].
    intros Hfin k Hk. rewrite Hnorm, oget_omap_map, Hk. cbn [option_map].
    f_equal. apply div_self; [exact Hfin|].
    unfold is_zero_num. rewrite ltb_spec in Hpos.
    destruct (Prim2SF top); try reflexivity.
    change (Prim2SF 0) with (S754_zero false) in Hpos. discriminate.
Qed.

(** Three scores, one of them negative. *)
Lemma normalize01_scales_by_largest_witness :
  normalize01 [("a"%string, 2%float); ("b"%string, 8%float); ("c"%string, (-1)%float)]
  = [("a"%string, 0.25%float); ("b"%string, 1%float); ("c"%string, (-0.125)%float)].
Proof.
  destruct (@normalize01_scales_by_largest
              [("a"%string, 2%float); ("b"%string, 8%float); ("c"%string, (-1)%float)])
    as [_ Hsome].
  - repeat constructor; simpl; intuition discriminate.
  - destruct Hsome as (_ & _ & _ & Hnorm & _).
    + left. reflexivity.
    + rewrite Hnorm. reflexivity.
Defined.

(** X15.  The map [toMapFromArray] builds has one entry for each id of the
    array and for no other id, and an id that occurs several times keeps
    the score of its last occurrence. *)
Theorem toMapFromArray_last_wins (arr : list (string * float)) :
  NoDup (okeys (toMapFromArray arr))
  /\ (forall k, In k (okeys (toMapFromArray arr)) <-> In k (map fst arr))
  /\ (forall k, oget k (toMapFromArray arr) = last_entry k arr).
Proof.
  change (toMapFromArray arr) with (omap_of_list arr).
  destruct (okeys_omap_of_list arr) as [Hnd Hkeys].
  split; [exact Hnd|]. split; [exact Hkeys|].
  intros k. apply oget_omap_of_list.
Qed.

(** ** The size of a blend *)

Section SliceLength.
Context {A : Type}.

Lemma length_takeZ n (l : list A) :
  (Z.of_nat (List.length (takeZ n l)) <= Z.max 0 n)%Z.
Proof.
  revert n. induction l as [|x l IH]; intros n; simpl; [lia|].
  destruct (Z.leb_spec n 0); simpl; [lia|].
  specialize (IH (n - 1)%Z). lia.
Qed.

(** A slice up to a positive number that is at most 50 has at most 50
    elements. *)
Lemma slice0_at_most_50 k (l : list A) :
  (0 <? k)%float = true -> (50 <? k)%float = false ->
  (List.length (slice0 k l) <= 50)%nat.
Proof.
  intros H0 H50. unfold slice0.
  pose proof (Prim2SF_valid k) as Hv.
  rewrite ltb_spec in H0, H50.
  change (Prim2SF 0) with (S754_zero false) in H0.
  change (Prim2SF 50) with (S754_finite false 7036874417766400 (-47)) in H50.
  destruct (Prim2SF k) as [s|s| |s m e]; simpl; try lia.
  - destruct s; discriminate.
  - destruct s; [discriminate|].
    destruct (Z.eqb_spec (Z.shiftl (Z.pos m) e) 0); [simpl; lia|].
    pose proof (length_takeZ (Z.shiftl (Z.pos m) e) l) as Hlen.
    enough (Z.shiftl (Z.pos m) e <= 50)%Z by lia.
    destruct (@canonical_facts m e Hv) as (_ & Hd & _).
    pose proof (digits2_bounds m) as Hm.
    assert (Hm53 : (Z.pos m < 2 ^ 53)%Z).
    { apply Z.lt_le_trans with (2 ^ Z.pos (digits2_pos m))%Z; [lia|].
      apply Z.pow_le_mono_r; lia. }
    unfold SFltb, SFcompare in H50.
    destruct (Z.compare_spec (-47) e) as [He|He|He]; try discriminate.
    + subst e. change (Z.shiftl (Z.pos m) (-47)) with (Z.shiftr (Z.pos m) 47).
      rewrite Z.shiftr_div_pow2 by lia.
      change (Pos.compare_cont Eq 7036874417766400 m)
        with (7036874417766400 ?= m)%positive in H50.
      destruct (Pos.compare_spec 7036874417766400 m) as [Hc|Hc|Hc];
        try discriminate.
      * subst m. reflexivity.
      * clear - Hc. apply Pos2Z.pos_lt_pos in Hc.
        change (2 ^ 47)%Z with 140737488355328%Z.
        apply Z.div_le_upper_bound; lia.
    + clear - Hm53 He. rewrite Z.shiftl_div_pow2 by lia.
      assert (Hp : (2 ^ 48 <= 2 ^ (- e))%Z) by (apply Z.pow_le_mono_r; lia).
      change (2 ^ 53)%Z with 9007199254740992%Z in Hm53.
      change (2 ^ 48)%Z with 281474976710656%Z in Hp.
      generalize dependent (2 ^ (- e))%Z. intros p Hp.
      apply Z.div_le_upper_bound; lia.
Qed.
End SliceLength.

Section Limit.
Context {rt : Runtime}.

(** The clamped limit is NaN (when the given limit is) or a number from 1
    to 50. *)
Lemma opt_limit_cases opts :
  Number_isNaN (opt_limit opts) = true
  \/ ((0 <? opt_limit opts)%float = true /\ (50 <? opt_limit opts)%float = false).
Proof.
  unfold opt_limit. set (x := nullish (limit opts) 5%float).
  assert (Hy : Number_isNaN (Math_min 50 x) = true
               \/ (50 <? Math_min 50 x)%float = false).
  { unfold Math_min. destruct (Number_isNaN 50 || Number_isNaN x); [left; reflexivity|].
    destruct (50 <? x)%float eqn:H1; [right; reflexivity|].
    destruct (x <? 50)%float; [right; exact H1|].
    change (get_sign 50) with false. cbv iota. right; exact H1. }
  set (y := Math_min 50 x) in *. unfold Math_max.
  destruct (Number_isNaN y) eqn:Hn; [left; reflexivity|].
  change (Number_isNaN 1) with false. cbn [orb].
  destruct Hy as [Hy|Hy]; [congruence|].
  right. destruct (1 <? y)%float eqn:H1.
  - split; [|exact Hy]. rewrite ltb_spec in *.
    change (Prim2SF 1) with (S754_finite false 4503599627370496 (-52)) in H1.
    change (Prim2SF 0) with (S754_zero false).
    destruct (Prim2SF y) as [s|s| |s m e]; try discriminate;
      destruct s; try discriminate; reflexivity.
  - destruct (y <? 1)%float; [split; reflexivity|].
    change (get_sign 1) with false. cbv iota. split; reflexivity.
Qed.

Lemma slice0_nan {A : Type} k (l : list A) : Number_isNaN k = true -> slice0 k l = [].
Proof.
  unfold Number_isNaN, slice0. destruct (Prim2SF k); try discriminate. reflexivity.
Qed.

Lemma slice0_opt_limit {A : Type} opts (l : list A) :
  (List.length (slice0 (opt_limit opts) l) <= 50)%nat.
Proof.
  destruct (opt_limit_cases opts) as [Hn | [H0 H50]].
  - rewrite slice0_nan by exact Hn. simpl. lia.
  - apply slice0_at_most_50; assumption.
Qed.

(** X16.  [recommendBlend] never returns more than 50 rows, whatever limit
    is asked for, on the blending path and on the popularity fallback
    alike. *)
Theorem recommendBlend_at_most_50_rows (st : State) (opts : BlendOpts) :
  (List.length (fst (recommendBlend st opts)) <= 50)%nat.
Proof.
  rewrite recommendBlend_rows, blend_top_rows.
  set (top := map _ (slice0 (opt_limit opts) _)).
  assert (Htop : (List.length top <= 50)%nat).
  { subst top. rewrite length_map. apply slice0_opt_limit. }
  assert (Hfb : (List.length (blend_fallback (fst (ensureCache st))
                                (snd (ensureCache st)) opts) <= 50)%nat).
  { unfold blend_fallback, popularItems. rewrite length_map. apply slice0_opt_limit. }
  destruct top; destruct (given (userId opts)); assumption.
Qed.
End Limit.

(** ** Rows of the blend *)

Section BlendRows.
Context {rt : Runtime}.

(** X17.  Without a user id, a seed and a query (each absent or empty),
    [recommendBlend] returns no row. *)
Theorem recommendBlend_without_signal (st : State) (opts : BlendOpts) :
  given (userId opts) = None -> given (productId opts) = None ->
  given (query opts) = None ->
  fst (recommendBlend st opts) = [].
Proof.
  intros Hu Hp Hq. rewrite recommendBlend_rows, blend_top_rows, Hu.
  assert (Hsig : blend_signals (snd (ensureCache st)) opts
                 = ([], [], [], snd (ensureCache st))).
  { unfold blend_signals, opt_seedPid. rewrite Hu, Hp, Hq. reflexivity. }
  unfold blend_combined, blend_content, blend_cf, blend_reasons.
  rewrite Hsig. cbn [fst snd].
  change (normalize01 []) with (@nil (string * float)).
  cbn [okeys map app set_of_list fold_left sort_by fold_right snd].
  assert (Hnil : forall A k, @slice0 A k [] = []).
  { intros A k. unfold slice0. destruct (Prim2SF k) as [s|s| |s m e]; try reflexivity.
    - destruct s; reflexivity.
    - destruct (_ =? 0)%Z; [reflexivity|]. destruct s; reflexivity. }
  rewrite Hnil. reflexivity.
Qed.

Lemma in_blend_top c st opts row :
  In row (fst (blend_top c st opts)) ->
  exists x,
    In x (blend_combined c st opts (blend_content st opts) (blend_cf st opts)
            (blend_reasons st opts))
    /\ row = {| br_product := oget (c_product_id x) (byId c);
                br_score := toFixed4 (c_score x);
                br_reasons := c_reasons x |}.
Proof.
  rewrite blend_top_rows, in_map_iff. intros (x & <- & Hx).
  apply in_slice0, in_sort_by in Hx. eauto.
Qed.

(** X18.  After any sequence of operations, every row built from the
    blending loop of [recommendBlend] carries a catalog product; unless
    [excludeSeed] is false that product is not the seed, and unless
    [excludeSeen] is false the user has no entry for it.  These are the
    rows [recommendBlend] returns whenever there is at least one, or no
    user id is given. *)
Theorem blend_loop_rows_respect_exclusions (ops : list Op) (opts : BlendOpts) :
  let st := run ops in
  let rows := fst (blend_top (fst (ensureCache st)) (snd (ensureCache st)) opts) in
  Forall (fun row =>
            exists p,
              br_product row = Some p /\ In p loadCatalog
              /\ (not_false (excludeSeed opts) = true ->
                  opt_seedPid opts <> Some (product_id p))
              /\ (not_false (excludeSeen opts) = true ->
                  forall u, given (userId opts) = Some u ->
                            user_entry st (canon u) (product_id p) = None))
    rows
  /\ (rows <> [] \/ given (userId opts) = None ->
      fst (recommendBlend st opts) = rows).
Proof.
  intros st rows. split.
  - apply Forall_forall. intros row Hrow. subst rows.
    apply in_blend_top in Hrow. destruct Hrow as (x & Hx & ->). cbn [br_product].
    pose proof (blend_combined_found _ _ _ _ _ _ _ Hx) as Hfound.
    subst st. rewrite reachable_cache in *.
    destruct (oget (c_product_id x) (byId initRecommender)) as [p|] eqn:Hp;
      [|congruence].
    rewrite byId_lookup in Hp. apply last_product_some in Hp.
    destruct Hp as [Hin Hid]. exists p. rewrite Hid.
    split; [reflexivity|]. split; [exact Hin|]. split.
    + intros Hflag Hseed.
      exact (blend_combined_not_seed _ _ _ _ _ _ _ Hflag Hseed Hx eq_refl).
    + intros Hflag u Hu. unfold user_entry.
      destruct (ensureCache_store (run ops)) as [_ Hstore].
      destruct (oget (canon u) (userVectors (run ops))) as [v|] eqn:Hv; [|reflexivity].
      rewrite <- Hstore in Hv.
      pose proof (blend_combined_unseen _ _ _ _ _ _ _ Hu Hflag Hv Hx) as Hnew.
      destruct (oget (c_product_id x) v) eqn:Hg; [|reflexivity].
      exfalso. apply Hnew, oget_in_keys. congruence.
  - intros Hcase. rewrite recommendBlend_rows. fold st rows.
    destruct rows as [|r rows']; [|reflexivity].
    destruct Hcase as [Hne | ->]; [congruence | reflexivity].
Qed.
End BlendRows.

(** The empty options object. *)
Lemma recommendBlend_without_signal_witness :
  fst (@recommendBlend Example.rt Example.st Example.no_opts) = [].
Proof.
  apply (@recommendBlend_without_signal Example.rt Example.st Example.no_opts);
    reflexivity.
Defined.

(** ** Reasons of the rows *)

Section Explained.
Context {rt : Runtime}.
Variable opts : BlendOpts.

Lemma sadd_nonempty (r : string) s : sadd r s <> [].
Proof.
  unfold sadd. destruct (shas r s) eqn:Hs.
  - apply shas_true in Hs. intros ->. contradiction.
  - intros H. apply app_eq_nil in H. destruct H; discriminate.
Qed.

Lemma reasons_cover_add scores reasons pid r :
  blend_tag opts r -> reasons_cover opts scores reasons ->
  (forall extra,
      (forall k, In k (okeys extra) -> k = pid \/ In k (okeys scores)) ->
      reasons_cover opts extra (addReason pid r reasons)).
Proof.
  intros Hr [Hwf Hcov] extra Hextra. split.
  - intros k. rewrite oget_addReason. destruct (string_dec k pid) as [->|Hne];
      [|apply Hwf]. cbn [nullish]. destruct (Hwf pid) as [Hnd Hall].
    split; [apply nodup_sadd, Hnd|].
    apply Forall_forall. intros t Ht. apply in_sadd in Ht.
    destruct Ht as [-> | Ht]; [exact Hr|]. rewrite Forall_forall in Hall. auto.
  - intros k Hk. rewrite oget_addReason. destruct (string_dec k pid) as [->|Hne].
    + apply sadd_nonempty.
    + destruct (Hextra k Hk) as [-> | Hin]; [congruence | apply Hcov, Hin].
Qed.

Lemma reasons_cover_subset scores scores' reasons :
  (forall k, In k (okeys scores') -> In k (okeys scores)) ->
  reasons_cover opts scores reasons -> reasons_cover opts scores' reasons.
Proof. intros Hsub [Hwf Hcov]. split; [exact Hwf | auto]. Qed.

Lemma merge_content_cover m r acc :
  blend_tag opts r -> reasons_cover opts (fst acc) (snd acc) ->
  reasons_cover opts (fst (merge_content m r acc)) (snd (merge_content m r acc)).
Proof.
  intros Hr Hacc. unfold merge_content.
  apply (fold_left_invariant
           (fun acc : omap string float * omap string (list string) =>
              reasons_cover opts (fst acc) (snd acc))); [exact Hacc|].
  intros a kv _ Ha. cbn [fst snd].
  apply (@reasons_cover_add _ _ (fst kv) _ Hr Ha).
  intros k Hk. apply okeys_oset in Hk. exact Hk.
Qed.

Lemma okeys_odelete (k pid : string) (m : omap string float) :
  In pid (okeys (odelete k m)) -> In pid (okeys m).
Proof.
  induction m as [|[k' v] m IH]; simpl; [tauto|].
  destruct (eq_dec k k'); simpl; tauto.
Qed.

(** After the collaborative scores have been tagged, the reasons cover
    them and what they covered before. *)
Lemma cf_reasons_cover (content cf : omap string float) reasons r :
  blend_tag opts r -> reasons_cover opts content reasons ->
  let reasons' := fold_left (fun reasons k => addReason k r reasons) (okeys cf) reasons in
  reasons_cover opts content reasons' /\ reasons_cover opts cf reasons'.
Proof.
  intros Hr Hc. cbv zeta.
  assert (Hgen : forall keys (done : omap string float) reasons0,
            reasons_cover opts content reasons0 ->
            reasons_cover opts done reasons0 ->
            let reasons' := fold_left (fun reasons k => addReason k r reasons) keys reasons0 in
            reasons_cover opts content reasons'
            /\ forall pid, In pid (okeys done) \/ In pid keys ->
                           nullish (oget pid reasons') [] <> []).
  { induction keys as [|k keys IH]; intros done reasons0 H1 H2; cbn [fold_left].
    - split; [exact H1|]. intros pid [Hin | []]. apply H2, Hin.
    - destruct (IH ((k, 0%float) :: done) (addReason k r reasons0)) as [H3 H4].
      + apply (@reasons_cover_add _ _ k _ Hr H1). auto.
      + apply (@reasons_cover_add _ _ k _ Hr H2). simpl. intros k' [<- | Hk']; auto.
      + split; [exact H3|]. intros pid [Hin | [<- | Hin]]; apply H4; simpl; auto. }
  destruct (Hgen (okeys cf) [] reasons Hc) as [H1 H2].
  { split; [apply Hc | simpl; tauto]. }
  split; [exact H1|]. split; [apply H1|]. intros pid Hin. apply H2. auto.
Qed.

Lemma blend_signals_cover st :
  let '(content, cf, reasons, _) := blend_signals st opts in
  reasons_cover opts content reasons /\ reasons_cover opts cf reasons.
Proof.
  unfold blend_signals.
  assert (Hnil : reasons_cover opts [] []).
  { split; [|simpl; tauto]. intros pid. simpl. split; constructor. }
  assert (Hlast : forall content reasons st',
            reasons_cover opts content reasons ->
            let '(content', cf, reasons', _) :=
              (let '(cf, reasons0) :=
                 match given (userId opts) with
                 | Some u =>
                     let '(scores, hadVector) := cfScoresForUser st' u in
                     (scores,
                      fold_left
                        (fun reasons k =>
                           addReason k
                             (if hadVector then "neighbors" else "popular")
                             reasons)
                        (okeys scores) reasons)
                 | None => ([], reasons)
                 end in
               (content : omap string float, cf, reasons0, st' : State)) in
            reasons_cover opts content' reasons' /\ reasons_cover opts cf reasons').
  { intros content reasons st' Hr.
    destruct (given (userId opts)) as [u|].
    - destruct (cfScoresForUser st' u) as [scores hv].
      apply cf_reasons_cover; [|exact Hr].
      destruct hv; unfold blend_tag; auto.
    - split; [exact Hr|]. split; [apply Hr | simpl; tauto]. }
  assert (Hquery : forall content reasons st',
            reasons_cover opts content reasons ->
            let '(content', cf, reasons', _) :=
              (let '(content0, reasons0, st0) :=
                 match given (query opts) with
                 | Some q =>
                     let '(m, st1) := contentScoresFromQuery st' q in
                     let '(content1, reasons1) :=
                       merge_content m "match_query" (content, reasons) in
                     (content1, reasons1, st1)
                 | None => (content, reasons, st')
                 end in
               let '(cf, reasons1) :=
                 match given (userId opts) with
                 | Some u =>
                     let '(scores, hadVector) := cfScoresForUser st0 u in
                     (scores,
                      fold_left
                        (fun reasons k =>
                           addReason k
                             (if hadVector then "neighbors" else "popular")
                             reasons)
                        (okeys scores) reasons0)
                 | None => ([], reasons0)
                 end in
               (content0, cf, reasons1, st0)) in
            reasons_cover opts content' reasons' /\ reasons_cover opts cf reasons').
  { intros content reasons st' Hr.
    destruct (given (query opts)) as [q|]; [|apply Hlast, Hr].
    destruct (contentScoresFromQuery st' q) as [m st1].
    pose proof (@merge_content_cover m "match_query" (content, reasons)) as Hm.
    destruct (merge_content m "match_query" (content, reasons))
      as [content1 reasons1].
    apply Hlast. apply Hm; [unfold blend_tag; auto | exact Hr]. }
  destruct (opt_seedPid opts) as [seed|] eqn:Hseed; [|apply Hquery, Hnil].
  destruct (contentScoresFromSeed st seed) as [m st1].
  pose proof (@merge_content_cover m ("similar_to:" ++ seed) ([], [])) as Hm.
  destruct (merge_content m ("similar_to:" ++ seed) ([], []))
    as [content1 reasons1].
  apply Hquery. apply reasons_cover_subset with (scores := content1).
  - intros k. apply okeys_odelete.
  - apply Hm; [|exact Hnil]. unfold blend_tag. do 4 right. eauto.
Qed.

Lemma okeys_normalize01 (m : omap string float) pid :
  In pid (okeys (normalize01 m)) -> In pid (okeys m).
Proof.
  unfold normalize01. destruct (_ <=? 0)%float; [simpl; tauto|].
  generalize (fold_left (fun max v => if (max <? v)%float then v else max)
                (ovalues m) 0%float) as mx.
  intros mx.
  assert (Hgen : forall (l acc : omap string float),
            In pid (okeys (fold_left (fun out kv => oset (fst kv) (snd kv / mx)%float out) l acc)) ->
            In pid (okeys l) \/ In pid (okeys acc)).
  { induction l as [|kv l IH]; intros acc; cbn [fold_left]; [auto|].
    intros Hin. apply IH in Hin. destruct Hin as [Hin | Hin]; [left; right; exact Hin|].
    apply okeys_oset in Hin. destruct Hin as [-> | Hin]; [left; left; reflexivity | auto]. }
  intros Hin. apply Hgen in Hin. destruct Hin as [Hin | []]. exact Hin.
Qed.

Lemma blend_top_explained c st row :
  In row (fst (blend_top c st opts)) -> explains opts (br_reasons row).
Proof.
  intros Hrow. apply in_blend_top in Hrow. destruct Hrow as (x & Hx & ->).
  cbn [br_reasons]. rewrite blend_combined_eq in Hx.
  apply in_map_iff in Hx. destruct Hx as (pid & <- & Hpid).
  apply filter_In in Hpid. destruct Hpid as [Hpid _].
  apply in_set_of_list, in_app_iff in Hpid.
  pose proof (blend_signals_cover st) as Hcover.
  unfold blend_content, blend_cf, blend_reasons in *.
  destruct (blend_signals st opts) as [[[content cf] reasons] st1].
  cbn [fst snd] in *. destruct Hcover as [[Hwf Hc1] [_ Hc2]].
  assert (Htagged : nullish (oget pid reasons) [] <> []).
  { destruct Hpid as [Hin | Hin]; apply okeys_normalize01 in Hin; auto. }
  destruct (Hwf pid) as [Hnd Hall].
  unfold blend_candidate. cbn [c_reasons].
  destruct (bias_boost c opts pid); [|split; [exact Htagged | split; assumption]].
  split; [apply sadd_nonempty|]. split; [apply nodup_sadd, Hnd|].
  apply Forall_forall. intros t Ht. apply in_sadd in Ht.
  destruct Ht as [-> | Ht]; [unfold blend_tag; auto|].
  rewrite Forall_forall in Hall. auto.
Qed.

(** X19.  Every row that [recommendBlend] returns carries at least one
    reason, no reason twice, and only the tags [similar_to:] followed by the
    seed id, [match_query], [neighbors], [popular] and [bias_category]. *)
Theorem recommendBlend_rows_explained (st : State) :
  Forall (fun row => explains opts (br_reasons row)) (fst (recommendBlend st opts)).
Proof.
  apply Forall_forall. intros row. rewrite recommendBlend_rows.
  assert (Htop : In row (fst (blend_top (fst (ensureCache st)) (snd (ensureCache st)) opts)) ->
                 explains opts (br_reasons row)) by apply blend_top_explained.
  destruct (fst (blend_top _ _ opts)) as [|r top].
  - destruct (given (userId opts)); [|intros []].
    unfold blend_fallback. rewrite in_map_iff. intros (e & <- & _). cbn [br_reasons].
    split; [discriminate|].
    split; [constructor; [intros [] | constructor]|].
    constructor; [|constructor]. unfold blend_tag. auto.
  - destruct (given (userId opts)); exact Htop.
Qed.
End Explained.

(** ** Parsing the catalog file *)

Section CatalogFileFacts.
Context {rt : Runtime}.
Variable Number : string -> float.

Lemma length_split_lines l : forall cur,
  (List.length (split_lines l cur) <= S (count_occ ascii_dec l "010"%char))%nat.
Proof.
  induction l as [l IH] using (well_founded_induction
                                 (Wf_nat.well_founded_ltof _ (@List.length ascii))).
  intros cur. destruct l as [|c l']; [simpl; lia|].
  cbn [split_lines count_occ].
  destruct (Ascii.eqb_spec c "010") as [->|Hc].
  - destruct (ascii_dec "010" "010") as [_|Hne]; [|congruence].
    cbn [List.length]. specialize (IH l' ltac:(unfold ltof; simpl; lia) []). lia.
  - destruct (ascii_dec c "010") as [Heq|_]; [congruence|].
    destruct l' as [|c' l''].
    + simpl. lia.
    + destruct (Ascii.eqb c "013" && Ascii.eqb c' "010") eqn:Hcr.
      * apply andb_prop in Hcr. destruct Hcr as [_ Hc'].
        apply Ascii.eqb_eq in Hc'. subst c'.
        cbn [count_occ List.length].
        destruct (ascii_dec "010" "010") as [_|Hne]; [|congruence].
        specialize (IH l'' ltac:(unfold ltof; simpl; lia) []). lia.
      * apply (IH (c' :: l'')). unfold ltof. simpl. lia.
Qed.

(** X20.  [loadCatalog] returns at most one product for each line after
    the header line: the header never becomes a product, and a file of one
    line gives the empty catalog.  The id of every product is in the
    canonical form of the lookups (trimmed, lower case), and no product has
    an empty category. *)
Theorem parse_catalog_products (raw : string) :
  let ps := parse_catalog Number raw in
  (List.length ps
   <= count_occ ascii_dec (list_ascii_of_string (trim raw)) "010"%char)%nat
  /\ Forall (fun p =>
               (exists field, product_id p = canon field)
               /\ Forall (fun c => c <> EmptyString) (categories p)) ps.
Proof.
  intros ps. subst ps. unfold parse_catalog. split.
  - rewrite length_map.
    eapply Nat.le_trans; [apply filter_length_le|].
    rewrite length_tl, length_map.
    pose proof (length_split_lines (list_ascii_of_string (trim raw)) []). lia.
  - apply Forall_forall. intros p Hp. apply in_map_iff in Hp.
    destruct Hp as (line & <- & _). split.
    + eexists. reflexivity.
    + apply Forall_forall. intros c Hc. cbn [parse_line categories] in Hc.
      apply filter_In in Hc. destruct Hc as [_ Hc].
      intros ->. discriminate.
Qed.
End CatalogFileFacts.

(** Ids are canonicalised, blank lines and empty categories dropped. *)
Lemma parse_catalog_example :
  map (fun p => (product_id p, title p, categories p))
    (@parse_catalog Example.rt (fun _ => 1%float) example_csv)
  = [("p001", "Tenis Azul", ["calcados"; "esporte"]); ("p002", "Meia", [])]%string.
Proof. vm_compute. reflexivity. Qed.

(** ** Ranking and repetition in the blend *)

Section Ranked.
Context {rt : Runtime}.

Lemma nodup_filter {A : Type} (f : A -> bool) (l : list A) :
  NoDup l -> NoDup (filter f l).
Proof.
  induction 1 as [|x l Hni Hnd IH]; simpl; [constructor|].
  destruct (f x); [|exact IH]. constructor; [|exact IH].
  intros Hin. apply filter_In in Hin. tauto.
Qed.

Lemma blend_combined_ids c st opts content cf reasons :
  NoDup (map c_product_id (blend_combined c st opts content cf reasons)).
Proof.
  rewrite blend_combined_eq, map_map. cbn [blend_candidate c_product_id].
  rewrite map_id. apply nodup_filter, nodup_set_of_list.
Qed.

(** X21.  The rows built from the blending loop of [recommendBlend] are
    the first [limit] rows ([slice(0, limit)], with the clamped limit) of
    a ranking of the candidates the loop keeps.  The candidates are the ids
    with a normalised content or collaborative score that no exclusion
    removes, that are in the catalog and whose blended score is not
    [<= 0], each of them once; the score of a candidate is the blended
    score of the loop ([alpha] times the normalised content score plus
    [1 - alpha] times the normalised collaborative score, raised by [beta]
    and capped at 1 when the bias applies); the ranking is in descending
    order of that score when no score is NaN. *)
Theorem blend_loop_rows_ranked (c : Cache) (st : State) (opts : BlendOpts) :
  let nContent := normalize01 (blend_content st opts) in
  let nCF := normalize01 (blend_cf st opts) in
  exists ranked,
    fst (blend_top c st opts)
    = map (blend_row c) (slice0 (opt_limit opts) ranked)
    /\ NoDup (map c_product_id ranked)
    /\ (forall pid,
          In pid (map c_product_id ranked)
          <-> (In pid (okeys nContent) \/ In pid (okeys nCF))
              /\ blend_kept c opts (haveSeen st opts) nContent nCF pid = true)
    /\ Forall (fun x =>
                 c_score x = blend_score c opts nContent nCF (c_product_id x)
                 /\ (c_score x <=? 0)%float = false)
         ranked
    /\ (Forall (fun x => Number_isNaN (c_score x) = false) ranked ->
        descending c_score ranked).
Proof.
  intros nContent nCF. rewrite blend_top_rows.
  set (combined := blend_combined c st opts (blend_content st opts)
                     (blend_cf st opts) (blend_reasons st opts)).
  exists (sort_by by_blend_desc combined).
  pose proof (sort_by_perm by_blend_desc combined) as Hperm.
  split; [reflexivity|]. split.
  { apply (Permutation_NoDup (Permutation_map c_product_id (Permutation_sym Hperm))).
    apply blend_combined_ids. }
  split.
  { intros pid.
    assert (Hids : map c_product_id combined
                   = filter (blend_kept c opts (haveSeen st opts) nContent nCF)
                       (set_of_list (okeys nContent ++ okeys nCF))).
    { subst combined. rewrite blend_combined_eq, map_map.
      cbn [blend_candidate c_product_id]. apply map_id. }
    split.
    - intros Hin.
      apply (Permutation_in _ (Permutation_map c_product_id Hperm)) in Hin.
      rewrite Hids in Hin. apply filter_In in Hin. destruct Hin as [Hin Hk].
      apply in_set_of_list, in_app_iff in Hin. auto.
    - intros [Hin Hk].
      apply (Permutation_in _
               (Permutation_map c_product_id (Permutation_sym Hperm))).
      rewrite Hids. apply filter_In. split; [|exact Hk].
      apply in_set_of_list, in_app_iff. exact Hin. }
  split.
  { apply (Permutation_Forall (Permutation_sym Hperm)).
    subst combined. rewrite blend_combined_eq. apply Forall_forall.
    intros x Hx. apply in_map_iff in Hx. destruct Hx as (pid & <- & Hpid).
    apply filter_In in Hpid. destruct Hpid as [_ Hkept].
    cbn [blend_candidate c_score c_product_id]. split; [reflexivity|].
    unfold blend_kept in Hkept. apply andb_prop in Hkept.
    destruct Hkept as [Hkept _]. apply andb_prop in Hkept.
    destruct Hkept as [_ Hpos]. apply negb_true_iff in Hpos. exact Hpos. }
  intros Hnum. apply (sort_by_descending c_score).
  apply (Permutation_Forall Hperm), Hnum.
Qed.

Lemma nodup_map_some (l : list string) : NoDup l -> NoDup (map Some l).
Proof.
  induction 1 as [|x l Hni Hnd IH]; simpl; constructor; [|exact IH].
  intros Hin. apply in_map_iff in Hin. destruct Hin as (y & [= ->] & Hy).
  contradiction.
Qed.

Lemma rows_ids {A : Type} (c : Cache) (pid_of : A -> string) (l : list A) :
  (forall x, In x l ->
     exists p, oget (pid_of x) (byId c) = Some p /\ product_id p = pid_of x) ->
  map (fun x => option_map product_id (oget (pid_of x) (byId c))) l
  = map Some (map pid_of l).
Proof.
  induction l as [|x l IH]; intros Hl; simpl; [reflexivity|].
  destruct (Hl x (or_introl eq_refl)) as (p & -> & Hp). simpl. rewrite Hp.
  f_equal. apply IH. intros y Hy. apply Hl. right. exact Hy.
Qed.

Lemma candidateScores_nodup st neigh have :
  NoDup (okeys (candidateScores st neigh have)).
Proof.
  unfold candidateScores.
  apply (fold_left_invariant (fun cand : omap string float => NoDup (okeys cand)));
    [constructor|].
  intros cand ns _ Hcand.
  destruct (oget (fst ns) (userVectors st)) as [v|]; [|exact Hcand].
  apply (fold_left_invariant (fun cand : omap string float => NoDup (okeys cand)));
    [exact Hcand|].
  intros acc pw _ Hacc. destruct (shas (fst pw) have);
    [exact Hacc | apply okeys_oset_nodup, Hacc].
Qed.

Lemma nodup_slice0 {A B : Type} (f : A -> B) k (l : list A) :
  NoDup (map f l) -> NoDup (map f (slice0 k l)).
Proof.
  intros Hnd. destruct (slice0_prefix k l) as [rest Hrest].
  rewrite Hrest, map_app in Hnd. exact (nodup_prefix _ _ Hnd).
Qed.

Lemma nodup_sort_by {A B : Type} (f : A -> B) after (l : list A) :
  NoDup (map f l) -> NoDup (map f (sort_by after l)).
Proof.
  apply Permutation_NoDup, Permutation_map, Permutation_sym, sort_by_perm.
Qed.

Lemma reachable_lookup ops pid :
  oget pid (byId (fst (ensureCache (run ops)))) <> None ->
  exists p, oget pid (byId (fst (ensureCache (run ops)))) = Some p
            /\ product_id p = pid.
Proof.
  rewrite reachable_cache. intros Hfound.
  destruct (oget pid (byId initRecommender)) as [p|] eqn:Hp; [|congruence].
  exists p. split; [reflexivity|].
  rewrite byId_lookup in Hp. apply last_product_some in Hp. apply Hp.
Qed.

Lemma popular_ids ops limit :
  NoDup (map fst (popularItems (run ops) limit))
  /\ forall e, In e (popularItems (run ops) limit) ->
       exists p, oget (fst e) (byId (fst (ensureCache (run ops)))) = Some p
                 /\ product_id p = fst e.
Proof.
  split.
  - unfold popularItems. apply nodup_slice0.
    apply (popularity_ranking_nodup (interactions (run ops))).
  - intros e He. apply reachable_lookup.
    destruct (reachable_invariants ops) as [_ Hinv].
    apply (@stored_lookup _ (run ops) (fst e) Hinv). left.
    apply (in_popularItems _ _ _ He).
Qed.

(** X22.  After any sequence of operations, neither [recommendBlend] nor
    [recommendForUser] returns the same product id twice. *)
Theorem recommendations_without_repetition (ops : list Op) :
  (forall opts, NoDup (map row_pid (fst (recommendBlend (run ops) opts))))
  /\ (forall userId limit,
        NoDup (map user_row_pid (fst (recommendForUser (run ops) userId limit)))).
Proof.
  split.
  - intros opts. rewrite recommendBlend_rows.
    destruct (ensureCache_store (run ops)) as [Hi Hu].
    assert (Htop : NoDup (map row_pid
                      (fst (blend_top (fst (ensureCache (run ops)))
                              (snd (ensureCache (run ops))) opts)))).
    { rewrite blend_top_rows, map_map. unfold row_pid. cbn [br_product].
      rewrite (@rows_ids _ _ c_product_id).
      - apply nodup_map_some, nodup_slice0, nodup_sort_by, blend_combined_ids.
      - intros x Hx. apply in_slice0, in_sort_by in Hx.
        apply reachable_lookup. exact (blend_combined_found _ _ _ _ _ _ _ Hx). }
    destruct (fst (blend_top _ _ opts)) as [|r top]; [|destruct (given (userId opts)); exact Htop].
    destruct (given (userId opts)); [|constructor].
    unfold blend_fallback. rewrite map_map. unfold row_pid. cbn [br_product].
    rewrite (@popularItems_store (run ops) (snd (ensureCache (run ops))) (opt_limit opts) Hi).
    destruct (popular_ids ops (opt_limit opts)) as [Hnd Hfound].
    rewrite (@rows_ids _ _ fst) by exact Hfound.
    apply nodup_map_some, Hnd.
  - intros userId limit. unfold recommendForUser.
    destruct (ensureCache_store (run ops)) as [Hi Hu].
    rewrite (surjective_pairing (ensureCache (run ops))). cbn beta iota zeta.
    rewrite Hu, (@popularItems_store (run ops) (snd (ensureCache (run ops))) limit Hi),
      (@topKNeighbors_store _ (run ops) (snd (ensureCache (run ops))) _ _ Hu).
    assert (Hpop : NoDup (map user_row_pid
                      (popular_rows (fst (ensureCache (run ops)))
                         (popularItems (run ops) limit)))).
    { unfold popular_rows. rewrite map_map. unfold user_row_pid. cbn [ur_product].
      destruct (popular_ids ops limit) as [Hnd Hfound].
      rewrite (@rows_ids _ _ fst) by exact Hfound. apply nodup_map_some, Hnd. }
    destruct (oget (canon userId) (userVectors (run ops))) as [vec|];
      [|exact Hpop].
    destruct (osize vec =? 0)%nat; [exact Hpop|].
    rewrite (@candidateScores_store (run ops) (snd (ensureCache (run ops))) _ _ Hu).
    destruct (osize _ =? 0)%nat; [exact Hpop|].
    cbn [fst]. rewrite map_map. unfold user_row_pid. cbn [ur_product].
    rewrite (@rows_ids _ _ fst).
    + apply nodup_map_some, nodup_slice0, nodup_sort_by, candidateScores_nodup.
    + intros e He. apply in_slice0, in_sort_by in He. apply reachable_lookup.
      destruct (reachable_invariants ops) as [_ Hinv].
      apply (@stored_lookup _ (run ops) (fst e) Hinv). right.
      apply (in_map fst) in He. eapply candidateScores_keys. exact He.
Qed.
End Ranked.

(** ** Well-formed store *)

Section WellFormed.
Context {rt : Runtime}.

Lemma oset_not_nil {K V : Type} `{EqDec K} (k : K) (v : V) (m : omap K V) :
  oset k v m <> [].
Proof.
  destruct m as [|[k' v'] m]; simpl; [discriminate|].
  destruct (eq_dec k k'); discriminate.
Qed.

Lemma or_zero_nonneg (o : option Z) :
  (forall w, o = Some w -> (0 < w)%Z) -> (0 <= or_zero o)%Z.
Proof.
  intros Ho. destruct o as [w|]; simpl; [|lia].
  destruct (Z.eqb_spec w 0); [lia|]. specialize (Ho w eq_refl). lia.
Qed.

Lemma weight_positive t : (0 < WEIGHT t)%Z.
Proof. destruct t; reflexivity. Qed.

Lemma well_formed_store_step st op :
  well_formed_store st -> well_formed_store (step st op).
Proof.
  intros [Hv He].
  destruct op as [| | | |ev now| |].
  5: { simpl.
       destruct (ohas (canon (ev_product_id ev)) (byId (fst (ensureCache st))))
         eqn:Hk.
       - rewrite registerEvent_accepted by assumption.
         unfold well_formed_store, registered. cbn [userVectors interactions].
         split.
         + apply ovalues_oset; [|exact Hv].
           split; [apply oset_not_nil|].
           set (vec := nullish (oget (canon (ev_user_id ev)) (userVectors st)) []).
           assert (Hvec : Forall (fun w => (0 < w)%Z) (ovalues vec)).
           { subst vec.
             destruct (oget (canon (ev_user_id ev)) (userVectors st)) as [v|] eqn:Hg;
               simpl; [|constructor].
             apply oget_some_in in Hg. rewrite Forall_forall in Hv.
             apply (in_map snd) in Hg. apply (Hv _ Hg). }
           apply ovalues_oset; [|exact Hvec].
           pose proof (weight_positive (ev_type ev)).
           assert (0 <= or_zero (oget (canon (ev_product_id ev)) vec))%Z; [|lia].
           apply or_zero_nonneg. intros w Hw. apply oget_some_in in Hw.
           rewrite Forall_forall in Hvec. apply (in_map snd) in Hw.
           apply (Hvec _ Hw).
         + apply Forall_app. split; [exact He|].
           constructor; [|constructor]. cbn [ev_ts ev_user_id ev_product_id].
           split; [discriminate|]. split; eexists; reflexivity.
       - rewrite registerEvent_rejected by assumption. simpl.
         destruct (ensureCache_store st) as [Hi Hu]. unfold well_formed_store.
         rewrite Hi, Hu. split; assumption. }
  all: match goal with
       | |- well_formed_store (step _ ?o) =>
           destruct (step_read_only st (op := o)) as [Hi Hu];
           [discriminate | unfold well_formed_store; rewrite Hi, Hu; split; assumption]
       end.
Qed.

(** X23.  After any sequence of operations, every user vector has at
    least one entry and every entry is a positive weight, and every
    recorded interaction carries a timestamp and ids in canonical form
    (trimmed, lower case). *)
Theorem store_is_well_formed (ops : list Op) :
  let st := run ops in
  (forall u v, oget u (userVectors st) = Some v ->
               v <> [] /\ forall p w, oget p v = Some w -> (0 < w)%Z)
  /\ Forall (fun ev =>
               ev_ts ev <> None
               /\ (exists u, ev_user_id ev = canon u)
               /\ (exists p, ev_product_id ev = canon p))
       (interactions st).
Proof.
  intros st. subst st.
  assert (Hwf : well_formed_store (run ops)).
  { induction ops as [|op ops IH] using rev_ind.
    - split; constructor.
    - rewrite run_snoc. apply well_formed_store_step, IH. }
  destruct Hwf as [Hv He]. split; [|exact He].
  intros u v Hu. apply oget_some_in in Hu. apply (in_map snd) in Hu.
  rewrite Forall_forall in Hv. destruct (Hv _ Hu) as [Hne Hpos].
  split; [exact Hne|]. intros p w Hp. apply oget_some_in in Hp.
  apply (in_map snd) in Hp. rewrite Forall_forall in Hpos. apply (Hpos _ Hp).
Qed.
End WellFormed.

(** ** Symmetry between catalog products *)

Section StoredSimilarity.
Context {rt : Runtime}.

(** X24.  Any two vectors stored by [buildTFIDF] have the same length, and
    their cosine does not depend on the order of the two: the similarity
    of two catalog products is symmetric. *)
Theorem stored_similarity_symmetric (products : list Product)
    (p q : string) (v w : list float) :
  oget p (vectors (buildTFIDF products)) = Some v ->
  oget q (vectors (buildTFIDF products)) = Some w ->
  List.length v = List.length w /\ cosine v w = cosine w v.
Proof.
  intros Hv Hw.
  destruct (buildTFIDF_facts products) as (_ & _ & _ & Hlen & _).
  rewrite Forall_forall in Hlen.
  apply oget_some_in in Hv, Hw. apply (in_map snd) in Hv, Hw.
  assert (Heq : List.length v = List.length w).
  { apply Hlen in Hv, Hw. cbn [snd] in Hv, Hw. congruence. }
  split; [exact Heq|].
  unfold cosine. rewrite (cosine_sums_swap v w 0 0 0 Heq).
  destruct (cosine_sums v w 0 0 0) as [[dot na] nb].
  rewrite (orb_comm (negb (truthy nb))), (float_mul_comm nb na). reflexivity.
Qed.
End StoredSimilarity.

(** The vectors of p1 and p2 in the example catalog. *)
Lemma stored_similarity_symmetric_witness :
  exists v w,
    oget "p1"%string (vectors (@buildTFIDF Example.rt Example.catalog)) = Some v
    /\ oget "p2"%string (vectors (@buildTFIDF Example.rt Example.catalog)) = Some w
    /\ List.length v = List.length w /\ cosine v w = cosine w v.
Proof.
  eexists. eexists.
  split; [vm_compute; reflexivity|]. split; [vm_compute; reflexivity|].
  apply (@stored_similarity_symmetric Example.rt Example.catalog
           "p1"%string "p2"%string); vm_compute; reflexivity.
Defined.

(** ** Cold start in the blend *)

Section ColdBlend.
Context {rt : Runtime}.

Lemma cfScoresForUser_store st st' uid :
  interactions st' = interactions st -> userVectors st' = userVectors st ->
  cfScoresForUser st' uid = cfScoresForUser st uid.
Proof.
  intros Hi Hu. unfold cfScoresForUser.
  rewrite Hu, (popularItems_store st st' _ Hi).
  rewrite (@topKNeighbors_store rt st st' _ _ Hu).
  destruct (oget _ _) as [vec|]; [|reflexivity].
  rewrite (candidateScores_store st st' _ _ Hu). reflexivity.
Qed.

(** The collaborative part of [blend_signals]: the scores of
    [cfScoresForUser], and one tag per key on top of the reasons of the
    content signals, which hold neither "neighbors" nor "popular". *)
Lemma blend_signals_cf st opts c :
  _cache st = Some c ->
  exists reasons0,
    untagged "neighbors" reasons0 /\ untagged "popular" reasons0
    /\ blend_cf st opts
       = match given (userId opts) with
         | Some u => fst (cfScoresForUser st u)
         | None => []
         end
    /\ blend_reasons st opts
       = match given (userId opts) with
         | Some u =>
             fold_left
               (fun reasons k =>
                  addReason k
                    (if snd (cfScoresForUser st u) then "neighbors" else "popular")
                    reasons)
               (okeys (fst (cfScoresForUser st u))) reasons0
         | None => reasons0
         end.
Proof.
  intros Hc. unfold blend_cf, blend_reasons, blend_signals.
  assert (Hnil : forall tag, untagged tag []) by (intros tag pid; simpl; tauto).
  assert (Hlast : forall content reasons,
            untagged "neighbors" reasons -> untagged "popular" reasons ->
            exists reasons0,
              untagged "neighbors" reasons0 /\ untagged "popular" reasons0
              /\ snd (fst (fst
                   (let '(cf, reasons1) :=
                      match given (userId opts) with
                      | Some u =>
                          let '(scores, hadVector) := cfScoresForUser st u in
                          (scores,
                           fold_left
                             (fun reasons k =>
                                addReason k
                                  (if hadVector then "neighbors" else "popular")
                                  reasons)
                             (okeys scores) reasons)
                      | None => ([], reasons)
                      end in
                    (content : omap string float, cf, reasons1, st))))
                 = match given (userId opts) with
                   | Some u => fst (cfScoresForUser st u)
                   | None => []
                   end
              /\ snd (fst
                   (let '(cf, reasons1) :=
                      match given (userId opts) with
                      | Some u =>
                          let '(scores, hadVector) := cfScoresForUser st u in
                          (scores,
                           fold_left
                             (fun reasons k =>
                                addReason k
                                  (if hadVector then "neighbors" else "popular")
                                  reasons)
                             (okeys scores) reasons)
                      | None => ([], reasons)
                      end in
                    (content : omap string float, cf, reasons1, st)))
                 = match given (userId opts) with
                   | Some u =>
                       fold_left
                         (fun reasons k =>
                            addReason k
                              (if snd (cfScoresForUser st u)
                               then "neighbors" else "popular")
                              reasons)
                         (okeys (fst (cfScoresForUser st u))) reasons0
                   | None => reasons0
                   end).
  { intros content reasons Hn Hp. exists reasons.
    split; [exact Hn|]. split; [exact Hp|].
    destruct (given (userId opts)) as [u|]; [|split; reflexivity].
    destruct (cfScoresForUser st u) as [scores hv]. split; reflexivity. }
  assert (Hquery : forall content reasons,
            untagged "neighbors" reasons -> untagged "popular" reasons ->
            exists content' reasons',
              untagged "neighbors" reasons' /\ untagged "popular" reasons'
              /\ match given (query opts) with
                 | Some q =>
                     let '(m, st1) := contentScoresFromQuery st q in
                     let '(content1, reasons1) :=
                       merge_content m "match_query" (content, reasons) in
                     (content1, reasons1, st1)
                 | None => (content, reasons, st)
                 end = (content', reasons', st)).
  { intros content reasons Hn Hp.
    destruct (given (query opts)) as [q|]; [|eauto 6].
    pose proof (contentScoresFromQuery_state st q Hc) as Hq.
    destruct (contentScoresFromQuery st q) as [m st']. simpl in Hq. subst st'.
    pose proof (@untagged_merge_content "neighbors" m "match_query"
                  (content, reasons)) as Hm1.
    pose proof (@untagged_merge_content "popular" m "match_query"
                  (content, reasons)) as Hm2.
    destruct (merge_content m "match_query" (content, reasons))
      as [content1 reasons1].
    exists content1, reasons1.
    split; [apply Hm1; [discriminate | exact Hn]|].
    split; [apply Hm2; [discriminate | exact Hp]|]. reflexivity. }
  destruct (opt_seedPid opts) as [seed|].
  - pose proof (contentScoresFromSeed_state st seed Hc) as Hs.
    destruct (contentScoresFromSeed st seed) as [m st']. simpl in Hs. subst st'.
    pose proof (@untagged_merge_content "neighbors" m ("similar_to:" ++ seed)
                  ([], [])) as Hm1.
    pose proof (@untagged_merge_content "popular" m ("similar_to:" ++ seed)
                  ([], [])) as Hm2.
    destruct (merge_content m ("similar_to:" ++ seed) ([], []))
      as [content1 reasons1].
    destruct (Hquery (odelete seed content1) reasons1) as (c' & r' & Hn & Hp & ->).
    + apply Hm1; [discriminate | apply Hnil].
    + apply Hm2; [discriminate | apply Hnil].
    + apply Hlast; assumption.
  - destruct (Hquery [] []) as (c' & r' & Hn & Hp & ->); try apply Hnil.
    apply Hlast; assumption.
Qed.

(** Tagging every key of a list: each key carries the tag afterwards, and a
    tag that nothing carried is still carried by nothing. *)
Lemma fold_addReason_tagged r (ks : list string) : forall reasons pid,
  In pid ks ->
  In r (nullish (oget pid
          (fold_left (fun reasons k => addReason k r reasons) ks reasons)) []).
Proof.
  induction ks as [|k ks IH] using rev_ind; intros reasons pid Hin; [destruct Hin|].
  rewrite fold_left_app. cbn [fold_left]. rewrite oget_addReason.
  destruct (string_dec pid k) as [->|Hne].
  - cbn [nullish]. apply in_sadd. left. reflexivity.
  - apply in_app_iff in Hin. destruct Hin as [Hin | [Heq | []]]; [|congruence].
    apply IH, Hin.
Qed.

Lemma fold_addReason_untagged tag r (ks : list string) reasons :
  r <> tag -> untagged tag reasons ->
  untagged tag (fold_left (fun reasons k => addReason k r reasons) ks reasons).
Proof.
  intros Hr Hun. apply (fold_left_invariant (untagged tag)); [exact Hun|].
  intros acc k _ Hacc. apply untagged_addReason; assumption.
Qed.

(** The tags of a cold user's request. *)
Lemma cold_tags st opts uid c :
  _cache st = Some c ->
  given (userId opts) = Some uid ->
  no_personal_vector st (canon uid) ->
  blend_cf st opts = fst (cfScoresForUser st uid)
  /\ (forall pid, In pid (okeys (blend_cf st opts)) ->
        In "popular"%string (blend_tags st opts pid))
  /\ (forall pid, ~ In "neighbors"%string (blend_tags st opts pid)).
Proof.
  intros Hc Hu Hcold.
  destruct (@blend_signals_cf st opts c Hc) as (reasons0 & Hn & Hp & Hcf & Hr).
  rewrite Hu in Hcf, Hr. unfold blend_tags. rewrite Hr, Hcf.
  rewrite (@cfScoresForUser_cold rt st uid Hcold). cbn [fst snd].
  split; [reflexivity|]. split.
  - intros pid Hin. apply fold_addReason_tagged, Hin.
  - apply fold_addReason_untagged; [discriminate | exact Hn].
Qed.

Lemma cold_candidates c st opts uid x :
  _cache st = Some c ->
  given (userId opts) = Some uid ->
  no_personal_vector st (canon uid) ->
  In x (blend_combined c st opts (blend_content st opts) (blend_cf st opts)
          (blend_reasons st opts)) ->
  ~ In "neighbors"%string (c_reasons x)
  /\ (In (c_product_id x) (okeys (blend_cf st opts)) ->
      In "popular"%string (c_reasons x))
  /\ ohas (c_product_id x) (byId c) = true.
Proof.
  intros Hc Hu Hcold Hx.
  destruct (@cold_tags st opts uid c Hc Hu Hcold) as (_ & Hpop & Hneigh).
  rewrite blend_combined_eq in Hx. apply in_map_iff in Hx.
  destruct Hx as (pid & <- & Hpid). apply filter_In in Hpid.
  destruct Hpid as [_ Hkept]. unfold blend_kept in Hkept.
  apply andb_prop in Hkept. destruct Hkept as [_ Hhas].
  unfold blend_candidate. cbn [c_reasons c_product_id].
  specialize (Hpop pid). specialize (Hneigh pid). unfold blend_tags in *.
  split; [|split; [|exact Hhas]].
  - destruct (bias_boost c opts pid); [|exact Hneigh].
    rewrite in_sadd. intros [Heq | Hin]; [discriminate | auto].
  - intros Hin. destruct (bias_boost c opts pid); [|auto].
    apply in_sadd. right. auto.
Qed.

(** C6.  For a user whose vector is absent or empty, [recommendForUser]
    returns the first [limit] rows of the global popularity ranking and
    [cfScoresForUser] returns that ranking (up to [MAX_SAFE_INTEGER] rows)
    with [hadVector = false].  The ranking holds exactly the products that
    have interactions, each with the sum of [WEIGHT[type]] over all its
    interactions by all users, without repetition and in descending order of
    that sum; a row carries the catalog record of its product and the sum,
    rounded for presentation.  In [recommendBlend] for such a user, the
    collaborative signal is that ranking, every product of it is tagged
    "popular" and no product is tagged "neighbors" before the loop; no row
    returned carries "neighbors", and every row returned for a product of
    the ranking carries "popular". *)
Theorem cold_start_is_popularity st uid limit :
  no_personal_vector st (canon uid) ->
  let ranking := popularity_ranking (interactions st) in
  (forall p s,
      In (p, s) ranking
      <-> existsb (interaction_with p) (interactions st) = true
          /\ s = weight_sum (interaction_with p) (interactions st))
  /\ NoDup (map fst ranking)
  /\ StronglySorted (fun a b => (snd b <= snd a)%Z) ranking
  /\ fst (recommendForUser st uid limit)
     = map (fun e => {| ur_product := oget (fst e) (byId (fst (ensureCache st)));
                        ur_score := toFixed4 (num_of_Z (snd e)) |})
         (slice0 limit ranking)
  /\ cfScoresForUser st uid
     = (map (fun e => (fst e, num_of_Z (snd e)))
          (slice0 MAX_SAFE_INTEGER ranking), false)
  /\ forall opts,
       given (userId opts) = Some uid ->
       let st0 := snd (ensureCache st) in
       blend_cf st0 opts
       = map (fun e => (fst e, num_of_Z (snd e))) (slice0 MAX_SAFE_INTEGER ranking)
       /\ (forall pid, In pid (map fst (slice0 MAX_SAFE_INTEGER ranking)) ->
             In "popular"%string (blend_tags st0 opts pid))
       /\ (forall pid, ~ In "neighbors"%string (blend_tags st0 opts pid))
       /\ Forall (fun row =>
                    ~ In "neighbors"%string (br_reasons row)
                    /\ (cache_from_catalog st ->
                        forall p, br_product row = Some p ->
                          In (product_id p)
                            (map fst (slice0 MAX_SAFE_INTEGER ranking)) ->
                          In "popular"%string (br_reasons row)))
            (fst (recommendBlend st opts)).
Proof.
  intros Hcold ranking.
  split; [intros p s; apply in_popularity_ranking|].
  split; [apply popularity_ranking_nodup|].
  split; [apply sort_by_count_sorted|].
  split; [apply recommendForUser_cold, Hcold|].
  split; [apply cfScoresForUser_cold, Hcold|].
  intros opts Hu st0.
  pose proof (ensureCache_cache st) as Hc. fold st0 in Hc.
  destruct (ensureCache_store st) as [Hi Hv]. fold st0 in Hi, Hv.
  assert (Hcold0 : no_personal_vector st0 (canon uid)).
  { unfold no_personal_vector. rewrite Hv. exact Hcold. }
  destruct (@cold_tags st0 opts uid _ Hc Hu Hcold0) as (Hcf & Hpop & Hneigh).
  assert (Hscores : blend_cf st0 opts
            = map (fun e => (fst e, num_of_Z (snd e)))
                (slice0 MAX_SAFE_INTEGER ranking)).
  { rewrite Hcf, (@cfScoresForUser_cold rt st0 uid Hcold0), Hi. reflexivity. }
  assert (Hkeys : okeys (blend_cf st0 opts)
                  = map fst (slice0 MAX_SAFE_INTEGER ranking)).
  { rewrite Hscores. unfold okeys. rewrite map_map. reflexivity. }
  split; [exact Hscores|].
  split; [intros pid Hin; apply Hpop; rewrite Hkeys; exact Hin|].
  split; [exact Hneigh|].
  apply Forall_forall. intros row. rewrite recommendBlend_rows. fold st0.
  assert (Htop : In row (fst (blend_top (fst (ensureCache st)) st0 opts)) ->
            ~ In "neighbors"%string (br_reasons row)
            /\ (cache_from_catalog st ->
                forall p, br_product row = Some p ->
                  In (product_id p) (map fst (slice0 MAX_SAFE_INTEGER ranking)) ->
                  In "popular"%string (br_reasons row))).
  { intros Hrow. apply in_blend_top in Hrow. destruct Hrow as (x & Hx & ->).
    destruct (@cold_candidates _ st0 opts uid x Hc Hu Hcold0 Hx) as (Hn & Hp & Hhas).
    cbn [br_reasons br_product]. split; [exact Hn|].
    intros Hcat p Hprod Hin. apply Hp. rewrite Hkeys.
    rewrite (ensureCache_from_catalog Hcat), byId_lookup in Hprod.
    apply last_product_some in Hprod. destruct Hprod as [_ <-]. exact Hin. }
  destruct (fst (blend_top _ _ opts)) as [|r top]; [|exact Htop].
  rewrite Hu. unfold blend_fallback. rewrite in_map_iff.
  intros (e & <- & _). cbn [br_reasons]. split.
  - intros [Heq | []]. discriminate.
  - intros _ p _ _. left. reflexivity.
Qed.
End ColdBlend.

(** User u2 has no interactions in the example history. *)
Lemma cold_start_is_popularity_witness :
  let ranking := popularity_ranking (interactions Example.st) in
  (forall p s,
      In (p, s) ranking
      <-> existsb (interaction_with p) (interactions Example.st) = true
          /\ s = weight_sum (interaction_with p) (interactions Example.st))
  /\ NoDup (map fst ranking)
  /\ StronglySorted (fun a b => (snd b <= snd a)%Z) ranking
  /\ fst (@recommendForUser Example.rt Example.st "u2" 5)
     = map (fun e =>
              {| ur_product :=
                   oget (fst e) (byId (fst (@ensureCache Example.rt Example.st)));
                 ur_score := @toFixed4 Example.rt (num_of_Z (snd e)) |})
         (slice0 5 ranking)
  /\ @cfScoresForUser Example.rt Example.st "u2"
     = (map (fun e => (fst e, num_of_Z (snd e)))
          (slice0 MAX_SAFE_INTEGER ranking), false)
  /\ forall opts,
       given (userId opts) = Some "u2"%string ->
       let st0 := snd (@ensureCache Example.rt Example.st) in
       @blend_cf Example.rt st0 opts
       = map (fun e => (fst e, num_of_Z (snd e))) (slice0 MAX_SAFE_INTEGER ranking)
       /\ (forall pid, In pid (map fst (slice0 MAX_SAFE_INTEGER ranking)) ->
             In "popular"%string (@blend_tags Example.rt st0 opts pid))
       /\ (forall pid, ~ In "neighbors"%string (@blend_tags Example.rt st0 opts pid))
       /\ Forall (fun row =>
                    ~ In "neighbors"%string (br_reasons row)
                    /\ (@cache_from_catalog Example.rt Example.st ->
                        forall p, br_product row = Some p ->
                          In (product_id p)
                            (map fst (slice0 MAX_SAFE_INTEGER ranking)) ->
                          In "popular"%string (br_reasons row)))
            (fst (@recommendBlend Example.rt Example.st opts)).
Proof.
  apply (@cold_start_is_popularity Example.rt Example.st "u2" 5).
  left. vm_compute. reflexivity.
Defined.

(** The rows of [recommendBlend({ userId: "u2" })] after the example
    history, with their reasons. *)
Lemma cold_blend_example :
  map (fun r => (option_map product_id (br_product r), br_reasons r))
    (fst (@recommendBlend Example.rt Example.st for_u2))
  = [(Some "p2", ["popular"]); (Some "p1", ["popular"]);
     (Some "s", ["popular"])]%string.
Proof. vm_compute. reflexivity. Qed.

(** * The norm of the stored vectors *)

Unset Implicit Arguments.

(** ** Powers of two *)

Section PowersOfTwo.
Local Open Scope R_scope.

Lemma p2_pos e : 0 < powerRZ 2 e.
Proof. apply powerRZ_lt. lra. Qed.

Lemma p2_add a b : powerRZ 2 (a + b) = powerRZ 2 a * powerRZ 2 b.
Proof. apply powerRZ_add. lra. Qed.

Lemma p2_IZR k : (0 <= k)%Z -> powerRZ 2 k = IZR (2 ^ k).
Proof.
  intros Hk. rewrite <- (Z2Nat.id k Hk) at 1. rewrite <- pow_powerRZ.
  rewrite pow_IZR. rewrite Z2Nat.id by exact Hk. reflexivity.
Qed.

Lemma p2_ge_1 k : (0 <= k)%Z -> 1 <= powerRZ 2 k.
Proof.
  intros Hk. rewrite p2_IZR by exact Hk. apply IZR_le.
  pose proof (Z.pow_pos_nonneg 2 k ltac:(lia) Hk). lia.
Qed.

Lemma p2_le a b : (a <= b)%Z -> powerRZ 2 a <= powerRZ 2 b.
Proof.
  intros Hab. replace b with (a + (b - a))%Z by lia. rewrite p2_add.
  pose proof (p2_pos a). pose proof (p2_ge_1 (b - a)%Z ltac:(lia)). nra.
Qed.

Lemma p2_succ a : powerRZ 2 (a + 1) = 2 * powerRZ 2 a.
Proof. rewrite p2_add. simpl. lra. Qed.

Lemma p2_lt a b : (a < b)%Z -> powerRZ 2 a < powerRZ 2 b.
Proof.
  intros Hab. pose proof (p2_le (a + 1)%Z b ltac:(lia)) as H.
  rewrite p2_succ in H. pose proof (p2_pos a). lra.
Qed.

Lemma p2_lt_inv a b : powerRZ 2 a < powerRZ 2 b -> (a < b)%Z.
Proof.
  intros H. destruct (Z_lt_le_dec a b) as [Hlt|Hle]; [exact Hlt|].
  apply p2_le in Hle. lra.
Qed.

Lemma p2_le_inv a b : powerRZ 2 a <= powerRZ 2 b -> (a <= b)%Z.
Proof.
  intros H. destruct (Z_le_gt_dec a b) as [Hle|Hgt]; [exact Hle|].
  apply Z.gt_lt, p2_lt in Hgt. lra.
Qed.
End PowersOfTwo.

(** ** Truncation of a mantissa *)

Section Truncation.
Local Open Scope Z_scope.

Lemma shr_1_value mrs : 0 <= shr_m mrs -> shr_m (shr_1 mrs) = shr_m mrs / 2.
Proof.
  destruct mrs as [m r s]. cbn [shr_m]. intros Hm.
  destruct m as [|p|p]; [reflexivity| |lia].
  destruct p as [p|p|]; cbn [shr_1 shr_m].
  - rewrite Pos2Z.inj_xI. apply Z.div_unique with (r := 1); lia.
  - rewrite Pos2Z.inj_xO. apply Z.div_unique with (r := 0); lia.
  - reflexivity.
Qed.

Lemma iter_shr_1_value n : forall mrs,
  0 <= shr_m mrs ->
  0 <= shr_m (iter_pos shr_1 n mrs)
  /\ shr_m (iter_pos shr_1 n mrs) = shr_m mrs / 2 ^ Z.pos n.
Proof.
  induction n as [n IH|n IH|]; intros mrs Hm; cbn [iter_pos].
  - pose proof (shr_1_nonneg mrs Hm) as H1.
    destruct (IH _ H1) as [H2 E2]. destruct (IH _ H2) as [H3 E3].
    split; [exact H3|]. rewrite E3, E2, shr_1_value by exact Hm.
    rewrite !Z.div_div by (try apply Z.pow_pos_nonneg; lia).
    f_equal. replace (Z.pos n~1) with (1 + Z.pos n + Z.pos n) by lia.
    rewrite !Z.pow_add_r by lia. lia.
  - destruct (IH _ Hm) as [H2 E2]. destruct (IH _ H2) as [H3 E3].
    split; [exact H3|]. rewrite E3, E2.
    rewrite !Z.div_div by (try apply Z.pow_pos_nonneg; lia).
    f_equal. replace (Z.pos n~0) with (Z.pos n + Z.pos n) by lia.
    rewrite !Z.pow_add_r by lia. lia.
  - split; [apply shr_1_nonneg, Hm|]. rewrite shr_1_value by exact Hm. reflexivity.
Qed.

Lemma digits_unique p k :
  2 ^ (k - 1) <= Z.pos p < 2 ^ k -> Z.pos (digits2_pos p) = k.
Proof.
  intros [Hlo Hhi]. pose proof (digits2_bounds p) as [Dlo Dhi].
  assert (Hk : 0 < k).
  { destruct (Z_lt_le_dec 0 k) as [H|H]; [exact H|].
    destruct (Z.eq_dec k 0) as [->|Hne]; [simpl in Hhi; lia|].
    rewrite Z.pow_neg_r in Hhi by lia. lia. }
  destruct (Z.lt_trichotomy (Z.pos (digits2_pos p)) k) as [H|[H|H]]; [|exact H|].
  - assert (2 ^ Z.pos (digits2_pos p) <= 2 ^ (k - 1))
      by (apply Z.pow_le_mono_r; lia). lia.
  - assert (2 ^ k <= 2 ^ (Z.pos (digits2_pos p) - 1))
      by (apply Z.pow_le_mono_r; lia). lia.
Qed.

(** Truncating a mantissa of [d >= 53] digits to 53 digits. *)
Lemma shr_fexp_value m e l :
  0 < m -> 53 <= Zdigits2 m -> -1074 <= Zdigits2 m + e - 53 ->
  let n := Zdigits2 m - 53 in
  snd (shr_fexp prec emax m e l) = e + n
  /\ shr_m (fst (shr_fexp prec emax m e l)) = m / 2 ^ n
  /\ 2 ^ 52 <= m / 2 ^ n < 2 ^ 53
  /\ (m / 2 ^ n) * 2 ^ n <= m < (m / 2 ^ n + 1) * 2 ^ n.
Proof.
  intros Hm Hd He n.
  assert (Hf : fexp prec emax (Zdigits2 m + e) - e = n).
  { unfold fexp, emin, prec, emax, n. lia. }
  assert (Hn : 0 <= n) by (unfold n; lia).
  assert (Hp : 0 < 2 ^ n) by (apply Z.pow_pos_nonneg; lia).
  destruct m as [|p|p]; try lia. cbn [Zdigits2] in *.
  pose proof (digits2_bounds p) as [Dlo Dhi].
  replace (Z.pos (digits2_pos p) - 1) with (52 + n) in Dlo by (unfold n; lia).
  replace (Z.pos (digits2_pos p)) with (53 + n) in Dhi by (unfold n; lia).
  rewrite Z.pow_add_r in Dlo, Dhi by lia.
  assert (Hq : 2 ^ 52 <= Z.pos p / 2 ^ n < 2 ^ 53).
  { split.
    - apply Z.div_le_lower_bound; lia.
    - apply Z.div_lt_upper_bound; lia. }
  assert (Hfloor : (Z.pos p / 2 ^ n) * 2 ^ n <= Z.pos p
                   < (Z.pos p / 2 ^ n + 1) * 2 ^ n).
  { pose proof (Z.div_mod (Z.pos p) (2 ^ n) ltac:(lia)).
    pose proof (Z.mod_pos_bound (Z.pos p) (2 ^ n) Hp). lia. }
  unfold shr_fexp. cbn [Zdigits2]. rewrite Hf. unfold shr.
  assert (Hrec : shr_m (shr_record_of_loc (Z.pos p) l) = Z.pos p)
    by (destruct l as [|[]]; reflexivity).
  destruct n as [|q|q] eqn:En; try lia.
  - cbn [fst snd]. rewrite Hrec, Z.div_1_r in *. rewrite Z.add_0_r.
    repeat split; lia.
  - cbn [fst snd].
    destruct (iter_shr_1_value q (shr_record_of_loc (Z.pos p) l)) as [_ Hv];
      [rewrite Hrec; lia|].
    rewrite Hv, Hrec. repeat split; lia.
Qed.
End Truncation.

(** ** The error of a rounding *)

Section RoundingError.

Lemma round_nearest_even_cases m l :
  round_nearest_even m l = m \/ round_nearest_even m l = (m + 1)%Z.
Proof.
  destruct l as [|[]]; cbn [round_nearest_even]; auto.
  destruct (Z.even m); auto.
Qed.

(** Rounding a positive value [x], known between two neighbours
    [mx * 2^ex] and [(mx + 1) * 2^ex] with [mx] of at least 53 digits, in
    the range of the normal numbers: the result is a positive finite number
    within a relative distance of [2^-52] of [x]. *)
Lemma round_aux_core mx ex lx (x : R) :
  (0 < mx)%Z -> (53 <= Zdigits2 mx)%Z ->
  (-1074 <= Zdigits2 mx + ex - 53)%Z -> (Zdigits2 mx + ex <= 1023)%Z ->
  (IZR mx * powerRZ 2 ex <= x < (IZR mx + 1) * powerRZ 2 ex)%R ->
  exists m e,
    binary_round_aux prec emax false mx ex lx = S754_finite false m e
    /\ Z.pos (digits2_pos m) = 53%Z /\ (-1074 <= e <= 971)%Z
    /\ ((1 - powerRZ 2 (-52)) * x <= IZR (Z.pos m) * powerRZ 2 e
        <= (1 + powerRZ 2 (-52)) * x)%R.
Proof.
  intros Hm Hd Hlo Hhi Hx.
  destruct (shr_fexp_value mx ex lx Hm Hd Hlo) as (He1 & Hm1 & Hq & Hfloor).
  set (n := (Zdigits2 mx - 53)%Z) in *.
  set (m' := (mx / 2 ^ n)%Z) in *.
  assert (Hn : (0 <= n)%Z) by (unfold n; lia).
  (* the value is between the neighbours of 53 digits *)
  assert (Hx' : (IZR m' * powerRZ 2 (ex + n) <= x
                 < (IZR m' + 1) * powerRZ 2 (ex + n))%R).
  { rewrite p2_add, (p2_IZR n Hn).
    pose proof (p2_pos ex) as Hp.
    destruct Hfloor as [F1 F2].
    apply IZR_le in F1. rewrite mult_IZR in F1.
    assert (F3 : (mx + 1 <= (m' + 1) * 2 ^ n)%Z) by lia.
    apply IZR_le in F3. rewrite mult_IZR, !plus_IZR in F3.
    destruct Hx as [X1 X2].
    pose proof (Rmult_le_compat_r _ _ _ (Rlt_le _ _ Hp) F1) as G1.
    pose proof (Rmult_le_compat_r _ _ _ (Rlt_le _ _ Hp) F3) as G3.
    split; [apply Rle_trans with (2 := X1) | apply Rlt_le_trans with (1 := X2)];
      [rewrite <- G1 | rewrite G3]; apply Req_le; ring. }
  assert (Hu : (powerRZ 2 (ex + n) <= powerRZ 2 (-52) * x)%R).
  { assert (H52 : (powerRZ 2 52 <= IZR m')%R).
    { rewrite (p2_IZR 52) by lia. apply IZR_le. lia. }
    assert (Hone : (powerRZ 2 (-52) * powerRZ 2 52 = 1)%R).
    { rewrite <- p2_add. reflexivity. }
    pose proof (p2_pos (ex + n)) as Hp. pose proof (p2_pos (-52)) as Hp'.
    destruct Hx' as [X1 _].
    assert (TP : (powerRZ 2 52 * powerRZ 2 (ex + n) <= x)%R).
    { apply Rle_trans with (2 := X1).
      apply Rmult_le_compat_r; [lra | exact H52]. }
    replace (powerRZ 2 (ex + n))
      with (powerRZ 2 (-52) * (powerRZ 2 52 * powerRZ 2 (ex + n)))%R
      by (rewrite <- Rmult_assoc, Hone; ring).
    apply Rmult_le_compat_l; [lra | exact TP]. }
  unfold binary_round_aux.
  destruct (shr_fexp prec emax mx ex lx) as [mrs1 e1]. cbn [fst snd] in He1, Hm1.
  subst e1. rewrite Hm1.
  set (r := round_nearest_even m' (loc_of_shr_record mrs1)).
  assert (Hr : r = m' \/ r = (m' + 1)%Z) by apply round_nearest_even_cases.
  assert (Hrpos : (0 < r)%Z) by lia.
  assert (Hrv : (IZR m' * powerRZ 2 (ex + n) <= IZR r * powerRZ 2 (ex + n)
                 <= (IZR m' + 1) * powerRZ 2 (ex + n))%R).
  { pose proof (p2_pos (ex + n)) as Hp.
    destruct Hr as [-> | ->]; [|rewrite plus_IZR]; split; nra. }
  destruct (Z_lt_le_dec r (2 ^ 53)) as [Hsmall|Hbig].
  - assert (Hdr : Zdigits2 r = 53%Z).
    { destruct r as [|p|p]; try lia. cbn [Zdigits2]. apply digits_unique. lia. }
    destruct (shr_fexp_value r (ex + n) loc_Exact Hrpos) as (He2 & Hm2 & _ & _);
      [lia | unfold n; lia|].
    rewrite Hdr in He2, Hm2. change (2 ^ (53 - 53))%Z with 1%Z in Hm2.
    rewrite Z.div_1_r in Hm2.
    destruct (shr_fexp prec emax r (ex + n) loc_Exact) as [mrs2 e2].
    cbn [fst snd] in He2, Hm2. subst e2. rewrite Hm2.
    destruct r as [|p|p]; try lia.
    assert (Hle : (ex + n + (53 - 53) <=? emax - prec)%Z = true).
    { apply Z.leb_le. unfold emax, prec, n. lia. }
    rewrite Hle. exists p, (ex + n + (53 - 53))%Z. split; [reflexivity|].
    split; [exact Hdr|]. split; [unfold n; lia|].
    replace (ex + n + (53 - 53))%Z with (ex + n)%Z by lia.
    destruct Hx' as [X1 X2]. destruct Hrv as [R1 R2]. split; lra.
  - assert (Hr53 : r = (2 ^ 53)%Z) by lia.
    assert (Hdr : Zdigits2 r = 54%Z).
    { rewrite Hr53. reflexivity. }
    destruct (shr_fexp_value r (ex + n) loc_Exact Hrpos) as (He2 & Hm2 & _ & _);
      [lia | unfold n; lia|].
    rewrite Hdr in He2, Hm2.
    replace (r / 2 ^ (54 - 53))%Z with (2 ^ 52)%Z in Hm2
      by (rewrite Hr53; reflexivity).
    destruct (shr_fexp prec emax r (ex + n) loc_Exact) as [mrs2 e2].
    cbn [fst snd] in He2, Hm2. subst e2. rewrite Hm2.
    change (2 ^ 52)%Z with (Z.pos 4503599627370496).
    assert (Hle : (ex + n + (54 - 53) <=? emax - prec)%Z = true).
    { apply Z.leb_le. unfold emax, prec, n. lia. }
    rewrite Hle. exists 4503599627370496%positive, (ex + n + (54 - 53))%Z.
    split; [reflexivity|]. split; [reflexivity|]. split; [unfold n; lia|].
    replace (ex + n + (54 - 53))%Z with (ex + n + 1)%Z by lia.
    rewrite p2_succ.
    assert (Hval : (IZR (Z.pos 4503599627370496) * (2 * powerRZ 2 (ex + n))
                    = IZR r * powerRZ 2 (ex + n))%R).
    { rewrite Hr53. change (2 ^ 53)%Z with (2 * 4503599627370496)%Z.
      rewrite mult_IZR. ring. }
    rewrite Hval.
    destruct Hx' as [X1 X2]. destruct Hrv as [R1 R2]. split; lra.
Qed.
End RoundingError.

(** ** The error of the operations *)

Section Products.
Local Open Scope R_scope.

Lemma pos_float_value x :
  pos_float x ->
  exists m e,
    Prim2SF x = S754_finite false m e
    /\ to_R x = IZR (Z.pos m) * powerRZ 2 e
    /\ (-1074 <= e <= 971)%Z
    /\ (Z.pos (digits2_pos m) <= 53)%Z
    /\ ((-1074 < e)%Z -> Z.pos (digits2_pos m) = 53%Z)
    /\ 0 < to_R x < powerRZ 2 (53 + e).
Proof.
  intros (m & e & Hx). exists m, e. split; [exact Hx|].
  pose proof (Prim2SF_valid x) as Hv. rewrite Hx in Hv. cbn [valid_binary] in Hv.
  destruct (canonical_facts m e Hv) as (He & Hd & Hn).
  assert (Hmax : (e <= 971)%Z).
  { unfold bounded in Hv. apply andb_prop in Hv. destruct Hv as [_ Hv].
    apply Z.leb_le in Hv. exact Hv. }
  unfold to_R. rewrite Hx. cbn [SF2R cond_Zopp].
  split; [reflexivity|]. split; [lia|]. split; [exact Hd|]. split; [exact Hn|].
  pose proof (p2_pos e) as Hp.
  pose proof (digits2_bounds m) as [_ Dhi].
  assert (Hm53 : (Z.pos m < 2 ^ 53)%Z).
  { apply Z.lt_le_trans with (1 := Dhi). apply Z.pow_le_mono_r; lia. }
  apply IZR_lt in Hm53. rewrite <- (p2_IZR 53) in Hm53 by lia.
  assert (Hm0 : 0 < IZR (Z.pos m)) by (apply IZR_lt; lia).
  rewrite p2_add. split; [apply Rmult_lt_0_compat; assumption|].
  apply Rmult_lt_compat_r; assumption.
Qed.

(** A positive finite number of at least [2^-1021] is normal. *)
Lemma pos_float_normal x :
  pos_float x -> powerRZ 2 (-1021) <= to_R x ->
  exists m e,
    Prim2SF x = S754_finite false m e
    /\ to_R x = IZR (Z.pos m) * powerRZ 2 e
    /\ (-1074 < e <= 971)%Z
    /\ (2 ^ 52 <= Z.pos m < 2 ^ 53)%Z
    /\ Z.pos (digits2_pos m) = 53%Z
    /\ powerRZ 2 (52 + e) <= to_R x < powerRZ 2 (53 + e).
Proof.
  intros Hx Hlo.
  destruct (pos_float_value x Hx) as (m & e & Hm & Hv & He & Hd & Hn & H0 & Hhi).
  exists m, e. split; [exact Hm|]. split; [exact Hv|].
  assert (He' : (-1074 < e)%Z).
  { apply p2_lt_inv. replace (-1074)%Z with (-1021 - 53)%Z by lia.
    apply Rmult_lt_reg_r with (powerRZ 2 53); [apply p2_pos|].
    rewrite <- !p2_add. replace (-1021 - 53 + 53)%Z with (-1021)%Z by lia.
    replace (e + 53)%Z with (53 + e)%Z by lia. lra. }
  split; [lia|]. specialize (Hn He').
  pose proof (digits2_bounds m) as [Dlo Dhi]. rewrite Hn in Dlo, Dhi.
  change (53 - 1)%Z with 52%Z in Dlo.
  split; [lia|]. split; [exact Hn|]. split; [|exact Hhi].
  rewrite Hv, p2_add. apply Rmult_le_compat_r; [apply Rlt_le, p2_pos|].
  rewrite (p2_IZR 52) by lia. apply IZR_le. exact Dlo.
Qed.

(** The exponent of a normal number between [2^lo] and [2^hi]. *)
Lemma exponent_range x e lo hi :
  powerRZ 2 (52 + e) <= x < powerRZ 2 (53 + e) ->
  powerRZ 2 lo <= x <= powerRZ 2 hi ->
  (lo - 53 < e <= hi - 52)%Z.
Proof.
  intros [H1 H2] [H3 H4]. split.
  - assert (H : powerRZ 2 lo < powerRZ 2 (53 + e)) by lra.
    apply p2_lt_inv in H. lia.
  - assert (H : powerRZ 2 (52 + e) <= powerRZ 2 hi) by lra.
    apply p2_le_inv in H. lia.
Qed.

Lemma digits_between p lo hi :
  (2 ^ lo <= Z.pos p < 2 ^ hi)%Z -> (0 <= lo)%Z ->
  (lo < Z.pos (digits2_pos p) <= hi)%Z.
Proof.
  intros [Hlo Hhi] H0. pose proof (digits2_bounds p) as [Dlo Dhi]. split.
  - destruct (Z_lt_le_dec lo (Z.pos (digits2_pos p))) as [H|H]; [exact H|].
    assert (2 ^ Z.pos (digits2_pos p) <= 2 ^ lo)%Z
      by (apply Z.pow_le_mono_r; lia). lia.
  - destruct (Z_le_gt_dec (Z.pos (digits2_pos p)) hi) as [H|H]; [exact H|].
    assert (2 ^ hi <= 2 ^ (Z.pos (digits2_pos p) - 1))%Z
      by (apply Z.pow_le_mono_r; lia). lia.
Qed.

(** The product of two normal numbers between [2^-500] and [2^500]. *)
Lemma mul_bound a b :
  pos_float a -> pos_float b ->
  powerRZ 2 (-500) <= to_R a <= powerRZ 2 500 ->
  powerRZ 2 (-500) <= to_R b <= powerRZ 2 500 ->
  pos_float (a * b)%float
  /\ (1 - powerRZ 2 (-52)) * (to_R a * to_R b) <= to_R (a * b)%float
     <= (1 + powerRZ 2 (-52)) * (to_R a * to_R b).
Proof.
  intros Ha Hb Ra Rb.
  assert (L : powerRZ 2 (-1021) <= powerRZ 2 (-500)) by (apply p2_le; lia).
  destruct (pos_float_normal a Ha) as (ma & ea & Hma & Va & Ea & Ma & Da & Ba);
    [lra|].
  destruct (pos_float_normal b Hb) as (mb & eb & Hmb & Vb & Eb & Mb & Db & Bb);
    [lra|].
  pose proof (exponent_range _ _ _ _ Ba Ra) as Xa.
  pose proof (exponent_range _ _ _ _ Bb Rb) as Xb.
  assert (Hprod : (2 ^ 104 <= Z.pos (ma * mb) < 2 ^ 106)%Z).
  { rewrite Pos2Z.inj_mul.
    change (2 ^ 104)%Z with (2 ^ 52 * 2 ^ 52)%Z.
    change (2 ^ 106)%Z with (2 ^ 53 * 2 ^ 53)%Z. nia. }
  pose proof (digits_between _ _ _ Hprod ltac:(lia)) as Hd.
  destruct (round_aux_core (Z.pos (ma * mb)) (ea + eb) loc_Exact
              (to_R a * to_R b)) as (m & e & Hr & _ & _ & Hbound).
  - lia.
  - cbn [Zdigits2]. lia.
  - cbn [Zdigits2]. lia.
  - cbn [Zdigits2]. lia.
  - rewrite Va, Vb, Pos2Z.inj_mul, mult_IZR, p2_add.
    pose proof (p2_pos ea). pose proof (p2_pos eb).
    split; [apply Req_le; ring|].
    assert (0 < powerRZ 2 ea * powerRZ 2 eb) by (apply Rmult_lt_0_compat; lra).
    lra.
  - assert (Hres : Prim2SF (a * b)%float = S754_finite false m e).
    { rewrite mul_spec, Hma, Hmb. exact Hr. }
    split; [exists m, e; exact Hres|].
    assert (Hval : to_R (a * b)%float = IZR (Z.pos m) * powerRZ 2 e)
      by (unfold to_R; rewrite Hres; reflexivity).
    rewrite Hval. exact Hbound.
Qed.
End Products.

Section Sums.
Local Open Scope R_scope.

Lemma shl_align_exponent mx ex ez :
  (ez <= ex)%Z -> snd (shl_align mx ex ez) = ez.
Proof.
  intros H. unfold shl_align. destruct (ez - ex)%Z eqn:E; cbn [snd]; lia.
Qed.

Lemma shl_align_unchanged mx ex ez :
  (ex <= ez)%Z -> shl_align mx ex ez = (mx, ex).
Proof.
  intros H. unfold shl_align. destruct (ez - ex)%Z eqn:E; try reflexivity. lia.
Qed.

(** The value of an aligned mantissa. *)
Lemma aligned_value m e ez :
  (ez <= e)%Z ->
  IZR (Z.pos (fst (shl_align m e ez))) * powerRZ 2 ez
  = IZR (Z.pos m) * powerRZ 2 e.
Proof.
  intros H. rewrite (@shl_align_value m e ez H), mult_IZR.
  rewrite <- (p2_IZR (e - ez)) by lia.
  rewrite Rmult_assoc, <- p2_add. f_equal. f_equal. lia.
Qed.

(** The sum of two positive numbers up to [2^500], at least [2^-500]. *)
Lemma add_bound a b :
  pos_float a -> pos_float b ->
  to_R a <= powerRZ 2 500 -> to_R b <= powerRZ 2 500 ->
  powerRZ 2 (-500) <= to_R a + to_R b ->
  pos_float (a + b)%float
  /\ (1 - powerRZ 2 (-52)) * (to_R a + to_R b) <= to_R (a + b)%float
     <= (1 + powerRZ 2 (-52)) * (to_R a + to_R b).
Proof.
  intros Ha Hb Ra Rb Rsum.
  destruct (pos_float_value a Ha) as (ma & ea & Hma & Va & Ea & Da & _ & Pa & _).
  destruct (pos_float_value b Hb) as (mb & eb & Hmb & Vb & Eb & Db & _ & Pb & _).
  set (ez := Z.min ea eb).
  set (pa := fst (shl_align ma ea ez)). set (pb := fst (shl_align mb eb ez)).
  assert (Hva : IZR (Z.pos pa) * powerRZ 2 ez = to_R a)
    by (rewrite Va; apply aligned_value; unfold ez; lia).
  assert (Hvb : IZR (Z.pos pb) * powerRZ 2 ez = to_R b)
    by (rewrite Vb; apply aligned_value; unfold ez; lia).
  assert (Hsum : IZR (Z.pos (pa + pb)) * powerRZ 2 ez = to_R a + to_R b).
  { rewrite Pos2Z.inj_add, plus_IZR. lra. }
  (* the larger operand is normal *)
  assert (Hbig : (2 ^ 52 <= Z.pos (pa + pb))%Z).
  { assert (L1 : powerRZ 2 (-1021) <= powerRZ 2 (-501)) by (apply p2_le; lia).
    assert (L2 : powerRZ 2 (-500) = 2 * powerRZ 2 (-501)).
    { rewrite <- p2_succ. reflexivity. }
    rewrite Pos2Z.inj_add.
    destruct (Rle_dec (to_R b) (to_R a)) as [Hle|Hgt].
    - destruct (pos_float_normal a Ha) as (m' & e' & Hm' & _ & _ & Mm & _); [lra|].
      rewrite Hma in Hm'. injection Hm' as <- <-.
      unfold pa. rewrite (@shl_align_value ma ea ez) by (unfold ez; lia).
      assert (1 <= 2 ^ (ea - ez))%Z
        by (apply (Z.pow_le_mono_r 2 0); unfold ez; lia).
      nia.
    - destruct (pos_float_normal b Hb) as (m' & e' & Hm' & _ & _ & Mm & _); [lra|].
      rewrite Hmb in Hm'. injection Hm' as <- <-.
      unfold pb. rewrite (@shl_align_value mb eb ez) by (unfold ez; lia).
      assert (1 <= 2 ^ (eb - ez))%Z
        by (apply (Z.pow_le_mono_r 2 0); unfold ez; lia).
      nia. }
  pose proof (digits2_bounds (pa + pb)) as [Dlo Dhi].
  set (d := Z.pos (digits2_pos (pa + pb))) in *.
  assert (Hd53 : (53 <= d)%Z).
  { destruct (Z_le_gt_dec 53 d) as [H|H]; [exact H|].
    assert (2 ^ d <= 2 ^ 52)%Z by (apply Z.pow_le_mono_r; lia). lia. }
  assert (Hdhi : (d + ez <= 502)%Z).
  { assert (H : powerRZ 2 (d - 1 + ez) <= powerRZ 2 501).
    { replace 501%Z with (500 + 1)%Z by lia. rewrite p2_succ, p2_add.
      rewrite (p2_IZR (d - 1)) by lia.
      apply Rle_trans with (IZR (Z.pos (pa + pb)) * powerRZ 2 ez); [|lra].
      apply Rmult_le_compat_r; [apply Rlt_le, p2_pos | apply IZR_le, Dlo]. }
    apply p2_le_inv in H. lia. }
  destruct (round_aux_core (Z.pos (pa + pb)) ez loc_Exact (to_R a + to_R b))
    as (m & e & Hr & _ & _ & Hbound).
  - lia.
  - exact Hd53.
  - cbn [Zdigits2]. fold d. unfold ez. lia.
  - cbn [Zdigits2]. fold d. lia.
  - rewrite Hsum. split; [lra|].
    rewrite <- Hsum. pose proof (p2_pos ez). lra.
  - assert (Hres : Prim2SF (a + b)%float = S754_finite false m e).
    { rewrite add_spec, Hma, Hmb. cbn [SF64add SFadd]. fold ez. fold pa. fold pb.
      cbn [cond_Zopp Z.add binary_normalize]. unfold binary_round.
      rewrite shl_align_unchanged; [exact Hr|].
      fold d. unfold fexp, emin, prec, emax, ez. lia. }
    split; [exists m, e; exact Hres|].
    assert (Hval : to_R (a + b)%float = IZR (Z.pos m) * powerRZ 2 e)
      by (unfold to_R; rewrite Hres; reflexivity).
    rewrite Hval. exact Hbound.
Qed.
End Sums.

Section Quotients.
Local Open Scope R_scope.

(** The quotient and the exponent that the division of two normal numbers
    rounds. *)
Lemma div_core ma ea mb eb :
  Z.pos (digits2_pos ma) = 53%Z -> Z.pos (digits2_pos mb) = 53%Z ->
  (-1021 <= ea - eb)%Z ->
  SFdiv_core_binary prec emax (Z.pos ma) ea (Z.pos mb) eb
  = ((Z.pos ma * 2 ^ 53 / Z.pos mb)%Z, (ea - eb - 53)%Z,
     new_location (Z.pos mb) ((Z.pos ma * 2 ^ 53) mod Z.pos mb)%Z).
Proof.
  intros Da Db He. unfold SFdiv_core_binary. cbn [Zdigits2]. rewrite Da, Db.
  assert (E : Z.min (fexp prec emax (53 + ea - (53 + eb))) (ea - eb)
              = (ea - eb - 53)%Z).
  { unfold fexp, emin, prec, emax. lia. }
  rewrite E. replace (ea - eb - (ea - eb - 53))%Z with 53%Z by lia.
  rewrite Z.shiftl_mul_pow2 by lia. rewrite div_eucl_div_mod. reflexivity.
Qed.

(** The quotient of two normal numbers between [2^-500] and [2^500]. *)
Lemma div_bound a b :
  pos_float a -> pos_float b ->
  powerRZ 2 (-500) <= to_R a <= powerRZ 2 500 ->
  powerRZ 2 (-500) <= to_R b <= powerRZ 2 500 ->
  pos_float (a / b)%float
  /\ (1 - powerRZ 2 (-52)) * (to_R a / to_R b) <= to_R (a / b)%float
     <= (1 + powerRZ 2 (-52)) * (to_R a / to_R b).
Proof.
  intros Ha Hb Ra Rb.
  assert (L : powerRZ 2 (-1021) <= powerRZ 2 (-500)) by (apply p2_le; lia).
  destruct (pos_float_normal a Ha) as (ma & ea & Hma & Va & Ea & Ma & Da & Ba);
    [lra|].
  destruct (pos_float_normal b Hb) as (mb & eb & Hmb & Vb & Eb & Mb & Db & Bb);
    [lra|].
  pose proof (exponent_range _ _ _ _ Ba Ra) as Xa.
  pose proof (exponent_range _ _ _ _ Bb Rb) as Xb.
  set (q := (Z.pos ma * 2 ^ 53 / Z.pos mb)%Z).
  assert (Hq : (2 ^ 52 <= q < 2 ^ 54)%Z).
  { unfold q. split.
    - apply Z.div_le_lower_bound; [lia|].
      change (2 ^ 53)%Z with (2 * 2 ^ 52)%Z. nia.
    - apply Z.div_lt_upper_bound; [lia|].
      change (2 ^ 54)%Z with (2 * 2 ^ 53)%Z. nia. }
  assert (Hfloor : (q * Z.pos mb <= Z.pos ma * 2 ^ 53 < (q + 1) * Z.pos mb)%Z).
  { unfold q.
    pose proof (Z.div_mod (Z.pos ma * 2 ^ 53) (Z.pos mb) ltac:(lia)).
    pose proof (Z.mod_pos_bound (Z.pos ma * 2 ^ 53) (Z.pos mb) ltac:(lia)).
    nia. }
  destruct q as [|pq|pq] eqn:Eq; try lia.
  pose proof (digits_between pq 52 54 Hq ltac:(lia)) as Hd.
  assert (Hmb0 : 0 < IZR (Z.pos mb)) by (apply IZR_lt; lia).
  assert (Hx : to_R a / to_R b
               = IZR (Z.pos ma * 2 ^ 53) / IZR (Z.pos mb)
                 * powerRZ 2 (ea - eb - 53)).
  { rewrite Va, Vb, mult_IZR, <- (p2_IZR 53) by lia.
    replace ea with (ea - eb - 53 + 53 + eb)%Z at 1 by lia.
    rewrite !p2_add. pose proof (p2_pos eb). field. lra. }
  destruct (round_aux_core (Z.pos pq) (ea - eb - 53)
              (new_location (Z.pos mb) ((Z.pos ma * 2 ^ 53) mod Z.pos mb)%Z)
              (to_R a / to_R b)) as (m & e & Hr & _ & _ & Hbound).
  - lia.
  - cbn [Zdigits2]. lia.
  - cbn [Zdigits2]. lia.
  - cbn [Zdigits2]. lia.
  - rewrite Hx. pose proof (p2_pos (ea - eb - 53)) as Hp.
    destruct Hfloor as [F1 F2]. apply IZR_le in F1. apply IZR_lt in F2.
    rewrite mult_IZR in F1. rewrite (mult_IZR (_ + 1)), plus_IZR in F2.
    split.
    + apply Rmult_le_compat_r; [lra|].
      apply Rmult_le_reg_r with (IZR (Z.pos mb)); [exact Hmb0|].
      unfold Rdiv. rewrite Rmult_assoc, Rinv_l by lra. lra.
    + apply Rmult_lt_compat_r; [lra|].
      apply Rmult_lt_reg_r with (IZR (Z.pos mb)); [exact Hmb0|].
      unfold Rdiv. rewrite Rmult_assoc, Rinv_l by lra. lra.
  - assert (Hres : Prim2SF (a / b)%float = S754_finite false m e).
    { rewrite div_spec, Hma, Hmb. cbn [SF64div SFdiv].
      rewrite div_core by (try assumption; lia).
      fold q. rewrite Eq. exact Hr. }
    split; [exists m, e; exact Hres|].
    assert (Hval : to_R (a / b)%float = IZR (Z.pos m) * powerRZ 2 e)
      by (unfold to_R; rewrite Hres; reflexivity).
    rewrite Hval. exact Hbound.
Qed.
End Quotients.

Section Roots.
Local Open Scope R_scope.

(** The mantissa and the exponent that the square root of a normal number
    rounds. *)
Lemma sqrt_core m e :
  Z.pos (digits2_pos m) = 53%Z -> (-1074 <= e)%Z ->
  let s := (e mod 2 + 52)%Z in
  exists l,
    SFsqrt_core_binary prec emax (Z.pos m) e
    = (Z.sqrt (Z.pos m * 2 ^ s), (e / 2 - 26)%Z, l).
Proof.
  intros Dm He s. unfold SFsqrt_core_binary. cbn [Zdigits2]. rewrite Dm.
  rewrite !Z.div2_div.
  assert (E : Z.min (fexp prec emax ((53 + e + 1) / 2)) (e / 2) = (e / 2 - 26)%Z).
  { replace (53 + e + 1)%Z with (e + 27 * 2)%Z by lia.
    rewrite Z.div_add by lia.
    pose proof (Z.div_mod e 2 ltac:(lia)). pose proof (Z.mod_pos_bound e 2 ltac:(lia)).
    unfold fexp, emin, prec, emax. lia. }
  rewrite E.
  assert (Es : (e - 2 * (e / 2 - 26) = s)%Z).
  { unfold s. pose proof (Z.div_mod e 2 ltac:(lia)). lia. }
  rewrite Es.
  assert (Hs : (52 <= s <= 53)%Z).
  { unfold s. pose proof (Z.mod_pos_bound e 2 ltac:(lia)). lia. }
  destruct s as [|ps|ps] eqn:Eps; try lia.
  rewrite Z.shiftl_mul_pow2 by lia.
  pose proof (Z.sqrtrem_sqrt (Z.pos m * 2 ^ Z.pos ps)) as Hfst.
  destruct (Z.sqrtrem (Z.pos m * 2 ^ Z.pos ps)) as [q r]. cbn [fst] in Hfst.
  subst q. eexists. reflexivity.
Qed.

(** The square root of a normal number between [2^-1000] and [2^1000]. *)
Lemma sqrt_bound a :
  pos_float a ->
  powerRZ 2 (-1000) <= to_R a <= powerRZ 2 1000 ->
  pos_float (PrimFloat.sqrt a)
  /\ (1 - powerRZ 2 (-52)) * R_sqrt.sqrt (to_R a) <= to_R (PrimFloat.sqrt a)
     <= (1 + powerRZ 2 (-52)) * R_sqrt.sqrt (to_R a).
Proof.
  intros Ha Ra.
  assert (L : powerRZ 2 (-1021) <= powerRZ 2 (-1000)) by (apply p2_le; lia).
  destruct (pos_float_normal a Ha) as (ma & ea & Hma & Va & Ea & Ma & Da & Ba);
    [lra|].
  pose proof (exponent_range _ _ _ _ Ba Ra) as Xa.
  destruct (sqrt_core ma ea Da ltac:(lia)) as [l Hcore].
  set (s := (ea mod 2 + 52)%Z) in *.
  assert (Hs : (52 <= s <= 53)%Z).
  { unfold s. pose proof (Z.mod_pos_bound ea 2 ltac:(lia)). lia. }
  set (M := (Z.pos ma * 2 ^ s)%Z) in *.
  assert (HM : (2 ^ 104 <= M < 2 ^ 106)%Z).
  { unfold M. destruct (Z.eq_dec s 52) as [->|Hne].
    - change (2 ^ 104)%Z with (2 ^ 52 * 2 ^ 52)%Z.
      change (2 ^ 106)%Z with (2 ^ 54 * 2 ^ 52)%Z. lia.
    - replace s with 53%Z by lia.
      change (2 ^ 104)%Z with (2 ^ 51 * 2 ^ 53)%Z.
      change (2 ^ 106)%Z with (2 ^ 53 * 2 ^ 53)%Z. lia. }
  pose proof (Z.sqrt_spec M ltac:(lia)) as Hsq. cbv zeta in Hsq.
  set (q := Z.sqrt M) in *.
  assert (Hq0 : (0 <= q)%Z) by apply Z.sqrt_nonneg.
  assert (Hq : (2 ^ 52 <= q < 2 ^ 53)%Z).
  { change (2 ^ 104)%Z with (2 ^ 52 * 2 ^ 52)%Z in HM.
    change (2 ^ 106)%Z with (2 ^ 53 * 2 ^ 53)%Z in HM. nia. }
  destruct q as [|pq|pq] eqn:Eq; try lia.
  pose proof (digits_unique pq 53 ltac:(change (53 - 1)%Z with 52%Z; lia)) as Hd.
  set (e' := (ea / 2 - 26)%Z) in *.
  assert (He' : (ea = s + 2 * e')%Z).
  { unfold s, e'. pose proof (Z.div_mod ea 2 ltac:(lia)). lia. }
  pose proof (p2_pos e') as Hp.
  assert (Hx : to_R a = IZR M * (powerRZ 2 e' * powerRZ 2 e')).
  { rewrite Va. unfold M. rewrite mult_IZR, <- (p2_IZR s) by lia.
    rewrite He' at 1. replace (2 * e')%Z with (e' + e')%Z by lia.
    rewrite !p2_add. ring. }
  assert (H0 : 0 <= to_R a).
  { rewrite Hx. apply Rmult_le_pos; [apply IZR_le; lia | nra]. }
  destruct (round_aux_core (Z.pos pq) e' l (R_sqrt.sqrt (to_R a)))
    as (m & e & Hr & _ & _ & Hbound).
  - lia.
  - cbn [Zdigits2]. lia.
  - cbn [Zdigits2]. unfold e'.
    pose proof (Z.div_mod ea 2 ltac:(lia)).
    pose proof (Z.mod_pos_bound ea 2 ltac:(lia)). lia.
  - cbn [Zdigits2]. unfold e'.
    pose proof (Z.div_mod ea 2 ltac:(lia)).
    pose proof (Z.mod_pos_bound ea 2 ltac:(lia)). lia.
  - destruct Hsq as [S1 S2].
    apply IZR_le in S1. apply IZR_lt in S2.
    rewrite mult_IZR in S1. rewrite mult_IZR, succ_IZR in S2.
    assert (Q0 : 0 < IZR (Z.pos pq)) by (apply IZR_lt; lia).
    assert (PP : 0 < powerRZ 2 e' * powerRZ 2 e') by (apply Rmult_lt_0_compat; lra).
    split.
    + rewrite <- (sqrt_square (IZR (Z.pos pq) * powerRZ 2 e'))
        by (apply Rmult_le_pos; lra).
      apply sqrt_le_1_alt. rewrite Hx.
      replace (IZR (Z.pos pq) * powerRZ 2 e' * (IZR (Z.pos pq) * powerRZ 2 e'))
        with (IZR (Z.pos pq) * IZR (Z.pos pq) * (powerRZ 2 e' * powerRZ 2 e'))
        by ring.
      apply Rmult_le_compat_r; lra.
    + rewrite <- (sqrt_square ((IZR (Z.pos pq) + 1) * powerRZ 2 e'))
        by (apply Rmult_le_pos; lra).
      apply sqrt_lt_1_alt. split; [exact H0|]. rewrite Hx.
      replace ((IZR (Z.pos pq) + 1) * powerRZ 2 e'
               * ((IZR (Z.pos pq) + 1) * powerRZ 2 e'))
        with ((IZR (Z.pos pq) + 1) * (IZR (Z.pos pq) + 1)
              * (powerRZ 2 e' * powerRZ 2 e')) by ring.
      apply Rmult_lt_compat_r; lra.
  - assert (Hres : Prim2SF (PrimFloat.sqrt a) = S754_finite false m e).
    { rewrite sqrt_spec, Hma. cbn [SF64sqrt SFsqrt].
      rewrite Hcore. exact Hr. }
    split; [exists m, e; exact Hres|].
    assert (Hval : to_R (PrimFloat.sqrt a) = IZR (Z.pos m) * powerRZ 2 e)
      by (unfold to_R; rewrite Hres; reflexivity).
    rewrite Hval. exact Hbound.
Qed.

(** The number nearest to a positive integer below [2^62]. *)
Lemma num_of_Z_bound z :
  (0 < z < 2 ^ 62)%Z ->
  pos_float (num_of_Z z)
  /\ (1 - powerRZ 2 (-52)) * IZR z <= to_R (num_of_Z z)
     <= (1 + powerRZ 2 (-52)) * IZR z.
Proof.
  intros Hz. destruct z as [|p|p]; try lia.
  pose proof (digits2_bounds p) as [Dlo Dhi].
  set (d := Z.pos (digits2_pos p)) in *.
  assert (Hd : (0 < d <= 62)%Z).
  { split; [unfold d; lia|].
    destruct (Z_le_gt_dec d 62) as [H|H]; [exact H|].
    assert (2 ^ 62 <= 2 ^ (d - 1))%Z by (apply Z.pow_le_mono_r; lia). lia. }
  set (t := fexp prec emax (d + 0)).
  assert (Ht : t = (d - 53)%Z) by (unfold t, fexp, emin, prec, emax; lia).
  set (mz := fst (shl_align p 0 t)). set (ez := snd (shl_align p 0 t)).
  assert (Hal : (Z.pos mz = Z.pos p * 2 ^ (0 - ez) /\ ez <= 0
                 /\ 53 <= Z.pos (digits2_pos mz)
                 /\ Z.pos (digits2_pos mz) + ez = d)%Z).
  { unfold mz, ez. destruct (Z_le_gt_dec t 0) as [Hle|Hgt].
    - rewrite (@shl_align_value p 0 t Hle), (shl_align_exponent p 0 t Hle).
      split; [reflexivity|]. split; [exact Hle|].
      assert (Hdig : Z.pos (digits2_pos (fst (shl_align p 0 t))) = 53%Z).
      { apply digits_unique. rewrite (@shl_align_value p 0 t Hle).
        assert (E52 : (2 ^ (53 - 1) = 2 ^ (d - 1) * 2 ^ (0 - t))%Z)
          by (rewrite <- Z.pow_add_r by lia; f_equal; lia).
        assert (E53 : (2 ^ 53 = 2 ^ d * 2 ^ (0 - t))%Z)
          by (rewrite <- Z.pow_add_r by lia; f_equal; lia).
        rewrite E52, E53.
        assert (0 < 2 ^ (0 - t))%Z by (apply Z.pow_pos_nonneg; lia).
        split; [apply Z.mul_le_mono_nonneg_r; lia
               | apply Z.mul_lt_mono_pos_r; lia]. }
      rewrite Hdig. lia.
    - rewrite (shl_align_unchanged p 0 t) by lia. cbn [fst snd].
      change (2 ^ (0 - 0))%Z with 1%Z. fold d. lia. }
  destruct Hal as (Hmz & Hez & Hdz & Hsum).
  destruct (round_aux_core (Z.pos mz) ez loc_Exact (IZR (Z.pos p)))
    as (m & e & Hr & Hm53 & He & Hbound).
  - lia.
  - exact Hdz.
  - cbn [Zdigits2]. lia.
  - cbn [Zdigits2]. lia.
  - assert (Hv : IZR (Z.pos mz) * powerRZ 2 ez = IZR (Z.pos p)).
    { rewrite Hmz, mult_IZR, <- (p2_IZR (0 - ez)) by lia.
      rewrite Rmult_assoc, <- p2_add. replace (0 - ez + ez)%Z with 0%Z by lia.
      simpl. ring. }
    pose proof (p2_pos ez).
    split; [rewrite Hv; lra | rewrite Rmult_plus_distr_r, Hv; lra].
  - assert (Hres : Prim2SF (num_of_Z (Z.pos p)) = S754_finite false m e).
    { unfold num_of_Z. cbn [binary_normalize]. unfold binary_round.
      fold d. fold t.
      rewrite (surjective_pairing (shl_align p 0 t)). fold mz. fold ez.
      rewrite Hr. apply Prim2SF_SF2Prim. cbn [valid_binary].
      unfold bounded, canonical_mantissa. rewrite Hm53.
      apply andb_true_intro. split; [apply Z.eqb_eq | apply Z.leb_le].
      - unfold fexp, emin, prec, emax. lia.
      - unfold emax, prec. lia. }
    split; [exists m, e; exact Hres|].
    assert (Hval : to_R (num_of_Z (Z.pos p)) = IZR (Z.pos m) * powerRZ 2 e)
      by (unfold to_R; rewrite Hres; reflexivity).
    rewrite Hval. exact Hbound.
Qed.
End Roots.

(** ** Zeros and powers *)

Section Zeros.
Local Open Scope R_scope.

Lemma to_R_zero x : is_zero_num x = true -> to_R x = 0.
Proof.
  unfold is_zero_num, to_R. destruct (Prim2SF x); try discriminate. reflexivity.
Qed.

Lemma pos_float_not_zero x : pos_float x -> is_zero_num x = false.
Proof. intros (m & e & H). unfold is_zero_num. rewrite H. reflexivity. Qed.

Lemma pos_float_truthy x : pos_float x -> truthy x = true.
Proof. intros (m & e & H). unfold truthy. rewrite H. reflexivity. Qed.

Lemma pos_float_finite x : pos_float x -> Number_isFinite x = true.
Proof. intros (m & e & H). unfold Number_isFinite. rewrite H. reflexivity. Qed.

Lemma zero_finite x : is_zero_num x = true -> Number_isFinite x = true.
Proof.
  unfold is_zero_num, Number_isFinite. destruct (Prim2SF x); try discriminate.
  reflexivity.
Qed.

Lemma square_zero x : is_zero_num x = true -> is_zero_num (x * x)%float = true.
Proof.
  unfold is_zero_num. rewrite mul_spec.
  destruct (Prim2SF x); try discriminate. reflexivity.
Qed.

Lemma zero_div_pos x y :
  is_zero_num x = true -> pos_float y -> is_zero_num (x / y)%float = true.
Proof.
  unfold is_zero_num. intros Hx (m & e & Hy). rewrite div_spec, Hy.
  destruct (Prim2SF x); try discriminate. reflexivity.
Qed.
End Zeros.

Section Powers.
Local Open Scope R_scope.
Variable u : R.
Hypothesis Hu : 0 <= u <= 1.

Lemma pow_up_ge_1 k : 1 <= (1 + u) ^ k.
Proof. apply pow_R1_Rle. lra. Qed.

Lemma pow_down_range k : 0 <= (1 - u) ^ k <= 1.
Proof.
  induction k as [|k IH]; simpl; [lra|]. nra.
Qed.

Lemma bernoulli k : 1 - INR k * u <= (1 - u) ^ k.
Proof.
  induction k as [|k IH]; [simpl; lra|].
  rewrite S_INR. simpl. pose proof (pow_down_range k) as Hk.
  pose proof (pos_INR k) as Hpos.
  assert (0 <= INR k * u * u) by (apply Rmult_le_pos; [apply Rmult_le_pos|]; lra).
  nra.
Qed.

Lemma pow_up_down k : (1 + u) ^ k * (1 - u) ^ k <= 1.
Proof.
  rewrite <- Rpow_mult_distr.
  induction k as [|k IH]; simpl; [lra|].
  assert (0 <= ((1 + u) * (1 - u)) ^ k) by (apply pow_le; nra).
  nra.
Qed.
End Powers.

(** ** The sum of the squares *)

Section SquaredNorm.
Local Open Scope R_scope.

Lemma roundoff_range : 0 <= powerRZ 2 (-52) <= 1.
Proof.
  split; [apply Rlt_le, p2_pos|].
  change 1 with (powerRZ 2 0). apply p2_le. lia.
Qed.

Lemma roundoff_value : powerRZ 2 (-52) * 4503599627370496 = 1.
Proof.
  change 4503599627370496 with (IZR (2 ^ 52)).
  rewrite <- (p2_IZR 52) by lia. rewrite <- p2_add. reflexivity.
Qed.

Lemma sum_of_squares_nonneg l : 0 <= sum_of_squares l.
Proof.
  induction l as [|x l IH]; simpl; [lra|]. nra.
Qed.

Lemma shrink b X : 0 <= b <= 1 -> 0 <= X -> b * X <= X.
Proof. intros. nra. Qed.

Lemma grow a X : 1 <= a -> 0 <= X -> X <= a * X.
Proof. intros. nra. Qed.

Variable K : nat.
Hypothesis HK : INR K * powerRZ 2 (-52) <= / 2.

Lemma pow_up_le_2 k : (k <= K)%nat -> (1 + powerRZ 2 (-52)) ^ k <= 2.
Proof.
  intros Hk. pose proof roundoff_range as Hu.
  pose proof (bernoulli _ Hu k) as Hb.
  pose proof (pow_up_down _ Hu k) as Hud.
  pose proof (pow_up_ge_1 _ Hu k) as H1.
  assert (Hle : INR k <= INR K) by (apply le_INR, Hk).
  assert (Hhalf : / 2 <= (1 - powerRZ 2 (-52)) ^ k).
  { apply Rle_trans with (2 := Hb).
    assert (INR k * powerRZ 2 (-52) <= INR K * powerRZ 2 (-52))
      by (apply Rmult_le_compat_r; lra). lra. }
  nra.
Qed.

Lemma norm_step k acc T v :
  weight_entry (powerRZ 2 (-100)) (powerRZ 2 100) v ->
  0 <= T -> T + to_R v * to_R v <= powerRZ 2 300 ->
  (k <= K)%nat ->
  partial_norm k acc T ->
  partial_norm (S (S k)) (acc + v * v)%float (T + to_R v * to_R v).
Proof.
  intros Hv HT Htot Hk Hacc. pose proof roundoff_range as Hu.
  unfold partial_norm in *.
  set (u := powerRZ 2 (-52)) in *.
  pose proof (pow_up_ge_1 _ Hu k) as A1.
  pose proof (pow_down_range _ Hu k) as B1.
  destruct Hv as [Hz | [Hp [Vlo Vhi]]].
  - (* a zero entry *)
    pose proof (square_zero v Hz) as Hsq. rewrite (to_R_zero v Hz).
    replace (T + 0 * 0) with T by ring.
    destruct Hacc as [[Ha HT0] | (Ha & Tlo & Alo & Ahi)].
    + left. split; [|exact HT0]. apply (add_zeros acc (v * v)%float Hsq Ha).
    + right. rewrite (add_zero_r acc (v * v)%float Hsq (pos_float_not_zero _ Ha)).
      split; [exact Ha|]. split; [exact Tlo|]. simpl. fold u.
      assert (BT : 0 <= (1 - u) ^ k * T) by (apply Rmult_le_pos; lra).
      assert (AT : 0 <= (1 + u) ^ k * T) by (apply Rmult_le_pos; lra).
      split.
      * apply Rle_trans with (2 := Alo). rewrite !Rmult_assoc.
        apply Rle_trans with ((1 - u) * ((1 - u) ^ k * T)).
        -- apply shrink; [lra|]. apply Rmult_le_pos; lra.
        -- apply shrink; lra.
      * apply Rle_trans with (1 := Ahi). rewrite !Rmult_assoc.
        apply Rle_trans with ((1 + u) * ((1 + u) ^ k * T)).
        -- apply grow; lra.
        -- apply grow; [lra|]. apply Rmult_le_pos; lra.
  - (* a positive entry *)
    assert (P100 : powerRZ 2 (-500) <= powerRZ 2 (-100)) by (apply p2_le; lia).
    assert (Q100 : powerRZ 2 100 <= powerRZ 2 500) by (apply p2_le; lia).
    destruct (mul_bound v v Hp Hp) as [Hsq [Slo Shi]]; [lra | lra |].
    fold u in Slo, Shi.
    assert (E200 : powerRZ 2 (-100) * powerRZ 2 (-100) = powerRZ 2 (-200))
      by (rewrite <- p2_add; reflexivity).
    assert (F200 : powerRZ 2 100 * powerRZ 2 100 = powerRZ 2 200)
      by (rewrite <- p2_add; reflexivity).
    pose proof (p2_pos (-100)) as P0.
    assert (V2lo : powerRZ 2 (-200) <= to_R v * to_R v) by nra.
    assert (V2hi : to_R v * to_R v <= powerRZ 2 200) by nra.
    assert (E201 : powerRZ 2 (-200) = 2 * powerRZ 2 (-201))
      by (rewrite <- p2_succ; reflexivity).
    pose proof (p2_pos (-201)) as P201.
    assert (Uhalf : u <= / 2).
    { pose proof roundoff_value as Hval. fold u in Hval. lra. }
    assert (Sq_lo : powerRZ 2 (-201) <= to_R (v * v)%float) by nra.
    assert (G201 : powerRZ 2 201 = 2 * powerRZ 2 200)
      by (rewrite <- p2_succ; reflexivity).
    assert (Sq_hi : to_R (v * v)%float <= powerRZ 2 201) by nra.
    assert (P500 : powerRZ 2 (-500) <= powerRZ 2 (-201)) by (apply p2_le; lia).
    assert (Q500 : powerRZ 2 201 <= powerRZ 2 500) by (apply p2_le; lia).
    destruct Hacc as [[Ha HT0] | (Ha & Tlo & Alo & Ahi)].
    + right. rewrite (add_zero_l (v * v)%float acc Ha (pos_float_not_zero _ Hsq)).
      subst T. replace (0 + to_R v * to_R v) with (to_R v * to_R v) by ring.
      split; [exact Hsq|]. split; [exact V2lo|]. simpl. fold u.
      assert (0 <= to_R v * to_R v) by nra.
      split.
      * apply Rle_trans with (2 := Slo).
        replace ((1 - u) * ((1 - u) * (1 - u) ^ k) * (to_R v * to_R v))
          with ((1 - u) * (1 - u) ^ k * ((1 - u) * (to_R v * to_R v))) by ring.
        apply shrink; [split; nra | nra].
      * apply Rle_trans with (1 := Shi).
        replace ((1 + u) * ((1 + u) * (1 + u) ^ k) * (to_R v * to_R v))
          with ((1 + u) * (1 + u) ^ k * ((1 + u) * (to_R v * to_R v))) by ring.
        apply grow; nra.
    + right.
      pose proof (pow_up_le_2 k Hk) as A2. fold u in A2.
      assert (Q301 : powerRZ 2 301 = 2 * powerRZ 2 300)
        by (rewrite <- p2_succ; reflexivity).
      assert (Q301' : powerRZ 2 301 <= powerRZ 2 500) by (apply p2_le; lia).
      assert (T300 : T <= powerRZ 2 300) by lra.
      assert (Acc_hi : to_R acc <= powerRZ 2 500).
      { apply Rle_trans with (1 := Ahi).
        apply Rle_trans with (2 * powerRZ 2 300); [|lra].
        apply Rmult_le_compat; lra. }
      assert (Acc_pos : 0 <= to_R acc).
      { apply Rle_trans with (2 := Alo). apply Rmult_le_pos; lra. }
      destruct (add_bound acc (v * v)%float Ha Hsq) as [Hsum [Lo Hi]];
        [lra | lra | lra |].
      fold u in Lo, Hi.
      split; [exact Hsum|]. split; [lra|]. simpl. fold u.
      set (t2 := to_R v * to_R v) in *.
      set (A := (1 + u) ^ k) in *. set (B := (1 - u) ^ k) in *.
      split.
      * apply Rle_trans with (2 := Lo).
        apply Rle_trans with ((1 - u) * (B * T + (1 - u) * t2)).
        -- assert (0 <= (1 - u) * B * T * u)
             by (repeat apply Rmult_le_pos; lra).
           assert (0 <= (1 - u) * (1 - u) * t2 * (1 - B))
             by (repeat apply Rmult_le_pos; lra).
           nra.
        -- apply Rmult_le_compat_l; [lra|]. lra.
      * apply Rle_trans with (1 := Hi).
        apply Rle_trans with ((1 + u) * (A * T + (1 + u) * t2)).
        -- apply Rmult_le_compat_l; [lra|]. lra.
        -- assert (0 <= (1 + u) * A * T * u)
             by (repeat apply Rmult_le_pos; lra).
           assert (0 <= (1 + u) * (1 + u) * t2 * (A - 1))
             by (repeat apply Rmult_le_pos; lra).
           nra.
Qed.

Lemma norm_fold l : forall k acc T,
  Forall (weight_entry (powerRZ 2 (-100)) (powerRZ 2 100)) l ->
  0 <= T -> T + sum_of_squares l <= powerRZ 2 300 ->
  (k + 2 * List.length l <= K)%nat ->
  partial_norm k acc T ->
  partial_norm (k + 2 * List.length l)
    (fold_left (fun n v => (n + v * v)%float) l acc)
    (T + sum_of_squares l).
Proof.
  induction l as [|v l IH]; intros k acc T Hl HT Htot Hk Hacc.
  - simpl. rewrite Nat.add_0_r, Rplus_0_r. exact Hacc.
  - inversion Hl as [|? ? Hv Hl']; subst. cbn [fold_left sum_of_squares fold_right].
    fold (sum_of_squares l).
    pose proof (sum_of_squares_nonneg l) as Hnn.
    cbn [List.length] in Hk.
    replace (k + 2 * List.length (v :: l))%nat
      with (S (S k) + 2 * List.length l)%nat by (cbn [List.length]; lia).
    replace (T + (to_R v * to_R v + sum_of_squares l))
      with (T + to_R v * to_R v + sum_of_squares l) by ring.
    cbn [sum_of_squares fold_right] in Htot. fold (sum_of_squares l) in Htot.
    apply IH.
    + exact Hl'.
    + nra.
    + lra.
    + lia.
    + apply norm_step; [exact Hv | exact HT | lra | lia | exact Hacc].
Qed.
End SquaredNorm.

(** ** Normalisation *)

Section Normalised.
Local Open Scope R_scope.

Lemma weight_entry_nonneg lo hi x : 0 <= lo -> weight_entry lo hi x -> 0 <= to_R x.
Proof.
  intros Hlo [Hz | [_ [H _]]]; [rewrite (to_R_zero x Hz)|]; lra.
Qed.

Lemma sum_of_squares_upper l :
  Forall (weight_entry (powerRZ 2 (-100)) (powerRZ 2 100)) l ->
  sum_of_squares l <= INR (List.length l) * powerRZ 2 200.
Proof.
  assert (F200 : powerRZ 2 100 * powerRZ 2 100 = powerRZ 2 200)
    by (rewrite <- p2_add; reflexivity).
  pose proof (p2_pos (-100)) as P0. pose proof (p2_pos 200) as P200.
  induction 1 as [|x l Hx Hl IH]; [simpl; lra|].
  cbn [sum_of_squares fold_right List.length]. fold (sum_of_squares l).
  rewrite S_INR.
  assert (to_R x * to_R x <= powerRZ 2 200).
  { destruct Hx as [Hz | [_ [H1 H2]]]; [rewrite (to_R_zero x Hz); lra | nra]. }
  lra.
Qed.

Lemma sum_of_squares_lower l :
  Forall (weight_entry (powerRZ 2 (-100)) (powerRZ 2 100)) l ->
  Exists pos_float l ->
  powerRZ 2 (-200) <= sum_of_squares l.
Proof.
  assert (E200 : powerRZ 2 (-100) * powerRZ 2 (-100) = powerRZ 2 (-200))
    by (rewrite <- p2_add; reflexivity).
  pose proof (p2_pos (-100)) as P0.
  intros Hl Hex. induction Hex as [x l Hx | x l Hex IH];
    inversion Hl as [|? ? Hx' Hl']; subst;
    cbn [sum_of_squares fold_right]; fold (sum_of_squares l).
  - pose proof (sum_of_squares_nonneg l).
    destruct Hx' as [Hz | [_ [H1 H2]]].
    + rewrite (pos_float_not_zero x Hx) in Hz. discriminate.
    + nra.
  - specialize (IH Hl'). nra.
Qed.

Lemma square_le a b : 0 <= a <= b -> a * a <= b * b.
Proof. intros. nra. Qed.

(** The sum of the squares of the divided entries. *)
Lemma divided_sum (y u : R) (f : float -> float) l :
  0 <= u <= 1 -> 0 < y ->
  Forall (fun v => 0 <= to_R v
                   /\ (1 - u) * to_R v <= to_R (f v) * y <= (1 + u) * to_R v) l ->
  (1 - u) * (1 - u) * sum_of_squares l
  <= sum_of_squares (map f l) * (y * y)
  <= (1 + u) * (1 + u) * sum_of_squares l.
Proof.
  intros Hu Hy. induction 1 as [|v l [Hv [Lo Hi]] Hl IH]; [simpl; lra|].
  cbn [map sum_of_squares fold_right].
  fold (sum_of_squares l). fold (sum_of_squares (map f l)).
  set (w := to_R (f v)) in *. set (x := to_R v) in *.
  assert (Hux : 0 <= (1 - u) * x) by (apply Rmult_le_pos; lra).
  assert (S1 : (1 - u) * x * ((1 - u) * x) <= w * y * (w * y))
    by (apply square_le; lra).
  assert (S2 : w * y * (w * y) <= (1 + u) * x * ((1 + u) * x))
    by (apply square_le; lra).
  destruct IH as [IH1 IH2]. split.
  - replace ((1 - u) * (1 - u) * (x * x + sum_of_squares l))
      with ((1 - u) * x * ((1 - u) * x) + (1 - u) * (1 - u) * sum_of_squares l)
      by ring.
    replace ((w * w + sum_of_squares (map f l)) * (y * y))
      with (w * y * (w * y) + sum_of_squares (map f l) * (y * y)) by ring.
    lra.
  - replace ((1 + u) * (1 + u) * (x * x + sum_of_squares l))
      with ((1 + u) * x * ((1 + u) * x) + (1 + u) * (1 + u) * sum_of_squares l)
      by ring.
    replace ((w * w + sum_of_squares (map f l)) * (y * y))
      with (w * y * (w * y) + sum_of_squares (map f l) * (y * y)) by ring.
    lra.
Qed.

Lemma sqrt_between lo hi x :
  0 <= lo -> lo * lo <= x <= hi * hi -> 0 <= hi ->
  lo <= R_sqrt.sqrt x <= hi.
Proof.
  intros Hlo [H1 H2] Hhi. split.
  - rewrite <- (sqrt_square lo Hlo). apply sqrt_le_1_alt, H1.
  - rewrite <- (sqrt_square hi Hhi). apply sqrt_le_1_alt, H2.
Qed.

(** Dividing a vector by the square root of the sum of its squares gives
    a vector of Euclidean norm 1, up to the rounding errors of the loop:
    within [1e-9] for up to two million entries. *)
Lemma normalised_norm (vec : list float) :
  Forall (weight_entry (powerRZ 2 (-100)) (powerRZ 2 100)) vec ->
  Exists pos_float vec ->
  (Z.of_nat (List.length vec) <= 2000000)%Z ->
  let norm := fold_left (fun n v => (n + v * v)%float) vec 0%float in
  let norm' := or_num (Some (PrimFloat.sqrt norm)) 1 in
  let w := map (fun v => (v / norm')%float) vec in
  Forall (fun x => Number_isFinite x = true) w
  /\ Rabs (euclidean_norm w - 1) <= / 1000000000.
Proof.
  intros Hvec Hex Hlen norm norm' w.
  pose proof roundoff_range as Hu. pose proof roundoff_value as Uval.
  set (n := List.length vec) in *.
  set (K := (2 * n)%nat).
  assert (HKr : INR K <= 4000000).
  { unfold K. rewrite INR_IZR_INZ. apply IZR_le. lia. }
  assert (Uhalf : powerRZ 2 (-52) <= / 1000000000000000) by lra.
  assert (HKu : INR K * powerRZ 2 (-52) <= 89 / 100000000000).
  { apply Rle_trans with (4000000 * powerRZ 2 (-52)); [|lra].
    apply Rmult_le_compat_r; lra. }
  assert (HK : INR K * powerRZ 2 (-52) <= / 2) by lra.
  set (T := sum_of_squares vec).
  assert (Tlo : powerRZ 2 (-200) <= T) by (apply sum_of_squares_lower; assumption).
  assert (Thi : T <= powerRZ 2 300).
  { apply Rle_trans with (1 := sum_of_squares_upper vec Hvec). fold n.
    assert (INR n <= powerRZ 2 100).
    { rewrite INR_IZR_INZ, (p2_IZR 100) by lia. apply IZR_le.
      change (2 ^ 100)%Z with 1267650600228229401496703205376%Z. lia. }
    replace 300%Z with (100 + 200)%Z by lia. rewrite p2_add.
    apply Rmult_le_compat_r; [apply Rlt_le, p2_pos | assumption]. }
  (* the sum of the squares *)
  assert (Hfold : partial_norm (0 + 2 * n) norm (0 + T)).
  { apply (norm_fold K HK);
      [exact Hvec | lra | fold T; lra | unfold K, n; lia|].
    left. split; reflexivity. }
  cbn [Nat.add] in Hfold. fold K in Hfold. rewrite Rplus_0_l in Hfold.
  pose proof (p2_pos (-200)) as P200.
  destruct Hfold as [[_ HT0] | (Hnorm & _ & Slo & Shi)]; [lra|].
  set (u := powerRZ 2 (-52)) in *.
  pose proof (bernoulli _ Hu K) as HB. pose proof (pow_up_down _ Hu K) as HAB.
  pose proof (pow_up_ge_1 _ Hu K) as HA1. pose proof (pow_down_range _ Hu K) as HB1.
  set (A := (1 + u) ^ K) in *. set (B := (1 - u) ^ K) in *.
  set (S := to_R norm) in *.
  assert (Blo : 1 - 89 / 100000000000 <= B) by lra.
  assert (Ahi : A <= 1 + 9 / 10000000000) by nra.
  assert (S_lo : powerRZ 2 (-202) <= S).
  { assert (E : powerRZ 2 (-200) = 4 * powerRZ 2 (-202)).
    { replace (-200)%Z with (-202 + 1 + 1)%Z by lia. rewrite !p2_succ. ring. }
    pose proof (p2_pos (-202)). nra. }
  assert (S_hi : S <= powerRZ 2 302).
  { assert (E : powerRZ 2 302 = 4 * powerRZ 2 300).
    { replace 302%Z with (300 + 1 + 1)%Z by lia. rewrite !p2_succ. ring. }
    nra. }
  (* its square root *)
  destruct (sqrt_bound norm Hnorm) as [Hroot [Rlo Rhi]].
  { split.
    - apply Rle_trans with (2 := S_lo). apply p2_le. lia.
    - apply Rle_trans with (1 := S_hi). apply p2_le. lia. }
  fold S in Rlo, Rhi. fold u in Rlo, Rhi.
  set (s := R_sqrt.sqrt S) in *.
  assert (Hs : powerRZ 2 (-101) <= s <= powerRZ 2 151).
  { apply sqrt_between.
    - apply Rlt_le, p2_pos.
    - rewrite <- !p2_add. exact (conj S_lo S_hi).
    - apply Rlt_le, p2_pos. }
  assert (Hss : s * s = S).
  { apply sqrt_sqrt. pose proof (p2_pos (-202)). lra. }
  assert (Htruthy : norm' = PrimFloat.sqrt norm).
  { unfold norm'. cbn [or_num]. rewrite (pos_float_truthy _ Hroot). reflexivity. }
  set (y := to_R (PrimFloat.sqrt norm)) in *.
  pose proof (p2_pos (-101)) as P101.
  assert (Hy : powerRZ 2 (-102) <= y <= powerRZ 2 152).
  { assert (E1 : powerRZ 2 (-101) = 2 * powerRZ 2 (-102))
      by (rewrite <- p2_succ; reflexivity).
    assert (E2 : powerRZ 2 152 = 2 * powerRZ 2 151)
      by (rewrite <- p2_succ; reflexivity).
    split; nra. }
  pose proof (p2_pos (-102)) as P102.
  (* the divided entries *)
  assert (Hentries : Forall (fun v =>
            Number_isFinite (v / norm')%float = true
            /\ 0 <= to_R v
            /\ (1 - u) * to_R v <= to_R (v / norm')%float * y
               <= (1 + u) * to_R v) vec).
  { rewrite Htruthy. apply Forall_forall. intros v Hv.
    rewrite Forall_forall in Hvec. destruct (Hvec v Hv) as [Hz | [Hp [Vlo Vhi]]].
    - pose proof (zero_div_pos v _ Hz Hroot) as Hq.
      split; [apply zero_finite, Hq|].
      rewrite (to_R_zero _ Hq), (to_R_zero _ Hz). split; lra.
    - destruct (div_bound v (PrimFloat.sqrt norm) Hp Hroot) as [Hq [Qlo Qhi]].
      + split; [apply Rle_trans with (2 := Vlo) | apply Rle_trans with (1 := Vhi)];
          apply p2_le; lia.
      + fold y. split; [apply Rle_trans with (2 := proj1 Hy)
                       | apply Rle_trans with (1 := proj2 Hy)]; apply p2_le; lia.
      + fold y in Qlo, Qhi. fold u in Qlo, Qhi.
        split; [apply pos_float_finite, Hq|].
        pose proof (p2_pos (-100)).
        split; [lra|].
        split.
        * apply Rle_trans with ((1 - u) * (to_R v / y) * y);
            [apply Req_le; field; lra | apply Rmult_le_compat_r; lra].
        * apply Rle_trans with ((1 + u) * (to_R v / y) * y);
            [apply Rmult_le_compat_r; lra | apply Req_le; field; lra]. }
  split.
  { unfold w. apply Forall_map. apply Forall_impl with (2 := Hentries).
    intros v Hv. apply Hv. }
  assert (Hsum : (1 - u) * (1 - u) * T
                 <= sum_of_squares w * (y * y)
                 <= (1 + u) * (1 + u) * T).
  { apply divided_sum; [exact Hu | lra|].
    apply Forall_impl with (2 := Hentries). intros v Hv. apply Hv. }
  set (W := sum_of_squares w) in *.
  assert (HW0 : 0 <= W) by apply sum_of_squares_nonneg.
  (* the square of the divisor against the exact sum *)
  assert (Hyy : (1 - u) * (1 - u) * (B * T) <= y * y
                <= (1 + u) * (1 + u) * (A * T)).
  { assert (0 <= s) by lra.
    assert (0 <= (1 - u) * s) by (apply Rmult_le_pos; lra).
    assert (Y1 : (1 - u) * s * ((1 - u) * s) <= y * y)
      by (apply square_le; lra).
    assert (Y2 : y * y <= (1 + u) * s * ((1 + u) * s))
      by (apply square_le; lra).
    assert (0 <= (1 - u) * (1 - u)) by nra.
    assert (0 <= (1 + u) * (1 + u)) by nra.
    split.
    - apply Rle_trans with (2 := Y1).
      replace ((1 - u) * s * ((1 - u) * s)) with ((1 - u) * (1 - u) * S)
        by (rewrite <- Hss; ring).
      apply Rmult_le_compat_l; lra.
    - apply Rle_trans with (1 := Y2).
      replace ((1 + u) * s * ((1 + u) * s)) with ((1 + u) * (1 + u) * S)
        by (rewrite <- Hss; ring).
      apply Rmult_le_compat_l; lra. }
  assert (HT0 : 0 < T) by lra.
  set (alpha := (1 + u) * (1 + u) * A) in *.
  set (beta := (1 - u) * (1 - u) * B) in *.
  assert (Up2 : 1 <= (1 + u) * (1 + u) <= 1 + 3 / 1000000000000000) by nra.
  assert (Dn2 : 1 - 2 / 1000000000000000 <= (1 - u) * (1 - u) <= 1) by nra.
  assert (Halpha : 1 <= alpha <= 1 + 91 / 100000000000).
  { unfold alpha. split.
    - apply Rle_trans with (1 * 1); [lra | apply Rmult_le_compat; lra].
    - apply Rle_trans with ((1 + 3 / 1000000000000000) * (1 + 9 / 10000000000));
        [apply Rmult_le_compat; lra | lra]. }
  assert (Hbeta : 1 - 9 / 10000000000 <= beta <= 1).
  { unfold beta. split.
    - apply Rle_trans with ((1 - 2 / 1000000000000000) * (1 - 89 / 100000000000));
        [lra | apply Rmult_le_compat; lra].
    - apply Rle_trans with (1 * 1); [apply Rmult_le_compat; lra | lra]. }
  assert (Wlo : (1 - u) * (1 - u) <= W * alpha).
  { apply Rmult_le_reg_r with T; [exact HT0|].
    apply Rle_trans with (1 := proj1 Hsum).
    replace (W * alpha * T) with (W * ((1 + u) * (1 + u) * (A * T)))
      by (unfold alpha; ring).
    apply Rmult_le_compat_l; [exact HW0 | apply Hyy]. }
  assert (Whi : W * beta <= (1 + u) * (1 + u)).
  { apply Rmult_le_reg_r with T; [exact HT0|].
    apply Rle_trans with (2 := proj2 Hsum).
    replace (W * beta * T) with (W * ((1 - u) * (1 - u) * (B * T)))
      by (unfold beta; ring).
    apply Rmult_le_compat_l; [exact HW0 | apply Hyy]. }
  assert (HWr : (1 - / 1000000000) * (1 - / 1000000000) <= W
                <= (1 + / 1000000000) * (1 + / 1000000000)).
  { split.
    - apply Rmult_le_reg_r with alpha; [lra|].
      apply Rle_trans with (2 := Wlo).
      apply Rle_trans with ((1 - / 1000000000) * (1 - / 1000000000)
                            * (1 + 91 / 100000000000)); [|lra].
      apply Rmult_le_compat_l; lra.
    - apply Rmult_le_reg_r with beta; [lra|].
      apply Rle_trans with (1 := Whi).
      apply Rle_trans with ((1 + / 1000000000) * (1 + / 1000000000)
                            * (1 - 9 / 10000000000)); [lra|].
      apply Rmult_le_compat_l; lra. }
  unfold euclidean_norm. fold W.
  destruct (sqrt_between (1 - / 1000000000) (1 + / 1000000000) W) as [R1 R2];
    [lra | exact HWr | lra|].
  apply Rabs_le. lra.
Qed.
End Normalised.

(** ** Term counts *)

Section Counts.
Context {rt : Runtime}.
Local Open Scope R_scope.

Lemma one_value : pos_float 1%float /\ to_R 1%float = 1.
Proof.
  split; [exists 4503599627370496%positive, (-52)%Z; reflexivity|].
  unfold to_R. change (Prim2SF 1) with (S754_finite false 4503599627370496 (-52)).
  cbn [SF2R cond_Zopp]. rewrite Rmult_comm. apply roundoff_value.
Qed.

Lemma forall_oset {K V : Type} `{EqDec K} (P : K * V -> Prop) (k : K) (v : V)
    (m : omap K V) :
  P (k, v) -> Forall P m -> Forall P (oset k v m).
Proof.
  intros Hv. induction m as [|[k' v'] m IH]; simpl; intros Hm.
  - constructor; [exact Hv | constructor].
  - inversion Hm as [|? ? Hv' Hm']; subst.
    destruct (eq_dec k k'); constructor; auto.
Qed.

Lemma increment_count c j :
  (Z.of_nat j < 2 ^ 50)%Z ->
  pos_float c -> 1 <= to_R c <= 2 * INR j ->
  pos_float (c + 1)%float /\ 1 <= to_R (c + 1)%float <= 2 * INR (S j).
Proof.
  intros Hj Hc [Clo Chi]. destruct one_value as [H1 V1].
  pose proof roundoff_range as Hu. pose proof roundoff_value as Uval.
  assert (Hjr : INR j <= 1125899906842624).
  { rewrite INR_IZR_INZ. apply IZR_le.
    change (2 ^ 50)%Z with 1125899906842624%Z in Hj. lia. }
  assert (P500 : 2251799813685248 <= powerRZ 2 500).
  { change 2251799813685248 with (IZR (2 ^ 51)).
    rewrite <- (p2_IZR 51) by lia. apply p2_le. lia. }
  assert (Q500 : powerRZ 2 (-500) <= 1).
  { change 1 with (powerRZ 2 0). apply p2_le. lia. }
  destruct (add_bound c 1%float Hc H1) as [Hs [Lo Hi]]; [lra | lra | lra |].
  rewrite V1 in Lo, Hi. split; [exact Hs|]. rewrite S_INR.
  set (u := powerRZ 2 (-52)) in *.
  split.
  - apply Rle_trans with (2 := Lo). nra.
  - apply Rle_trans with (1 := Hi).
    assert (u * (2 * INR j + 1) <= 1).
    { apply Rle_trans with (u * 4503599627370496); [|lra].
      apply Rmult_le_compat_l; lra. }
    nra.
Qed.

Lemma count_entry_mono vocab j e :
  count_entry vocab j e -> count_entry vocab (S j) e.
Proof.
  intros (Hk & Hp & Lo & Hi). split; [exact Hk|]. split; [exact Hp|].
  rewrite S_INR. lra.
Qed.

Lemma term_counts_snoc vocab toks t :
  term_counts vocab (toks ++ [t])
  = match oget t vocab with
    | Some idx =>
        oset idx (or_num (oget idx (term_counts vocab toks)) 0 + 1)%float
          (term_counts vocab toks)
    | None => term_counts vocab toks
    end.
Proof. unfold term_counts. rewrite fold_left_app. reflexivity. Qed.

(** The counts of a token list of at most [2^50] tokens. *)
Lemma term_counts_entries vocab toks :
  (Z.of_nat (List.length toks) <= 2 ^ 50)%Z ->
  Forall (count_entry vocab (List.length toks)) (term_counts vocab toks).
Proof.
  induction toks as [|t toks IH] using rev_ind; intros Hlen.
  - constructor.
  - rewrite length_app in *. cbn [List.length] in *.
    rewrite Nat.add_1_r in *. rewrite term_counts_snoc.
    specialize (IH ltac:(lia)).
    assert (Hmono : Forall (count_entry vocab (S (List.length toks)))
                      (term_counts vocab toks)).
    { apply Forall_impl with (2 := IH). intros e. apply count_entry_mono. }
    destruct (oget t vocab) as [idx|] eqn:Ht; [|exact Hmono].
    apply forall_oset; [|exact Hmono].
    assert (Hidx : In idx (map snd vocab)).
    { apply oget_some_in in Ht. apply (in_map snd) in Ht. exact Ht. }
    split; [exact Hidx|]. cbn [snd].
    destruct (oget idx (term_counts vocab toks)) as [c|] eqn:Hc.
    + apply oget_some_in in Hc. rewrite Forall_forall in IH.
      destruct (IH _ Hc) as (_ & Hp & Hb). cbn [snd] in Hp, Hb.
      cbn [or_num]. rewrite (pos_float_truthy c Hp).
      apply increment_count; [lia | exact Hp | exact Hb].
    + cbn [or_num]. change (0 + 1)%float with 1%float.
      destruct one_value as [H1 V1]. split; [exact H1|]. rewrite V1, S_INR.
      pose proof (pos_INR (List.length toks)). lra.
Qed.

Lemma term_counts_nonempty vocab toks :
  toks <> [] -> (forall t, In t toks -> oget t vocab <> None) ->
  term_counts vocab toks <> [].
Proof.
  destruct toks as [|t toks] using rev_ind; [congruence|].
  intros _ Hin. rewrite term_counts_snoc.
  destruct (oget t vocab) as [idx|] eqn:Ht.
  - apply oset_not_nil.
  - exfalso. apply (Hin t); [apply in_or_app; right; left; reflexivity | exact Ht].
Qed.
End Counts.

(** ** The weights *)

Section Weighing.
Context {rt : Runtime}.
Local Open Scope R_scope.

Lemma forall_array_set {A : Type} (P : A -> Prop) i (v : A) a :
  P v -> Forall P a -> Forall P (array_set i v a).
Proof.
  intros Hv Ha. revert i. induction Ha as [|x a Hx Ha IH]; intros [|i]; simpl;
    constructor; auto.
Qed.

Lemma exists_array_set {A : Type} (P : A -> Prop) i (v : A) a :
  P v -> (i < List.length a)%nat \/ Exists P a -> Exists P (array_set i v a).
Proof.
  intros Hv. revert i. induction a as [|x a IH]; intros i [Hi | Hex].
  - simpl in Hi. lia.
  - inversion Hex.
  - destruct i as [|i]; simpl.
    + left. exact Hv.
    + right. apply IH. left. simpl in Hi. lia.
  - destruct i as [|i]; simpl.
    + left. exact Hv.
    + inversion Hex as [? ? Hx | ? ? Hex']; subst;
        [left; exact Hx | right; apply IH; right; exact Hex'].
Qed.

Lemma p2_inv k : (0 <= k)%Z -> powerRZ 2 (- k) = / IZR (2 ^ k).
Proof.
  intros Hk.
  assert (Hpos : 0 < IZR (2 ^ k)).
  { apply IZR_lt. apply Z.pow_pos_nonneg; lia. }
  apply Rmult_eq_reg_r with (IZR (2 ^ k)); [|lra].
  rewrite Rinv_l by lra. rewrite <- (p2_IZR k Hk), <- p2_add.
  replace (- k + k)%Z with 0%Z by lia. reflexivity.
Qed.

(** A weight [tf * idf] of the vector, before it is normalised. *)
Lemma weight_value c len w (L : nat) :
  (0 < Z.of_nat L <= 2 ^ 50)%Z ->
  pos_float c -> 1 <= to_R c <= 2 * INR L ->
  len = num_of_nat L ->
  pos_float w -> / 2 <= to_R w <= 2048 ->
  pos_float (c / len * w)%float
  /\ powerRZ 2 (-100) <= to_R (c / len * w)%float <= powerRZ 2 100.
Proof.
  intros HL Hc [Clo Chi] -> Hw [Wlo Whi].
  pose proof roundoff_range as Hu. pose proof roundoff_value as Uval.
  assert (HLr : 1 <= INR L <= 1125899906842624).
  { rewrite INR_IZR_INZ. split; apply IZR_le.
    - lia.
    - change (2 ^ 50)%Z with 1125899906842624%Z in HL. lia. }
  destruct (num_of_Z_bound (Z.of_nat L)) as [Hlen [Llo Lhi]].
  { change (2 ^ 50)%Z with 1125899906842624%Z in HL.
    change (2 ^ 62)%Z with 4611686018427387904%Z. lia. }
  fold (num_of_nat L) in Hlen, Llo, Lhi. rewrite <- INR_IZR_INZ in Llo, Lhi.
  set (u := powerRZ 2 (-52)) in *.
  set (l := to_R (num_of_nat L)) in *.
  assert (Uu : u <= / 1000000000000000) by lra.
  assert (P500 : powerRZ 2 (-500) <= / 4).
  { apply Rle_trans with u; [apply p2_le; lia | lra]. }
  assert (Q500 : 4503599627370496 <= powerRZ 2 500).
  { change 4503599627370496 with (IZR (2 ^ 52)).
    rewrite <- (p2_IZR 52) by lia. apply p2_le. lia. }
  assert (Hl : / 2 <= l <= 2251799813685248) by (split; nra).
  destruct (div_bound c (num_of_nat L) Hc Hlen) as [Hq [Qlo Qhi]];
    [split; lra | fold l; split; lra |].
  fold u in Qlo, Qhi. fold l in Qlo, Qhi.
  set (q := to_R (c / num_of_nat L)%float) in *.
  (* the quotient is between 2^-52 and 8 *)
  assert (Hcl : / 2251799813685248 <= to_R c / l <= 4).
  { assert (Hlpos : 0 < l) by lra. split.
    - apply Rmult_le_reg_r with l; [exact Hlpos|].
      replace (to_R c / l * l) with (to_R c) by (field; lra).
      apply Rle_trans with 1; [|lra].
      apply Rmult_le_reg_l with 2251799813685248; [lra|].
      rewrite <- Rmult_assoc, Rinv_r by lra. lra.
    - apply Rmult_le_reg_r with l; [exact Hlpos|].
      replace (to_R c / l * l) with (to_R c) by (field; lra).
      apply Rle_trans with (2 * INR L); [lra|]. nra. }
  assert (Hqr : / 4503599627370496 <= q <= 8).
  { split.
    - apply Rle_trans with (2 := Qlo).
      apply Rle_trans with (/ 2 * / 2251799813685248); [lra|].
      apply Rmult_le_compat; lra.
    - apply Rle_trans with (1 := Qhi).
      apply Rle_trans with (2 * 4); [|lra].
      apply Rmult_le_compat; lra. }
  assert (P52 : u = / 4503599627370496).
  { unfold u. change 4503599627370496 with (IZR (2 ^ 52)).
    apply (p2_inv 52). lia. }
  assert (P500' : powerRZ 2 (-500) <= u) by (apply p2_le; lia).
  destruct (mul_bound (c / num_of_nat L)%float w Hq Hw) as [Hv [Vlo Vhi]];
    [fold q; split; lra | split; lra |].
  fold u in Vlo, Vhi. fold q in Vlo, Vhi.
  split; [exact Hv|].
  assert (Hqw : / 9007199254740992 <= q * to_R w <= 16384).
  { split.
    - apply Rle_trans with (/ 4503599627370496 * / 2); [lra|].
      apply Rmult_le_compat; lra.
    - apply Rle_trans with (8 * 2048); [|lra].
      apply Rmult_le_compat; lra. }
  assert (L100 : powerRZ 2 (-100) <= / 18014398509481984).
  { change 18014398509481984 with (IZR (2 ^ 54)).
    rewrite <- (p2_inv 54) by lia. apply p2_le. lia. }
  assert (H100 : 32768 <= powerRZ 2 100).
  { change 32768 with (IZR (2 ^ 15)).
    rewrite <- (p2_IZR 15) by lia. apply p2_le. lia. }
  split.
  - apply Rle_trans with (2 := Vlo).
    apply Rle_trans with (/ 2 * / 9007199254740992); [lra|].
    apply Rmult_le_compat; lra.
  - apply Rle_trans with (1 := Vhi).
    apply Rle_trans with (2 * 16384); [|lra].
    apply Rmult_le_compat; lra.
Qed.

(** The vector of weights before it is normalised. *)
Lemma weights_entries size idf (L : nat) len (tf : omap nat float) :
  (0 < Z.of_nat L <= 2 ^ 50)%Z -> len = num_of_nat L ->
  Forall (fun e => (fst e < size)%nat
                   /\ pos_float (snd e) /\ 1 <= to_R (snd e) <= 2 * INR L) tf ->
  (forall i, (i < size)%nat ->
     pos_float (nth i idf nan) /\ / 2 <= to_R (nth i idf nan) <= 2048) ->
  forall vec,
    List.length vec = size ->
    Forall (weight_entry (powerRZ 2 (-100)) (powerRZ 2 100)) vec ->
    let vec' :=
      fold_left
        (fun vec e => array_set (fst e) (snd e / len * nth (fst e) idf nan)%float vec)
        tf vec in
    List.length vec' = size
    /\ Forall (weight_entry (powerRZ 2 (-100)) (powerRZ 2 100)) vec'
    /\ (tf <> [] \/ Exists pos_float vec -> Exists pos_float vec').
Proof.
  intros HL Hlen Htf Hidf. induction Htf as [|e tf He Htf IH]; intros vec Hsize Hvec.
  - cbn [fold_left]. split; [exact Hsize|]. split; [exact Hvec|].
    intros [Hne | Hex]; [congruence | exact Hex].
  - cbn [fold_left]. destruct He as (Hi & Hc & Hb).
    destruct (Hidf _ Hi) as [Hw Hwb].
    destruct (weight_value (snd e) len (nth (fst e) idf nan) L HL Hc Hb Hlen Hw Hwb)
      as [Hv Hvb].
    destruct (IH (array_set (fst e) (snd e / len * nth (fst e) idf nan)%float vec))
      as (H1 & H2 & H3).
    + rewrite length_array_set. exact Hsize.
    + apply forall_array_set; [right; split; assumption | exact Hvec].
    + split; [exact H1|]. split; [exact H2|]. intros _. apply H3. right.
      apply exists_array_set; [exact Hv | left; lia].
Qed.

(** The vector [weigh] returns for a document with at least one counted
    term. *)
Lemma weigh_unit_norm size idf toks (tf : omap nat float) :
  (Z.of_nat size <= 2000000)%Z ->
  (0 < Z.of_nat (List.length toks) <= 2 ^ 50)%Z ->
  tf <> [] ->
  Forall (fun e => (fst e < size)%nat
                   /\ pos_float (snd e)
                   /\ 1 <= to_R (snd e) <= 2 * INR (List.length toks)) tf ->
  (forall i, (i < size)%nat ->
     pos_float (nth i idf nan) /\ / 2 <= to_R (nth i idf nan) <= 2048) ->
  Forall (fun x => Number_isFinite x = true) (weigh size idf toks tf)
  /\ Rabs (euclidean_norm (weigh size idf toks tf) - 1) <= / 1000000000.
Proof.
  intros Hsize HL Hne Htf Hidf.
  destruct (weights_entries size idf (List.length toks)
              (num_of_nat (List.length toks)) tf HL eq_refl Htf Hidf
              (repeat 0%float size)) as (H1 & H2 & H3).
  - apply repeat_length.
  - apply Forall_forall. intros x Hx. apply repeat_spec in Hx. subst x.
    left. reflexivity.
  - unfold weigh. apply normalised_norm.
    + exact H2.
    + apply H3. left. exact Hne.
    + rewrite H1. exact Hsize.
Qed.
End Weighing.

(** ** Inverse document frequencies *)

Section StoredVectors.
Context {rt : Runtime}.
Local Open Scope R_scope.

Lemma array_set_app {A : Type} (done : list A) v x rest :
  array_set (List.length done) v (done ++ x :: rest) = done ++ v :: rest.
Proof.
  induction done as [|d done IH]; simpl; [reflexivity|]. rewrite IH. reflexivity.
Qed.

(** Setting the indices 0, 1, 2, ... in turn fills the array. *)
Lemma fold_array_set_seq {K A : Type} (g : K * nat -> A) (m : list (K * nat)) :
  forall done rest,
    map snd m = seq (List.length done) (List.length m) ->
    List.length rest = List.length m ->
    fold_left (fun l e => array_set (snd e) (g e) l) m (done ++ rest)
    = done ++ map g m.
Proof.
  induction m as [|e m IH]; intros done rest Hseq Hlen.
  - destruct rest; [|discriminate]. reflexivity.
  - destruct rest as [|x rest]; [discriminate|].
    cbn [map seq List.length] in Hseq. injection Hseq as He Hseq.
    cbn [fold_left map]. rewrite He, array_set_app.
    replace (done ++ g e :: rest) with ((done ++ [g e]) ++ rest)
      by (rewrite <- app_assoc; reflexivity).
    rewrite IH.
    + rewrite <- app_assoc. reflexivity.
    + rewrite length_app. cbn [List.length]. rewrite Nat.add_1_r. exact Hseq.
    + cbn [List.length] in Hlen. lia.
Qed.

(** The inverse document frequencies, term by term. *)
Lemma idf_entries (products : list Product) :
  idf (buildTFIDF products)
  = map (fun e => (Math_log (idf_argument products (fst e)) + 1)%float)
      (vocab (buildTFIDF products)).
Proof.
  destruct (buildTFIDF_fields products) as (Hvocab & Hidf & _).
  destruct (buildTFIDF_facts products) as ([Hnum _] & _).
  rewrite Hidf, <- Hvocab. cbv zeta. rewrite length_map, map_map. cbn [snd].
  fold (document_frequency products).
  apply (fold_array_set_seq
           (fun e => (Math_log (idf_argument products (fst e)) + 1)%float)
           (vocab (buildTFIDF products)) []).
  - exact Hnum.
  - apply repeat_length.
Qed.

Lemma leb_1024 l :
  (0 <=? l)%float = true -> (l <=? 1024)%float = true ->
  is_zero_num l = true \/ (pos_float l /\ to_R l <= 1024).
Proof.
  rewrite !leb_spec. unfold is_zero_num.
  change (Prim2SF 0) with (S754_zero false).
  change (Prim2SF 1024) with (S754_finite false 4503599627370496 (-42)).
  intros H0 H1.
  destruct (Prim2SF l) as [s|s| |s m e] eqn:Hl;
    [left; reflexivity | | discriminate |].
  - destruct s; discriminate.
  - destruct s; [discriminate|]. right.
    assert (Hp : pos_float l) by (exists m, e; exact Hl).
    split; [exact Hp|].
    destruct (pos_float_value l Hp) as (m' & e' & Hl' & Hv & He & Hd & _).
    rewrite Hl in Hl'. injection Hl' as <- <-.
    rewrite Hv. unfold SFleb, SFcompare in H1.
    pose proof (digits2_bounds m) as [_ Dhi].
    assert (Hm : (Z.pos m < 2 ^ 53)%Z).
    { apply Z.lt_le_trans with (1 := Dhi). apply Z.pow_le_mono_r; lia. }
    assert (E1024 : 1024 = IZR (2 ^ 52) * powerRZ 2 (-42)).
    { rewrite <- (p2_IZR 52), <- p2_add by lia.
      rewrite (p2_IZR (52 + -42)) by lia. reflexivity. }
    destruct (Z.compare_spec e (-42)) as [-> | Hlt | Hgt]; [| |discriminate].
    + assert (Hle : (Z.pos m <= 2 ^ 52)%Z).
      { change (2 ^ 52)%Z with (Z.pos 4503599627370496).
        rewrite Pos.compare_cont_spec in H1. cbn [Pos.switch_Eq] in H1.
        rewrite Pos2Z.inj_compare in H1.
        destruct (Z.compare_spec (Z.pos m) (Z.pos 4503599627370496))
          as [Heq | Hlt | Hgt]; [lia | lia | discriminate]. }
      rewrite E1024. apply Rmult_le_compat_r; [apply Rlt_le, p2_pos|].
      apply IZR_le, Hle.
    + rewrite E1024.
      apply Rle_trans with (IZR (2 ^ 53) * powerRZ 2 (-43)).
      * apply Rmult_le_compat; [apply IZR_le; lia | apply Rlt_le, p2_pos
                                | apply IZR_le; lia | apply p2_le; lia].
      * apply Req_le. rewrite <- !p2_IZR, <- !p2_add by lia. reflexivity.
Qed.

(** The weight [Math.log(x) + 1] when the logarithm is between 0 and
    1024. *)
Lemma idf_weight l :
  (0 <=? l)%float = true -> (l <=? 1024)%float = true ->
  pos_float (l + 1)%float /\ / 2 <= to_R (l + 1)%float <= 2048.
Proof.
  intros H0 H1. destruct one_value as [P1 V1].
  destruct (leb_1024 l H0 H1) as [Hz | [Hp Hb]].
  - rewrite (add_zero_l 1%float l Hz (pos_float_not_zero _ P1)).
    split; [exact P1|]. rewrite V1. lra.
  - pose proof roundoff_range as Hu. pose proof roundoff_value as Uval.
    destruct (pos_float_value l Hp) as (ml & el & _ & _ & _ & _ & _ & [Hpos _]).
    assert (Q500 : 1024 <= powerRZ 2 500).
    { change 1024 with (IZR (2 ^ 10)). rewrite <- (p2_IZR 10) by lia.
      apply p2_le. lia. }
    assert (P500 : powerRZ 2 (-500) <= 1).
    { change 1 with (powerRZ 2 0). apply p2_le. lia. }
    destruct (add_bound l 1%float Hp P1) as [Hs [Lo Hi]]; [lra | lra | lra |].
    rewrite V1 in Lo, Hi. split; [exact Hs|].
    set (u := powerRZ 2 (-52)) in *.
    assert (u <= / 1000000000000000) by lra.
    split; nra.
Qed.
End StoredVectors.

(** ** The stored vectors *)

Section UnitNorm.
Context {rt : Runtime}.
Local Open Scope R_scope.

Lemma last_entry_map {V : Type} (f : Product -> V) pid (ps : list Product) :
  last_entry pid (map (fun p => (product_id p, f p)) ps)
  = option_map f (last_product pid ps).
Proof.
  unfold last_entry, last_product. rewrite <- map_rev.
  induction (rev ps) as [|p l IH]; simpl; [reflexivity|].
  destruct (eq_dec pid (product_id p)) as [Heq|Hne].
  - rewrite Heq, String.eqb_refl. reflexivity.
  - apply String.eqb_neq in Hne. rewrite Hne. exact IH.
Qed.

Lemma combine_documents (ps : list Product) :
  combine (map (fun p => (product_id p, doc_text p)) ps)
    (map (fun d => tokenize (snd d))
       (map (fun p => (product_id p, doc_text p)) ps))
  = map (fun p => ((product_id p, doc_text p), tokenize (doc_text p))) ps.
Proof. induction ps as [|p ps IH]; simpl; [reflexivity | f_equal; exact IH]. Qed.

Lemma fold_vectors {V : Type} (W : list string -> V) (ps : list Product) :
  forall acc : omap string V,
    fold_left (fun vectors dt => oset (fst (fst dt)) (W (snd dt)) vectors)
      (map (fun p => ((product_id p, doc_text p), tokenize (doc_text p))) ps) acc
    = fold_left (fun m kv => oset (fst kv) (snd kv) m)
        (map (fun p => (product_id p, W (tokenize (doc_text p)))) ps) acc.
Proof.
  induction ps as [|p ps IH]; intros acc; simpl; [reflexivity | apply IH].
Qed.

(** The vector stored for an id: the one [weigh] builds for the last
    product with that id. *)
Lemma vectors_lookup (products : list Product) pid :
  let m := buildTFIDF products in
  oget pid (vectors m)
  = option_map
      (fun p => weigh (osize (vocab m)) (idf m) (tokenize (doc_text p))
                  (term_counts (vocab m) (tokenize (doc_text p))))
      (last_product pid products).
Proof.
  intros m. subst m.
  destruct (buildTFIDF_fields products) as (Hvocab & _ & Hvec).
  rewrite Hvec, <- Hvocab. cbv zeta. rewrite combine_documents.
  rewrite <- last_entry_map, <- oget_omap_of_list. unfold omap_of_list.
  f_equal.
  apply (fold_vectors
           (fun toks => weigh (osize (vocab (buildTFIDF products)))
                          (idf (buildTFIDF products)) toks
                          (term_counts (vocab (buildTFIDF products)) toks))).
Qed.

Lemma nodup_ids (ps : list Product) p q :
  NoDup (map product_id ps) -> In p ps -> In q ps ->
  product_id p = product_id q -> p = q.
Proof.
  induction ps as [|x ps IH]; simpl; intros Hnd Hp Hq Heq; [tauto|].
  inversion Hnd as [|? ? Hni Hnd']; subst.
  destruct Hp as [-> | Hp]; destruct Hq as [-> | Hq]; auto.
  - exfalso. apply Hni. rewrite Heq. apply in_map, Hq.
  - exfalso. apply Hni. rewrite <- Heq. apply in_map, Hp.
Qed.

(** C4.  For every product of the catalog, [buildTFIDF] stores under its id
    the vector of the last product with that id, which is the product
    itself when the ids are distinct.  When the document of that product
    has no token, the stored vector is the all-zero vector.  When it has
    tokens, every entry of the stored vector is a finite number and the
    Euclidean norm of the vector, computed in the real numbers from the
    exact values of its entries, is within [1e-9] of 1: provided that
    [Math.log] answers each call of [buildTFIDF] with a number between 0
    and 1024, that the vocabulary has at most 2,000,000 terms and that the
    document has at most [2^50] tokens. *)
Theorem stored_vectors_unit_norm (products : list Product) (p : Product) :
  let m := buildTFIDF products in
  In p products ->
  exists q v,
    last_product (product_id p) products = Some q
    /\ oget (product_id p) (vectors m) = Some v
    /\ (NoDup (map product_id products) -> q = p)
    /\ (tokenize (doc_text q) = [] -> v = repeat 0%float (osize (vocab m)))
    /\ (tokenize (doc_text q) <> [] ->
        log_in_range products = true ->
        (Z.of_nat (osize (vocab m)) <= 2000000)%Z ->
        (document_length q <= 2 ^ 50)%Z ->
        Forall (fun x => Number_isFinite x = true) v
        /\ Rabs (euclidean_norm v - 1) <= / 1000000000).
Proof.
  intros m Hp.
  destruct (buildTFIDF_facts products) as ([Hnum _] & Hterms & Hlen & _).
  fold m in Hnum, Hterms, Hlen.
  assert (Hfound : last_product (product_id p) products <> None).
  { intros Hnone. apply last_product_none in Hnone. apply Hnone.
    apply in_map, Hp. }
  destruct (last_product (product_id p) products) as [q|] eqn:Hq; [|congruence].
  pose proof (vectors_lookup products (product_id p)) as Hv. cbv zeta in Hv.
  fold m in Hv. rewrite Hq in Hv. cbn [option_map] in Hv.
  remember (tokenize (doc_text q)) as toks eqn:Etoks.
  exists q, (weigh (osize (vocab m)) (idf m) toks (term_counts (vocab m) toks)).
  apply last_product_some in Hq. destruct Hq as [Hqin Hqid].
  split; [reflexivity|]. split; [exact Hv|]. split.
  { intros Hnd. symmetry. apply (nodup_ids products p q Hnd Hp Hqin).
    symmetry. exact Hqid. }
  split.
  { intros Hnil. rewrite <- Etoks in Hnil. rewrite Hnil. apply weigh_no_tokens. }
  intros Hne Hlog Hsize Hdoc. rewrite <- Etoks in Hne.
  unfold document_length in Hdoc. rewrite <- Etoks in Hdoc.
  apply weigh_unit_norm.
  - exact Hsize.
  - split; [|exact Hdoc]. destruct toks; [congruence | cbn [List.length]; lia].
  - apply term_counts_nonempty; [exact Hne|].
    intros t Ht. apply oget_in_keys, Hterms. exists q. rewrite <- Etoks. auto.
  - pose proof (term_counts_entries (vocab m) toks Hdoc) as Hent.
    apply Forall_impl with (2 := Hent). intros e (Hk & Hpos & Hb).
    split; [|split; assumption].
    rewrite Hnum in Hk. apply in_seq in Hk. unfold osize in *. lia.
  - intros i Hi. unfold m. rewrite idf_entries. fold m.
    unfold osize in Hi.
    destruct (nth_error (vocab m) i) as [e|] eqn:He;
      [|apply nth_error_None in He; lia].
    assert (Hnth : nth i (map (fun e => (Math_log (idf_argument products (fst e)) + 1)%float)
                       (vocab m)) nan
                   = (Math_log (idf_argument products (fst e)) + 1)%float).
    { apply nth_error_nth. rewrite nth_error_map, He. reflexivity. }
    rewrite Hnth.
    assert (Hin : In (fst e) (okeys (vocab m))).
    { apply in_map. apply nth_error_In with (n := i). exact He. }
    unfold log_in_range in Hlog. rewrite forallb_forall in Hlog.
    specialize (Hlog _ Hin). cbv zeta in Hlog. apply andb_prop in Hlog.
    apply idf_weight; apply Hlog.
Qed.
End UnitNorm.

(** The vector of p2 in the example catalog. *)
Lemma stored_vectors_unit_norm_witness :
  exists v,
    oget "p2"%string (vectors (@buildTFIDF Example.rt Example.catalog)) = Some v
    /\ Forall (fun x => Number_isFinite x = true) v
    /\ (Rabs (euclidean_norm v - 1) <= / 1000000000)%R.
Proof.
  destruct (@stored_vectors_unit_norm Example.rt Example.catalog
              {| product_id := "p2"; title := "aa aa bb";
                 categories := ["shoes"%string]; price := 10 |})
    as (q & v & Hq & Hv & _ & _ & Hnorm).
  { right. right. left. reflexivity. }
  exists v. split; [exact Hv|].
  vm_compute in Hq. injection Hq as <-.
  apply Hnorm.
  - vm_compute. discriminate.
  - vm_compute. reflexivity.
  - apply Z.leb_le. vm_compute. reflexivity.
  - apply Z.leb_le. vm_compute. reflexivity.
Defined.

Set Implicit Arguments.
